(** * Harmonic inference: pieces, reduction, alignment and evaluation

    A shallow embedding of the parts of [harmonic_inference] that align
    notes, chords and keys into a [ScorePiece]
    ([harmonic_inference/data/piece.py]), convert forced score positions
    into note indexes ([harmonic_inference/utils/forces.py]) and reconcile
    an estimated harmonic state with the ground truth
    ([harmonic_inference/utils/eval_utils.py]).

    Python lists and numpy arrays are lists, integers are [Z], fractions
    are [Q], exceptions are the [Raise] branch of [result]. *)

From Stdlib Require Import ZArith QArith Qround Bool List String Lia ZifyBool Sorted Lqa.
From Stdlib Require Import DecimalString.
From stdpp Require Import base list gmap strings pretty.
From Equations Require Import Equations.
From Equations.Prop Require Import Logic.

Local Open Scope Z_scope.

(** ** Python runtime: exceptions, indexing, slices *)

Module Py.

Inductive exn : Type :=
| AssertionError
| IndexError
| ValueError
| TypeError
| AttributeError
| KeyError
| ZeroDivisionError.

Inductive result (A : Type) : Type :=
| Ok (a : A)
| Raise (e : exn).
Arguments Ok {A} a.
Arguments Raise {A} e.

#[global] Instance result_ret : MRet result := fun A a => Ok a.
#[global] Instance result_bind : MBind result :=
  fun A B f m => match m with Ok a => f a | Raise e => Raise e end.

(** [seq[i]]: a negative index counts from the end, an index outside the
    sequence raises [IndexError]. *)
Definition getitem {A} (l : list A) (i : Z) : result A :=
  let n := Z.of_nat (length l) in
  let j := if i <? 0 then i + n else i in
  if j <? 0 then Raise IndexError
  else match l !! Z.to_nat j with
       | Some x => Ok x
       | None => Raise IndexError
       end.

(** One bound of a slice, as [slice.indices] normalises it for step 1. *)
Definition clamp_index (len : nat) (i : Z) : nat :=
  let n := Z.of_nat len in
  if i <? 0 then Z.to_nat (Z.max (i + n) 0) else Z.to_nat (Z.min i n).

Definition slice_bounds (len : nat) (lo hi : option Z) : nat * nat :=
  (from_option (clamp_index len) 0%nat lo,
   from_option (clamp_index len) len hi).

(** [seq[lo:hi]]; [None] is an omitted bound. *)
Definition slice {A} (l : list A) (lo hi : option Z) : list A :=
  let '(a, b) := slice_bounds (length l) lo hi in
  take (b - a) (drop a l).

(** [arr[lo:hi] = v] on a numpy array: the scalar is broadcast over the
    slice. *)
Definition assign_slice {A} (l : list A) (lo hi : option Z) (v : A) : list A :=
  let '(a, b) := slice_bounds (length l) lo hi in
  imap (fun k x => if (a <=? k)%nat && (k <? b)%nat then v else x) l.

(** [enumerate(seq)] *)
Definition enumerate {A} (l : list A) : list (nat * A) :=
  imap (fun i x => (i, x)) l.

(** The elements of [l] at the positions where [mask] is true. *)
Definition compress {A} (l : list A) (mask : list bool) : list A :=
  fst <$> filter (fun xm : A * bool => Is_true xm.2) (zip l mask).

(** [arr[mask]] for a boolean numpy mask: the mask must be as long as the
    array. *)
Definition bool_index {A} (l : list A) (mask : list bool) : result (list A) :=
  if bool_decide (length l = length mask)
  then Ok (compress l mask)
  else Raise IndexError.

(** [range(lo, hi)] *)
Definition range (lo hi : Z) : list Z :=
  (fun k : nat => lo + Z.of_nat k) <$> seq 0 (Z.to_nat (hi - lo)).

(** [arr[lo:hi] = rows] on a two-dimensional numpy array: the rows must be
    as many as the slice has, or a single row, which is broadcast. *)
Definition assign_rows {A} (arr : list A) (lo hi : Z) (rows : list A)
    : result (list A) :=
  let '(a, b) := slice_bounds (length arr) (Some lo) (Some hi) in
  if bool_decide (length rows = (b - a)%nat)
  then Ok (imap (fun k x =>
                   if (a <=? k)%nat && (k <? b)%nat
                   then default x (rows !! (k - a)%nat) else x) arr)
  else match rows with
       | [row] => Ok (imap (fun k x =>
                              if (a <=? k)%nat && (k <? b)%nat then row else x) arr)
       | _ => Raise ValueError
       end.

(** [arr[idx]] for an array of in-range integer positions. *)
Definition int_index {A} (l : list A) (idx : list nat) : list A :=
  omap (fun i => l !! i) idx.

End Py.
Import Py.

(** ** Score positions

    An onset or offset is the tuple [(mc, Fraction)]; Python compares
    tuples lexicographically. *)

Definition Position : Type := Z * Q.

Definition Qltb (x y : Q) : bool := negb (Qle_bool y x).

Definition pos_eqb (a b : Position) : bool :=
  (a.1 =? b.1) && Qeq_bool a.2 b.2.

Definition pos_ltb (a b : Position) : bool :=
  (a.1 <? b.1) || ((a.1 =? b.1) && Qltb a.2 b.2).

Definition pos_gtb (a b : Position) : bool := pos_ltb b a.

Definition pos_geb (a b : Position) : bool :=
  (b.1 <? a.1) || ((a.1 =? b.1) && Qle_bool b.2 a.2).

(** ** Data types named by the sources *)

Inductive PitchType : Type := TPC | MIDI.

Inductive KeyMode : Type := MAJOR | MINOR.

(** The members of [ChordType] that [forces.py] names. *)
Inductive ChordType : Type :=
| CT_MAJOR | CT_MINOR | CT_DIMINISHED | CT_AUGMENTED
| CT_MAJ_MAJ7 | CT_MAJ_MIN7 | CT_MIN_MAJ7 | CT_MIN_MIN7
| CT_DIM7 | CT_HALF_DIM7 | CT_AUG_MIN7 | CT_AUG_MAJ7.

#[global] Instance PitchType_eq_dec : EqDecision PitchType.
Proof. solve_decision. Defined.
#[global] Instance KeyMode_eq_dec : EqDecision KeyMode.
Proof. solve_decision. Defined.
#[global] Instance ChordType_eq_dec : EqDecision ChordType.
Proof. solve_decision. Defined.

(** A note, with the fields the modelled functions read. *)
Record Note : Type := mkNote {
  note_pitch_class : Z;
  note_octave : Z;
  note_midi_number : Z;
  note_onset : Position;
  note_offset : Position;
  note_duration : Q;
  note_mc_onset : Q;
}.

(** A chord, with the fields of the data model. *)
Record Chord : Type := mkChord {
  root : Z;
  bass : Z;
  chord_type : ChordType;
  inversion : Z;
  onset : Position;
  offset : Position;
  duration : Q;
  key_tonic : Z;
  key_mode : KeyMode;
  pitch_type : PitchType;
  chord_pitches : list Z;
}.

(** ** Reduction mask ([piece.py], [get_reduction_mask]) *)

Section ReductionMask.

(** [T] is [Chord] or [Key], [K] the keyword arguments handed on to
    [is_repeated], [no_kwargs] the empty dictionary. *)
Context {T K : Type}.
Variable is_repeated : K -> T -> T -> bool.
Variable no_kwargs : K.

(** One turn of the loop: [if next_obj.is_repeated(prev_obj, **kwargs):
    mask[prev_index + 1] = False]. *)
Definition mask_step (kwargs : K) (mask : list bool)
    (it : nat * (T * T)) : list bool :=
  let '(prev_index, (prev_obj, next_obj)) := it in
  if is_repeated kwargs next_obj prev_obj
  then <[S prev_index := false]> mask
  else mask.

Definition get_reduction_mask (inputs : list T) (kwargs : option K) : list bool :=
  let kwargs := default no_kwargs kwargs in
  let mask := replicate (length inputs) true in
  fold_left (mask_step kwargs)
    (enumerate (zip (slice inputs None (Some (-1))) (slice inputs (Some 1) None)))
    mask.

(** The mask in closed form: every element is compared with its
    original left neighbour. *)
Fixpoint mask_after (kwargs : K) (prev : T) (rest : list T) : list bool :=
  match rest with
  | [] => []
  | next :: rest' =>
      negb (is_repeated kwargs next prev) :: mask_after kwargs next rest'
  end.

Definition mask_closed (kwargs : K) (inputs : list T) : list bool :=
  match inputs with
  | [] => []
  | x :: rest => true :: mask_after kwargs x rest
  end.

End ReductionMask.

(** ** Repeated chords and their merging *)

(** Modelled from the spec: [Chord.is_repeated] lives in [chord.py], which
    is not among the sources. "Two adjacent chords are "repeated"
    (mergeable) if they share root, type, inversion (configurable), and
    are contiguous". [self] is the later chord, [other] the earlier one,
    as in [next_obj.is_repeated(prev_obj, use_inversion=...)]. *)
Definition Chord_is_repeated (use_inversion : bool) (self other : Chord) : bool :=
  (root self =? root other)
  && bool_decide (chord_type self = chord_type other)
  && (if use_inversion then inversion self =? inversion other else true)
  && pos_eqb (offset other) (onset self).

Section ChordMerge.

(** How merging changes the pitch set is not said by the spec; it is a
    parameter of the model. *)
Variable merge_pitches : list Z -> list Z -> list Z.

(** Modelled from the spec: [Chord.merge_with] lives in [chord.py], which
    is not among the sources. "merging extends the earlier chord's
    offset/duration to subsume the later one"; it "mutates the surviving
    chord's offset/duration/pitch-set only"; merging A (onset=0,
    offset=2) with B (onset=2, offset=5) gives onset=0, offset=5,
    duration=5 and A's root, type and inversion. *)
Definition merge_with (self next_chord : Chord) : Chord :=
  {| root := root self;
     bass := bass self;
     chord_type := chord_type self;
     inversion := inversion self;
     onset := onset self;
     offset := offset next_chord;
     duration := (duration self + duration next_chord)%Q;
     key_tonic := key_tonic self;
     key_mode := key_mode self;
     pitch_type := pitch_type self;
     chord_pitches := merge_pitches (chord_pitches self) (chord_pitches next_chord) |}.

(** One turn of the loop of [get_score_piece_from_data_frames] that
    removes repeated chords: [chords.append(chord)] when the mask keeps
    the chord, [chords[-1].merge_with(chord)] otherwise. *)
Definition merge_step (acc : result (list Chord)) (cm : Chord * bool)
    : result (list Chord) :=
  chords ← acc;
  let '(chord, mask) := cm in
  if mask then Ok (chords ++ [chord])
  else
    last_chord ← getitem chords (-1);
    Ok (<[pred (length chords) := merge_with last_chord chord]> chords).

(** Lines 639-647 of [piece.py]: the mask is computed on the original
    list, then applied with merging. *)
Definition reduce_chords (use_inversions : bool) (chords_list : list Chord)
    : result (list Chord) :=
  let non_repeated_mask :=
    get_reduction_mask Chord_is_repeated true chords_list (Some use_inversions) in
  fold_left merge_step (zip chords_list non_repeated_mask) (Ok []).

(** The merged runs in closed form: [cur] is the surviving chord of the
    current run, [prev] the original chord last read. *)
Fixpoint merge_runs (use_inversions : bool) (cur prev : Chord)
    (rest : list Chord) : list Chord :=
  match rest with
  | [] => [cur]
  | next :: rest' =>
      if Chord_is_repeated use_inversions next prev
      then merge_runs use_inversions (merge_with cur next) next rest'
      else cur :: merge_runs use_inversions next next rest'
  end.

Definition reduce_closed (use_inversions : bool) (chords_list : list Chord)
    : list Chord :=
  match chords_list with
  | [] => []
  | c :: rest => merge_runs use_inversions c c rest
  end.

End ChordMerge.

(** No two neighbours of the list satisfy the repeat predicate. *)
Fixpoint no_adjacent_repeat (use_inversions : bool) (l : list Chord) : bool :=
  match l with
  | [] => true
  | a :: rest =>
      match rest with
      | [] => true
      | b :: _ => negb (Chord_is_repeated use_inversions b a)
                  && no_adjacent_repeat use_inversions rest
      end
  end.

(** ** Sample data *)

Module Samples.

(** A chord of the given label and span in measure 0, in C major. *)
Definition chord_at (r : Z) (t : ChordType) (inv : Z) (on off : Q) : Chord :=
  {| root := r; bass := r; chord_type := t; inversion := inv;
     onset := (0, on); offset := (0, off); duration := (off - on)%Q;
     key_tonic := 15; key_mode := MAJOR; pitch_type := TPC;
     chord_pitches := [] |}.

(** The tonic triad twice in a row, the dominant, the tonic again. *)
Definition cI_a : Chord := chord_at 15 CT_MAJOR 0 0 2.
Definition cI_b : Chord := chord_at 15 CT_MAJOR 0 2 5.
Definition cV : Chord := chord_at 16 CT_MAJOR 0 5 6.
Definition cI_c : Chord := chord_at 15 CT_MAJOR 0 6 8.

Definition chords_I_I_V_I : list Chord := [cI_a; cI_b; cV; cI_c].

Definition union_pitches (a b : list Z) : list Z := a ++ b.

End Samples.

(** ** Keys *)

Record Key : Type := mkKey {
  tonic : Z;
  mode : KeyMode;
  tonic_type : PitchType;
  relative_tonic : Z;
  relative_mode : KeyMode;
}.

(** A cell of a pandas frame. *)
Inductive Cell : Type :=
| CStr (s : string)
| CBool (b : bool)
| CNaN.

#[global] Instance Cell_eq_dec : EqDecision Cell.
Proof. solve_decision. Defined.

(** [fillna("-1")] on one cell. *)
Definition fillna (c : Cell) : Cell :=
  match c with
  | CNaN => CStr "-1"
  | _ => c
  end.

(** Elementwise [ne]: a missing value differs from everything. *)
Definition cell_ne (a b : Cell) : bool :=
  match a, b with
  | CNaN, _ | _, CNaN => true
  | _, _ => negb (bool_decide (a = b))
  end.

(** The columns that [get_score_piece_from_data_frames] reads to find key
    changes, in the order of the source. *)
Record KeyCols : Type := mkKeyCols {
  globalkey : Cell;
  globalkey_is_minor : Cell;
  localkey_is_minor : Cell;
  localkey : Cell;
  relativeroot : Cell;
}.

Definition fillna_row (r : KeyCols) : KeyCols :=
  {| globalkey := fillna (globalkey r);
     globalkey_is_minor := fillna (globalkey_is_minor r);
     localkey_is_minor := fillna (localkey_is_minor r);
     localkey := fillna (localkey r);
     relativeroot := fillna (relativeroot r) |}.

(** ** Aligned pieces ([piece.py]) *)

(** [get_range_start]: the first note whose onset is at or after the
    range onset or whose offset is after it, [len(notes)] when there is
    none. *)
Definition in_range_from (onset : Position) (note : Note) : Prop :=
  Is_true (pos_geb (note_onset note) onset || pos_gtb (note_offset note) onset).

Definition get_range_start (onset : Position) (notes : list Note) : nat :=
  match list_find (in_range_from onset) notes with
  | Some (note_id, _) => note_id
  | None => length notes
  end.

(** The note cursor of one chord:
    [while note_index + 1 < len(notes) and notes[note_index].onset < chord.onset:
       note_index += 1]. *)
Equations? advance_cursor (notes : list Note) (chord_onset : Position)
    (note_index : nat) : nat by wf (length notes - note_index)%nat lt :=
advance_cursor notes chord_onset note_index
  with inspect (note_index + 1 <? length notes)%nat := {
  | exist _ true Hlt with notes !! note_index := {
      | Some note with pos_ltb (note_onset note) chord_onset := {
          | true => advance_cursor notes chord_onset (note_index + 1)
          | false => note_index };
      | None => note_index };
  | exist _ false _ => note_index }.
Proof. apply Nat.ltb_lt in Hlt. lia. Qed.

(** The loop over the chords: the cursor is shared by all turns and
    [chord_changes[chord_index] = note_index] fills the array from left to
    right. *)
Fixpoint chord_changes_from (notes : list Note) (note_index : nat)
    (chords : list Chord) : list nat :=
  match chords with
  | [] => []
  | chord :: rest =>
      let note_index := advance_cursor notes (onset chord) note_index in
      note_index :: chord_changes_from notes note_index rest
  end.

(** [(get_range_start(chord.onset, notes), end) for chord, end in
    zip(chords, list(chord_changes[1:]) + [len(notes)])] *)
Definition chord_ranges_of (notes : list Note) (chords : list Chord)
    (chord_changes : list nat) : list (nat * nat) :=
  (fun ce : Chord * nat => (get_range_start (onset ce.1) notes, ce.2))
    <$> zip chords (drop 1 chord_changes ++ [length notes]).

Record ScorePiece {Measures : Type} : Type := mkScorePiece {
  measures_df : Measures;
  notes : list Note;
  chords : list Chord;
  keys : list Key;
  chord_changes : list Z;
  chord_ranges : list (Z * Z);
  key_changes : list Z;
  name : option string;
}.
Arguments ScorePiece : clear implicits.

Section ScorePieceFromDataFrames.

Context {NoteRow ChordRow Measures : Type}.

(** The constructors of notes, chords and keys from table rows, and the
    repeat predicate of keys, are not among the sources; [None] is the
    absent value of a bad row. *)
Variable Note_from_series : Measures -> NoteRow -> option Note.
Variable Chord_from_series :
  Measures -> (ChordType -> ChordType) -> bool -> bool -> ChordRow -> option Chord.
Variable Key_from_series : ChordRow -> option Key.
Variable Key_is_repeated : bool -> Key -> Key -> bool.
Variable merge_pitches : list Z -> list Z -> list Z.

(** The key columns of a chord row. *)
Variable key_columns : ChordRow -> KeyCols.

(** [[obj, id] for id, obj in enumerate(df.apply(from_series, ...))
    if obj is not None] *)
Definition valid_rows {R A} (from_series : R -> option A) (df : list R)
    : list (A * nat) :=
  omap (fun ir : nat * R => a ← from_series ir.2; Some (a, ir.1)) (enumerate df).

(** [np.hsplit(..., 2)] followed by [np.squeeze]. On an empty frame
    [apply] hands back the frame, so the comprehension collects column
    labels, whose first use as notes or chords raises [AttributeError];
    a single valid row is squeezed to a 0-d array, whose [len] raises
    [TypeError]. *)
Definition hsplit_squeeze {R A} (df : list R) (rows : list (A * nat))
    : result (list A * list nat) :=
  match df with
  | [] => Raise AttributeError
  | _ =>
      if bool_decide (length rows = 1%nat) then Raise TypeError
      else Ok (fst <$> rows, snd <$> rows)
  end.

(** [key_cols.ne(key_cols.shift()).fillna(True).any(axis=1)]: row [i] is
    compared with row [i-1], the first row with the missing values that
    [shift] puts in front. *)
Definition row_changes (prev cur : KeyCols) : bool :=
  cell_ne (globalkey cur) (globalkey prev)
  || cell_ne (globalkey_is_minor cur) (globalkey_is_minor prev)
  || cell_ne (localkey_is_minor cur) (localkey_is_minor prev)
  || cell_ne (localkey cur) (localkey prev)
  || cell_ne (relativeroot cur) (relativeroot prev).

Fixpoint changes_from (prev : KeyCols) (key_cols : list KeyCols) : list bool :=
  match key_cols with
  | [] => []
  | cur :: rest => row_changes prev cur :: changes_from cur rest
  end.

Definition key_col_changes (key_cols : list KeyCols) : list bool :=
  changes_from (mkKeyCols CNaN CNaN CNaN CNaN CNaN) key_cols.

(** [np.arange(len(changes))[changes.any(axis=1)]] *)
Definition true_positions (changes : list bool) : list nat :=
  compress (seq 0 (length changes)) changes.

Definition get_score_piece_from_data_frames
    (notes_df : list NoteRow) (chords_df : list ChordRow) (measures_df : Measures)
    (chord_reduction : ChordType -> ChordType)
    (use_inversions use_relative : bool) (name : option string)
    : result (ScorePiece Measures) :=
  '(chords_list, chord_ilocs) ←
    hsplit_squeeze chords_df
      (valid_rows (Chord_from_series measures_df chord_reduction
                     use_inversions use_relative) chords_df);
  (* Remove accidentally repeated chords *)
  let non_repeated_mask :=
    get_reduction_mask Chord_is_repeated true chords_list (Some use_inversions) in
  chords ← fold_left (merge_step merge_pitches)
             (zip chords_list non_repeated_mask) (Ok []);
  chord_ilocs ← bool_index chord_ilocs non_repeated_mask;
  '(notes, note_ilocs) ←
    hsplit_squeeze notes_df (valid_rows (Note_from_series measures_df) notes_df);
  (* The index of the notes where there is a chord change *)
  let chord_changes := chord_changes_from notes 0 chords in
  (* The note input ranges for each chord *)
  let chord_ranges := chord_ranges_of notes chords chord_changes in
  let key_cols :=
    (fun row => fillna_row (key_columns row)) <$> int_index chords_df chord_ilocs in
  let changes := key_col_changes key_cols in
  let key_changes := true_positions changes in
  keys_list ←
    match key_changes with
    | [] => Raise AttributeError
    | _ => Ok (omap Key_from_series
                 (int_index chords_df (int_index chord_ilocs key_changes)))
    end;
  (* Remove accidentally repeated keys *)
  let non_repeated_mask :=
    get_reduction_mask Key_is_repeated true keys_list (Some use_relative) in
  keys ← bool_index keys_list non_repeated_mask;
  key_changes ← bool_index key_changes non_repeated_mask;
  Ok {| measures_df := measures_df;
        notes := notes;
        chords := chords;
        keys := keys;
        chord_changes := Z.of_nat <$> chord_changes;
        chord_ranges :=
          (fun r : nat * nat => (Z.of_nat r.1, Z.of_nat r.2)) <$> chord_ranges;
        key_changes := Z.of_nat <$> key_changes;
        name := name |}.

End ScorePieceFromDataFrames.

(** ** Reading the alignment arrays *)

(** The note starts before the position [o]. *)
Definition earlier (o : Position) (note : Note) : Prop :=
  Is_true (pos_ltb (note_onset note) o).

(** [j] is the index of the first note whose onset is not earlier than
    [o]. *)
Definition first_not_earlier (notes : list Note) (o : Position) (j : nat) : Prop :=
  (exists note, notes !! j = Some note /\ ~ earlier o note)
  /\ forall k note, (k < j)%nat -> notes !! k = Some note -> earlier o note.

(** Where the cursor stops when it starts at [c]: it has only passed
    notes that start earlier than [o], and it rests on a note that does
    not, unless it has reached the last note. *)
Definition cursor_stop (notes : list Note) (c : nat) (o : Position) (j : nat) : Prop :=
  (c <= j)%nat
  /\ (forall k note, (c <= k < j)%nat -> notes !! k = Some note -> earlier o note)
  /\ ((j + 1 < length notes)%nat ->
      exists note, notes !! j = Some note /\ ~ earlier o note).

(** [r] is the index of the first note that sounds at or after [o], or
    the number of notes when there is none. *)
Definition first_in_range (notes : list Note) (o : Position) (r : nat) : Prop :=
  (forall k note, (k < r)%nat -> notes !! k = Some note -> ~ in_range_from o note)
  /\ ((exists note, notes !! r = Some note /\ in_range_from o note)
      \/ r = length notes).

(** The chords are in onset order (equal onsets allowed). *)
Definition onset_ordered (chords : list Chord) : Prop :=
  forall i j a b, (i <= j)%nat -> chords !! i = Some a -> chords !! j = Some b ->
    pos_ltb (onset b) (onset a) = false.

(** The cursor position before chord [i]. *)
Definition cursor_before (chord_changes : list Z) (i : nat) : Z :=
  match i with
  | O => 0
  | S i' => default 0 (chord_changes !! i')
  end.

Module PieceSamples.

Definition note_at (midi : Z) (on off : Q) : Note :=
  {| note_pitch_class := midi mod 12; note_octave := midi / 12;
     note_midi_number := midi;
     note_onset := (0, on); note_offset := (0, off);
     note_duration := (off - on)%Q;
     note_mc_onset := on |}.

Definition c_major_cols : KeyCols :=
  {| globalkey := CStr "C"; globalkey_is_minor := CBool false;
     localkey_is_minor := CBool false; localkey := CStr "I";
     relativeroot := CNaN |}.

Definition c_major : Key :=
  {| tonic := 15; mode := MAJOR; tonic_type := TPC;
     relative_tonic := 15; relative_mode := MAJOR |}.

(** Rows that carry the parsed object. *)
Definition row_note (_ : unit) (r : Note) : option Note := Some r.
Definition row_chord (_ : unit) (_ : ChordType -> ChordType) (_ _ : bool)
    (r : Chord * KeyCols) : option Chord := Some r.1.
Definition row_key (r : Chord * KeyCols) : option Key := Some c_major.
Definition same_key (use_relative : bool) (a b : Key) : bool :=
  if use_relative
  then (relative_tonic a =? relative_tonic b)
       && bool_decide (relative_mode a = relative_mode b)
  else (tonic a =? tonic b) && bool_decide (mode a = mode b).

Definition build (notes_df : list Note) (chords_df : list (Chord * KeyCols))
    : result (ScorePiece unit) :=
  get_score_piece_from_data_frames row_note row_chord row_key same_key
    Samples.union_pitches snd notes_df chords_df tt id true true None.

Definition in_c (c : Chord) : Chord * KeyCols := (c, c_major_cols).

(** Two notes, the second held to the end; the harmony changes at 2,
    while the second note sounds. *)
Definition held_notes : list Note := [note_at 60 0 1; note_at 64 1 4].
Definition held_chords : list (Chord * KeyCols) :=
  [in_c (Samples.chord_at 15 CT_MAJOR 0 0 2);
   in_c (Samples.chord_at 16 CT_MAJOR 0 2 4)].

(** Two notes at 0 and 4; the harmony changes at 2 and at 4. *)
Definition sparse_notes : list Note := [note_at 60 0 4; note_at 64 4 8].
Definition sparse_chords : list (Chord * KeyCols) :=
  [in_c (Samples.chord_at 15 CT_MAJOR 0 0 2);
   in_c (Samples.chord_at 16 CT_MAJOR 0 2 4);
   in_c (Samples.chord_at 15 CT_MAJOR 0 4 8)].

(** The piece that [build held_notes held_chords] returns. *)
Definition held_piece : ScorePiece unit :=
  {| measures_df := tt;
     notes := held_notes;
     chords := fst <$> held_chords;
     keys := [c_major];
     chord_changes := [0; 1];
     chord_ranges := [(0, 1); (1, 2)];
     key_changes := [0];
     name := None |}.

End PieceSamples.

(** Order and range of an index array. *)
Definition nondecreasing (l : list Z) : Prop :=
  forall i j x y, (i < j)%nat -> l !! i = Some x -> l !! j = Some y -> x <= y.

Definition strictly_increasing (l : list Z) : Prop :=
  forall i j x y, (i < j)%nat -> l !! i = Some x -> l !! j = Some y -> x < y.

Definition all_within (l : list Z) (n : nat) : Prop :=
  forall i x, l !! i = Some x -> 0 <= x < Z.of_nat n.

(** ** [bisect.bisect_left] *)

Section Bisect.

Context {A : Type}.
(** [a[mid] < x] *)
Variable ltb : A -> A -> bool.

(** [while lo < hi: mid = (lo + hi) // 2; if a[mid] < x: lo = mid + 1
    else: hi = mid] and [return lo]. *)
Equations? bisect_loop (a : list A) (x : A) (lo hi : nat) : result nat
    by wf (hi - lo)%nat lt :=
bisect_loop a x lo hi with inspect (lo <? hi)%nat := {
  | exist _ true Hlt with a !! ((lo + hi) / 2)%nat := {
      | Some a_mid with ltb a_mid x := {
          | true => bisect_loop a x ((lo + hi) / 2 + 1)%nat hi
          | false => bisect_loop a x lo ((lo + hi) / 2)%nat };
      | None => Raise IndexError };
  | exist _ false _ => Ok lo }.
Proof.
  all: apply Nat.ltb_lt in Hlt.
  all: change (Nat.divmod (lo + hi) 1 0 1).1 with ((lo + hi) / 2)%nat.
  all: pose proof (Nat.div_mod_eq (lo + hi) 2);
       pose proof (Nat.mod_upper_bound (lo + hi) 2 ltac:(lia)); lia.
Qed.

(** [bisect_left(a, x, lo=0, hi=None)] *)
Definition bisect_left (a : list A) (x : A) (lo : Z) (hi : option nat)
    : result nat :=
  if lo <? 0 then Raise ValueError
  else bisect_loop a x (Z.to_nat lo) (default (length a) hi).

End Bisect.

(** ** Chords within a range of inputs ([Piece.get_chords_within_range]) *)

Definition get_chords_within_range {Measures} (self : ScorePiece Measures)
    (start : Z) (stop : option Z) : result (list Chord) :=
  if negb (match stop with None => true | Some stop => stop >=? start end)
  then Raise AssertionError
  else
    let chords := chords self in
    let chord_change_indices := chord_changes self in
    start_index ← bisect_left Z.ltb chord_change_indices start 0 None;
    let at_start : result bool :=
      if bool_decide (start_index = length chord_change_indices) then Ok true
      else c ← getitem chord_change_indices (Z.of_nat start_index);
           Ok (negb (c =? start)) in
    inexact ← at_start;
    (* Subtract 1 to get end of partial chord if exact match is not found *)
    let start_index : Z :=
      if (inexact : bool) then Z.of_nat start_index - 1 else Z.of_nat start_index in
    match stop with
    | None => Ok (slice chords (Some start_index) None)
    | Some stop =>
        end_index ← bisect_left Z.ltb chord_change_indices stop
                      (Z.max start_index 0) None;
        Ok (slice chords (Some start_index) (Some (Z.of_nat end_index)))
    end.

(** ** Forced positions ([forces.py]) *)

(** A force is [(mc, mn_onset)] or [(mc, mn_onset, id)]. *)
Record Force {I : Type} : Type := mkForce {
  force_position : Position;
  force_id : option I;
}.
Arguments Force : clear implicits.

(** One turn of the loop of [convert_score_positions_to_note_indexes]. *)
Definition convert_force {I} (note_positions : list Position) (force : Force I)
    : result (nat * option I) :=
  index ← bisect_left pos_ltb note_positions (force_position force) 0 None;
  closest ← getitem note_positions (Z.of_nat index);
  if negb (pos_eqb closest (force_position force))
  then Raise ValueError
  else Ok (index, force_id force).

Definition convert_score_positions_to_note_indexes {I Measures}
    (forces : list (Force I)) (piece : ScorePiece Measures)
    : result (list (nat * option I)) :=
  let note_positions := note_onset <$> notes piece in
  mapM (convert_force note_positions) forces.

(** The note positions are in the order [bisect] expects. *)
Definition positions_sorted (l : list Position) : Prop :=
  forall i j a b, (i <= j)%nat -> l !! i = Some a -> l !! j = Some b ->
    pos_ltb b a = false.

(** The order of positions as propositions. *)
Definition pos_lt (a b : Position) : Prop :=
  a.1 < b.1 \/ (a.1 = b.1 /\ (a.2 < b.2)%Q).

Definition pos_eq (a b : Position) : Prop :=
  a.1 = b.1 /\ (a.2 == b.2)%Q.

Module ForceSamples.

(** A forced position after the onset of the last note, one between the
    two onsets and one on the second onset. *)
Definition force_late : Force Z :=
  {| force_position := (0, 2%Q); force_id := None |}.
Definition force_between : Force Z :=
  {| force_position := (0, (1 # 2)%Q); force_id := None |}.
Definition force_on_second : Force Z :=
  {| force_position := (0, 1%Q); force_id := Some 7 |}.

End ForceSamples.

(** ** Windowed note input of a chord ([piece.py], [get_chord_note_input]) *)

(** Tuples [(octave, midi_note_number)] compare lexicographically. *)
Definition pitch_ltb (a b : Z * Z) : bool :=
  (a.1 <? b.1) || ((a.1 =? b.1) && (a.2 <? b.2)).

(** [min(seq)] and [max(seq)]: the first smallest and the first largest
    element, [ValueError] on an empty sequence. *)
Definition py_min (l : list (Z * Z)) : result (Z * Z) :=
  match l with
  | [] => Raise ValueError
  | x :: rest => Ok (fold_left (fun m y => if pitch_ltb y m then y else m) rest x)
  end.

Definition py_max (l : list (Z * Z)) : result (Z * Z) :=
  match l with
  | [] => Raise ValueError
  | x :: rest => Ok (fold_left (fun m y => if pitch_ltb m y then y else m) rest x)
  end.

(** [np.sum] of fractions. *)
Definition np_sum (l : list Q) : Q := fold_left Qplus l 0%Q.

Section ChordNoteInput.

Context {Measures Vec : Type}.

(** The keyword arguments of [Note.to_vec]. *)
Record ToVecArgs : Type := mkToVecArgs {
  arg_chord_onset : Position;
  arg_chord_offset : Position;
  arg_chord_duration : Q;
  arg_measures_df : Measures;
  arg_min_pitch : Z * Z;
  arg_max_pitch : Z * Z;
  arg_note_onset : option Q;
  arg_dur_from_prev : option Q;
  arg_dur_to_next : Q;
}.

(** [Note.to_vec] is not among the sources; [zero_row] is a row of
    [np.zeros] of the width of its vectors. *)
Variable to_vec : Note -> ToVecArgs -> Vec.
Variable zero_row : Vec.

(** The onset of note [note_index] relative to the note of the chord
    change, from the duration cache. *)
Definition relative_note_onset (duration_cache : list Q)
    (change_index note_index : Z) : Q :=
  if note_index <? change_index
  then (- np_sum (slice duration_cache (Some note_index) (Some change_index)))%Q
  else if note_index >? change_index
  then np_sum (slice duration_cache (Some change_index) (Some note_index))
  else 0%Q.

(** [chord is None or chord.onset == chord_onset] *)
Definition aligns (chord : option Chord) (proj : Chord -> Position)
    (given : Position) : bool :=
  match chord with
  | None => true
  | Some c => pos_eqb (proj c) given
  end.

(** [chord_onset if chord_onset_aligns else chord.onset] *)
Definition timing (chord : option Chord) (proj : Chord -> Position)
    (given : Position) : Position :=
  match chord with
  | Some c => if aligns chord proj given then given else proj c
  | None => given
  end.

(** The call of [to_vec] on one note of the window. *)
Definition note_vector (measures_df : Measures)
    (chord_onset chord_offset : Position) (chord_duration : Q)
    (chord : option Chord) (min_pitch max_pitch : Z * Z)
    (t : Note * (option Q * (option Q * Q))) : Vec :=
  let '(note, (note_onset, (from_prev, to_next))) := t in
  to_vec note
    {| arg_chord_onset := timing chord onset chord_onset;
       arg_chord_offset := timing chord offset chord_offset;
       arg_chord_duration := chord_duration;
       arg_measures_df := measures_df;
       arg_min_pitch := min_pitch;
       arg_max_pitch := max_pitch;
       arg_note_onset := note_onset;
       arg_dur_from_prev := from_prev;
       arg_dur_to_next := to_next |}.

Definition get_chord_note_input (notes : list Note) (measures_df : Measures)
    (chord_onset chord_offset : Position) (chord_duration : Q)
    (change_index onset_index offset_index window : Z)
    (duration_cache : option (list Q)) (chord : option Chord)
    : result (list Vec) :=
  (* Chord aligns with duration cache *)
  let chord_onset_aligns := aligns chord onset chord_onset in
  (* Add window *)
  let window_onset_index := onset_index - window in
  let window_offset_index := offset_index + window in
  (* Shift duration_cache: [list(None)] raises *)
  dc ← match duration_cache with
       | None => Raise TypeError
       | Some dc => Ok dc
       end;
  let dur_from_prevs : list (option Q) := None :: (Some <$> dc) in
  let dur_to_nexts : list Q := dc in
  (* Get the notes within the window *)
  let first_note_index := Z.max window_onset_index 0 in
  let last_note_index := Z.min window_offset_index (Z.of_nat (length notes)) in
  let chord_notes := slice notes (Some first_note_index) (Some last_note_index) in
  (* Get all note vectors within the window *)
  let pitch_list :=
    (fun note => (note_octave note, note_midi_number note)) <$> chord_notes in
  min_pitch ← py_min pitch_list;
  max_pitch ← py_max pitch_list;
  let note_onsets : list (option Q) :=
    if negb chord_onset_aligns
    then replicate (length chord_notes) None
    else (fun note_index => Some (relative_note_onset dc change_index note_index))
           <$> range first_note_index last_note_index in
  let note_vectors :=
    note_vector measures_df chord_onset chord_offset chord_duration chord
      min_pitch max_pitch
      <$> zip chord_notes
            (zip note_onsets
               (zip (slice dur_from_prevs (Some first_note_index) (Some last_note_index))
                    (slice dur_to_nexts (Some first_note_index) (Some last_note_index)))) in
  (* [np.vstack] of no vector raises *)
  if bool_decide (note_vectors = []) then Raise ValueError else
  (* Place the note vectors within the final tensor and return *)
  if window_offset_index - window_onset_index <? 0 then Raise ValueError else
  let chord_input :=
    replicate (Z.to_nat (window_offset_index - window_onset_index)) zero_row in
  let start := 0 + (first_note_index - window_onset_index) in
  let end_ :=
    Z.of_nat (length chord_input) - (window_offset_index - last_note_index) in
  assign_rows chord_input start end_ note_vectors.

(** The row that belongs to note index [i] of the piece: the vector of
    note [i] when the piece has such a note, zeros otherwise. The pitch
    bounds are those of the notes of the clipped window
    [first_note_index, last_note_index). *)
Definition window_row (notes : list Note) (measures_df : Measures)
    (chord_onset chord_offset : Position) (chord_duration : Q)
    (change_index first_note_index last_note_index : Z)
    (dc : list Q) (chord : option Chord) (i : Z) : Vec :=
  let pitch_list :=
    (fun note => (note_octave note, note_midi_number note))
      <$> slice notes (Some first_note_index) (Some last_note_index) in
  match (if 0 <=? i then notes !! Z.to_nat i else None),
        py_min pitch_list, py_max pitch_list,
        (None :: (Some <$> dc)) !! Z.to_nat i, dc !! Z.to_nat i with
  | Some note, Ok min_pitch, Ok max_pitch, Some from_prev, Some to_next =>
      note_vector measures_df chord_onset chord_offset chord_duration chord
        min_pitch max_pitch
        (note,
         (if aligns chord onset chord_onset
          then Some (relative_note_onset dc change_index i) else None,
          (from_prev, to_next)))
  | _, _, _, _, _ => zero_row
  end.

End ChordNoteInput.

Module WindowSamples.

(** Ten notes, one per beat. *)
Definition ten_notes : list Note :=
  (fun k : Z => PieceSamples.note_at (60 + k) (inject_Z k) (inject_Z (k + 1)))
    <$> range 0 10.

Definition unit_cache : list Q := replicate 10 1%Q.

(** A feature vector that marks the note it comes from. *)
Definition marked_vec (note : Note) (_ : @ToVecArgs unit) : list Z :=
  [1; note_midi_number note].

Definition zeros : list Z := [0; 0].

(** The chord that occupies notes [3, 7). *)
Definition input (window : Z) : result (list (list Z)) :=
  get_chord_note_input marked_vec zeros ten_notes tt (0, 3%Q) (0, 7%Q) 4%Q
    3 3 7 window (Some unit_cache) None.

End WindowSamples.

(** ** Evaluation ([eval_utils.py]) *)

(** A value in a cell of a results frame. *)
Inductive PyVal : Type :=
| VInt (z : Z)
| VStr (s : string)
| VBool (b : bool)
| VFrac (q : Q)
| VChordType (t : ChordType)
| VMode (m : KeyMode).

(** The number a value stands for, if any: [True == 1] and
    [Fraction(1) == 1] in Python. *)
Definition num_of (v : PyVal) : option Q :=
  match v with
  | VInt z => Some (inject_Z z)
  | VBool b => Some (if b then 1%Q else 0%Q)
  | VFrac q => Some q
  | _ => None
  end.

(** [a == b] *)
Definition py_eqb (a b : PyVal) : bool :=
  match num_of a, num_of b with
  | Some x, Some y => Qeq_bool x y
  | None, None =>
      match a, b with
      | VStr s, VStr t => bool_decide (s = t)
      | VChordType s, VChordType t => bool_decide (s = t)
      | VMode s, VMode t => bool_decide (s = t)
      | _, _ => false
      end
  | _, _ => false
  end.

(** A results frame, as the list of dictionaries it is built from. *)
Definition Row : Type := gmap string PyVal.

(** The value of a row in a column (0 when the row has no such column). *)
Definition cell (name : string) (row : Row) : PyVal :=
  default (VInt 0) (row !! name).

(** [results_df[name]]: a missing column raises [KeyError]. *)
Definition column (results_df : list Row) (name : string) : result (list PyVal) :=
  mapM (fun row : Row =>
          match row !! name with
          | Some v => Ok v
          | None => Raise KeyError
          end) results_df.

(** The weights of [np.average] must be numbers. *)
Definition numbers (l : list PyVal) : result (list Q) :=
  mapM (fun v => match num_of v with
                 | Some q => Ok q
                 | None => Raise TypeError
                 end) l.

Definition Qsum (l : list Q) : Q := foldr Qplus 0%Q l.

(** [np.average(a, weights=w)] for a boolean [a]: the weights must not
    sum to zero. *)
Definition np_average (a : list bool) (weights : list Q) : result Q :=
  let scl := Qsum weights in
  if Qeq_bool scl 0 then Raise ZeroDivisionError
  else Ok (Qsum (zip_with (fun (m : bool) w => if m then w else 0%Q) a weights)
           / scl)%Q.

(** One turn of the loop over the features:
    [correct_mask &= results_df[f"gt_{feature}"] == results_df[f"est_{feature}"]]. *)
Definition feature_step (results_df : list Row)
    (correct_mask : result (list bool)) (feature : string) : result (list bool) :=
  mask ← correct_mask;
  gt ← column results_df ("gt_" +:+ feature);
  est ← column results_df ("est_" +:+ feature);
  Ok (zip_with andb mask (zip_with py_eqb gt est)).

Definition empty_filter_warning : string :=
  "Filter contains nothing to evaluate. Returning 0.".

(** [evaluate_features]: the value returned and the warnings logged. *)
Definition evaluate_features (results_df : list Row) (features : list string)
    (filter : option (list bool)) : result (Q * list string) :=
  results_df ← match filter with
               | Some filter => bool_index results_df filter
               | None => Ok results_df
               end;
  if bool_decide (length results_df = 0%nat)
  then Ok (0%Q, [empty_filter_warning])
  else
    correct_mask ← fold_left (feature_step results_df) features
                     (Ok (replicate (length results_df) true));
    durations ← column results_df "duration";
    weights ← numbers durations;
    average ← np_average correct_mask weights;
    Ok (average, []).

(** Reading a row: every requested feature has equal ground-truth and
    estimated values. *)
Definition row_matches (features : list string) (row : Row) : Prop :=
  forall feature, feature ∈ features ->
    exists g e, row !! ("gt_" +:+ feature) = Some g
                /\ row !! ("est_" +:+ feature) = Some e
                /\ py_eqb g e = true.

(** Some requested feature differs. *)
Definition row_mismatches (features : list string) (row : Row) : Prop :=
  exists feature g e, feature ∈ features
    /\ row !! ("gt_" +:+ feature) = Some g
    /\ row !! ("est_" +:+ feature) = Some e
    /\ py_eqb g e = false.

(** The row has a numeric duration and both columns of every requested
    feature. *)
Definition row_complete (features : list string) (row : Row) : Prop :=
  (exists d q, row !! "duration" = Some d /\ num_of d = Some q)
  /\ forall feature, feature ∈ features ->
       is_Some (row !! ("gt_" +:+ feature))
       /\ is_Some (row !! ("est_" +:+ feature)).

(** The duration of a row as a number (0 when it has none). *)
Definition row_weight (row : Row) : Q :=
  default 0%Q (row !! "duration" ≫= num_of).

(** Whether every requested feature of the row matches. *)
Definition row_correct (features : list string) (row : Row) : bool :=
  forallb (fun feature =>
             match row !! ("gt_" +:+ feature), row !! ("est_" +:+ feature) with
             | Some g, Some e => py_eqb g e
             | _, _ => false
             end) features.

(** The duration-weighted fraction of correct rows. *)
Definition weighted_accuracy (features : list string) (rows : list Row) : Q :=
  (Qsum ((fun row => if row_correct features row then row_weight row else 0%Q)
           <$> rows)
   / Qsum (row_weight <$> rows))%Q.

Module EvalSamples.

(** A row of a results frame with one feature. *)
Definition chord_row (gt est : string) (d : Q) : Row :=
  <["gt_chord" := VStr gt]>
    (<["est_chord" := VStr est]> (<["duration" := VFrac d]> ∅)).

Definition right_row : Row := chord_row "C_M" "C_M" 1.
Definition wrong_row : Row := chord_row "G_M" "C_M" 3.
Definition results : list Row := [right_row; wrong_row].

End EvalSamples.

(** ** Per-note results ([eval_utils.py], [get_results_df]) *)

(** The entries at one note of the seven parallel chord arrays
    ([labels], [roots], [types], [triads], [inversions], [pitches],
    [is_default]), which the source always assigns over the same slice,
    and of the three key arrays. *)
Record ChordCells : Type := mkChordCells {
  cc_label : Z;
  cc_root : Z;
  cc_type : PyVal;
  cc_triad : PyVal;
  cc_inversion : Z;
  cc_pitches : PyVal;
  cc_is_default : bool;
}.

Record KeyCells : Type := mkKeyCells {
  kc_label : Z;
  kc_tonic : Z;
  kc_mode : PyVal;
}.

(** The entries that [np.zeros] leaves where nothing is assigned. *)
Definition zero_chord_cells : ChordCells :=
  mkChordCells 0 0 (VInt 0) (VInt 0) 0 (VInt 0) false.

Definition zero_key_cells : KeyCells := mkKeyCells 0 0 (VInt 0).

(** [for value, start, end in segments: arr[start:end] = value] *)
Definition broadcast {A} (arr : list A) (segments : list (A * (Z * Z))) : list A :=
  fold_left (fun arr (seg : A * (Z * Z)) =>
               assign_slice arr (Some seg.2.1) (Some seg.2.2) seg.1)
    segments arr.

(** The ground-truth arrays: every segment but the last is broadcast
    between its change index and the next one, then the last label is
    broadcast from [changes[-1]] to the end. *)
Definition gt_array {X A} (cells : X -> A) (zero : A) (n : nat)
    (labels : list X) (changes : list Z) : result (list A) :=
  let arr :=
    broadcast (replicate n zero)
      (zip (cells <$> labels) (zip changes (slice changes (Some 1) None))) in
  last_label ← getitem labels (-1);
  last_change ← getitem changes (-1);
  Ok (assign_slice arr (Some last_change) None (cells last_label)).

(** The estimated arrays: segment [i] lies between [changes[i]] and
    [changes[i+1]]. *)
Definition est_array {A} (zero : A) (n : nat) (cells : list A)
    (changes : list Z) : list A :=
  broadcast (replicate n zero)
    (zip cells (zip (slice changes None (Some (-1))) (slice changes (Some 1) None))).

(** The estimated harmonic structure: [get_chords()] gives the chord
    labels, their boundaries and their pitches, [get_keys()] the key
    labels and their boundaries. *)
Record State : Type := mkState {
  state_chords : list Z;
  state_chord_changes : list Z;
  state_chord_pitches : list (list Z);
  state_keys : list Z;
  state_key_changes : list Z;
}.

Section ResultsDf.

Context {Measures : Type}.

(** Not among the sources: [ru.get_range_length], the conversion of a
    ground-truth chord or key to the evaluated pitch type with its
    one-hot index and its features, the decoding of an estimated one-hot
    index, and the lists of label strings. *)
Variable get_range_length : Position -> Position -> Measures -> Q.
Variable gt_chord_cells : PitchType -> Chord -> ChordCells.
Variable est_chord_cells : PitchType -> PitchType -> Z -> list Z -> ChordCells.
Variable gt_key_cells : PitchType -> Key -> KeyCells.
Variable est_key_cells : PitchType -> PitchType -> Z -> KeyCells.
Variable chord_label_list : PitchType -> list string.
Variable key_label_list : PitchType -> list string.

(** [ScorePiece.get_duration_cache]: the distance from each note's onset
    to the next one's, the last one to the offset of the last chord. *)
Definition get_duration_cache (self : ScorePiece Measures) : result (list Q) :=
  last_chord ← getitem (chords self) (-1);
  let next_onsets :=
    (note_onset <$> slice (notes self) (Some 1) None) ++ [offset last_chord] in
  Ok (zip_with (fun prev_note next_onset =>
                  get_range_length (note_onset prev_note) next_onset
                    (measures_df self))
        (notes self) next_onsets).

(** [Piece.get_key_change_input_indices] *)
Definition get_key_change_input_indices (self : ScorePiece Measures)
    : result (list Z) :=
  mapM (fun i => getitem (chord_changes self) i) (key_changes self).

(** One dictionary of [labels_list]. *)
Definition make_row (chord_root_type key_tonic_type : PitchType)
    (t : Q * (ChordCells * (ChordCells * (KeyCells * KeyCells))))
    : result Row :=
  let '(duration, (est_chord, (gt_chord, (est_key, gt_key)))) := t in
  gt_key_string ← getitem (key_label_list key_tonic_type) (kc_label gt_key);
  gt_chord_string ← getitem (chord_label_list chord_root_type) (cc_label gt_chord);
  est_key_string ← getitem (key_label_list key_tonic_type) (kc_label est_key);
  est_chord_string ← getitem (chord_label_list chord_root_type) (cc_label est_chord);
  Ok (list_to_map
        [("gt_key", VStr gt_key_string);
         ("gt_tonic", VInt (kc_tonic gt_key));
         ("gt_mode", kc_mode gt_key);
         ("gt_chord", VStr gt_chord_string);
         ("gt_root", VInt (cc_root gt_chord));
         ("gt_chord_type", cc_type gt_chord);
         ("gt_triad", cc_triad gt_chord);
         ("gt_inversion", VInt (cc_inversion gt_chord));
         ("gt_pitches", cc_pitches gt_chord);
         ("gt_is_default", VBool (cc_is_default gt_chord));
         ("est_key", VStr est_key_string);
         ("est_tonic", VInt (kc_tonic est_key));
         ("est_mode", kc_mode est_key);
         ("est_chord", VStr est_chord_string);
         ("est_root", VInt (cc_root est_chord));
         ("est_chord_type", cc_type est_chord);
         ("est_triad", cc_triad est_chord);
         ("est_inversion", VInt (cc_inversion est_chord));
         ("est_pitches", cc_pitches est_chord);
         ("est_is_default", VBool (cc_is_default est_chord));
         ("duration", VFrac duration)]).

(** [if duration == 0: continue] *)
Definition has_duration
    (t : Q * (ChordCells * (ChordCells * (KeyCells * KeyCells)))) : Prop :=
  Is_true (negb (Qeq_bool t.1 0)).

Definition get_results_df (piece : ScorePiece Measures) (state : State)
    (output_root_type output_tonic_type chord_root_type key_tonic_type : PitchType)
    : result (list Row) :=
  let n := length (notes piece) in
  (* GT chords *)
  gt_chords ← gt_array (gt_chord_cells chord_root_type) zero_chord_cells n
                 (chords piece) (chord_changes piece);
  (* Est chords *)
  let est_chords :=
    est_array zero_chord_cells n
      (zip_with (est_chord_cells output_root_type chord_root_type)
         (state_chords state) (state_chord_pitches state))
      (state_chord_changes state) in
  (* GT keys *)
  gt_changes ← get_key_change_input_indices piece;
  gt_keys ← gt_array (gt_key_cells key_tonic_type) zero_key_cells n
               (keys piece) gt_changes;
  (* Est keys *)
  let est_keys :=
    est_array zero_key_cells n
      (est_key_cells output_tonic_type key_tonic_type <$> state_keys state)
      (state_key_changes state) in
  duration_cache ← get_duration_cache piece;
  mapM (make_row chord_root_type key_tonic_type)
    (filter has_duration
       (zip duration_cache (zip est_chords (zip gt_chords (zip est_keys gt_keys))))).

End ResultsDf.

(** Segment [i] of an array of change indices covers the note indices
    from [changes[i]] to the next change index, the last segment to
    [stop]. *)
Definition covers (changes : list Z) (stop : Z) (i : nat) (k : Z) : Prop :=
  exists start,
    changes !! i = Some start
    /\ start <= k < default stop (changes !! S i).

Module ResultsSamples.

(** A grace note (no duration) before two notes; the harmony changes at
    the last note. *)
Definition grace_piece : ScorePiece unit :=
  {| measures_df := tt;
     notes := [PieceSamples.note_at 62 0 0; PieceSamples.note_at 60 0 1;
               PieceSamples.note_at 64 1 4];
     chords := [Samples.chord_at 15 CT_MAJOR 0 0 1;
                Samples.chord_at 16 CT_MAJOR 0 1 4];
     keys := [PieceSamples.c_major];
     chord_changes := [0; 2];
     chord_ranges := [(0, 2); (2, 3)];
     key_changes := [0];
     name := None |}.

(** An estimate that hears the tonic throughout. *)
Definition tonic_state : State :=
  {| state_chords := [0];
     state_chord_changes := [0; 3];
     state_chord_pitches := [[]];
     state_keys := [0];
     state_key_changes := [0; 3] |}.

Definition range_length (a b : Position) (_ : unit) : Q := (b.2 - a.2)%Q.

Definition gt_chord (_ : PitchType) (c : Chord) : ChordCells :=
  mkChordCells (root c - 15) (root c) (VChordType (chord_type c))
    (VChordType (chord_type c)) (inversion c) (VStr "()") true.

Definition est_chord (_ _ : PitchType) (index : Z) (_ : list Z) : ChordCells :=
  mkChordCells index (15 + index) (VChordType CT_MAJOR) (VChordType CT_MAJOR)
    0 (VStr "()") true.

Definition gt_key (_ : PitchType) (k : Key) : KeyCells :=
  mkKeyCells 0 (relative_tonic k) (VMode (relative_mode k)).

Definition est_key (_ _ : PitchType) (index : Z) : KeyCells :=
  mkKeyCells index 15 (VMode MAJOR).

Definition chord_labels (_ : PitchType) : list string := ["C:M"; "G:M"].
Definition key_labels (_ : PitchType) : list string := ["C:MAJOR"].

Definition results : result (list Row) :=
  get_results_df range_length gt_chord est_chord gt_key est_key
    chord_labels key_labels grace_piece tonic_state TPC TPC TPC TPC.

(** The rows of the frame (none if the call raises). *)
Definition rows : list Row :=
  match results with
  | Ok rows => rows
  | Raise _ => []
  end.

(** Chord accuracy on the frame. *)
Definition chord_accuracy : result (Q * list string) :=
  rows ← results; evaluate_features rows ["chord"] None.

End ResultsSamples.

(** ** Colour-coded annotations ([eval_utils.py], [get_results_annotation_df]) *)

(** [a, b = s] for a string [s]: the two characters of a string of
    length two, [ValueError] otherwise. *)
Definition unpack_pair_of_string (s : string) : result (PyVal * PyVal) :=
  match s with
  | String a (String b EmptyString) =>
      Ok (VStr (String a EmptyString), VStr (String b EmptyString))
  | _ => Raise ValueError
  end.

(** The colour of a key label. *)
Definition key_color (gt_tonic gt_mode est_tonic est_mode : PyVal) : string :=
  if py_eqb gt_tonic est_tonic && py_eqb gt_mode est_mode then "green"
  else if py_eqb gt_tonic est_tonic then "orange"
  else "red".

(** The colour of a chord label. *)
Definition chord_color (TRIAD_REDUCTION : ChordType -> ChordType)
    (gt est : Z * ChordType * Z) : string :=
  let '(gt_root, gt_chord_type, gt_inversion) := gt in
  let '(est_root, est_chord_type, est_inversion) := est in
  if (gt_root =? est_root)
     && bool_decide (gt_chord_type = est_chord_type)
     && (gt_inversion =? est_inversion)
  then "green"
  else if (gt_root =? est_root)
          && bool_decide (TRIAD_REDUCTION gt_chord_type
                          = TRIAD_REDUCTION est_chord_type)
  then "orange"
  else "red".

(** One dictionary of [labels_list]. *)
Record Annotation : Type := mkAnnotation {
  ann_label : string;
  ann_mc : Z;
  ann_mc_onset : Q;
  ann_mn_onset : Q;
  ann_color_name : string;
}.

(** The labels of the previous note with a duration. *)
Record Previous : Type := mkPrevious {
  prev_gt_chord_string : option string;
  prev_gt_key_string : option string;
  prev_gt_chord_pitches : option (gset Z);
  prev_est_key_string : option string;
  prev_est_chord_string : option string;
  prev_est_chord_pitches : option (gset Z);
}.

Section ResultsAnnotation.

Context {Measures : Type}.

(** Not among the sources: [ru.get_range_length], the one-hot index and
    the pitches of a ground-truth chord or key in the evaluated pitch
    type, the lists of label strings and of decoded chords and keys, and
    the table [TRIAD_REDUCTION]. *)
Variable get_range_length : Position -> Position -> Measures -> Q.
Variable gt_chord_one_hot :
  PitchType -> bool -> (ChordType -> ChordType) -> Chord -> Z.
Variable gt_chord_pitch_set : PitchType -> Chord -> gset Z.
Variable gt_key_one_hot : PitchType -> Key -> Z.
Variable chord_label_list :
  PitchType -> bool -> (ChordType -> ChordType) -> list string.
Variable chord_list :
  PitchType -> bool -> (ChordType -> ChordType) -> list (Z * ChordType * Z).
Variable key_label_list : PitchType -> list string.
Variable key_list : PitchType -> list (Z * KeyMode).
Variable TRIAD_REDUCTION : ChordType -> ChordType.

(** One turn of the loop over the notes. *)
Definition annotation_step (root_type tonic_type : PitchType)
    (use_inversions : bool) (reduction : ChordType -> ChordType)
    (acc : result (Previous * list Annotation))
    (t : Q * (Note * (Z * (Z * (Z * (Z * (option (gset Z) * option (gset Z))))))))
    : result (Previous * list Annotation) :=
  '(prev, labels_list) ← acc;
  let '(duration, (note, (est_chord_label, (gt_chord_label,
         (est_key_label, (gt_key_label, (est_pitches, gt_pitches))))))) := t in
  if Qeq_bool duration 0 then Ok (prev, labels_list) else
  gt_chord_string ←
    getitem (chord_label_list root_type use_inversions reduction) gt_chord_label;
  gt_chord ← getitem (chord_list root_type use_inversions reduction) gt_chord_label;
  gt_key_string ← getitem (key_label_list tonic_type) gt_key_label;
  gt_key ← getitem (key_label_list tonic_type) gt_key_label
              ≫= unpack_pair_of_string;
  let '(gt_tonic, gt_mode) := gt_key in
  est_chord_string ←
    getitem (chord_label_list root_type use_inversions reduction) est_chord_label;
  est_chord ← getitem (chord_list root_type use_inversions reduction) est_chord_label;
  est_key_string ← getitem (key_label_list tonic_type) est_key_label;
  est_key ← getitem (key_list tonic_type) est_key_label;
  let '(est_tonic, est_mode) := est_key in
  (* No change in labels *)
  if bool_decide (Some gt_chord_string = prev_gt_chord_string prev)
     && bool_decide (Some gt_key_string = prev_gt_key_string prev)
     && bool_decide (Some est_chord_string = prev_est_chord_string prev)
     && bool_decide (Some est_key_string = prev_est_key_string prev)
     && bool_decide (gt_pitches = prev_gt_chord_pitches prev)
     && bool_decide (est_pitches = prev_est_chord_pitches prev)
  then Ok (prev, labels_list)
  else
    let labels_list :=
      if negb (bool_decide (Some gt_key_string = prev_gt_key_string prev))
         || negb (bool_decide (Some est_key_string = prev_est_key_string prev))
      then
        labels_list ++
        [ {| ann_label :=
               if negb (bool_decide
                          (Some est_key_string = prev_est_key_string prev))
               then est_key_string else "--";
             ann_mc := (note_onset note).1;
             ann_mc_onset := note_mc_onset note;
             ann_mn_onset := (note_onset note).2;
             ann_color_name :=
               key_color gt_tonic gt_mode (VInt est_tonic) (VMode est_mode) |} ]
      else labels_list in
    let labels_list :=
      if negb (bool_decide (Some gt_chord_string = prev_gt_chord_string prev))
         || negb (bool_decide (Some est_chord_string = prev_est_chord_string prev))
         || negb (bool_decide (est_pitches = prev_est_chord_pitches prev))
         || negb (bool_decide (gt_pitches = prev_gt_chord_pitches prev))
      then
        labels_list ++
        [ {| ann_label :=
               if negb (bool_decide
                          (Some est_chord_string = prev_est_chord_string prev))
               then est_chord_string else "--";
             ann_mc := (note_onset note).1;
             ann_mc_onset := note_mc_onset note;
             ann_mn_onset := (note_onset note).2;
             ann_color_name := chord_color TRIAD_REDUCTION gt_chord est_chord |} ]
      else labels_list in
    Ok ({| prev_gt_chord_string := Some gt_chord_string;
           prev_gt_key_string := Some gt_key_string;
           prev_gt_chord_pitches := gt_pitches;
           prev_est_key_string := Some est_key_string;
           prev_est_chord_string := Some est_chord_string;
           prev_est_chord_pitches := est_pitches |},
        labels_list).

Definition get_results_annotation_df (state : State) (piece : ScorePiece Measures)
    (root_type tonic_type : PitchType) (use_inversions : bool)
    (reduction : ChordType -> ChordType) (use_chord_pitches : bool)
    : result (list Annotation) :=
  let n := length (notes piece) in
  gt_chord_labels ←
    (if (0 <? length (chords piece))%nat
     then gt_array (gt_chord_one_hot root_type use_inversions reduction) (-1) n
            (chords piece) (chord_changes piece)
     else Ok (replicate n (-1)));
  gt_chord_pitches ←
    (if (0 <? length (chords piece))%nat && use_chord_pitches
     then gt_array (fun c => Some (gt_chord_pitch_set root_type c)) None n
            (chords piece) (chord_changes piece)
     else Ok (replicate n None));
  let est_segments := zip (state_chords state) (state_chord_pitches state) in
  let estimated_chord_labels :=
    est_array 0 n (fst <$> est_segments) (state_chord_changes state) in
  let estimated_chord_pitches :=
    if use_chord_pitches
    then est_array None n
           ((fun cp : Z * list Z => Some (list_to_set cp.2 : gset Z))
              <$> est_segments)
           (state_chord_changes state)
    else replicate n None in
  gt_key_labels ←
    (if (0 <? length (keys piece))%nat
     then gt_changes ← get_key_change_input_indices piece;
          gt_array (gt_key_one_hot tonic_type) 0 n (keys piece) gt_changes
     else Ok (replicate n (-1)));
  let estimated_key_labels :=
    est_array 0 n (state_keys state) (state_key_changes state) in
  duration_cache ← get_duration_cache get_range_length piece;
  '(_, labels_list) ←
    fold_left (annotation_step root_type tonic_type use_inversions reduction)
      (zip duration_cache
         (zip (notes piece)
            (zip estimated_chord_labels
               (zip gt_chord_labels
                  (zip estimated_key_labels
                     (zip gt_key_labels
                        (zip estimated_chord_pitches gt_chord_pitches)))))))
      (Ok (mkPrevious None None None None None None, []));
  Ok labels_list.

End ResultsAnnotation.

Module AnnotationSamples.

Definition gt_chord_index (_ : PitchType) (_ : bool)
    (_ : ChordType -> ChordType) (c : Chord) : Z := root c - 15.
Definition gt_pitch_set (_ : PitchType) (_ : Chord) : gset Z := ∅.
Definition gt_key_index (_ : PitchType) (_ : Key) : Z := 0.
Definition chord_labels (_ : PitchType) (_ : bool)
    (_ : ChordType -> ChordType) : list string := ["C:M"; "G:M"].
Definition chord_table (_ : PitchType) (_ : bool)
    (_ : ChordType -> ChordType) : list (Z * ChordType * Z) :=
  [(15, CT_MAJOR, 0); (16, CT_MAJOR, 0)].
Definition key_table (_ : PitchType) : list (Z * KeyMode) := [(15, MAJOR)].

(** The annotation of the tonic estimate on the grace-note piece, for a
    given list of key label strings. *)
Definition annotate (key_labels : list string) : result (list Annotation) :=
  get_results_annotation_df ResultsSamples.range_length gt_chord_index
    gt_pitch_set gt_key_index chord_labels chord_table (fun _ => key_labels)
    key_table id ResultsSamples.tonic_state ResultsSamples.grace_piece
    TPC TPC true id false.

End AnnotationSamples.

(** ** Serialized pieces ([ScorePiece.to_dict], [get_score_piece_from_dict]) *)

(** A sequence held by a Python object is a plain list or a numpy array;
    [ScorePiece.__init__] stores [np.array(...)] of each of its
    sequences. *)
Inductive Container : Type := PyList | NdArray.

Section PieceDict.

Context {Measures NoteDict ChordDict KeyDict : Type}.

(** [to_dict] of a note, chord or key and the constructors that take the
    dictionary back as keyword arguments are not among the sources. *)
Variable Note_to_dict : Note -> NoteDict.
Variable Note_from_dict : NoteDict -> Note.
Variable Chord_to_dict : Chord -> ChordDict.
Variable Chord_from_dict : ChordDict -> Chord.
Variable Key_to_dict : Key -> KeyDict.
Variable Key_from_dict : KeyDict -> Key.

(** A value of the dictionary of a piece. *)
Inductive DictValue : Type :=
| DNotes (kind : Container) (items : list NoteDict)
| DChords (kind : Container) (items : list ChordDict)
| DKeys (kind : Container) (items : list KeyDict)
| DInts (kind : Container) (items : list Z)
| DRanges (kind : Container) (items : list (Z * Z)).

Definition container_of (v : DictValue) : Container :=
  match v with
  | DNotes kind _ | DChords kind _ | DKeys kind _
  | DInts kind _ | DRanges kind _ => kind
  end.

(** The list comprehensions build plain lists; the three index arrays
    are handed out as the piece stores them. *)
Definition to_dict (self : ScorePiece Measures) : gmap string DictValue :=
  list_to_map
    [("notes", DNotes PyList (Note_to_dict <$> notes self));
     ("chords", DChords PyList (Chord_to_dict <$> chords self));
     ("keys", DKeys PyList (Key_to_dict <$> keys self));
     ("chord_changes", DInts NdArray (chord_changes self));
     ("chord_ranges", DRanges NdArray (chord_ranges self));
     ("key_changes", DInts NdArray (key_changes self))].

(** [piece_dict[key]] *)
Definition dict_get (piece_dict : gmap string DictValue) (key : string)
    : result DictValue :=
  match piece_dict !! key with
  | Some v => Ok v
  | None => Raise KeyError
  end.

Definition get_score_piece_from_dict (measures_df : Measures)
    (piece_dict : gmap string DictValue) (name : option string)
    : result (ScorePiece Measures) :=
  notes ← dict_get piece_dict "notes";
  notes ← match notes with
          | DNotes _ items => Ok (Note_from_dict <$> items)
          | _ => Raise TypeError
          end;
  chords ← dict_get piece_dict "chords";
  chords ← match chords with
           | DChords _ items => Ok (Chord_from_dict <$> items)
           | _ => Raise TypeError
           end;
  keys ← dict_get piece_dict "keys";
  keys ← match keys with
         | DKeys _ items => Ok (Key_from_dict <$> items)
         | _ => Raise TypeError
         end;
  chord_changes ← dict_get piece_dict "chord_changes";
  chord_changes ← match chord_changes with
                  | DInts _ items => Ok items
                  | _ => Raise TypeError
                  end;
  chord_ranges ← dict_get piece_dict "chord_ranges";
  chord_ranges ← match chord_ranges with
                 | DRanges _ items => Ok items
                 | _ => Raise TypeError
                 end;
  key_changes ← dict_get piece_dict "key_changes";
  key_changes ← match key_changes with
                | DInts _ items => Ok items
                | _ => Raise TypeError
                end;
  Ok {| measures_df := measures_df;
        notes := notes;
        chords := chords;
        keys := keys;
        chord_changes := chord_changes;
        chord_ranges := chord_ranges;
        key_changes := key_changes;
        name := name |}.

End PieceDict.

(** The keys of the dictionary of a piece. *)
Definition piece_dict_keys : gset string :=
  {[ "notes"; "chords"; "keys"; "chord_changes"; "chord_ranges"; "key_changes" ]}.

(** The dictionary of the sample piece, with notes, chords and keys
    standing for their own dictionaries. *)
Module DictSamples.

Definition held_dict : gmap string (@DictValue Note Chord Key) :=
  to_dict id id id PieceSamples.held_piece.

Definition reloaded : result (ScorePiece unit) :=
  get_score_piece_from_dict id id id
    (measures_df PieceSamples.held_piece) held_dict
    (name PieceSamples.held_piece).

End DictSamples.

(** ** Reading [get_chords_within_range] *)

(** [i] is the index of the chord that sounds at input [start]: the
    chord that changes at [start], or else the last chord that changes
    before it. *)
Definition sounding_index (changes : list Z) (start : Z) (i : nat) : Prop :=
  (forall k x, (k < i)%nat -> changes !! k = Some x -> x < start)
  /\ exists x, changes !! i = Some x
       /\ (x = start
           \/ (x < start /\ forall y, changes !! S i = Some y -> start < y)).

(** [e] is the number of change indices below [stop]. *)
Definition changes_below (changes : list Z) (stop : Z) (e : nat) : Prop :=
  (e <= length changes)%nat
  /\ (forall k x, (k < e)%nat -> changes !! k = Some x -> x < stop)
  /\ (forall y, changes !! e = Some y -> stop <= y).

(** ** Note inputs of all chords ([ScorePiece.get_chord_note_inputs]) *)

Section ChordNoteInputs.

Context {Measures Vec : Type}.

(** Not among the sources: [Note.to_vec] and [ru.get_range_length]. *)
Variable to_vec : Note -> @ToVecArgs Measures -> Vec.
Variable zero_row : Vec.
Variable get_range_length : Position -> Position -> Measures -> Q.

(** One turn of the loop over [zip(ranges, change_indices, chords)]. *)
Definition chord_note_input_of (self : ScorePiece Measures) (window : Z)
    (last_offset : Position) (duration_cache : list Q)
    (t : (Z * Z) * (Z * option Chord)) : result (list Vec) :=
  let '((onset_index, offset_index), (change_index, chord)) := t in
  let duration :=
    match chord with
    | None => np_sum (slice duration_cache (Some change_index) (Some offset_index))
    | Some chord => duration chord
    end in
  change_note ← getitem (notes self) change_index;
  let onset := note_onset change_note in
  (* try: offset = self.notes[offset_index].onset
     except IndexError: offset = last_offset *)
  let offset :=
    match getitem (notes self) offset_index with
    | Ok offset_note => note_onset offset_note
    | Raise _ => last_offset
    end in
  get_chord_note_input to_vec zero_row (notes self) (measures_df self)
    onset offset duration change_index onset_index offset_index window
    (Some duration_cache) chord.

Definition get_chord_note_inputs (self : ScorePiece Measures) (window : Z)
    (ranges : option (list (Z * Z))) (change_indices : option (list Z))
    : result (list (list Vec)) :=
  let use_real_chords :=
    match ranges, change_indices with
    | Some _, Some _ => false
    | _, _ => true
    end in
  let ranges := default (chord_ranges self) ranges in
  let change_indices := default (chord_changes self) change_indices in
  let chord_list : list (option Chord) :=
    if use_real_chords then Some <$> chords self
    else replicate (length ranges) None in
  last_chord ← getitem (chords self) (-1);
  let last_offset := offset last_chord in
  duration_cache ← get_duration_cache get_range_length self;
  mapM (chord_note_input_of self window last_offset duration_cache)
    (zip ranges (zip change_indices chord_list)).

End ChordNoteInputs.

(** ** Annotations of an estimate ([eval_utils.py], [get_annotation_df]) *)

(** One dictionary of [labels_list]. *)
Record LabelRow : Type := mkLabelRow {
  lab_label : string;
  lab_mc : Z;
  lab_mc_onset : Q;
  lab_mn_onset : Q;
}.

(** The estimated labels of the previous note with a duration. *)
Record PreviousEst : Type := mkPreviousEst {
  pe_key_string : option string;
  pe_chord_string : option string;
  pe_chord_pitches : option (gset Z);
}.

Section AnnotationDf.

Context {Measures : Type}.

(** Not among the sources: [ru.get_range_length] and the lists of label
    strings. *)
Variable get_range_length : Position -> Position -> Measures -> Q.
Variable chord_label_list :
  PitchType -> bool -> (ChordType -> ChordType) -> list string.
Variable key_label_list : PitchType -> list string.

Definition label_row (label : string) (note : Note) : LabelRow :=
  {| lab_label := label;
     lab_mc := (note_onset note).1;
     lab_mc_onset := note_mc_onset note;
     lab_mn_onset := (note_onset note).2 |}.

(** One turn of the loop over the notes. *)
Definition label_step (root_type tonic_type : PitchType)
    (use_inversions : bool) (reduction : ChordType -> ChordType)
    (acc : result (PreviousEst * list LabelRow))
    (t : Q * (Note * (Z * (Z * option (gset Z)))))
    : result (PreviousEst * list LabelRow) :=
  '(prev, labels_list) ← acc;
  let '(duration, (note, (est_chord_label, (est_key_label, est_pitches)))) := t in
  if Qeq_bool duration 0 then Ok (prev, labels_list) else
  est_chord_string ←
    getitem (chord_label_list root_type use_inversions reduction) est_chord_label;
  est_key_string ← getitem (key_label_list tonic_type) est_key_label;
  (* No change in labels *)
  if bool_decide (Some est_chord_string = pe_chord_string prev)
     && bool_decide (Some est_key_string = pe_key_string prev)
     && bool_decide (est_pitches = pe_chord_pitches prev)
  then Ok (prev, labels_list)
  else
    let labels_list :=
      if negb (bool_decide (Some est_key_string = pe_key_string prev))
      then labels_list ++ [label_row est_key_string note]
      else labels_list in
    let labels_list :=
      if negb (bool_decide (Some est_chord_string = pe_chord_string prev))
      then labels_list ++ [label_row est_chord_string note]
      else labels_list in
    Ok ({| pe_key_string := Some est_key_string;
           pe_chord_string := Some est_chord_string;
           pe_chord_pitches := est_pitches |},
        labels_list).

Definition get_annotation_df (state : State) (piece : ScorePiece Measures)
    (root_type tonic_type : PitchType) (use_inversions : bool)
    (reduction : ChordType -> ChordType) (use_chord_pitches : bool)
    : result (list LabelRow) :=
  let n := length (notes piece) in
  let est_segments := zip (state_chords state) (state_chord_pitches state) in
  let estimated_chord_labels :=
    est_array 0 n (fst <$> est_segments) (state_chord_changes state) in
  let estimated_chord_pitches :=
    if use_chord_pitches
    then est_array None n
           ((fun cp : Z * list Z => Some (list_to_set cp.2 : gset Z))
              <$> est_segments)
           (state_chord_changes state)
    else replicate n None in
  let estimated_key_labels :=
    est_array 0 n (state_keys state) (state_key_changes state) in
  duration_cache ← get_duration_cache get_range_length piece;
  '(_, labels_list) ←
    fold_left (label_step root_type tonic_type use_inversions reduction)
      (zip duration_cache
         (zip (notes piece)
            (zip estimated_chord_labels
               (zip estimated_key_labels estimated_chord_pitches))))
      (Ok (mkPreviousEst None None None, []));
  Ok labels_list.

End AnnotationDf.

(** Two states of the loop of [get_annotation_df] that agree on
    everything but the remembered pitches, the second one remembering
    none. *)
Definition same_labels (a b : result (PreviousEst * list LabelRow)) : Prop :=
  match a, b with
  | Ok (pa, la), Ok (pb, lb) =>
      la = lb
      /\ pe_key_string pa = pe_key_string pb
      /\ pe_chord_string pa = pe_chord_string pb
      /\ pe_chord_pitches pb = None
  | Raise e, Raise e' => e = e'
  | _, _ => False
  end.

(** A tuple of the loop without its pitches. *)
Definition without_pitches (t : Q * (Note * (Z * (Z * option (gset Z)))))
    : Q * (Note * (Z * (Z * option (gset Z)))) :=
  (t.1, (t.2.1, (t.2.2.1, (t.2.2.2.1, None)))).

(** ** Measures of a parsed score ([piece.py],
    [get_measures_df_from_music21_score]) *)

(** [a % b] on fractions: the result has the sign of [b]; a zero [b]
    raises. *)
Definition py_mod (a b : Q) : result Q :=
  if Qeq_bool b 0 then Raise ZeroDivisionError
  else Ok (a - b * inject_Z (Qfloor (a / b)))%Q.

(** What the function reads of a music21 measure: the ratio string of
    its time signature, if it carries one, the length of its duration in
    quarter notes and its measure number. *)
Record M21Measure : Type := mkM21Measure {
  m21_time_signature : option string;
  m21_quarter_length : Q;
  m21_measure_number : Z;
}.

(** The columns of the returned frame; [None] in [next] is [pd.NA]. *)
Record MeasuresDf : Type := mkMeasuresDf {
  col_mc : list Z;
  col_mn : list Z;
  col_timesig : list string;
  col_start : list Q;
  col_act_dur : list Q;
  col_offset : list Q;
  col_next : list (option Z);
}.

(** The variables that the loop over the measures updates. *)
Record MeasureLoop : Type := mkMeasureLoop {
  ml_time_signature : string;
  ml_ts_duration : Q;
  ml_ts_epoch : Q;
  ml_time_signatures : list string;
  ml_starts : list Q;
  ml_lengths : list Q;
  ml_df_offsets : list Q;
  ml_mns : list Z;
}.

Section MeasuresDfOfScore.

(** [Fraction(s)] for a ratio string such as "3/4". *)
Variable Fraction_of_string : string -> result Q.

(** One turn of the loop over [enumerate(measureOffsetMap().items())];
    the first measure of the list at an offset stands for the list. *)
Definition measure_step (acc : result MeasureLoop)
    (it : nat * (Q * M21Measure)) : result MeasureLoop :=
  st ← acc;
  let '(mc, (offset, measure)) := it in
  let offset := (offset / 4)%Q in
  '(time_signature, (ts_duration, ts_epoch)) ←
    match m21_time_signature measure with
    | Some ratio_string =>
        if negb (bool_decide (ratio_string = ml_time_signature st))
        then
          (* Time Signature change *)
          ts_duration ← Fraction_of_string ratio_string;
          (* Reset the ts_epoch to this location *)
          Ok (ratio_string,
              (ts_duration, if negb (mc =? 0)%nat then offset else ml_ts_epoch st))
        else Ok (ml_time_signature st, (ml_ts_duration st, ml_ts_epoch st))
    | None => Ok (ml_time_signature st, (ml_ts_duration st, ml_ts_epoch st))
    end;
  lengths ←
    match ml_lengths st with
    | [] => Ok []
    | _ =>
        (* Set the length of each bar to the difference between
           consecutive measure offsets *)
        last_start ← getitem (ml_starts st) (-1);
        Ok (<[pred (length (ml_lengths st)) := (offset - last_start)%Q]>
              (ml_lengths st))
    end;
  (* Default (used only for the last measure) *)
  let lengths := lengths ++ [(m21_quarter_length measure / 4)%Q] in
  df_offset ← py_mod (offset - ts_epoch) ts_duration;
  Ok {| ml_time_signature := time_signature;
        ml_ts_duration := ts_duration;
        ml_ts_epoch := ts_epoch;
        ml_time_signatures := ml_time_signatures st ++ [time_signature];
        ml_starts := ml_starts st ++ [offset];
        ml_lengths := lengths;
        ml_df_offsets := ml_df_offsets st ++ [df_offset];
        ml_mns := ml_mns st ++ [m21_measure_number measure] |}.

(** [measure_offset_map] is [m21_score.measureOffsetMap()], the offsets
    in quarter notes in order, each with its first measure. The default
    time signature is "4/4", and [Fraction("4/4")] is 1. *)
Definition get_measures_df_from_music21_score
    (measure_offset_map : list (Q * M21Measure)) : result MeasuresDf :=
  let mcs := range 0 (Z.of_nat (length measure_offset_map)) in
  let nexts := (Some <$> slice mcs (Some 1) None) ++ [None] in
  (* The start of the 2nd measure *)
  second ← getitem (fst <$> measure_offset_map) 1;
  let ts_epoch := (second / 4)%Q in
  st ← fold_left measure_step (enumerate measure_offset_map)
         (Ok {| ml_time_signature := "4/4";
                ml_ts_duration := 1;
                ml_ts_epoch := ts_epoch;
                ml_time_signatures := [];
                ml_starts := [];
                ml_lengths := [];
                ml_df_offsets := [];
                ml_mns := [] |});
  Ok {| col_mc := mcs;
        col_mn := ml_mns st;
        col_timesig := ml_time_signatures st;
        col_start := ml_starts st;
        col_act_dur := ml_lengths st;
        col_offset := ml_df_offsets st;
        col_next := nexts |}.

End MeasuresDfOfScore.

(** The invariant of the loop after the measures [done_]: one entry per
    measure in every list; the starts and measure numbers are those of
    the measures; every length but the last is the distance to the next
    start, the last one the measure's own duration; every offset lies
    within the time signature in force. *)
Definition measure_loop_inv (Fraction_of_string : string -> result Q)
    (done_ : list (Q * M21Measure)) (st : MeasureLoop) : Prop :=
  ml_starts st = (fun om : Q * M21Measure => (om.1 / 4)%Q) <$> done_
  /\ ml_mns st = (fun om : Q * M21Measure => m21_measure_number om.2) <$> done_
  /\ length (ml_time_signatures st) = length done_
  /\ length (ml_df_offsets st) = length done_
  /\ length (ml_lengths st) = length done_
  /\ (forall i a b, ml_starts st !! i = Some a -> ml_starts st !! S i = Some b ->
        ml_lengths st !! i = Some (b - a)%Q)
  /\ (forall om, last done_ = Some om ->
        last (ml_lengths st) = Some (m21_quarter_length om.2 / 4)%Q)
  /\ (0 < ml_ts_duration st)%Q
  /\ (ml_time_signature st = "4/4" /\ (ml_ts_duration st == 1)%Q
      \/ Fraction_of_string (ml_time_signature st) = Ok (ml_ts_duration st))
  /\ (forall i ts x, ml_time_signatures st !! i = Some ts ->
        ml_df_offsets st !! i = Some x ->
        exists d, (ts = "4/4" /\ (d == 1)%Q \/ Fraction_of_string ts = Ok d)
                  /\ (0 <= x)%Q /\ (x < d)%Q).

Module MeasureSamples.

(** The ratio strings of the sample score as fractions. *)
Definition fraction_of (s : string) : result Q :=
  if bool_decide (s = "3/4") then Ok (3 # 4)
  else if bool_decide (s = "4/4") then Ok 1%Q
  else Raise ValueError.

(** A waltz with an upbeat of one quarter note and two full measures. *)
Definition waltz : list (Q * M21Measure) :=
  [ (0%Q, mkM21Measure (Some "3/4") 1 0);
    (1%Q, mkM21Measure None 3 1);
    (4%Q, mkM21Measure None 3 2) ].

End MeasureSamples.

(** ** Pieces from a parsed MusicXML score and a label csv ([piece.py],
    [get_notes_from_music_xml], [get_score_piece_from_music_xml]) *)

(** An element of [measure.recurse().notes]: a note, or a chord with its
    notes. *)
Inductive M21Element {X : Type} : Type :=
| M21Single (note : X)
| M21ChordOf (chord_notes : list X).
Arguments M21Element : clear implicits.

(** A row of the label csv: the columns [on], [off] and [degree], which
    the function reads itself, and the rest ([key], [type], [inv]). *)
Record CsvLabel {R : Type} : Type := mkCsvLabel {
  csv_on : Q;
  csv_off : Q;
  csv_degree : string;
  csv_rest : R;
}.
Arguments CsvLabel : clear implicits.

Section ScorePieceFromMusicXml.

Context {X R : Type}.

(** Not among the sources: the constructors of notes, chords and keys
    from music21 objects and csv rows, and the repeat predicate of
    keys. *)
Variable Note_from_music21 : X -> MeasuresDf -> nat -> option (list X) -> Note.
Variable Chord_from_labels_csv_row : CsvLabel R -> MeasuresDf -> Chord.
Variable Key_from_labels_csv_row : CsvLabel R -> option Key -> Key.
Variable Key_is_repeated : bool -> Key -> Key -> bool.
Variable Fraction_of_string : string -> result Q.

(** [flat_measures] holds, for every measure of the flattened score
    without ties, the elements of [measure.recurse().notes]. *)
Definition get_notes_from_music_xml
    (flat_measures : list (list (M21Element X))) (measures_df : MeasuresDf)
    : list Note :=
  concat
    (imap (fun measure_mc measure =>
             concat
               ((fun element =>
                   match element with
                   | M21ChordOf chord_notes =>
                       (fun chord_note =>
                          Note_from_music21 chord_note measures_df measure_mc
                            (Some chord_notes)) <$> chord_notes
                   | M21Single note =>
                       [Note_from_music21 note measures_df measure_mc None]
                   end) <$> measure))
       flat_measures).

(** [labels_df.loc[labels_df["degree"] == f"{degree}+", ["degree"]] = str(degree)] *)
Definition fix_degree (labels_df : list (CsvLabel R)) (degree : string)
    : list (CsvLabel R) :=
  (fun row =>
     if bool_decide (csv_degree row = degree +:+ "+")
     then {| csv_on := csv_on row; csv_off := csv_off row;
             csv_degree := degree; csv_rest := csv_rest row |}
     else row) <$> labels_df.

(** The labels that become chords: scaled to whole notes, without the
    rows that start before 0 or have no positive duration, with the
    degrees ["1+"] to ["5+"] repaired. *)
Definition clean_labels (labels_df : list (CsvLabel R)) : list (CsvLabel R) :=
  (* Labels are in quarter notes, but the rest of the code uses whole notes *)
  let labels_df :=
    (fun row => {| csv_on := (csv_on row / 4)%Q; csv_off := (csv_off row / 4)%Q;
                   csv_degree := csv_degree row; csv_rest := csv_rest row |})
      <$> labels_df in
  (* Bugfix for some pieces that start with negative numbers *)
  let labels_df :=
    filter (fun row => Is_true (Qle_bool 0 (csv_on row) && Qltb 0 (csv_off row)))
      labels_df in
  (* Bugfix for duration 0 symbols *)
  let labels_df :=
    filter (fun row => Is_true (Qltb (csv_on row) (csv_off row))) labels_df in
  (* Bugfix for some augmented chords adding "+" to scale degree *)
  fold_left fix_degree ["1"; "2"; "3"; "4"; "5"] labels_df.

(** The function on the parsed inputs: the measure offset map and the
    flattened measures of the score, and the rows of the label csv. *)
Definition get_score_piece_from_music_xml
    (measure_offset_map : list (Q * M21Measure))
    (flat_measures : list (list (M21Element X)))
    (labels_csv : list (CsvLabel R)) (name : option string)
    : result (ScorePiece MeasuresDf) :=
  measures_df ←
    get_measures_df_from_music21_score Fraction_of_string measure_offset_map;
  let notes := get_notes_from_music_xml flat_measures measures_df in
  let labels_df := clean_labels labels_csv in
  let chords :=
    (fun row => Chord_from_labels_csv_row row measures_df) <$> labels_df in
  let chord_changes := chord_changes_from notes 0 chords in
  (* The note input ranges for each chord *)
  let chord_ranges := chord_ranges_of notes chords chord_changes in
  first_row ← getitem labels_df 0;
  let global_key := Key_from_labels_csv_row first_row None in
  let keys :=
    (fun row => Key_from_labels_csv_row row (Some global_key)) <$> labels_df in
  let key_changes := seq 0 (length keys) in
  (* Remove accidentally repeated keys *)
  let non_repeated_mask :=
    get_reduction_mask Key_is_repeated true keys (Some true) in
  keys ← bool_index keys non_repeated_mask;
  key_changes ← bool_index key_changes non_repeated_mask;
  Ok {| measures_df := measures_df;
        notes := notes;
        chords := chords;
        keys := keys;
        chord_changes := Z.of_nat <$> chord_changes;
        chord_ranges :=
          (fun r : nat * nat => (Z.of_nat r.1, Z.of_nat r.2)) <$> chord_ranges;
        key_changes := Z.of_nat <$> key_changes;
        name := name |}.

End ScorePieceFromMusicXml.

(** A row of the csv, in quarter notes, that survives the cleaning: it
    does not start before 0 and ends after it starts. *)
Definition sounding_label {R} (row : CsvLabel R) : bool :=
  Qle_bool 0 (csv_on row) && Qltb (csv_on row) (csv_off row).

(** The degree handed to the chord constructor. *)
Definition repaired_degree (degree : string) : string :=
  if bool_decide (degree = "1+") then "1"
  else if bool_decide (degree = "2+") then "2"
  else if bool_decide (degree = "3+") then "3"
  else if bool_decide (degree = "4+") then "4"
  else if bool_decide (degree = "5+") then "5"
  else degree.

(** A csv row after scaling and repair. *)
Definition cleaned_row {R} (row : CsvLabel R) : CsvLabel R :=
  {| csv_on := (csv_on row / 4)%Q; csv_off := (csv_off row / 4)%Q;
     csv_degree := repaired_degree (csv_degree row); csv_rest := csv_rest row |}.

Module XmlSamples.

(** Notes and labels that carry their own values. *)
Definition note_of (n : Note) (_ : MeasuresDf) (_ : nat) (_ : option (list Note))
    : Note := n.
Definition chord_of (row : CsvLabel unit) (_ : MeasuresDf) : Chord :=
  Samples.chord_at (if bool_decide (csv_degree row = "5") then 16 else 15)
    CT_MAJOR 0 (csv_on row) (csv_off row).
Definition key_of (_ : CsvLabel unit) (_ : option Key) : Key :=
  PieceSamples.c_major.

(** The waltz: a note on the upbeat, then a chord of two notes. *)
Definition flat_measures : list (list (M21Element Note)) :=
  [ [M21Single (PieceSamples.note_at 67 0 (1 # 4))];
    [M21ChordOf [PieceSamples.note_at 60 (1 # 4) 1;
                 PieceSamples.note_at 64 (1 # 4) 1]];
    [] ].

(** Labels in quarter notes: one before the start of the piece, one on
    the fifth degree with a stray "+", one without duration, one on the
    first degree. *)
Definition labels : list (CsvLabel unit) :=
  [ mkCsvLabel unit (-1) 0 "1" tt;
    mkCsvLabel unit 0 1 "5+" tt;
    mkCsvLabel unit 1 1 "1" tt;
    mkCsvLabel unit 1 4 "1" tt ].

Definition piece : result (ScorePiece MeasuresDf) :=
  get_score_piece_from_music_xml note_of chord_of key_of PieceSamples.same_key
    MeasureSamples.fraction_of MeasureSamples.waltz flat_measures labels None.

End XmlSamples.

(** The features of a results frame: [get_results_df] writes a [gt_] and
    an [est_] column for each of them. *)
Definition results_features : list string :=
  ["key"; "tonic"; "mode"; "chord"; "root"; "chord_type"; "triad";
   "inversion"; "pitches"; "is_default"].

(** ** Labels of a piece ([eval_utils.py], [get_labels_df]) *)

(** One dictionary of [labels_list]. *)
Record LabelsRow : Type := mkLabelsRow {
  ldf_chord_root_tpc : Z;
  ldf_chord_root_midi : Z;
  ldf_chord_type : ChordType;
  ldf_chord_inversion : Z;
  ldf_chord_suspension_tpc : string;
  ldf_chord_suspension_midi : string;
  ldf_key_tonic_tpc : Z;
  ldf_key_tonic_midi : Z;
  ldf_key_mode : KeyMode;
  ldf_duration : Q;
  ldf_mc : Z;
  ldf_mn_onset : Q;
}.

(** [sep.join(strings)] *)
Fixpoint join (sep : string) (strings : list string) : string :=
  match strings with
  | [] => ""
  | s :: rest =>
      match rest with
      | [] => s
      | _ :: _ => s +:+ sep +:+ join sep rest
      end
  end.

(** [if duration == 0: continue] *)
Definition sounding {A} (t : Q * A) : Prop :=
  Is_true (negb (Qeq_bool t.1 0)).

#[global] Instance sounding_dec {A} (t : Q * A) : Decision (sounding t).
Proof. unfold sounding. apply _. Defined.

Section LabelsDf.

Context {Measures : Type}.

(** Not among the sources: [ru.get_range_length], [hc.TPC_C], the
    [suspension] and the one-hot indices of the data model, the functions
    of [hu], the two lists that [get_labels_df] reads from them, and
    Python's [int] on a string. *)
Variable get_range_length : Position -> Position -> Measures -> Q.
Variable TPC_C : Z.
Variable suspension : Chord -> option string.
Variable Chord_get_one_hot_index : Chord -> Z.
Variable Key_get_one_hot_index : Key -> Z.
Variable get_added_and_removed_pitches :
  Z -> ChordType -> string -> Z -> KeyMode -> list (string * string).
Variable get_pitch_string : Z -> PitchType -> string.
Variable get_pitch_from_string : string -> PitchType -> Z.
Variable chord_labels_list : list (Z * ChordType * Z).
Variable key_labels_list : list (Z * KeyMode).
Variable int_of_str : string -> result Z.

(** The MIDI pitch of a TPC pitch. *)
Definition midi_of_tpc (pitch : Z) : Z :=
  get_pitch_from_string (get_pitch_string pitch TPC) MIDI.

(** One turn of the loop over [change_mapping.items()]. *)
Definition mapping_step (tpc_c : Z)
    (acc : result (list string * list string)) (item : string * string)
    : result (list string * list string) :=
  '(mappings_midi, mappings_tpc) ← acc;
  let '(orig, new) := item in
  '(orig_midi, orig_tpc) ←
    (if bool_decide (orig = "") then Ok ("", "")
     else
       orig_int ← int_of_str orig;
       let orig_midi := pretty (midi_of_tpc orig_int) in
       orig_int ← int_of_str orig;
       Ok (orig_midi, pretty (orig_int - TPC_C + tpc_c)));
  '(prefix, new) ←
    match new with
    | EmptyString => Raise IndexError
    | String first rest =>
        if bool_decide (String first EmptyString = "+") then Ok ("+", rest)
        else Ok ("", new)
    end;
  new_int ← int_of_str new;
  let new_midi := prefix +:+ pretty (midi_of_tpc new_int) in
  new_int ← int_of_str new;
  let new_tpc := prefix +:+ pretty (new_int - TPC_C + tpc_c) in
  Ok (mappings_midi ++ [orig_midi +:+ ":" +:+ new_midi],
      mappings_tpc ++ [orig_tpc +:+ ":" +:+ new_tpc]).

(** The nested [get_suspension_strings]: the tpc and the midi string. *)
Definition get_suspension_strings (tpc_c : Z) (chord : Chord)
    : result (string * string) :=
  match suspension chord with
  | None => Ok ("", "")
  | Some chord_suspension =>
      let change_mapping :=
        get_added_and_removed_pitches (root chord) (chord_type chord)
          chord_suspension (key_tonic chord) (key_mode chord) in
      '(mappings_midi, mappings_tpc) ←
        fold_left (mapping_step tpc_c) change_mapping (Ok ([], []));
      Ok (join ";" mappings_tpc, join ";" mappings_midi)
  end.

(** One turn of the loop over the chords and their change indices; the
    state is [chord_labels], [chord_suspensions_midi] and
    [chord_suspensions_tpc]. *)
Definition chord_segment_step (tpc_c : Z)
    (acc : result (list Z * (list string * list string)))
    (segment : Chord * (Z * Z))
    : result (list Z * (list string * list string)) :=
  '(chord_labels, (chord_suspensions_midi, chord_suspensions_tpc)) ← acc;
  let '(chord, (start, end_)) := segment in
  let chord_labels :=
    assign_slice chord_labels (Some start) (Some end_)
      (Chord_get_one_hot_index chord) in
  '(tpc_string, midi_string) ← get_suspension_strings tpc_c chord;
  Ok (chord_labels,
      (assign_slice chord_suspensions_midi (Some start) (Some end_) midi_string,
       assign_slice chord_suspensions_tpc (Some start) (Some end_) tpc_string)).

(** The three chord arrays, one entry per note. *)
Definition chord_label_arrays (piece : ScorePiece Measures) (tpc_c : Z)
    : result (list Z * (list string * list string)) :=
  let n := length (notes piece) in
  '(chord_labels, (chord_suspensions_midi, chord_suspensions_tpc)) ←
    fold_left (chord_segment_step tpc_c)
      (zip (chords piece)
         (zip (chord_changes piece) (slice (chord_changes piece) (Some 1) None)))
      (Ok (replicate n 0, (replicate n "", replicate n "")));
  last_chord ← getitem (chords piece) (-1);
  last_change ← getitem (chord_changes piece) (-1);
  let chord_labels :=
    assign_slice chord_labels (Some last_change) None
      (Chord_get_one_hot_index last_chord) in
  '(tpc_string, midi_string) ← get_suspension_strings tpc_c last_chord;
  Ok (chord_labels,
      (assign_slice chord_suspensions_midi (Some last_change) None midi_string,
       assign_slice chord_suspensions_tpc (Some last_change) None tpc_string)).

(** The dictionary of one note with a duration. *)
Definition labels_row (tpc_c : Z)
    (t : Q * (Z * (Z * (string * (string * Position))))) : result LabelsRow :=
  let '(duration, (chord_label, (key_label,
        (suspension_tpc, (suspension_midi, onset))))) := t in
  '(root_tpc, chord_type, inversion) ← getitem chord_labels_list chord_label;
  '(tonic_tpc, mode) ← getitem key_labels_list key_label;
  let root_midi := midi_of_tpc root_tpc in
  let tonic_midi := midi_of_tpc tonic_tpc in
  Ok {| ldf_chord_root_tpc := root_tpc - TPC_C + tpc_c;
        ldf_chord_root_midi := root_midi;
        ldf_chord_type := chord_type;
        ldf_chord_inversion := inversion;
        ldf_chord_suspension_tpc := suspension_tpc;
        ldf_chord_suspension_midi := suspension_midi;
        ldf_key_tonic_tpc := tonic_tpc - TPC_C + tpc_c;
        ldf_key_tonic_midi := tonic_midi;
        ldf_key_mode := mode;
        ldf_duration := duration;
        ldf_mc := onset.1;
        ldf_mn_onset := onset.2 |}.

(** The strings that the arrays hold for a chord (none if the call
    raises). *)
Definition suspension_strings_or_empty (tpc_c : Z) (chord : Chord)
    : string * string :=
  match get_suspension_strings tpc_c chord with
  | Ok strings => strings
  | Raise _ => ("", "")
  end.

Definition get_labels_df (piece : ScorePiece Measures) (tpc_c : Z)
    : result (list LabelsRow) :=
  let n := length (notes piece) in
  let onsets := note_onset <$> notes piece in
  '(chord_labels, (chord_suspensions_midi, chord_suspensions_tpc)) ←
    chord_label_arrays piece tpc_c;
  key_changes ← get_key_change_input_indices piece;
  key_labels ← gt_array Key_get_one_hot_index 0 n (keys piece) key_changes;
  duration_cache ← get_duration_cache get_range_length piece;
  mapM (labels_row tpc_c)
    (filter sounding
       (zip duration_cache
          (zip chord_labels
             (zip key_labels
                (zip chord_suspensions_tpc
                   (zip chord_suspensions_midi onsets)))))).

End LabelsDf.

(** The row of note [k] in a frame with one row per note with a
    duration: the number of such notes before it. *)
Definition row_index (duration_cache : list Q) (k : nat) : nat :=
  length (filter (fun q => Is_true (negb (Qeq_bool q 0)))
            (take k duration_cache)).

Module LabelsSamples.

(** The second chord of [ResultsSamples.grace_piece] is suspended. *)
Definition suspension (chord : Chord) : option string :=
  if root chord =? 16 then Some "64" else None.

Definition one_hot (chord : Chord) : Z := root chord - 15.

Definition key_one_hot (_ : Key) : Z := 0.

(** An added pitch in an upper octave and a replaced pitch. *)
Definition added_and_removed (_ : Z) (_ : ChordType) (_ : string) (_ : Z)
    (_ : KeyMode) : list (string * string) :=
  [("", "+17"); ("16", "18")].

Definition int_of_str (s : string) : result Z :=
  match NilZero.int_of_string s with
  | Some i => Ok (Z.of_int i)
  | None => Raise ValueError
  end.

Definition pitch_string (pitch : Z) (_ : PitchType) : string := pretty pitch.

Definition pitch_from_string (s : string) (_ : PitchType) : Z :=
  match int_of_str s with
  | Ok pitch => ((pitch - 15) * 7) `mod` 12
  | Raise _ => 0
  end.

Definition chord_labels_list : list (Z * ChordType * Z) :=
  [(15, CT_MAJOR, 0); (16, CT_MAJOR, 0)].

Definition key_labels_list : list (Z * KeyMode) := [(15, MAJOR)].

Definition labels : result (list LabelsRow) :=
  get_labels_df ResultsSamples.range_length 15 suspension one_hot key_one_hot
    added_and_removed pitch_string pitch_from_string chord_labels_list
    key_labels_list int_of_str ResultsSamples.grace_piece 15.

End LabelsSamples.

Module ChordlessSamples.

(** One note and no harmony. *)
Definition chordless_piece : ScorePiece unit :=
  {| measures_df := tt;
     notes := [PieceSamples.note_at 60 0 1];
     chords := [];
     keys := [];
     chord_changes := [];
     chord_ranges := [];
     key_changes := [];
     name := None |}.

End ChordlessSamples.

(* ===================================================================== *)
(** * Properties *)
(* ===================================================================== *)

(** ** Python runtime *)

Lemma Ok_inj {A} (x y : A) : Ok x = Ok y -> x = y.
Proof. intros H. injection H as H. exact H. Qed.

Lemma slice_tail {A} (x : A) (l : list A) :
  slice (x :: l) (Some 1) None = l.
Proof.
  unfold slice, slice_bounds, clamp_index. cbn [from_option length].
  destruct (1 <? 0) eqn:E; [lia|].
  replace (Z.to_nat (Z.min 1 (Z.of_nat (S (length l))))) with 1%nat by lia.
  cbn [drop]. rewrite Nat.sub_succ, Nat.sub_0_r. apply firstn_all.
Qed.

Lemma slice_init {A} (l : list A) :
  slice l None (Some (-1)) = take (pred (length l)) l.
Proof.
  unfold slice, slice_bounds, clamp_index. cbn [from_option].
  destruct (-1 <? 0) eqn:E; [|lia].
  rewrite drop_0. f_equal. lia.
Qed.

Lemma zip_take_l {A B} (l : list A) (k : list B) :
  (length k <= length l)%nat -> zip (take (length k) l) k = zip l k.
Proof.
  revert k. induction l as [|a l IH]; intros [|b k] Hk; simpl in *; try reflexivity; try lia.
  f_equal. apply IH. lia.
Qed.

(** ** The reduction mask *)

Section ReductionMaskFacts.

Context {T K : Type}.
Variable is_repeated : K -> T -> T -> bool.
Variable no_kwargs : K.

Lemma adjacent_pairs_cons (x : T) (rest : list T) :
  zip (slice (x :: rest) None (Some (-1))) (slice (x :: rest) (Some 1) None)
  = zip (x :: rest) rest.
Proof.
  rewrite slice_tail, slice_init. cbn [length pred].
  apply zip_take_l. simpl. lia.
Qed.

(** The loop, when the entries of [done_] are settled and the pair
    [(prev, next)] has index [k], writes the closed form behind them. *)
Lemma mask_loop (kw : K) (rest : list T) :
  forall (prev : T) (done_ : list bool) (k : nat),
    length done_ = S k ->
    fold_left (mask_step is_repeated kw)
      (imap (fun i p => (k + i, p)%nat) (zip (prev :: rest) rest))
      (done_ ++ replicate (length rest) true)
    = done_ ++ mask_after is_repeated kw prev rest.
Proof.
  induction rest as [|next rest IH]; intros prev done_ k Hk.
  - reflexivity.
  - cbn [zip zip_with imap fold_left mask_step mask_after length replicate].
    rewrite Nat.add_0_r.
    specialize (IH next (done_ ++ [negb (is_repeated kw next prev)]) (S k)).
    rewrite length_app in IH. cbn [length] in IH.
    rewrite <- !app_assoc in IH. cbn [app] in IH.
    rewrite <- IH by lia. clear IH.
    f_equal.
    + apply imap_ext. intros i [a b] _. simpl. f_equal. lia.
    + destruct (is_repeated kw next prev); cbn [negb].
      * rewrite insert_app_r_alt by lia.
        replace (S k - length done_)%nat with 0%nat by lia.
        reflexivity.
      * reflexivity.
Qed.

Lemma get_reduction_mask_closed (inputs : list T) (kwargs : option K) :
  get_reduction_mask is_repeated no_kwargs inputs kwargs
  = mask_closed is_repeated (default no_kwargs kwargs) inputs.
Proof.
  unfold get_reduction_mask. destruct inputs as [|x rest]; [reflexivity|].
  rewrite adjacent_pairs_cons. unfold enumerate.
  exact (mask_loop (default no_kwargs kwargs) rest x [true] 0%nat eq_refl).
Qed.

Lemma mask_after_length (kw : K) (rest : list T) :
  forall prev, length (mask_after is_repeated kw prev rest) = length rest.
Proof. induction rest; intros; simpl; auto. Qed.

Lemma mask_after_lookup (kw : K) (rest : list T) :
  forall (prev : T) (j : nat) (a b : T),
    (prev :: rest) !! j = Some a ->
    rest !! j = Some b ->
    mask_after is_repeated kw prev rest !! j
    = Some (negb (is_repeated kw b a)).
Proof.
  induction rest as [|next rest IH]; intros prev j a b Ha Hb.
  - destruct j; discriminate.
  - destruct j as [|j]; simpl in *.
    + congruence.
    + eapply IH; eauto.
Qed.

End ReductionMaskFacts.

(** ** Merging repeated chords *)

Lemma getitem_last {A} (l : list A) (x : A) :
  getitem (l ++ [x]) (-1) = Ok x.
Proof.
  unfold getitem. rewrite length_app. cbn [length].
  destruct (-1 <? 0) eqn:E; [|lia].
  destruct (-1 + Z.of_nat (length l + 1) <? 0) eqn:E2; [lia|].
  replace (Z.to_nat (-1 + Z.of_nat (length l + 1))) with (length l + 0)%nat by lia.
  rewrite lookup_app_r by lia.
  replace (length l + 0 - length l)%nat with 0%nat by lia. reflexivity.
Qed.

Section ChordMergeFacts.

Variable merge_pitches : list Z -> list Z -> list Z.
Variable use_inversions : bool.

Local Abbreviation rep := (Chord_is_repeated use_inversions).
Local Abbreviation merge := (merge_with merge_pitches).

Lemma merge_loop (rest : list Chord) :
  forall (cur prev : Chord) (acc : list Chord),
    fold_left (merge_step merge_pitches)
      (zip rest (mask_after Chord_is_repeated use_inversions prev rest))
      (Ok (acc ++ [cur]))
    = Ok (acc ++ merge_runs merge_pitches use_inversions cur prev rest).
Proof.
  induction rest as [|next rest IH]; intros cur prev acc.
  - reflexivity.
  - cbn [mask_after zip zip_with fold_left merge_runs].
    destruct (rep next prev); cbn [negb].
    + unfold merge_step at 2. cbn [mbind result_bind].
      rewrite getitem_last. rewrite length_app. cbn [length].
      replace (pred (length acc + 1)) with (length acc + 0)%nat by lia.
      cbn [mbind result_bind].
      rewrite insert_app_r. cbn [insert list_insert].
      apply IH.
    + unfold merge_step at 2. cbn [mbind result_bind].
      rewrite (IH next next (acc ++ [cur])).
      rewrite <- app_assoc. reflexivity.
Qed.

Lemma reduce_chords_closed (chords_list : list Chord) :
  reduce_chords merge_pitches use_inversions chords_list
  = Ok (reduce_closed merge_pitches use_inversions chords_list).
Proof.
  unfold reduce_chords. rewrite get_reduction_mask_closed.
  destruct chords_list as [|c rest]; [reflexivity|].
  cbn [mask_closed zip zip_with fold_left default reduce_closed].
  unfold merge_step at 2. cbn [mbind result_bind].
  exact (merge_loop rest c c []).
Qed.

(** A merged chord keeps the label and the onset of the survivor, so it
    is a repeat of whatever the survivor was a repeat of. *)
Lemma rep_merge_l (a b x : Chord) : rep (merge a b) x = rep a x.
Proof. reflexivity. Qed.

(** To the chords that follow, the merged chord looks like the chord it
    absorbed last. *)
Lemma rep_merge_r (cur next c : Chord) :
  rep next cur = true -> rep c (merge cur next) = rep c next.
Proof.
  unfold Chord_is_repeated. cbn [root chord_type inversion offset merge_with].
  intros H.
  apply andb_true_iff in H as [H _].
  apply andb_true_iff in H as [H Hi].
  apply andb_true_iff in H as [Hr Ht].
  apply Z.eqb_eq in Hr. apply bool_decide_eq_true in Ht.
  rewrite Hr, Ht.
  destruct use_inversions; [apply Z.eqb_eq in Hi; rewrite Hi|]; reflexivity.
Qed.

Lemma merge_runs_head (rest : list Chord) :
  forall cur prev, exists h t,
    merge_runs merge_pitches use_inversions cur prev rest = h :: t
    /\ forall x, rep h x = rep cur x.
Proof.
  induction rest as [|next rest IH]; intros cur prev; cbn [merge_runs].
  - eauto.
  - destruct (rep next prev).
    + destruct (IH (merge cur next) next) as (h & t & -> & Hh).
      exists h, t. split; [reflexivity|]. intros x. rewrite Hh. apply rep_merge_l.
    + eauto.
Qed.

Lemma merge_runs_no_adjacent_repeat (rest : list Chord) :
  forall cur prev,
    (forall c, rep c cur = rep c prev) ->
    no_adjacent_repeat use_inversions
      (merge_runs merge_pitches use_inversions cur prev rest) = true.
Proof.
  induction rest as [|next rest IH]; intros cur prev Hlike; cbn [merge_runs].
  - reflexivity.
  - destruct (rep next prev) eqn:Hrep.
    + apply IH. intros c. apply rep_merge_r. rewrite Hlike. exact Hrep.
    + pose proof (IH next next (fun _ => eq_refl)) as Hrest.
      destruct (merge_runs_head rest next next) as (h & t & Heq & Hh).
      rewrite Heq in *. cbn [no_adjacent_repeat].
      rewrite Hh, Hlike, Hrep. exact Hrest.
Qed.

Lemma merge_runs_fixed (rest : list Chord) :
  forall prev,
    no_adjacent_repeat use_inversions (prev :: rest) = true ->
    merge_runs merge_pitches use_inversions prev prev rest = prev :: rest.
Proof.
  induction rest as [|next rest IH]; intros prev H.
  - reflexivity.
  - cbn [no_adjacent_repeat] in H. apply andb_true_iff in H as [H1 H2].
    cbn [merge_runs]. apply negb_true_iff in H1. rewrite H1.
    f_equal. apply IH. exact H2.
Qed.

Lemma reduce_closed_no_adjacent_repeat (chords_list : list Chord) :
  no_adjacent_repeat use_inversions
    (reduce_closed merge_pitches use_inversions chords_list) = true.
Proof.
  destruct chords_list as [|c rest]; [reflexivity|].
  apply merge_runs_no_adjacent_repeat. reflexivity.
Qed.

Lemma reduce_closed_fixed (l : list Chord) :
  no_adjacent_repeat use_inversions l = true ->
  reduce_closed merge_pitches use_inversions l = l.
Proof.
  destruct l as [|c rest]; [reflexivity|]. apply merge_runs_fixed.
Qed.

End ChordMergeFacts.

(** C1. [get_reduction_mask] keeps index 0 and drops index [i+1] exactly
    when [inputs[i+1].is_repeated(inputs[i], **kwargs)] holds for the
    original neighbours, for every element type (chords and keys alike);
    the chord list reduced with this mask and merging has no two
    neighbours that satisfy the repeat predicate, and reducing it again
    gives the same list. *)
Theorem C1_reduction_mask_adjacent_and_idempotent :
  (forall (T K : Type) (is_repeated : K -> T -> T -> bool) (no_kwargs : K)
          (inputs : list T) (kwargs : option K),
      let mask := get_reduction_mask is_repeated no_kwargs inputs kwargs in
      length mask = length inputs
      /\ (forall x, inputs !! 0%nat = Some x -> mask !! 0%nat = Some true)
      /\ (forall i prev next,
             inputs !! i = Some prev -> inputs !! S i = Some next ->
             mask !! S i
             = Some (negb (is_repeated (default no_kwargs kwargs) next prev))))
  /\ (forall (merge_pitches : list Z -> list Z -> list Z) (use_inversions : bool)
             (chords_list : list Chord),
        exists chords,
          reduce_chords merge_pitches use_inversions chords_list = Ok chords
          /\ no_adjacent_repeat use_inversions chords = true
          /\ reduce_chords merge_pitches use_inversions chords = Ok chords).
Proof.
  split.
  - intros T K is_repeated no_kwargs inputs kwargs mask. subst mask.
    rewrite get_reduction_mask_closed.
    destruct inputs as [|x rest]; cbn [mask_closed].
    + repeat split; intros; discriminate.
    + repeat split.
      * cbn [length]. now rewrite mask_after_length.
      * intros i prev next Hp Hn. cbn [lookup list_lookup] in Hn |- *.
        now apply mask_after_lookup.
  - intros merge_pitches use_inversions chords_list.
    exists (reduce_closed merge_pitches use_inversions chords_list).
    split; [apply reduce_chords_closed|].
    pose proof (reduce_closed_no_adjacent_repeat merge_pitches use_inversions
                  chords_list) as H.
    split; [exact H|].
    rewrite reduce_chords_closed. f_equal. now apply reduce_closed_fixed.
Qed.

(** On I I V I the second tonic is dropped, the last one is kept: a label
    that returns after another label stays a segment of its own. *)
Example reduction_mask_I_I_V_I :
  get_reduction_mask Chord_is_repeated true Samples.chords_I_I_V_I (Some true)
  = [true; false; true; true].
Proof. reflexivity. Qed.

(** Merging A (onset 0, offset 2) with B (onset 2, offset 5) gives one
    chord from 0 to 5 of duration 5 with A's label. *)
Example reduce_I_I_V_I :
  reduce_chords Samples.union_pitches true Samples.chords_I_I_V_I
  = Ok [ {| root := 15; bass := 15; chord_type := CT_MAJOR; inversion := 0;
            onset := (0, 0%Q); offset := (0, 5%Q);
            duration := ((2 - 0) + (5 - 2))%Q;
            key_tonic := 15; key_mode := MAJOR; pitch_type := TPC;
            chord_pitches := [] |};
         Samples.cV; Samples.cI_c ]
  /\ (((2 - 0) + (5 - 2)) == 5)%Q.
Proof. split; reflexivity. Qed.

Lemma C1_reduction_witness :
  Samples.chords_I_I_V_I !! 0%nat = Some Samples.cI_a
  /\ Samples.chords_I_I_V_I !! 1%nat = Some Samples.cI_b
  /\ get_reduction_mask Chord_is_repeated true Samples.chords_I_I_V_I (Some true)
       !! 1%nat
     = Some (negb (Chord_is_repeated true Samples.cI_b Samples.cI_a)).
Proof.
  split; [reflexivity|]. split; [reflexivity|].
  exact (proj2 (proj2 (proj1 C1_reduction_mask_adjacent_and_idempotent
           Chord bool Chord_is_repeated true Samples.chords_I_I_V_I (Some true)))
           0%nat Samples.cI_a Samples.cI_b eq_refl eq_refl).
Defined.

(** ** The note cursor *)

Lemma advance_cursor_ge (notes : list Note) (o : Position) (c : nat) :
  (c <= advance_cursor notes o c)%nat.
Proof.
  funelim (advance_cursor notes o c); try lia.
Qed.

Lemma advance_cursor_bound (notes : list Note) (o : Position) (c : nat) :
  (c < length notes)%nat -> (advance_cursor notes o c < length notes)%nat.
Proof.
  funelim (advance_cursor notes o c); intros; lia.
Qed.

Lemma advance_cursor_passed (notes : list Note) (o : Position) (c : nat) :
  forall k note,
    (c <= k < advance_cursor notes o c)%nat ->
    notes !! k = Some note -> earlier o note.
Proof.
  funelim (advance_cursor notes o c); intros k n Hk Hn; try lia.
  destruct (decide (k = note_index)) as [->|Hne].
  - unfold earlier.
    match goal with
    | Hl : notes0 !! note_index = Some ?m, Hb : pos_ltb (note_onset ?m) _ = true |- _ =>
        rewrite Hn in Hl; injection Hl as <-; now rewrite Hb
    end.
  - match goal with IH : forall k note, _ -> _ -> earlier _ _ |- _ =>
      eapply IH; eauto; lia end.
Qed.

Lemma advance_cursor_rest (notes : list Note) (o : Position) (c : nat) :
  (advance_cursor notes o c + 1 < length notes)%nat ->
  exists note, notes !! advance_cursor notes o c = Some note /\ ~ earlier o note.
Proof.
  funelim (advance_cursor notes o c); intros Hlen; try lia.
  - match goal with Hn : notes0 !! note_index = None |- _ =>
      apply lookup_ge_None in Hn; lia end.
  - auto.
  - match goal with
    | Hl : notes0 !! note_index = Some ?m, Hb : pos_ltb (note_onset ?m) _ = false |- _ =>
        exists m; split; [exact Hl|]; unfold earlier; now rewrite Hb
    end.
Qed.

Lemma advance_cursor_stop (notes : list Note) (o : Position) (c : nat) :
  cursor_stop notes c o (advance_cursor notes o c).
Proof.
  split; [apply advance_cursor_ge|].
  split; [apply advance_cursor_passed|apply advance_cursor_rest].
Qed.

Lemma chord_changes_from_length (notes : list Note) (chords : list Chord) :
  forall c, length (chord_changes_from notes c chords) = length chords.
Proof. induction chords; intros; simpl; auto. Qed.

Lemma chord_changes_from_ge (notes : list Note) (chords : list Chord) :
  forall c i x, chord_changes_from notes c chords !! i = Some x -> (c <= x)%nat.
Proof.
  induction chords as [|ch chords IH]; intros c i x Hx; [discriminate|].
  cbn [chord_changes_from] in Hx.
  pose proof (advance_cursor_ge notes (onset ch) c).
  destruct i as [|i]; simpl in Hx.
  - injection Hx as <-. lia.
  - apply IH in Hx. lia.
Qed.

Lemma chord_changes_from_mono (notes : list Note) (chords : list Chord) :
  forall c i j x y, (i < j)%nat ->
    chord_changes_from notes c chords !! i = Some x ->
    chord_changes_from notes c chords !! j = Some y -> (x <= y)%nat.
Proof.
  induction chords as [|ch chords IH]; intros c i j x y Hij Hx Hy; [discriminate|].
  cbn [chord_changes_from] in Hx, Hy.
  destruct j as [|j]; [lia|]. simpl in Hy.
  destruct i as [|i]; simpl in Hx.
  - injection Hx as <-. eapply chord_changes_from_ge; eauto.
  - apply (IH (advance_cursor notes (onset ch) c) i j x y); [lia|exact Hx|exact Hy].
Qed.

Lemma chord_changes_from_bound (notes : list Note) (chords : list Chord) :
  forall c i x, (c < length notes)%nat ->
    chord_changes_from notes c chords !! i = Some x -> (x < length notes)%nat.
Proof.
  induction chords as [|ch chords IH]; intros c i x Hc Hx; [discriminate|].
  cbn [chord_changes_from] in Hx.
  pose proof (advance_cursor_bound notes (onset ch) c Hc).
  destruct i as [|i]; simpl in Hx.
  - injection Hx as <-. lia.
  - eapply IH; eauto.
Qed.

(** Entry [i] is where the cursor stops for chord [i] when it starts from
    entry [i-1] (from 0 for the first chord). *)
Lemma chord_changes_from_stop (notes : list Note) (chords : list Chord) :
  forall c i chord, chords !! i = Some chord ->
    exists j, chord_changes_from notes c chords !! i = Some j
      /\ cursor_stop notes
           (match i with
            | O => c
            | S i' => default O (chord_changes_from notes c chords !! i')
            end) (onset chord) j.
Proof.
  induction chords as [|ch chords IH]; intros c i chord Hi; [discriminate|].
  cbn [chord_changes_from].
  destruct i as [|i]; simpl in Hi.
  - injection Hi as ->. eexists. split; [reflexivity|]. apply advance_cursor_stop.
  - destruct (IH (advance_cursor notes (onset ch) c) i chord Hi) as (j & Hj & Hstop).
    exists j. split; [exact Hj|].
    destruct i as [|i]; [exact Hstop|]. exact Hstop.
Qed.

(** For chords in onset order every note before the cursor starts
    earlier than the chord. *)
Lemma pos_ltb_le_trans (a b c : Position) :
  pos_ltb a b = true -> pos_ltb c b = false -> pos_ltb a c = true.
Proof.
  unfold pos_ltb, Qltb. destruct a as [a1 a2], b as [b1 b2], c as [c1 c2]. simpl.
  intros H1 H2.
  apply orb_true_iff in H1. apply orb_false_iff in H2 as [H2 H3].
  apply orb_true_iff.
  destruct (Z.ltb_spec a1 c1) as [|Hge]; [now left|right].
  destruct H1 as [H1|H1].
  - assert (c1 = b1) by lia. subst c1. lia.
  - apply andb_true_iff in H1 as [H1 H4].
    assert (a1 = b1) by lia. subst b1.
    assert (c1 = a1) by lia. subst c1.
    rewrite Z.eqb_refl in *. simpl in *.
    apply negb_true_iff. apply negb_true_iff in H4. apply negb_false_iff in H3.
    destruct (Qle_bool c2 a2) eqn:E; [|reflexivity].
    apply Qle_bool_iff in E, H3.
    assert (Hle : (b2 <= a2)%Q) by (eapply Qle_trans; eauto).
    apply Qle_bool_iff in Hle. congruence.
Qed.

Lemma chord_changes_from_all_earlier (notes : list Note) (chords : list Chord) :
  forall c,
    onset_ordered chords ->
    (forall first, chords !! 0%nat = Some first ->
       forall k note, (k < c)%nat -> notes !! k = Some note ->
         earlier (onset first) note) ->
    forall i chord j, chords !! i = Some chord ->
      chord_changes_from notes c chords !! i = Some j ->
      forall k note, (k < j)%nat -> notes !! k = Some note ->
        earlier (onset chord) note.
Proof.
  induction chords as [|ch chords IH]; intros c Hord Hc i chord j Hi Hj k note Hk Hn;
    [discriminate|].
  cbn [chord_changes_from] in Hj.
  assert (Hhead : forall k note, (k < advance_cursor notes (onset ch) c)%nat ->
            notes !! k = Some note -> earlier (onset ch) note).
  { intros k' n' Hk' Hn'. destruct (decide (k' < c)%nat).
    - apply (Hc ch eq_refl k' n'); [assumption|exact Hn'].
    - apply (advance_cursor_passed notes (onset ch) c k' n'); [lia|exact Hn']. }
  destruct i as [|i]; simpl in Hi, Hj.
  - injection Hi as ->. injection Hj as <-. eauto.
  - apply (IH (advance_cursor notes (onset ch) c)) with (i := i) (j := j) (k := k);
      try assumption.
    + intros a b x y Hab Hx Hy. apply (Hord (S a) (S b)); simpl; auto. lia.
    + intros first Hfirst k' n' Hk' Hn'.
      specialize (Hhead k' n' Hk' Hn'). unfold earlier in *.
      apply Is_true_true in Hhead. apply Is_true_true.
      eapply pos_ltb_le_trans; eauto.
      apply (Hord 0%nat 1%nat); simpl; auto.
Qed.

Lemma get_range_start_spec (notes : list Note) (o : Position) :
  first_in_range notes o (get_range_start o notes).
Proof.
  unfold get_range_start, first_in_range.
  destruct (list_find (in_range_from o) notes) as [[r note]|] eqn:E.
  - apply list_find_Some in E as (Hr & Hin & Hfirst).
    split; [|left; eauto].
    intros k n Hk Hn. eapply Hfirst; eauto.
  - apply list_find_None in E. split; [|now right].
    intros k n _ Hn. rewrite Forall_lookup in E. eapply E; eauto.
Qed.

(** ** Boolean masks *)

Lemma compress_cons {A} (x : A) (l : list A) (b : bool) (mask : list bool) :
  compress (x :: l) (b :: mask)
  = if b then x :: compress l mask else compress l mask.
Proof.
  unfold compress. cbn [zip zip_with].
  destruct b.
  - rewrite filter_cons_True by exact I. reflexivity.
  - rewrite filter_cons_False by (simpl; tauto). reflexivity.
Qed.

Lemma compress_elem_of {A} (l : list A) :
  forall mask x, x ∈ compress l mask -> x ∈ l.
Proof.
  induction l as [|a l IH]; intros [|b mask] x Hx;
    try (unfold compress in Hx; simpl in Hx; now apply elem_of_nil in Hx).
  rewrite compress_cons in Hx. destruct b.
  - apply elem_of_cons in Hx as [->|Hx]; [left|right; eauto].
  - right; eauto.
Qed.

Lemma compress_sorted {A} (R : A -> A -> Prop) (l : list A) :
  forall mask, StronglySorted R l -> StronglySorted R (compress l mask).
Proof.
  induction l as [|a l IH]; intros [|b mask] Hs; try constructor.
  rewrite compress_cons. apply StronglySorted_inv in Hs as [Hs Ha].
  destruct b; [|auto].
  constructor; [auto|].
  rewrite Forall_forall in Ha |- *. intros y Hy. apply Ha.
  eapply compress_elem_of; eauto.
Qed.

Lemma compress_length {A} (l : list A) :
  forall mask, length l = length mask ->
    length (compress l mask) = length (filter Is_true mask).
Proof.
  induction l as [|a l IH]; intros [|b mask] Hlen; try discriminate; [reflexivity|].
  rewrite compress_cons. injection Hlen as Hlen. destruct b.
  - rewrite filter_cons_True by exact I. simpl. now rewrite IH.
  - rewrite filter_cons_False by (simpl; tauto). now apply IH.
Qed.

Lemma seq_sorted (n : nat) : forall k, StronglySorted lt (seq k n).
Proof.
  induction n as [|n IH]; intros k; simpl; constructor; [apply IH|].
  apply Forall_forall. intros x Hx. apply elem_of_seq in Hx. lia.
Qed.

Lemma sorted_lookup {A} (R : A -> A -> Prop) (l : list A) :
  StronglySorted R l ->
  forall i j x y, (i < j)%nat -> l !! i = Some x -> l !! j = Some y -> R x y.
Proof.
  induction 1 as [|a l Hs IH Ha]; intros i j x y Hij Hx Hy; [discriminate|].
  destruct j as [|j]; [lia|]. simpl in Hy.
  destruct i as [|i]; simpl in Hx.
  - injection Hx as <-. rewrite Forall_forall in Ha. apply Ha.
    eapply list_elem_of_lookup_2; eauto.
  - eapply (IH i j); eauto. lia.
Qed.

Lemma true_positions_sorted (changes : list bool) :
  StronglySorted lt (true_positions changes).
Proof. apply compress_sorted, seq_sorted. Qed.

Lemma true_positions_bound (changes : list bool) (x : nat) :
  x ∈ true_positions changes -> (x < length changes)%nat.
Proof.
  intros Hx. apply compress_elem_of in Hx. apply elem_of_seq in Hx. lia.
Qed.

Lemma bool_index_Ok {A} (l : list A) (mask : list bool) (r : list A) :
  bool_index l mask = Ok r -> length l = length mask /\ r = compress l mask.
Proof.
  unfold bool_index. case_bool_decide; [|discriminate]. intros [= <-]. auto.
Qed.

Lemma merge_runs_length (merge_pitches : list Z -> list Z -> list Z)
    (use_inversions : bool) (rest : list Chord) :
  forall cur prev,
    length (merge_runs merge_pitches use_inversions cur prev rest)
    = S (length (filter Is_true
                   (mask_after Chord_is_repeated use_inversions prev rest))).
Proof.
  induction rest as [|next rest IH]; intros cur prev; [reflexivity|].
  cbn [merge_runs mask_after].
  destruct (Chord_is_repeated use_inversions next prev); cbn [negb].
  - rewrite filter_cons_False by (simpl; tauto). apply IH.
  - rewrite filter_cons_True by exact I. cbn [length]. now rewrite IH.
Qed.

Lemma reduce_closed_length (merge_pitches : list Z -> list Z -> list Z)
    (use_inversions : bool) (chords_list : list Chord) :
  length (reduce_closed merge_pitches use_inversions chords_list)
  = length (filter Is_true
              (mask_closed Chord_is_repeated use_inversions chords_list)).
Proof.
  destruct chords_list as [|c rest]; [reflexivity|].
  cbn [reduce_closed mask_closed].
  rewrite filter_cons_True by exact I. apply merge_runs_length.
Qed.

Lemma int_index_length {A} (l : list A) (idx : list nat) :
  Forall (fun i => (i < length l)%nat) idx ->
  length (int_index l idx) = length idx.
Proof.
  unfold int_index. induction 1 as [|i idx Hi _ IH]; [reflexivity|].
  cbn [omap list_omap].
  destruct (lookup_lt_is_Some_2 l i Hi) as [x ->]. simpl. now rewrite IH.
Qed.

Lemma changes_from_length (key_cols : list KeyCols) :
  forall prev, length (changes_from prev key_cols) = length key_cols.
Proof. induction key_cols; intros; simpl; auto. Qed.

Lemma valid_rows_ilocs {R A} (from_series : R -> option A) (df : list R) :
  Forall (fun i => (i < length df)%nat) ((valid_rows from_series df).*2).
Proof.
  apply Forall_forall. intros i Hi.
  apply list_elem_of_fmap in Hi as ([a i'] & -> & Hin).
  unfold valid_rows in Hin. apply list_elem_of_omap in Hin as ([k r] & Hk & Hf).
  unfold enumerate in Hk. apply elem_of_lookup_imap_1 in Hk as (k' & r' & [= -> ->] & Hl).
  simpl in Hf. destruct (from_series r') eqn:E; simpl in Hf; [|discriminate].
  injection Hf as <- <-. simpl. eapply lookup_lt_Some; eauto.
Qed.

Section ScorePieceFacts.

Context {NoteRow ChordRow Measures : Type}.
Variable Note_from_series : Measures -> NoteRow -> option Note.
Variable Chord_from_series :
  Measures -> (ChordType -> ChordType) -> bool -> bool -> ChordRow -> option Chord.
Variable Key_from_series : ChordRow -> option Key.
Variable Key_is_repeated : bool -> Key -> Key -> bool.
Variable merge_pitches : list Z -> list Z -> list Z.
Variable key_columns : ChordRow -> KeyCols.

Local Abbreviation build :=
  (get_score_piece_from_data_frames Note_from_series Chord_from_series
     Key_from_series Key_is_repeated merge_pitches key_columns).

(** What a successful construction has stored. *)
Lemma get_score_piece_inv notes_df chords_df m red ui ur nm piece :
  build notes_df chords_df m red ui ur nm = Ok piece ->
  chord_changes piece
  = Z.of_nat <$> chord_changes_from (notes piece) 0 (chords piece)
  /\ chord_ranges piece
     = (fun r : nat * nat => (Z.of_nat r.1, Z.of_nat r.2))
         <$> chord_ranges_of (notes piece) (chords piece)
               (chord_changes_from (notes piece) 0 (chords piece))
  /\ exists (changes mask : list bool),
       length changes = length (chords piece)
       /\ key_changes piece = Z.of_nat <$> compress (true_positions changes) mask.
Proof.
  unfold get_score_piece_from_data_frames.
  destruct (hsplit_squeeze chords_df _) as [[chords_list chord_ilocs]|] eqn:Hc;
    [|discriminate].
  cbn [mbind result_bind].
  change (fold_left (merge_step merge_pitches) _ (Ok []))
    with (reduce_chords merge_pitches ui chords_list).
  rewrite reduce_chords_closed. cbn [mbind result_bind].
  destruct (bool_index chord_ilocs _) as [ilocs|] eqn:Hi; [|discriminate].
  cbn [mbind result_bind].
  destruct (hsplit_squeeze notes_df _) as [[notes_ note_ilocs]|] eqn:Hn;
    [|discriminate].
  cbn [mbind result_bind].
  destruct (true_positions _) as [|kc0 kcs] eqn:Hk; [discriminate|].
  cbn [mbind result_bind].
  destruct (bool_index (omap _ _) _) as [keys_|] eqn:Hkeys; [|discriminate].
  cbn [mbind result_bind].
  destruct (bool_index (kc0 :: kcs) _) as [kc|] eqn:Hkc; [|discriminate].
  cbn [mbind result_bind].
  intros [= <-]. cbn [chord_changes chord_ranges key_changes notes chords].
  split; [reflexivity|]. split; [reflexivity|].
  apply bool_index_Ok in Hkc as [_ ->]. rewrite <- Hk.
  eexists _, _. split; [|reflexivity].
  unfold key_col_changes. rewrite changes_from_length, length_fmap.
  apply bool_index_Ok in Hi as [Hlen ->].
  rewrite get_reduction_mask_closed in Hlen |- *. cbn [default] in *.
  rewrite int_index_length.
  - rewrite compress_length by exact Hlen. now rewrite reduce_closed_length.
  - apply Forall_forall. intros i Hin. apply compress_elem_of in Hin.
    unfold hsplit_squeeze in Hc. destruct chords_df as [|r0 df]; [discriminate|].
    case_bool_decide; [discriminate|]. injection Hc as <- <-.
    pose proof (valid_rows_ilocs
                  (Chord_from_series m red ui ur) (r0 :: df)) as Hv.
    rewrite Forall_forall in Hv. now apply Hv.
Qed.

End ScorePieceFacts.

Lemma cursor_before_of_nat (l : list nat) (i : nat) :
  Z.to_nat (cursor_before (Z.of_nat <$> l) i)
  = match i with
    | O => O
    | S i' => default O (l !! i')
    end.
Proof.
  destruct i as [|i]; [reflexivity|]. cbn [cursor_before].
  rewrite list_lookup_fmap. destruct (l !! i); simpl; lia.
Qed.

Section AlignmentTheorems.

Context {NoteRow ChordRow Measures : Type}.
Variable Note_from_series : Measures -> NoteRow -> option Note.
Variable Chord_from_series :
  Measures -> (ChordType -> ChordType) -> bool -> bool -> ChordRow -> option Chord.
Variable Key_from_series : ChordRow -> option Key.
Variable Key_is_repeated : bool -> Key -> Key -> bool.
Variable merge_pitches : list Z -> list Z -> list Z.
Variable key_columns : ChordRow -> KeyCols.

Local Abbreviation build :=
  (get_score_piece_from_data_frames Note_from_series Chord_from_series
     Key_from_series Key_is_repeated merge_pitches key_columns).

(** C2, amended. For every chord [i] of a piece built by
    [get_score_piece_from_data_frames], [chord_changes[i]] is where the
    note cursor stops: it starts at the entry of the previous chord (at 0
    for the first chord), passes only notes that start earlier than the
    chord, and rests on a note that does not start earlier unless it has
    reached the last note, which it never leaves; when the chords are in
    onset order, every note before [chord_changes[i]] starts earlier than
    chord [i]. [chord_ranges[i]] starts at [get_range_start], the first
    note whose onset is at or after, or whose offset is after, the chord's
    onset, or [len(notes)] when there is none. *)
Theorem C2_chord_changes_cursor_and_range_start
    notes_df chords_df m red ui ur nm piece :
  build notes_df chords_df m red ui ur nm = Ok piece ->
  forall i chord, chords piece !! i = Some chord ->
    exists (j r : nat) (e : Z),
      chord_changes piece !! i = Some (Z.of_nat j)
      /\ cursor_stop (notes piece)
           (Z.to_nat (cursor_before (chord_changes piece) i)) (onset chord) j
      /\ (onset_ordered (chords piece) ->
          forall k note, (k < j)%nat -> notes piece !! k = Some note ->
            earlier (onset chord) note)
      /\ chord_ranges piece !! i = Some (Z.of_nat r, e)
      /\ r = get_range_start (onset chord) (notes piece)
      /\ first_in_range (notes piece) (onset chord) r.
Proof.
  intros Hb i chord Hi.
  destruct (get_score_piece_inv _ _ _ _ _ _ _ _ _ _ _ _ _ _ Hb) as (Hcc & Hcr & _).
  destruct (chord_changes_from_stop (notes piece) (chords piece) 0%nat i chord Hi)
    as (j & Hj & Hstop).
  assert (Hzip : exists e,
    zip (chords piece)
      (drop 1 (chord_changes_from (notes piece) 0 (chords piece))
         ++ [length (notes piece)]) !! i = Some (chord, e)).
  { destruct (lookup_lt_is_Some_2
       (drop 1 (chord_changes_from (notes piece) 0 (chords piece))
          ++ [length (notes piece)]) i) as [e He].
    - rewrite length_app, length_drop, chord_changes_from_length. simpl.
      apply lookup_lt_Some in Hi. lia.
    - exists e. apply lookup_zip_with_Some. eauto. }
  destruct Hzip as (e & He).
  exists j, (get_range_start (onset chord) (notes piece)), (Z.of_nat e).
  split; [rewrite Hcc, list_lookup_fmap, Hj; reflexivity|].
  split.
  { rewrite Hcc, cursor_before_of_nat. destruct i; exact Hstop. }
  split.
  { intros Hord. eapply chord_changes_from_all_earlier; eauto.
    intros first _ k note Hk. lia. }
  split.
  { rewrite Hcr, list_lookup_fmap. unfold chord_ranges_of.
    rewrite list_lookup_fmap, He. reflexivity. }
  split; [reflexivity|apply get_range_start_spec].
Qed.

(** C3, amended. In every piece built by
    [get_score_piece_from_data_frames], [chord_changes] is non-decreasing
    and, when the piece has a note, every entry lies in [0, len(notes));
    [key_changes] is strictly increasing with every entry in
    [0, len(chords)). *)
Theorem C3_change_arrays_ordered_and_in_range
    notes_df chords_df m red ui ur nm piece :
  build notes_df chords_df m red ui ur nm = Ok piece ->
  nondecreasing (chord_changes piece)
  /\ (notes piece <> [] ->
      all_within (chord_changes piece) (length (notes piece)))
  /\ strictly_increasing (key_changes piece)
  /\ all_within (key_changes piece) (length (chords piece)).
Proof.
  intros Hb.
  destruct (get_score_piece_inv _ _ _ _ _ _ _ _ _ _ _ _ _ _ Hb)
    as (Hcc & _ & changes & mask & Hlen & Hkc).
  rewrite Hcc, Hkc. split; [|split; [|split]].
  - intros i j x y Hij Hx Hy. rewrite list_lookup_fmap in Hx, Hy.
    destruct (_ !! i) as [x'|] eqn:Ex; [|discriminate].
    destruct (_ !! j) as [y'|] eqn:Ey; [|discriminate].
    injection Hx as <-. injection Hy as <-.
    pose proof (chord_changes_from_mono _ _ _ _ _ _ _ Hij Ex Ey). lia.
  - intros Hne i x Hx. rewrite list_lookup_fmap in Hx.
    destruct (_ !! i) as [x'|] eqn:Ex; [|discriminate]. injection Hx as <-.
    apply chord_changes_from_bound in Ex; [lia|].
    destruct (notes piece); [contradiction|simpl; lia].
  - intros i j x y Hij Hx Hy. rewrite list_lookup_fmap in Hx, Hy.
    destruct (_ !! i) as [x'|] eqn:Ex; [|discriminate].
    destruct (_ !! j) as [y'|] eqn:Ey; [|discriminate].
    injection Hx as <-. injection Hy as <-.
    pose proof (sorted_lookup lt _
                  (compress_sorted lt _ mask (true_positions_sorted changes))
                  _ _ _ _ Hij Ex Ey). lia.
  - intros i x Hx. rewrite list_lookup_fmap in Hx.
    destruct (_ !! i) as [x'|] eqn:Ex; [|discriminate]. injection Hx as <-.
    apply list_elem_of_lookup_2, compress_elem_of, true_positions_bound in Ex. lia.
Qed.

End AlignmentTheorems.

(** C2 as stated fails when a chord starts after the onset of every
    note: with notes at 0 and 1 (the second held until 4) and chords at 0
    and 2, the entry of the second chord is note 1, which starts earlier
    than the chord. *)
Lemma C2_first_not_earlier_counterexample :
  exists piece,
    PieceSamples.build PieceSamples.held_notes PieceSamples.held_chords = Ok piece
    /\ ~ (forall i chord, chords piece !! i = Some chord ->
            exists j, chord_changes piece !! i = Some (Z.of_nat j)
                      /\ first_not_earlier (notes piece) (onset chord) j).
Proof.
  eexists. split; [vm_compute; reflexivity|].
  intros H. destruct (H 1%nat _ eq_refl) as (j & Hj & (note & Hn & Hne) & _).
  cbn in Hj. assert (j = 1%nat) as -> by (injection Hj; lia).
  cbn in Hn. injection Hn as <-. apply Hne. exact I.
Qed.

(** On the same piece the amended statement places the cursor. *)
Lemma C2_chord_changes_witness :
  exists piece chord,
    PieceSamples.build PieceSamples.held_notes PieceSamples.held_chords = Ok piece
    /\ chords piece !! 1%nat = Some chord
    /\ exists (j r : nat) (e : Z),
         chord_changes piece !! 1%nat = Some (Z.of_nat j)
         /\ cursor_stop (notes piece)
              (Z.to_nat (cursor_before (chord_changes piece) 1)) (onset chord) j
         /\ (onset_ordered (chords piece) ->
             forall k note, (k < j)%nat -> notes piece !! k = Some note ->
               earlier (onset chord) note)
         /\ chord_ranges piece !! 1%nat = Some (Z.of_nat r, e)
         /\ r = get_range_start (onset chord) (notes piece)
         /\ first_in_range (notes piece) (onset chord) r.
Proof.
  eexists. eexists.
  split; [vm_compute; reflexivity|]. split; [reflexivity|].
  eapply (C2_chord_changes_cursor_and_range_start
            PieceSamples.row_note PieceSamples.row_chord PieceSamples.row_key
            PieceSamples.same_key Samples.union_pitches snd
            PieceSamples.held_notes PieceSamples.held_chords tt id true true None).
  - vm_compute; reflexivity.
  - reflexivity.
Defined.

(** The two arrays differ: the second chord of the sparse piece changes
    at note 1, while its range starts at note 0, which still sounds. *)
Example chord_changes_and_ranges_differ :
  exists piece,
    PieceSamples.build PieceSamples.sparse_notes PieceSamples.sparse_chords
    = Ok piece
    /\ chord_changes piece = [0; 1; 1]
    /\ chord_ranges piece = [(0, 1); (0, 1); (1, 2)].
Proof. eexists. split; [vm_compute; reflexivity|]. split; reflexivity. Qed.

(** C3 as stated fails when two chords start between the same two note
    onsets: with notes at 0 and 4 and chords at 0, 2 and 4,
    [chord_changes] is [0, 1, 1]. *)
Lemma C3_strictly_increasing_counterexample :
  exists piece,
    PieceSamples.build PieceSamples.sparse_notes PieceSamples.sparse_chords
    = Ok piece
    /\ ~ (strictly_increasing (chord_changes piece)
          /\ all_within (chord_changes piece) (length (notes piece))
          /\ strictly_increasing (key_changes piece)
          /\ all_within (key_changes piece) (length (chords piece))).
Proof.
  eexists. split; [vm_compute; reflexivity|].
  intros [H _]. specialize (H 1%nat 2%nat 1 1). cbn in H.
  specialize (H ltac:(lia) eq_refl eq_refl). lia.
Qed.

Lemma C3_change_arrays_witness :
  exists piece,
    PieceSamples.build PieceSamples.sparse_notes PieceSamples.sparse_chords
    = Ok piece
    /\ nondecreasing (chord_changes piece)
    /\ (notes piece <> [] ->
        all_within (chord_changes piece) (length (notes piece)))
    /\ strictly_increasing (key_changes piece)
    /\ all_within (key_changes piece) (length (chords piece)).
Proof.
  eexists. split; [vm_compute; reflexivity|].
  eapply (C3_change_arrays_ordered_and_in_range
            PieceSamples.row_note PieceSamples.row_chord PieceSamples.row_key
            PieceSamples.same_key Samples.union_pitches snd
            PieceSamples.sparse_notes PieceSamples.sparse_chords tt id true true None).
  vm_compute; reflexivity.
Defined.

(** ** Binary search *)

Section BisectFacts.

Context {A : Type}.
Variable ltb : A -> A -> bool.

Lemma half_between (lo hi : nat) :
  (lo < hi)%nat -> (lo <= (lo + hi) / 2 < hi)%nat.
Proof.
  intros H. pose proof (Nat.div_mod_eq (lo + hi) 2).
  pose proof (Nat.mod_upper_bound (lo + hi) 2 ltac:(lia)). lia.
Qed.

(** Within the list, the search returns. *)
Lemma bisect_loop_returns (a : list A) (x : A) (lo hi : nat) :
  (hi <= length a)%nat -> exists r, bisect_loop ltb a x lo hi = Ok r.
Proof.
  funelim (bisect_loop ltb a x lo hi); intros Hhi; eauto.
  - match goal with Hn : _ !! _ = None |- _ => apply lookup_ge_None in Hn end.
    pose proof (half_between lo hi ltac:(lia)). lia.
  - pose proof (half_between lo hi ltac:(lia)).
    match goal with IH : _ -> exists r, _ |- _ => apply IH; lia end.
Qed.

(** The only exception of the search is the [IndexError] of [a[mid]]. *)
Lemma bisect_loop_raises (a : list A) (x : A) (lo hi : nat) (e : exn) :
  bisect_loop ltb a x lo hi = Raise e -> e = IndexError.
Proof.
  funelim (bisect_loop ltb a x lo hi); intros He; auto; congruence.
Qed.

(** When every element of the searched range is less than [x], the
    search runs to the upper end. *)
Lemma bisect_loop_all_less (a : list A) (x : A) (lo hi : nat) :
  (lo <= hi <= length a)%nat ->
  (forall i am, (lo <= i < hi)%nat -> a !! i = Some am -> ltb am x = true) ->
  bisect_loop ltb a x lo hi = Ok hi.
Proof.
  funelim (bisect_loop ltb a x lo hi); intros Hr Hall.
  - f_equal. lia.
  - match goal with Hn : _ !! _ = None |- _ => apply lookup_ge_None in Hn end.
    pose proof (half_between lo hi ltac:(lia)). lia.
  - pose proof (half_between lo hi ltac:(lia)).
    match goal with IH : _ -> _ -> _ = Ok hi |- _ => apply IH end; [lia|].
    intros i am Hi. apply Hall. lia.
  - pose proof (half_between lo hi ltac:(lia)).
    match goal with
    | Hl : a !! _ = Some ?m, Hb : ltb ?m x = false |- _ =>
        rewrite (Hall ((lo + hi) / 2)%nat m ltac:(lia) Hl) in Hb; discriminate
    end.
Qed.

(** Wherever the search stops short of the upper end, it stops on an
    element that is not less than [x]. *)
Lemma bisect_loop_stops (a : list A) (x : A) (lo hi : nat) (r : nat) :
  (lo <= hi)%nat ->
  bisect_loop ltb a x lo hi = Ok r ->
  (lo <= r <= hi)%nat
  /\ ((r < hi)%nat -> exists am, a !! r = Some am /\ ltb am x = false).
Proof.
  funelim (bisect_loop ltb a x lo hi); intros Hr Hres.
  - injection Hres as <-. split; [lia|]. intros; lia.
  - discriminate.
  - pose proof (half_between lo hi ltac:(lia)).
    match goal with IH : forall r, _ -> _ -> _ |- _ =>
      destruct (IH r ltac:(lia) Hres) as [Hb Hs] end.
    split; [lia|exact Hs].
  - pose proof (half_between lo hi ltac:(lia)).
    match goal with IH : forall r, _ -> _ -> _ |- _ =>
      destruct (IH r ltac:(lia) Hres) as [Hb Hs] end.
    split; [lia|]. intros Hrh.
    destruct (decide (r = (lo + hi) / 2)%nat) as [->|Hne]; [eauto|].
    apply Hs. lia.
Qed.

End BisectFacts.

(** ** Forced positions *)

Lemma mapM_raise_at {X Y} (f : X -> result Y) (l : list X) :
  forall i x e,
    l !! i = Some x ->
    f x = Raise e ->
    (forall k y, (k < i)%nat -> l !! k = Some y -> exists r, f y = Ok r) ->
    mapM f l = Raise e.
Proof.
  induction l as [|a l IH]; intros i x e Hi Hx Hpre; [discriminate|].
  cbn [mapM]. destruct i as [|i]; simpl in Hi.
  - injection Hi as ->. rewrite Hx. reflexivity.
  - destruct (Hpre 0%nat a ltac:(lia) eq_refl) as [r ->].
    cbn [mbind result_bind].
    rewrite (IH i x e Hi Hx); [reflexivity|].
    intros k y Hk Hy. apply (Hpre (S k) y); [lia|exact Hy].
Qed.

Lemma getitem_of_nat {X} (l : list X) (i : nat) :
  getitem l (Z.of_nat i)
  = match l !! i with Some x => Ok x | None => Raise IndexError end.
Proof.
  unfold getitem. destruct (Z.of_nat i <? 0) eqn:E; [lia|].
  rewrite E. now rewrite Nat2Z.id.
Qed.

Lemma bisect_left_after_all {I} (positions : list Position) (force : Force I) :
  Forall (fun p => pos_ltb p (force_position force) = true) positions ->
  bisect_left pos_ltb positions (force_position force) 0 None
  = Ok (length positions).
Proof.
  intros Hall. unfold bisect_left. cbn [default Z.ltb Z.compare Z.to_nat].
  apply bisect_loop_all_less; [lia|].
  intros i am _ Hi. rewrite Forall_lookup in Hall. eapply Hall; eauto.
Qed.

Lemma convert_force_after_all {I} (positions : list Position) (force : Force I) :
  Forall (fun p => pos_ltb p (force_position force) = true) positions ->
  convert_force positions force = Raise IndexError.
Proof.
  intros Hall. unfold convert_force.
  rewrite bisect_left_after_all by exact Hall. cbn [mbind result_bind].
  rewrite getitem_of_nat, lookup_ge_None_2 by lia. reflexivity.
Qed.

Lemma convert_force_ValueError {I} (positions : list Position) (force : Force I) :
  convert_force positions force = Raise ValueError ->
  exists i p, positions !! i = Some p
              /\ pos_ltb p (force_position force) = false.
Proof.
  unfold convert_force, bisect_left. cbn [default Z.ltb Z.compare].
  change (Z.to_nat 0) with 0%nat.
  destruct (bisect_loop_returns pos_ltb positions (force_position force) 0
              (length positions) ltac:(lia)) as [r Hr].
  rewrite Hr. cbn [mbind result_bind]. rewrite getitem_of_nat.
  destruct (positions !! r) as [p|] eqn:Hp; cbn [mbind result_bind];
    [|discriminate].
  intros _.
  destruct (bisect_loop_stops pos_ltb positions (force_position force) 0%nat
              (length positions) r ltac:(lia) Hr) as [_ Hs].
  destruct (Hs (lookup_lt_Some _ _ _ Hp)) as (am & Ham & Hlt).
  eauto.
Qed.

(** C10. A forced position that sorts after the onset of every note
    sends [bisect_left] to [len(note_positions)], and the indexing that
    follows raises [IndexError], whatever comes after it in the list of
    forces; the [ValueError] of a position that is not a note onset is
    raised only for a position that some note's onset does not precede
    and, when the notes are in onset order, the last note's onset does
    not precede. *)
Theorem C10_position_after_every_onset_raises_IndexError
    {I Measures : Type} (piece : ScorePiece Measures) (force : Force I) :
  let note_positions := note_onset <$> notes piece in
  (Forall (earlier (force_position force)) (notes piece) ->
     bisect_left pos_ltb note_positions (force_position force) 0 None
     = Ok (length note_positions)
     /\ convert_force note_positions force = Raise IndexError
     /\ forall (forces : list (Force I)) (i : nat),
          forces !! i = Some force ->
          (forall k f, (k < i)%nat -> forces !! k = Some f ->
             exists r, convert_force note_positions f = Ok r) ->
          convert_score_positions_to_note_indexes forces piece
          = Raise IndexError)
  /\ (convert_force note_positions force = Raise ValueError ->
      (exists note, note ∈ notes piece /\ ~ earlier (force_position force) note)
      /\ (positions_sorted note_positions ->
          forall final, last (notes piece) = Some final ->
            ~ earlier (force_position force) final)).
Proof.
  intros note_positions.
  split.
  - intros Hall.
    assert (Hall' : Forall (fun p => pos_ltb p (force_position force) = true)
                      note_positions).
    { subst note_positions. apply Forall_fmap. eapply Forall_impl; [exact Hall|].
      intros n Hn. now apply Is_true_true. }
    split; [now apply bisect_left_after_all|].
    split; [now apply convert_force_after_all|].
    intros forces i Hi Hpre. unfold convert_score_positions_to_note_indexes.
    eapply mapM_raise_at; eauto. now apply convert_force_after_all.
  - intros Hv. apply convert_force_ValueError in Hv as (i & p & Hp & Hlt).
    subst note_positions. rewrite list_lookup_fmap in Hp.
    destruct (notes piece !! i) as [note|] eqn:Hn; [|discriminate].
    injection Hp as <-.
    split.
    + exists note. split; [eapply list_elem_of_lookup_2; eauto|].
      unfold earlier. rewrite Hlt. exact id.
    + intros Hsorted final Hfinal Hearly.
      rewrite last_lookup in Hfinal.
      assert (Hle : (i <= pred (length (notes piece)))%nat).
      { apply lookup_lt_Some in Hn. lia. }
      pose proof (Hsorted i (pred (length (notes piece)))
                    (note_onset note) (note_onset final) Hle) as Hs.
      rewrite !list_lookup_fmap, Hn, Hfinal in Hs.
      specialize (Hs eq_refl eq_refl).
      apply Is_true_true in Hearly.
      pose proof (pos_ltb_le_trans _ _ _ Hearly Hlt). congruence.
Qed.

Example held_piece_built :
  PieceSamples.build PieceSamples.held_notes PieceSamples.held_chords
  = Ok PieceSamples.held_piece.
Proof. vm_compute. reflexivity. Qed.

Example forces_on_held_piece :
  convert_score_positions_to_note_indexes
    [ForceSamples.force_on_second] PieceSamples.held_piece
  = Ok [(1%nat, Some 7)]
  /\ convert_score_positions_to_note_indexes
       [ForceSamples.force_between] PieceSamples.held_piece
     = Raise ValueError.
Proof. split; reflexivity. Qed.

Lemma C10_position_after_every_onset_witness :
  Forall (earlier (force_position ForceSamples.force_late))
    (notes PieceSamples.held_piece)
  /\ convert_score_positions_to_note_indexes
       [ForceSamples.force_on_second; ForceSamples.force_late]
       PieceSamples.held_piece
     = Raise IndexError.
Proof.
  assert (Hall : Forall (earlier (force_position ForceSamples.force_late))
                   (notes PieceSamples.held_piece)).
  { repeat constructor. }
  split; [exact Hall|].
  refine (proj2 (proj2 (proj1
            (C10_position_after_every_onset_raises_IndexError
               PieceSamples.held_piece ForceSamples.force_late) Hall))
            [ForceSamples.force_on_second; ForceSamples.force_late] 1%nat
            eq_refl _).
  intros k f Hk Hf. destruct k as [|k]; [|lia].
  injection Hf as <-. eexists. reflexivity.
Defined.

(** ** The range query *)

Lemma bisect_left_no_assertion {X} (ltb : X -> X -> bool) (a : list X) (x : X)
    (lo : Z) (hi : option nat) :
  bisect_left ltb a x lo hi <> Raise AssertionError.
Proof.
  unfold bisect_left. destruct (lo <? 0); [discriminate|].
  intros H. apply bisect_loop_raises in H. discriminate.
Qed.

Lemma getitem_no_assertion {X} (l : list X) (i : Z) :
  getitem l i <> Raise AssertionError.
Proof.
  unfold getitem. destruct (_ <? 0); [discriminate|].
  destruct (_ !! _); discriminate.
Qed.

Lemma get_chords_within_range_assertion {Measures} (piece : ScorePiece Measures)
    (start : Z) (stop : option Z) :
  get_chords_within_range piece start stop = Raise AssertionError
  <-> exists s, stop = Some s /\ s < start.
Proof.
  unfold get_chords_within_range. split.
  - destruct stop as [s|].
    + destruct (s >=? start) eqn:E; cbn [negb].
      * intros H. exfalso. revert H.
        destruct (bisect_left Z.ltb (chord_changes piece) start 0 None)
          as [si|e] eqn:Hb; cbn [mbind result_bind].
        2:{ intros [= ->]. now apply bisect_left_no_assertion in Hb. }
        case_bool_decide; cbn [mbind result_bind].
        -- destruct (bisect_left Z.ltb (chord_changes piece) s _ None)
             as [ei|e] eqn:He; cbn [mbind result_bind]; [discriminate|].
           intros [= ->]. now apply bisect_left_no_assertion in He.
        -- destruct (getitem (chord_changes piece) (Z.of_nat si)) as [c|e] eqn:Hg;
             cbn [mbind result_bind].
           2:{ intros [= ->]. now apply getitem_no_assertion in Hg. }
           destruct (bisect_left Z.ltb (chord_changes piece) s _ None)
             as [ei|e] eqn:He; cbn [mbind result_bind]; [discriminate|].
           intros [= ->]. now apply bisect_left_no_assertion in He.
      * intros _. exists s. split; [reflexivity|lia].
    + cbn [negb]. intros H. exfalso. revert H.
      destruct (bisect_left Z.ltb (chord_changes piece) start 0 None)
        as [si|e] eqn:Hb; cbn [mbind result_bind].
      2:{ intros [= ->]. now apply bisect_left_no_assertion in Hb. }
      case_bool_decide; cbn [mbind result_bind]; [discriminate|].
      destruct (getitem (chord_changes piece) (Z.of_nat si)) as [c|e] eqn:Hg;
        cbn [mbind result_bind]; [discriminate|].
      intros [= ->]. now apply getitem_no_assertion in Hg.
  - intros (s & -> & Hs). destruct (s >=? start) eqn:E; [lia|]. reflexivity.
Qed.

(** ** The order of score positions *)

Lemma Qltb_lt (x y : Q) : Qltb x y = true <-> (x < y)%Q.
Proof.
  unfold Qltb. rewrite negb_true_iff. split.
  - intros H. apply Qnot_le_lt. intros Hle. apply Qle_bool_iff in Hle. congruence.
  - intros H. destruct (Qle_bool y x) eqn:E; [|reflexivity].
    apply Qle_bool_iff in E. exfalso. lra.
Qed.

Lemma pos_ltb_lt (a b : Position) : pos_ltb a b = true <-> pos_lt a b.
Proof.
  unfold pos_ltb, pos_lt.
  rewrite orb_true_iff, andb_true_iff, Z.ltb_lt, Z.eqb_eq, Qltb_lt. tauto.
Qed.

Lemma pos_ltb_nlt (a b : Position) : pos_ltb a b = false <-> ~ pos_lt a b.
Proof.
  rewrite <- pos_ltb_lt. destruct (pos_ltb a b); split; intros; congruence.
Qed.

Lemma pos_eqb_eq (a b : Position) : pos_eqb a b = true <-> pos_eq a b.
Proof.
  unfold pos_eqb, pos_eq. rewrite andb_true_iff, Z.eqb_eq, Qeq_bool_iff. tauto.
Qed.

Ltac pos_order :=
  repeat match goal with
         | H : pos_ltb _ _ = true |- _ => apply pos_ltb_lt in H
         | H : pos_ltb _ _ = false |- _ => apply pos_ltb_nlt in H
         | H : pos_eqb _ _ = true |- _ => apply pos_eqb_eq in H
         | |- pos_ltb _ _ = true => apply pos_ltb_lt
         | |- pos_ltb _ _ = false => apply pos_ltb_nlt
         | |- pos_eqb _ _ = true => apply pos_eqb_eq
         end;
  unfold pos_lt, pos_eq in *; cbn [fst snd] in *.

Lemma Q_not_lt_le (x y : Q) : ~ (x < y)%Q -> (y <= x)%Q.
Proof. intros H. destruct (Qlt_le_dec x y); [contradiction|assumption]. Qed.

Lemma pos_le_lt_trans (a b c : Position) :
  pos_ltb b a = false -> pos_ltb b c = true -> pos_ltb a c = true.
Proof.
  destruct a as [a1 a2], b as [b1 b2], c as [c1 c2].
  intros H1 H2. pos_order.
  assert (Hz : a1 <= b1).
  { destruct (Z_lt_le_dec b1 a1); [exfalso; apply H1; left|]; lia. }
  destruct (Z.eq_dec a1 b1) as [->|Hne].
  - assert (Hq : (a2 <= b2)%Q).
    { apply Q_not_lt_le. intros Hlt. apply H1. right. auto. }
    destruct H2 as [H2|[-> H2]]; [now left|right].
    split; [reflexivity|lra].
  - left. destruct H2 as [H2|[<- _]]; lia.
Qed.

Lemma pos_eqb_ltb_r (a b c : Position) :
  pos_eqb a b = true -> pos_ltb c a = false -> pos_ltb c b = false.
Proof.
  destruct a as [a1 a2], b as [b1 b2], c as [c1 c2].
  intros H1 H2. pos_order. destruct H1 as [-> H1].
  intros [H|[H H']]; apply H2; [now left|right; split; [assumption|lra]].
Qed.

Lemma pos_eqb_ltb_l (a b c : Position) :
  pos_eqb a b = true -> pos_ltb b c = false -> pos_ltb a c = false.
Proof.
  destruct a as [a1 a2], b as [b1 b2], c as [c1 c2].
  intros H1 H2. pos_order. destruct H1 as [-> H1].
  intros [H|[H H']]; apply H2; [now left|right; split; [assumption|lra]].
Qed.

Lemma pos_eqb_refl_ltb (a b : Position) :
  pos_eqb a b = true -> pos_ltb a b = false.
Proof.
  destruct a as [a1 a2], b as [b1 b2].
  intros H. pos_order. destruct H as [-> H]. intros [?|[_ ?]]; [lia|lra].
Qed.

Lemma pos_trichotomy (a b : Position) :
  pos_ltb a b = false -> pos_ltb b a = false -> pos_eqb a b = true.
Proof.
  destruct a as [a1 a2], b as [b1 b2].
  intros H1 H2. pos_order.
  assert (a1 = b1) as ->.
  { destruct (Z.lt_trichotomy a1 b1) as [?|[?|?]]; [|assumption|].
    - exfalso. apply H1. now left.
    - exfalso. apply H2. now left. }
  split; [reflexivity|].
  assert ((b2 <= a2)%Q) by (apply Q_not_lt_le; intros ?; apply H1; auto).
  assert ((a2 <= b2)%Q) by (apply Q_not_lt_le; intros ?; apply H2; auto).
  lra.
Qed.

(** On a sorted list the search leaves only smaller elements behind. *)
Lemma bisect_loop_sorted {X} (ltb : X -> X -> bool)
    (a : list X) (x : X) (lo hi : nat) :
  (forall u v w, ltb v u = false -> ltb v w = true -> ltb u w = true) ->
  (forall i j u v, (i <= j)%nat -> a !! i = Some u -> a !! j = Some v ->
     ltb v u = false) ->
  forall r, (lo <= hi)%nat -> bisect_loop ltb a x lo hi = Ok r ->
    forall i u, (lo <= i < r)%nat -> a !! i = Some u -> ltb u x = true.
Proof.
  intros Htrans Hsorted.
  funelim (bisect_loop ltb a x lo hi); intros r Hr Hres i u Hi Hu.
  - injection Hres as <-. lia.
  - discriminate.
  - pose proof (half_between lo hi ltac:(lia)).
    destruct (decide (i <= (lo + hi) / 2)%nat) as [Hle|Hgt].
    + match goal with
      | Hl : a !! _ = Some ?m, Hb : ltb ?m x = true |- _ =>
          apply (Htrans u m x); [|exact Hb];
          apply (Hsorted i ((lo + hi) / 2)%nat u m Hle Hu Hl)
      end.
    + match goal with IH : _ -> _ -> forall r : nat, _ |- _ =>
        apply (IH Htrans Hsorted r ltac:(lia) Hres i u ltac:(lia) Hu) end.
  - pose proof (half_between lo hi ltac:(lia)).
    match goal with IH : _ -> _ -> forall r : nat, _ |- _ =>
      apply (IH Htrans Hsorted r ltac:(lia) Hres i u ltac:(lia) Hu) end.
Qed.

(** A position that is the onset of a note of a piece whose notes are in
    onset order is converted to the index of the first note with that
    onset. *)
Lemma convert_force_aligned {I} (positions : list Position) (force : Force I)
    (k : nat) (p : Position) :
  positions_sorted positions ->
  positions !! k = Some p ->
  pos_eqb p (force_position force) = true ->
  exists index q,
    convert_force positions force = Ok (index, force_id force)
    /\ positions !! index = Some q
    /\ pos_eqb q (force_position force) = true
    /\ forall i u, (i < index)%nat -> positions !! i = Some u ->
         pos_ltb u (force_position force) = true.
Proof.
  intros Hsorted Hk Heq.
  unfold convert_force, bisect_left. cbn [default Z.ltb Z.compare].
  change (Z.to_nat 0) with 0%nat.
  destruct (bisect_loop_returns pos_ltb positions (force_position force) 0
              (length positions) ltac:(lia)) as [r Hr].
  rewrite Hr. cbn [mbind result_bind].
  pose proof (bisect_loop_sorted pos_ltb positions (force_position force) 0%nat
                (length positions) pos_le_lt_trans Hsorted r ltac:(lia) Hr)
    as Hbefore.
  destruct (bisect_loop_stops pos_ltb positions (force_position force) 0%nat
              (length positions) r ltac:(lia) Hr) as [_ Hs].
  assert (Hrk : (r <= k)%nat).
  { destruct (decide (r <= k)%nat) as [|Hn]; [assumption|].
    pose proof (Hbefore k p ltac:(lia) Hk) as Hlt.
    pose proof (pos_eqb_refl_ltb _ _ Heq). congruence. }
  destruct (Hs ltac:(apply lookup_lt_Some in Hk; lia)) as (q & Hq & Hnlt).
  rewrite getitem_of_nat, Hq. cbn [mbind result_bind].
  assert (Hqe : pos_eqb q (force_position force) = true).
  { apply pos_trichotomy; [exact Hnlt|].
    pose proof (Hsorted r k q p Hrk Hq Hk) as Hpq.
    destruct (pos_ltb (force_position force) q) eqn:E; [|reflexivity].
    pose proof (pos_eqb_refl_ltb _ _ Heq) as Hpf.
    rewrite (pos_le_lt_trans p (force_position force) q) in Hpq;
      [discriminate| |exact E].
    destruct (pos_ltb (force_position force) p) eqn:E2; [|reflexivity].
    exfalso. clear - Heq E2. destruct p, (force_position force).
    pos_order. destruct Heq as [-> Hq']. destruct E2 as [?|[_ ?]]; [lia|lra]. }
  rewrite Hqe. cbn [negb].
  exists r, q. split; [reflexivity|]. split; [exact Hq|]. split; [exact Hqe|].
  intros i u Hi Hu. apply (Hbefore i u); [lia|exact Hu].
Qed.

(** ** Slices and ranges *)

Lemma slice_bounds_within (len : nat) (lo hi : Z) :
  0 <= lo -> lo <= Z.of_nat len -> 0 <= hi -> hi <= Z.of_nat len ->
  slice_bounds len (Some lo) (Some hi) = (Z.to_nat lo, Z.to_nat hi).
Proof.
  intros. unfold slice_bounds, clamp_index. cbn [from_option].
  destruct (lo <? 0) eqn:E1; [lia|]. destruct (hi <? 0) eqn:E2; [lia|].
  f_equal; lia.
Qed.

Lemma slice_within {X} (l : list X) (lo hi : Z) :
  0 <= lo -> lo <= hi -> hi <= Z.of_nat (length l) ->
  slice l (Some lo) (Some hi)
  = take (Z.to_nat (hi - lo)) (drop (Z.to_nat lo) l).
Proof.
  intros. unfold slice. rewrite slice_bounds_within by lia.
  f_equal. lia.
Qed.

Lemma lookup_slice_within {X} (l : list X) (lo hi : Z) (k : nat) :
  0 <= lo -> lo <= hi -> hi <= Z.of_nat (length l) ->
  (k < Z.to_nat (hi - lo))%nat ->
  slice l (Some lo) (Some hi) !! k = l !! (Z.to_nat lo + k)%nat.
Proof.
  intros. rewrite slice_within by lia.
  rewrite lookup_take_lt by lia. apply lookup_drop.
Qed.

Lemma length_slice_within {X} (l : list X) (lo hi : Z) :
  0 <= lo -> lo <= hi -> hi <= Z.of_nat (length l) ->
  length (slice l (Some lo) (Some hi)) = Z.to_nat (hi - lo).
Proof.
  intros. rewrite slice_within by lia.
  rewrite length_take, length_drop. lia.
Qed.

Lemma length_range (lo hi : Z) : length (range lo hi) = Z.to_nat (hi - lo).
Proof. unfold range. now rewrite length_fmap, length_seq. Qed.

Lemma lookup_range (lo hi : Z) (k : nat) :
  (k < Z.to_nat (hi - lo))%nat -> range lo hi !! k = Some (lo + Z.of_nat k).
Proof.
  intros. unfold range. rewrite list_lookup_fmap, lookup_seq_lt by lia.
  reflexivity.
Qed.

Lemma py_min_nonempty (l : list (Z * Z)) :
  l <> [] -> exists m, py_min l = Ok m.
Proof. destruct l; [contradiction|]. intros _. eexists. reflexivity. Qed.

Lemma py_max_nonempty (l : list (Z * Z)) :
  l <> [] -> exists m, py_max l = Ok m.
Proof. destruct l; [contradiction|]. intros _. eexists. reflexivity. Qed.

(** ** The windowed input of a chord *)

Section ChordNoteInputFacts.

Context {Measures Vec : Type}.
Variable to_vec : Note -> @ToVecArgs Measures -> Vec.
Variable zero_row : Vec.

Lemma window_row_outside (notes : list Note) (m : Measures)
    (chord_onset chord_offset : Position) (chord_duration : Q)
    (change_index first last : Z) (dc : list Q) (chord : option Chord) (i : Z) :
  i < 0 \/ Z.of_nat (length notes) <= i ->
  window_row to_vec zero_row notes m chord_onset chord_offset chord_duration
    change_index first last dc chord i = zero_row.
Proof.
  intros Hi. unfold window_row.
  destruct (0 <=? i) eqn:E; [|reflexivity].
  rewrite (lookup_ge_None_2 notes) by lia. reflexivity.
Qed.

Lemma pitch_list_nonempty (notes : list Note) (first last : Z) :
  0 <= first -> first < last -> last <= Z.of_nat (length notes) ->
  (fun note => (note_octave note, note_midi_number note))
    <$> slice notes (Some first) (Some last) <> [].
Proof.
  intros ? ? ? Hnil. apply (f_equal length) in Hnil.
  rewrite length_fmap, length_slice_within in Hnil by lia.
  simpl in Hnil. lia.
Qed.

Lemma window_row_inside (notes : list Note) (m : Measures)
    (chord_onset chord_offset : Position) (chord_duration : Q)
    (change_index first last : Z) (dc : list Q) (chord : option Chord) (i : Z) :
  0 <= first -> first < last -> last <= Z.of_nat (length notes) ->
  length dc = length notes ->
  0 <= i < Z.of_nat (length notes) ->
  exists note mn mx from_prev to_next,
    notes !! Z.to_nat i = Some note
    /\ py_min ((fun note => (note_octave note, note_midi_number note))
                 <$> slice notes (Some first) (Some last)) = Ok mn
    /\ py_max ((fun note => (note_octave note, note_midi_number note))
                 <$> slice notes (Some first) (Some last)) = Ok mx
    /\ (None :: (Some <$> dc)) !! Z.to_nat i = Some from_prev
    /\ dc !! Z.to_nat i = Some to_next
    /\ window_row to_vec zero_row notes m chord_onset chord_offset
         chord_duration change_index first last dc chord i
       = note_vector to_vec m chord_onset chord_offset chord_duration chord
           mn mx
           (note,
            (if aligns chord onset chord_onset
             then Some (relative_note_onset dc change_index i) else None,
             (from_prev, to_next))).
Proof.
  intros Hf0 Hfl Hl Hdc Hi. unfold window_row.
  destruct (0 <=? i) eqn:E; [|lia].
  destruct (lookup_lt_is_Some_2 notes (Z.to_nat i) ltac:(lia)) as [note Hn].
  destruct (lookup_lt_is_Some_2 dc (Z.to_nat i) ltac:(lia)) as [tn Ht].
  destruct (lookup_lt_is_Some_2 (None :: (Some <$> dc)) (Z.to_nat i))
    as [fp Hf]; [cbn [length]; rewrite length_fmap; lia|].
  destruct (py_min_nonempty _ (pitch_list_nonempty notes first last Hf0 Hfl Hl))
    as [mn Hmn].
  destruct (py_max_nonempty _ (pitch_list_nonempty notes first last Hf0 Hfl Hl))
    as [mx Hmx].
  exists note, mn, mx, fp, tn. rewrite Hn, Ht, Hf, Hmn, Hmx. auto 10.
Qed.

(** C4, amended. For a chord that occupies the note-index range
    [onset_index, offset_index) of a piece, [get_chord_note_input] with a
    window of [window] notes returns [offset_index - onset_index + 2 *
    window] rows, one for every note index from [onset_index - window] to
    [offset_index + window]: the row of an index inside the piece is the
    vector of that very note, the row of an index before the first or
    after the last note is all-zero; no note is wrapped around or
    repeated to fill the window. *)
Theorem C4_window_rows_clipped_and_zero_padded
    (notes : list Note) (m : Measures) (chord_onset chord_offset : Position)
    (chord_duration : Q) (change_index onset_index offset_index window : Z)
    (dc : list Q) (chord : option Chord) :
  0 <= window ->
  0 <= onset_index -> onset_index < offset_index ->
  offset_index <= Z.of_nat (length notes) ->
  length dc = length notes ->
  let row :=
    window_row to_vec zero_row notes m chord_onset chord_offset chord_duration
      change_index (Z.max (onset_index - window) 0)
      (Z.min (offset_index + window) (Z.of_nat (length notes))) dc chord in
  exists rows,
    get_chord_note_input to_vec zero_row notes m chord_onset chord_offset
      chord_duration change_index onset_index offset_index window (Some dc) chord
    = Ok rows
    /\ rows = row <$> range (onset_index - window) (offset_index + window)
    /\ Z.of_nat (length rows) = offset_index - onset_index + 2 * window
    /\ (forall i, i < 0 \/ Z.of_nat (length notes) <= i -> row i = zero_row)
    /\ (forall i, 0 <= i < Z.of_nat (length notes) ->
          exists note args,
            notes !! Z.to_nat i = Some note /\ row i = to_vec note args).
Proof.
  intros Hw Hon Hlt Hoff Hdc row.
  set (first := Z.max (onset_index - window) 0) in *.
  set (last := Z.min (offset_index + window) (Z.of_nat (length notes))) in *.
  assert (Hfl : 0 <= first /\ first < last /\ last <= Z.of_nat (length notes))
    by (subst first last; lia).
  eexists. split; [|split; [reflexivity|]].
  2:{ split; [rewrite length_fmap, length_range; lia|]. split.
      - intros i Hi. now apply window_row_outside.
      - intros i Hi. subst row. cbv beta.
        destruct (window_row_inside notes m chord_onset chord_offset
                    chord_duration change_index first last dc chord i)
          as (note & mn & mx & fp & tn & Hn & _ & _ & _ & _ & ->); try lia.
        eauto. }
  unfold get_chord_note_input. cbn [mbind result_bind].
  fold first. fold last.
  set (pitch_list := (fun note => (note_octave note, note_midi_number note))
                       <$> slice notes (Some first) (Some last)).
  assert (Hpl : pitch_list <> []).
  { intros Hnil. apply (f_equal length) in Hnil. subst pitch_list.
    rewrite length_fmap, length_slice_within in Hnil by lia.
    simpl in Hnil. lia. }
  destruct (py_min_nonempty pitch_list Hpl) as [mn Hmn].
  destruct (py_max_nonempty pitch_list Hpl) as [mx Hmx].
  rewrite Hmn, Hmx. cbn [mbind result_bind].
  set (note_onsets :=
         if negb (aligns chord onset chord_onset)
         then replicate (length (slice notes (Some first) (Some last))) None
         else (fun note_index =>
                 Some (relative_note_onset dc change_index note_index))
                <$> range first last).
  set (tuples := zip (slice notes (Some first) (Some last))
                   (zip note_onsets
                      (zip (slice (None :: (Some <$> dc)) (Some first) (Some last))
                           (slice dc (Some first) (Some last))))).
  assert (Hno : length note_onsets = Z.to_nat (last - first)).
  { subst note_onsets. destruct (negb _).
    - rewrite length_replicate, length_slice_within by lia. reflexivity.
    - rewrite length_fmap, length_range. reflexivity. }
  assert (Hlen : length tuples = Z.to_nat (last - first)).
  { subst tuples. rewrite !length_zip, Hno, !length_slice_within;
      cbn [length]; rewrite ?length_fmap; lia. }
  case_bool_decide as Hnil.
  { apply (f_equal length) in Hnil. rewrite length_fmap, Hlen in Hnil.
    simpl in Hnil. lia. }
  destruct (_ <? 0) eqn:E; [lia|].
  unfold assign_rows. rewrite length_replicate.
  rewrite slice_bounds_within by lia.
  rewrite length_fmap, Hlen.
  case_bool_decide as Hrows; [|exfalso; apply Hrows; lia].
  f_equal. apply list_eq. intros k.
  rewrite list_lookup_imap, !list_lookup_fmap.
  destruct (decide (k < Z.to_nat (offset_index + window - (onset_index - window)))%nat)
    as [Hk|Hk].
  2:{ rewrite (proj1 (lookup_replicate_None _ zero_row k)) by lia.
      unfold range. rewrite list_lookup_fmap, lookup_seq_ge by lia. reflexivity. }
  rewrite lookup_replicate_2, lookup_range by lia. cbn [fmap option_fmap option_map].
  f_equal.
  destruct (_ && _) eqn:Hin.
  - set (j := (k - Z.to_nat (0 + (first - (onset_index - window))))%nat).
    assert (Hj : (j < Z.to_nat (last - first))%nat) by lia.
    assert (Hi : Z.to_nat (onset_index - window + Z.of_nat k)
                 = (Z.to_nat first + j)%nat) by lia.
    destruct (window_row_inside notes m chord_onset chord_offset chord_duration
                change_index first last dc chord
                (onset_index - window + Z.of_nat k))
      as (note & mn' & mx' & fp & tn & Hn & Hmn' & Hmx' & Hf & Ht & Hrow);
      try lia.
    subst row. rewrite Hrow. fold pitch_list in Hmn', Hmx'.
    assert (mn' = mn) as -> by congruence.
    assert (mx' = mx) as -> by congruence.
    rewrite Hi in Hn, Hf, Ht.
    assert (Htup : tuples !! j
                   = Some (note,
                           (if aligns chord onset chord_onset
                            then Some (relative_note_onset dc change_index
                                         (onset_index - window + Z.of_nat k))
                            else None, (fp, tn)))).
    { subst tuples. rewrite !lookup_zip_with.
      rewrite !lookup_slice_within
        by (cbn [length]; rewrite ?length_fmap; lia).
      rewrite Hn, Hf, Ht. cbn [mbind option_bind].
      subst note_onsets. destruct (aligns chord onset chord_onset); cbn [negb].
      - rewrite list_lookup_fmap, lookup_range by lia.
        cbn [fmap option_fmap option_map mbind option_bind].
        replace (first + Z.of_nat j) with (onset_index - window + Z.of_nat k)
          by lia.
        reflexivity.
      - rewrite lookup_replicate_2
          by (rewrite length_slice_within by lia; lia).
        reflexivity. }
    rewrite Htup. reflexivity.
  - symmetry. apply window_row_outside. lia.
Qed.

End ChordNoteInputFacts.

(** With no window the chord of notes [3, 7) of a ten-note piece gets the
    vectors of its four notes and no zero row. *)
Example window_0_rows :
  WindowSamples.input 0 = Ok [[1; 63]; [1; 64]; [1; 65]; [1; 66]].
Proof. vm_compute. reflexivity. Qed.

(** With a window of five notes it gets fourteen rows: two zero rows, the
    ten notes of the piece, two zero rows. *)
Example window_5_rows :
  WindowSamples.input 5
  = Ok [[0; 0]; [0; 0];
        [1; 60]; [1; 61]; [1; 62]; [1; 63]; [1; 64];
        [1; 65]; [1; 66]; [1; 67]; [1; 68]; [1; 69];
        [0; 0]; [0; 0]].
Proof. vm_compute. reflexivity. Qed.

(** C4 as stated fails for the window of five notes: the result has
    fourteen rows, not ten, and row 9 is the vector of note 7, not zeros. *)
Lemma C4_window_5_counterexample :
  exists rows,
    WindowSamples.input 5 = Ok rows
    /\ ~ (length rows = 10%nat
          /\ rows !! 0%nat = Some WindowSamples.zeros
          /\ rows !! 1%nat = Some WindowSamples.zeros
          /\ rows !! 9%nat = Some WindowSamples.zeros).
Proof.
  eexists. split; [vm_compute; reflexivity|].
  intros (Hlen & _). vm_compute in Hlen. discriminate.
Qed.

Lemma C4_window_rows_witness :
  exists rows,
    WindowSamples.input 5 = Ok rows
    /\ rows
       = window_row WindowSamples.marked_vec WindowSamples.zeros
           WindowSamples.ten_notes tt (0, 3%Q) (0, 7%Q) 4%Q 3
           (Z.max (3 - 5) 0)
           (Z.min (7 + 5) (Z.of_nat (length WindowSamples.ten_notes)))
           WindowSamples.unit_cache None
         <$> range (3 - 5) (7 + 5)
    /\ Z.of_nat (length rows) = 7 - 3 + 2 * 5.
Proof.
  destruct (C4_window_rows_clipped_and_zero_padded
              WindowSamples.marked_vec WindowSamples.zeros
              WindowSamples.ten_notes tt (0, 3%Q) (0, 7%Q) 4%Q 3 3 7 5
              WindowSamples.unit_cache None)
    as (rows & Hrows & Heq & Hlen & _).
  - lia.
  - lia.
  - lia.
  - vm_compute. discriminate.
  - reflexivity.
  - exists rows. auto.
Defined.

(** C8. [get_chords_within_range] fails its assertion exactly when
    [stop] is given and smaller than [start]. In
    [convert_score_positions_to_note_indexes] a position between two note
    onsets raises [ValueError] and a note onset is converted to its note
    index, but the position (0, 2), which is the onset of no note of the
    piece and lies after the onset (0, 1) of its last note, raises
    [IndexError]: the bisection returns [len(note_positions)] and the
    comparison that guards the [ValueError] indexes past the end. *)
Theorem C8_position_after_last_onset_raises_IndexError :
  (forall (Measures : Type) (piece : ScorePiece Measures) (start : Z)
          (stop : option Z),
      get_chords_within_range piece start stop = Raise AssertionError
      <-> exists s, stop = Some s /\ s < start)
  /\ convert_score_positions_to_note_indexes
       [ForceSamples.force_on_second] PieceSamples.held_piece
     = Ok [(1%nat, Some 7)]
  /\ convert_score_positions_to_note_indexes
       [ForceSamples.force_between] PieceSamples.held_piece
     = Raise ValueError
  /\ Forall (fun note =>
               pos_eqb (note_onset note)
                 (force_position ForceSamples.force_late) = false)
       (notes PieceSamples.held_piece)
  /\ convert_score_positions_to_note_indexes
       [ForceSamples.force_late] PieceSamples.held_piece
     = Raise IndexError.
Proof.
  split; [intros; apply get_chords_within_range_assertion|].
  split; [reflexivity|]. split; [reflexivity|].
  split; [repeat constructor|reflexivity].
Qed.

(** ** Duration-weighted accuracy *)

Lemma mapM_Ok_fmap {X Y} (f : X -> result Y) (g : X -> Y) (l : list X) :
  Forall (fun x => f x = Ok (g x)) l -> mapM f l = Ok (g <$> l).
Proof.
  induction 1 as [|x l Hx _ IH]; [reflexivity|].
  cbn [mapM]. rewrite Hx, IH. reflexivity.
Qed.

Lemma column_present (rows : list Row) (name : string) :
  Forall (fun row => is_Some (row !! name)) rows ->
  column rows name = Ok (cell name <$> rows).
Proof.
  intros H. apply mapM_Ok_fmap. eapply Forall_impl; [exact H|].
  intros row [v Hv]. unfold cell. now rewrite Hv.
Qed.

Lemma zip_with_fmap_same {X Y Z' W} (f : Y -> Z' -> W) (g : X -> Y) (h : X -> Z')
    (l : list X) :
  zip_with f (g <$> l) (h <$> l) = (fun x => f (g x) (h x)) <$> l.
Proof. induction l as [|x l IH]; [reflexivity|]. cbn. now rewrite IH. Qed.

Lemma zip_with_andb_true_l (mask : list bool) (n : nat) :
  length mask = n -> zip_with andb (replicate n true) mask = mask.
Proof.
  revert n. induction mask as [|b mask IH]; intros [|n] H; try discriminate;
    [reflexivity|].
  simpl. f_equal. apply IH. simpl in H. lia.
Qed.

Lemma zip_with_andb_true_r {X} (mask : list bool) (l : list X) :
  length mask = length l ->
  zip_with andb mask ((fun _ => true) <$> l) = mask.
Proof.
  revert l. induction mask as [|b mask IH]; intros [|x l] H; try discriminate;
    [reflexivity|].
  cbn. rewrite andb_true_r. f_equal. apply IH. simpl in H. lia.
Qed.

Lemma zip_with_andb_split {X} (f g h : X -> bool) (l : list X) :
  Forall (fun x => h x = f x && g x) l ->
  forall mask,
    zip_with andb (zip_with andb mask (f <$> l)) (g <$> l)
    = zip_with andb mask (h <$> l).
Proof.
  induction 1 as [|x l Hx _ IH]; intros [|b mask]; try reflexivity.
  cbn. rewrite Hx, andb_assoc. f_equal. apply IH.
Qed.

Lemma fold_feature_step (rows : list Row) (features : list string) :
  forall mask : list bool,
    length mask = length rows ->
    (forall feature, feature ∈ features ->
       Forall (fun row => is_Some (row !! ("gt_" +:+ feature))
                          /\ is_Some (row !! ("est_" +:+ feature))) rows) ->
    fold_left (feature_step rows) features (Ok mask)
    = Ok (zip_with andb mask (row_correct features <$> rows)).
Proof.
  induction features as [|f fs IH]; intros mask Hlen Hpresent.
  - cbn [fold_left row_correct forallb]. now rewrite zip_with_andb_true_r.
  - cbn [fold_left]. unfold feature_step at 2. cbn [mbind result_bind].
    pose proof (Hpresent f ltac:(left)) as Hf.
    rewrite (column_present rows ("gt_" +:+ f))
      by (eapply Forall_impl; [exact Hf|]; intros ? [? ?]; assumption).
    cbn [mbind result_bind].
    rewrite (column_present rows ("est_" +:+ f))
      by (eapply Forall_impl; [exact Hf|]; intros ? [? ?]; assumption).
    cbn [mbind result_bind].
    rewrite zip_with_fmap_same.
    rewrite IH.
    + f_equal. apply zip_with_andb_split.
      eapply Forall_impl; [exact Hf|]. intros row [[g Hg] [e He]].
      cbn [row_correct forallb]. unfold cell. rewrite Hg, He. reflexivity.
    + rewrite length_zip_with, length_fmap. lia.
    + intros feature Hin. apply Hpresent. now right.
Qed.

Lemma numbers_durations (rows : list Row) :
  Forall (fun row => exists d q, row !! "duration" = Some d /\ num_of d = Some q)
    rows ->
  column rows "duration" = Ok (cell "duration" <$> rows)
  /\ numbers (cell "duration" <$> rows) = Ok (row_weight <$> rows).
Proof.
  intros H. split.
  - apply column_present. eapply Forall_impl; [exact H|].
    intros ? (d & q & -> & _); eauto.
  - unfold numbers.
    rewrite (mapM_Ok_fmap _ (fun v => default 0%Q (num_of v))).
    + f_equal. rewrite <- list_fmap_compose. apply list_fmap_ext.
      intros _ row _. unfold compose, row_weight, cell.
      destruct (row !! "duration"); reflexivity.
    + apply Forall_fmap. eapply Forall_impl; [exact H|].
      intros row (d & q & Hd & Hq). unfold compose, cell.
      rewrite Hd. simpl. now rewrite Hq.
Qed.

Lemma Qsum_zeros {X} (l : list X) : (Qsum ((fun _ => 0%Q) <$> l) == 0)%Q.
Proof. induction l as [|x l IH]; [reflexivity|]. cbn. rewrite IH. lra. Qed.

Lemma row_matches_correct (features : list string) (row : Row) :
  row_matches features row -> row_correct features row = true.
Proof.
  intros H. unfold row_correct. apply forallb_forall. intros f Hf.
  destruct (H f (proj2 (list_elem_of_In _ _) Hf)) as (g & e & -> & -> & Heq).
  exact Heq.
Qed.

Lemma row_mismatches_incorrect (features : list string) (row : Row) :
  row_mismatches features row -> row_correct features row = false.
Proof.
  intros (f & g & e & Hf & Hg & He & Hne). unfold row_correct.
  destruct (forallb _ features) eqn:E; [|reflexivity].
  rewrite forallb_forall in E.
  specialize (E f (proj1 (list_elem_of_In _ _) Hf)).
  rewrite Hg, He in E. congruence.
Qed.

(** C5. [evaluate_features] returns the duration-weighted fraction of the
    rows of the (optionally filtered) frame in which every requested
    ground-truth and estimated feature are equal: 1 when every row
    matches, 0 when every row mismatches; when the filter leaves no row
    it returns 0 and logs a warning, without dividing. The rows carry
    the requested columns and durations that do not sum to zero, as the
    rows of [get_results_df] do. *)
Theorem C5_evaluate_features_weighted_accuracy
    (results_df : list Row) (features : list string)
    (filter : option (list bool)) (rows : list Row) :
  match filter with
  | Some filter => bool_index results_df filter
  | None => Ok results_df
  end = Ok rows ->
  (rows = [] ->
     evaluate_features results_df features filter
     = Ok (0%Q, [empty_filter_warning]))
  /\ (rows <> [] ->
      Forall (row_complete features) rows ->
      ~ (Qsum (row_weight <$> rows) == 0)%Q ->
      evaluate_features results_df features filter
      = Ok (weighted_accuracy features rows, [])
      /\ (Forall (row_matches features) rows ->
          (weighted_accuracy features rows == 1)%Q)
      /\ (Forall (row_mismatches features) rows ->
          (weighted_accuracy features rows == 0)%Q)).
Proof.
  intros Hsel. unfold evaluate_features. rewrite Hsel. cbn [mbind result_bind].
  split.
  - intros ->. reflexivity.
  - intros Hne Hcomplete Hweight.
    case_bool_decide as Hlen; [destruct rows; [contradiction|discriminate]|].
    split; [|split].
    + rewrite fold_feature_step.
      * cbn [mbind result_bind].
        rewrite zip_with_andb_true_l by now rewrite length_fmap.
        destruct (numbers_durations rows) as [-> Hn].
        { eapply Forall_impl; [exact Hcomplete|]. intros row [Hd _]. exact Hd. }
        cbn [mbind result_bind]. rewrite Hn. cbn [mbind result_bind].
        unfold np_average.
        destruct (Qeq_bool (Qsum (row_weight <$> rows)) 0) eqn:E.
        { apply Qeq_bool_iff in E. contradiction. }
        cbn [mbind result_bind]. rewrite zip_with_fmap_same. reflexivity.
      * now rewrite length_replicate.
      * intros feature Hin. eapply Forall_impl; [exact Hcomplete|].
        intros row [_ Hf]. now apply Hf.
    + intros Hall. unfold weighted_accuracy.
      assert (Heq : (fun row => if row_correct features row
                                then row_weight row else 0%Q) <$> rows
                    = row_weight <$> rows).
      { apply list_fmap_ext. intros i row Hrow. rewrite Forall_lookup in Hall.
        now rewrite (row_matches_correct _ _ (Hall i row Hrow)). }
      rewrite Heq. field. exact Hweight.
    + intros Hall. unfold weighted_accuracy.
      assert (Heq : (fun row => if row_correct features row
                                then row_weight row else 0%Q) <$> rows
                    = (fun _ => 0%Q) <$> rows).
      { apply list_fmap_ext. intros i row Hrow. rewrite Forall_lookup in Hall.
        now rewrite (row_mismatches_incorrect _ _ (Hall i row Hrow)). }
      rewrite Heq, Qsum_zeros. field. exact Hweight.
Qed.

(** A quarter of the duration is labelled correctly. *)
Example evaluate_one_of_two :
  exists v, evaluate_features EvalSamples.results ["chord"] None = Ok (v, [])
            /\ (v == 1 # 4)%Q.
Proof. eexists. split; [vm_compute; reflexivity|reflexivity]. Qed.

Example evaluate_empty_filter :
  evaluate_features EvalSamples.results ["chord"] (Some [false; false])
  = Ok (0%Q, [empty_filter_warning]).
Proof. vm_compute. reflexivity. Qed.

Lemma C5_evaluate_features_witness :
  evaluate_features EvalSamples.results ["chord"] (Some [true; false])
  = Ok (weighted_accuracy ["chord"] [EvalSamples.right_row], [])
  /\ (weighted_accuracy ["chord"] [EvalSamples.right_row] == 1)%Q
  /\ evaluate_features EvalSamples.results ["chord"] (Some [false; true])
     = Ok (weighted_accuracy ["chord"] [EvalSamples.wrong_row], [])
  /\ (weighted_accuracy ["chord"] [EvalSamples.wrong_row] == 0)%Q.
Proof.
  assert (Hcomplete : forall gt est d,
            row_complete ["chord"] (EvalSamples.chord_row gt est d)).
  { intros gt est d. split.
    - exists (VFrac d), d. split; reflexivity.
    - intros feature Hin. apply list_elem_of_singleton in Hin as ->.
      split; eexists; reflexivity. }
  destruct (proj2 (C5_evaluate_features_weighted_accuracy
                     EvalSamples.results ["chord"] (Some [true; false])
                     [EvalSamples.right_row] eq_refl))
    as (Hv & Hone & _).
  { discriminate. }
  { constructor; [apply Hcomplete|constructor]. }
  { vm_compute. discriminate. }
  destruct (proj2 (C5_evaluate_features_weighted_accuracy
                     EvalSamples.results ["chord"] (Some [false; true])
                     [EvalSamples.wrong_row] eq_refl))
    as (Hw & _ & Hzero).
  { discriminate. }
  { constructor; [apply Hcomplete|constructor]. }
  { vm_compute. discriminate. }
  split; [exact Hv|]. split.
  - apply Hone. constructor; [|constructor].
    intros feature Hin. apply list_elem_of_singleton in Hin as ->.
    exists (VStr "C_M"), (VStr "C_M"). repeat split.
  - split; [exact Hw|]. apply Hzero. constructor; [|constructor].
    exists "chord", (VStr "G_M"), (VStr "C_M").
    split; [apply list_elem_of_singleton; reflexivity|]. repeat split.
Defined.

(** ** Broadcasting labels over segments *)

Lemma length_assign_slice {X} (l : list X) (lo hi : option Z) (v : X) :
  length (assign_slice l lo hi v) = length l.
Proof.
  unfold assign_slice. destruct (slice_bounds _ _ _). apply length_imap.
Qed.

Lemma clamp_index_nonneg (len : nat) (i : Z) :
  0 <= i -> clamp_index len i = Z.to_nat (Z.min i (Z.of_nat len)).
Proof. intros. unfold clamp_index. destruct (i <? 0) eqn:E; [lia|reflexivity]. Qed.

(** Inside the slice the assigned value, outside the old one. *)
Lemma lookup_assign_slice {X} (l : list X) (lo : Z) (hi : option Z) (v : X)
    (k : nat) :
  0 <= lo -> (forall h, hi = Some h -> 0 <= h) ->
  (k < length l)%nat ->
  assign_slice l (Some lo) hi v !! k
  = if (lo <=? Z.of_nat k) && (Z.of_nat k <? default (Z.of_nat (length l)) hi)
    then Some v else l !! k.
Proof.
  intros Hlo Hhi Hk. unfold assign_slice, slice_bounds. cbn [from_option].
  rewrite clamp_index_nonneg by lia.
  rewrite list_lookup_imap.
  destruct (lookup_lt_is_Some_2 l k Hk) as [x ->]. cbn [fmap option_fmap option_map].
  destruct hi as [h|]; cbn [from_option]; unfold id.
  - rewrite clamp_index_nonneg by (apply Hhi; reflexivity).
    destruct ((lo <=? Z.of_nat k) && (Z.of_nat k <? h)) eqn:E.
    + replace ((_ <=? k)%nat && (k <? _)%nat) with true; [reflexivity|].
      symmetry. apply andb_true_iff. split; lia.
    + replace ((_ <=? k)%nat && (k <? _)%nat) with false; [reflexivity|].
      symmetry. apply andb_false_iff. apply andb_false_iff in E. lia.
  - destruct ((lo <=? Z.of_nat k) && (Z.of_nat k <? Z.of_nat (length l))) eqn:E.
    + replace ((_ <=? k)%nat && (k <? _)%nat) with true; [reflexivity|].
      symmetry. apply andb_true_iff. split; lia.
    + replace ((_ <=? k)%nat && (k <? _)%nat) with false; [reflexivity|].
      symmetry. apply andb_false_iff. apply andb_false_iff in E. lia.
Qed.

Lemma length_broadcast {X} (segments : list (X * (Z * Z))) :
  forall arr, length (broadcast arr segments) = length arr.
Proof.
  induction segments as [|seg segments IH]; intros arr; [reflexivity|].
  cbn [broadcast fold_left]. fold (broadcast (assign_slice arr (Some seg.2.1)
                                               (Some seg.2.2) seg.1) segments).
  now rewrite IH, length_assign_slice.
Qed.

(** Segments that start after note [k] leave it alone. *)
Lemma broadcast_before {X} (segments : list (X * (Z * Z))) (k : nat) :
  Forall (fun seg : X * (Z * Z) => Z.of_nat k < seg.2.1 /\ 0 <= seg.2.2) segments ->
  forall arr, broadcast arr segments !! k = arr !! k.
Proof.
  induction 1 as [|seg segments [Hs He] _ IH]; intros arr; [reflexivity|].
  cbn [broadcast fold_left]. fold (broadcast (assign_slice arr (Some seg.2.1)
                                               (Some seg.2.2) seg.1) segments).
  rewrite IH.
  destruct (decide (k < length arr)%nat) as [Hk|Hk].
  - rewrite lookup_assign_slice by first [lia | (intros ? [= <-]; lia)].
    destruct (seg.2.1 <=? Z.of_nat k) eqn:E; [lia|reflexivity].
  - rewrite !lookup_ge_None_2; rewrite ?length_assign_slice; auto; lia.
Qed.

Lemma nondecreasing_tail (c : Z) (cs : list Z) :
  nondecreasing (c :: cs) -> nondecreasing cs.
Proof. intros H i j x y Hij Hx Hy. apply (H (S i) (S j) x y); auto. lia. Qed.

Lemma nondecreasing_head (c : Z) (cs : list Z) (i : nat) (x : Z) :
  nondecreasing (c :: cs) -> cs !! i = Some x -> c <= x.
Proof. intros H Hx. apply (H 0%nat (S i) c x); auto. lia. Qed.

(** With non-decreasing change indices, every note of segment [i] holds
    the value of segment [i] after all assignments. *)
Lemma broadcast_changes {X} (changes : list Z) :
  forall (vals : list X) (arr : list X),
    nondecreasing changes ->
    (forall i x, changes !! i = Some x -> 0 <= x) ->
    forall i v s e (k : nat),
      vals !! i = Some v -> changes !! i = Some s -> changes !! S i = Some e ->
      s <= Z.of_nat k < e -> (k < length arr)%nat ->
      broadcast arr (zip vals (zip changes (drop 1 changes))) !! k = Some v.
Proof.
  induction changes as [|c0 cs IH]; intros vals arr Hmono Hpos i v s e k Hv Hs He Hk Hlen;
    [discriminate|].
  destruct cs as [|c1 cs']; [destruct i; discriminate|].
  destruct vals as [|v0 vals']; [discriminate|].
  change (broadcast arr
            (zip (v0 :: vals') (zip (c0 :: c1 :: cs') (drop 1 (c0 :: c1 :: cs')))))
    with (broadcast (assign_slice arr (Some c0) (Some c1) v0)
            (zip vals' (zip (c1 :: cs') (drop 1 (c1 :: cs'))))).
  destruct i as [|i]; simpl in Hv, Hs, He.
  - injection Hv as ->. injection Hs as ->. injection He as ->.
    pose proof (Hpos 0%nat _ eq_refl) as Hs0.
    pose proof (Hpos 1%nat _ eq_refl) as He0.
    rewrite broadcast_before.
    + rewrite lookup_assign_slice by first [lia | (intros ? [= <-]; lia)].
      cbn [default from_option]. unfold id.
      destruct ((s <=? Z.of_nat k) && (Z.of_nat k <? e)) eqn:E; [reflexivity|].
      apply andb_false_iff in E. lia.
    + apply Forall_forall. intros [v' [s' e']] Hin.
      apply list_elem_of_lookup in Hin as [j Hj].
      apply lookup_zip_with_Some in Hj as (? & [? ?] & [= -> Heq] & _ & Hz).
      apply lookup_zip_with_Some in Hz as (? & ? & [= <- <-] & Hs' & He').
      subst. cbn [fst snd].
      rewrite lookup_drop in He'.
      pose proof (Hpos (S (1 + j)) _ He').
      assert (e <= z).
      { destruct j as [|j]; [injection Hs' as <-; lia|].
        apply (Hmono 1%nat (S (S j)) e z); auto. lia. }
      lia.
  - apply (IH vals' _ (nondecreasing_tail _ _ Hmono)
             (fun j x Hx => Hpos (S j) x Hx) i v s e k Hv Hs He Hk).
    now rewrite length_assign_slice.
Qed.

Lemma slice_drop_1 {X} (l : list X) : slice l (Some 1) None = drop 1 l.
Proof. destruct l as [|x l]; [reflexivity|]. apply slice_tail. Qed.

Lemma zip_init_tail {X} (l : list X) :
  zip (slice l None (Some (-1))) (drop 1 l) = zip l (drop 1 l).
Proof.
  rewrite slice_init. destruct l as [|x l]; [reflexivity|].
  change (drop 1 (x :: l)) with l. cbn [length pred].
  apply zip_take_l. simpl. lia.
Qed.

Lemma getitem_last_Ok {X} (l : list X) (x : X) :
  getitem l (-1) = Ok x -> l !! pred (length l) = Some x /\ l <> [].
Proof.
  unfold getitem. destruct (-1 <? 0) eqn:E; [|lia].
  destruct (-1 + Z.of_nat (length l) <? 0) eqn:E2; [discriminate|].
  replace (Z.to_nat (-1 + Z.of_nat (length l))) with (pred (length l)) by lia.
  destruct (l !! pred (length l)) eqn:Hl; [|discriminate].
  intros [= ->]. split; [reflexivity|]. intros ->. simpl in E2. lia.
Qed.

Lemma est_array_covers {A} (zero : A) (n : nat) (cells : list A)
    (changes : list Z) :
  nondecreasing changes ->
  (forall i x, changes !! i = Some x -> 0 <= x) ->
  forall i c s e (k : nat),
    cells !! i = Some c -> changes !! i = Some s -> changes !! S i = Some e ->
    s <= Z.of_nat k < e -> (k < n)%nat ->
    est_array zero n cells changes !! k = Some c.
Proof.
  intros Hmono Hpos i c s e k Hc Hs He Hk Hn. unfold est_array.
  rewrite slice_drop_1, zip_init_tail.
  eapply broadcast_changes; eauto. now rewrite length_replicate.
Qed.

Lemma gt_array_length {X A} (cells : X -> A) (zero : A) (n : nat)
    (labels : list X) (changes : list Z) (arr : list A) :
  gt_array cells zero n labels changes = Ok arr -> length arr = n.
Proof.
  unfold gt_array.
  destruct (getitem labels (-1)); [|discriminate]. cbn [mbind result_bind].
  destruct (getitem changes (-1)); [|discriminate]. cbn [mbind result_bind].
  intros [= <-].
  now rewrite length_assign_slice, length_broadcast, length_replicate.
Qed.

Lemma gt_array_covers {X A} (cells : X -> A) (zero : A) (n : nat)
    (labels : list X) (changes : list Z) (arr : list A) :
  nondecreasing changes ->
  (forall i x, changes !! i = Some x -> 0 <= x) ->
  length labels = length changes ->
  gt_array cells zero n labels changes = Ok arr ->
  forall i label (k : nat),
    labels !! i = Some label ->
    covers changes (Z.of_nat n) i (Z.of_nat k) -> (k < n)%nat ->
    arr !! k = Some (cells label).
Proof.
  intros Hmono Hpos Hlen Harr i label k Hl (s & Hs & Hk) Hn.
  unfold gt_array in Harr.
  destruct (getitem labels (-1)) as [last_label|] eqn:Hll; [|discriminate].
  cbn [mbind result_bind] in Harr.
  destruct (getitem changes (-1)) as [last_change|] eqn:Hlc; [|discriminate].
  cbn [mbind result_bind] in Harr. injection Harr as <-.
  apply getitem_last_Ok in Hll as [Hll _].
  apply getitem_last_Ok in Hlc as [Hlc _].
  pose proof (Hpos _ _ Hlc) as Hlc0.
  rewrite lookup_assign_slice
    by first [lia | discriminate
             | now rewrite length_broadcast, length_replicate].
  rewrite length_broadcast, length_replicate. cbn [default from_option]. unfold id.
  rewrite slice_drop_1.
  destruct (changes !! S i) as [e|] eqn:He; cbn [default from_option] in Hk;
    unfold id in Hk.
  - assert (e <= last_change).
    { pose proof (lookup_lt_Some _ _ _ He).
      destruct (decide (S i = pred (length changes))) as [Heq|Hne].
      - rewrite Heq in He. assert (e = last_change) by congruence. lia.
      - apply (Hmono (S i) (pred (length changes)) e last_change); auto. lia. }
    destruct ((last_change <=? Z.of_nat k) && _) eqn:E;
      [apply andb_true_iff in E; lia|].
    apply (broadcast_changes changes (cells <$> labels) (replicate n zero)
             Hmono Hpos i (cells label) s e k);
      [rewrite list_lookup_fmap, Hl; reflexivity|exact Hs|exact He|exact Hk
      |now rewrite length_replicate].
  - assert (i = pred (length changes)) as ->.
    { apply lookup_lt_Some in Hs. apply lookup_ge_None in He. lia. }
    rewrite Hlen in Hll.
    assert (last_label = label) as -> by congruence.
    assert (last_change = s) as -> by congruence.
    destruct ((s <=? Z.of_nat k) && _) eqn:E; [reflexivity|].
    apply andb_false_iff in E. lia.
Qed.

Lemma mapM_Ok_Forall2 {X Y} (f : X -> result Y) (l : list X) :
  forall rows, mapM f l = Ok rows -> Forall2 (fun x y => f x = Ok y) l rows.
Proof.
  induction l as [|x l IH]; intros rows H.
  - injection H as <-. constructor.
  - cbn [mapM] in H. destruct (f x) as [y|] eqn:Hx; [|discriminate].
    cbn [mbind result_bind] in H.
    destruct (mapM f l) as [ys|] eqn:Hl; [|discriminate].
    injection H as <-. constructor; auto.
Qed.

Lemma filter_has_duration_length (dc : list Q) :
  forall rest : list (ChordCells * (ChordCells * (KeyCells * KeyCells))),
    length dc = length rest ->
    length (filter has_duration (zip dc rest))
    = length (filter (fun q => Is_true (negb (Qeq_bool q 0))) dc).
Proof.
  induction dc as [|q dc IH]; intros [|y rest] Hlen; try discriminate;
    [reflexivity|].
  cbn [zip zip_with]. rewrite !filter_cons. unfold has_duration at 1. cbn [fst].
  destruct (decide (Is_true (negb (Qeq_bool q 0)))); cbn [length];
    rewrite IH; auto.
Qed.

Section ResultsDfFacts.

Context {Measures : Type}.
Variable get_range_length : Position -> Position -> Measures -> Q.
Variable gt_chord_cells : PitchType -> Chord -> ChordCells.
Variable est_chord_cells : PitchType -> PitchType -> Z -> list Z -> ChordCells.
Variable gt_key_cells : PitchType -> Key -> KeyCells.
Variable est_key_cells : PitchType -> PitchType -> Z -> KeyCells.
Variable chord_label_list : PitchType -> list string.
Variable key_label_list : PitchType -> list string.

Lemma get_duration_cache_length (piece : ScorePiece Measures) (dc : list Q) :
  get_duration_cache get_range_length piece = Ok dc ->
  length dc = length (notes piece).
Proof.
  unfold get_duration_cache.
  destruct (getitem (chords piece) (-1)); [|discriminate].
  cbn [mbind result_bind]. intros [= <-].
  rewrite length_zip_with, length_app, length_fmap, slice_drop_1, length_drop.
  cbn [length]. lia.
Qed.

Lemma make_row_duration (crt ktt : PitchType)
    (t : Q * (ChordCells * (ChordCells * (KeyCells * KeyCells)))) (row : Row) :
  make_row chord_label_list key_label_list crt ktt t = Ok row ->
  row !! "duration" = Some (VFrac t.1).
Proof.
  destruct t as (duration & est_chord & gt_chord & est_key & gt_key).
  unfold make_row.
  destruct (getitem (key_label_list ktt) (kc_label gt_key)); [|discriminate].
  cbn [mbind result_bind].
  destruct (getitem (chord_label_list crt) (cc_label gt_chord)); [|discriminate].
  cbn [mbind result_bind].
  destruct (getitem (key_label_list ktt) (kc_label est_key)); [|discriminate].
  cbn [mbind result_bind].
  destruct (getitem (chord_label_list crt) (cc_label est_chord)); [|discriminate].
  cbn [mbind result_bind]. intros Hrow. apply Ok_inj in Hrow. subst row.
  vm_compute. reflexivity.
Qed.

(** C6. In a frame returned by [get_results_df], built on the arrays
    [gt_chords], [gt_keys] (ground truth) and [est_array ...] (estimate):
    with non-decreasing, non-negative change indices every note index
    that a ground-truth or estimated segment covers holds the label of
    that segment, the last ground-truth chord and key being written from
    the last change index through the end of the notes; and the frame
    has one row for every note whose duration-cache entry is not zero
    and none for the others, so every row has a non-zero duration. *)
Theorem C6_results_df_broadcast_and_skip_zero_durations
    (piece : ScorePiece Measures) (state : State)
    (output_root_type output_tonic_type chord_root_type key_tonic_type : PitchType)
    (rows : list Row) :
  let n := length (notes piece) in
  let est_chords :=
    est_array zero_chord_cells n
      (zip_with (est_chord_cells output_root_type chord_root_type)
         (state_chords state) (state_chord_pitches state))
      (state_chord_changes state) in
  let est_keys :=
    est_array zero_key_cells n
      (est_key_cells output_tonic_type key_tonic_type <$> state_keys state)
      (state_key_changes state) in
  get_results_df get_range_length gt_chord_cells est_chord_cells gt_key_cells
    est_key_cells chord_label_list key_label_list piece state
    output_root_type output_tonic_type chord_root_type key_tonic_type = Ok rows ->
  exists (gt_chords : list ChordCells) (gt_changes : list Z)
         (gt_keys : list KeyCells) (duration_cache : list Q),
    get_key_change_input_indices piece = Ok gt_changes
    /\ get_duration_cache get_range_length piece = Ok duration_cache
    /\ length duration_cache = n
    (* ground-truth chords *)
    /\ (nondecreasing (chord_changes piece) ->
        (forall i x, chord_changes piece !! i = Some x -> 0 <= x) ->
        length (chords piece) = length (chord_changes piece) ->
        forall i chord (k : nat),
          chords piece !! i = Some chord ->
          covers (chord_changes piece) (Z.of_nat n) i (Z.of_nat k) ->
          (k < n)%nat ->
          gt_chords !! k = Some (gt_chord_cells chord_root_type chord))
    (* ground-truth keys *)
    /\ (nondecreasing gt_changes ->
        (forall i x, gt_changes !! i = Some x -> 0 <= x) ->
        length (keys piece) = length gt_changes ->
        forall i key (k : nat),
          keys piece !! i = Some key ->
          covers gt_changes (Z.of_nat n) i (Z.of_nat k) ->
          (k < n)%nat ->
          gt_keys !! k = Some (gt_key_cells key_tonic_type key))
    (* estimated chords *)
    /\ (nondecreasing (state_chord_changes state) ->
        (forall i x, state_chord_changes state !! i = Some x -> 0 <= x) ->
        forall i chord pitches s e (k : nat),
          state_chords state !! i = Some chord ->
          state_chord_pitches state !! i = Some pitches ->
          state_chord_changes state !! i = Some s ->
          state_chord_changes state !! S i = Some e ->
          s <= Z.of_nat k < e -> (k < n)%nat ->
          est_chords !! k
          = Some (est_chord_cells output_root_type chord_root_type chord pitches))
    (* estimated keys *)
    /\ (nondecreasing (state_key_changes state) ->
        (forall i x, state_key_changes state !! i = Some x -> 0 <= x) ->
        forall i key s e (k : nat),
          state_keys state !! i = Some key ->
          state_key_changes state !! i = Some s ->
          state_key_changes state !! S i = Some e ->
          s <= Z.of_nat k < e -> (k < n)%nat ->
          est_keys !! k
          = Some (est_key_cells output_tonic_type key_tonic_type key))
    (* the rows *)
    /\ Forall2
         (fun t row =>
            make_row chord_label_list key_label_list chord_root_type
              key_tonic_type t = Ok row)
         (filter has_duration
            (zip duration_cache
               (zip est_chords (zip gt_chords (zip est_keys gt_keys)))))
         rows
    /\ length rows
       = length (filter (fun q => Is_true (negb (Qeq_bool q 0))) duration_cache)
    /\ Forall (fun row : Row =>
                 exists q, row !! "duration" = Some (VFrac q) /\ ~ (q == 0)%Q)
         rows.
Proof.
  intros n est_chords est_keys. unfold get_results_df.
  fold n. fold est_chords. fold est_keys.
  destruct (gt_array (gt_chord_cells chord_root_type) _ _ _ _)
    as [gt_chords|] eqn:Hgc; [|discriminate].
  cbn [mbind result_bind].
  destruct (get_key_change_input_indices piece) as [gt_changes|] eqn:Hch;
    [|discriminate].
  cbn [mbind result_bind].
  destruct (gt_array (gt_key_cells key_tonic_type) _ _ _ _)
    as [gt_keys|] eqn:Hgk; [|discriminate].
  cbn [mbind result_bind].
  destruct (get_duration_cache get_range_length piece) as [dc|] eqn:Hdc;
    [|discriminate].
  cbn [mbind result_bind]. intros Hrows.
  pose proof (get_duration_cache_length _ _ Hdc) as Hdcl. fold n in Hdcl.
  pose proof (mapM_Ok_Forall2 _ _ _ Hrows) as Hall.
  exists gt_chords, gt_changes, gt_keys, dc.
  split; [reflexivity|]. split; [reflexivity|]. split; [exact Hdcl|].
  split.
  { intros Hmono Hpos Hlen i chord k Hi Hcov Hk.
    eapply (gt_array_covers (gt_chord_cells chord_root_type)); eauto. }
  split.
  { intros Hmono Hpos Hlen i key k Hi Hcov Hk.
    eapply (gt_array_covers (gt_key_cells key_tonic_type)); eauto. }
  split.
  { intros Hmono Hpos i chord pitches s e k Hc Hp Hs He Hk Hn.
    subst est_chords.
    apply (est_array_covers _ _ _ _ Hmono Hpos i _ s e k);
      [rewrite lookup_zip_with, Hc, Hp; reflexivity|assumption..]. }
  split.
  { intros Hmono Hpos i key s e k Hc Hs He Hk Hn.
    subst est_keys.
    apply (est_array_covers _ _ _ _ Hmono Hpos i _ s e k);
      [rewrite list_lookup_fmap, Hc; reflexivity|assumption..]. }
  split; [exact Hall|].
  split.
  - rewrite <- (Forall2_length _ _ _ Hall).
    apply filter_has_duration_length.
    rewrite !length_zip.
    subst est_chords est_keys. unfold est_array.
    rewrite !length_broadcast, !length_replicate.
    rewrite (gt_array_length _ _ _ _ _ _ Hgc), (gt_array_length _ _ _ _ _ _ Hgk).
    lia.
  - apply Forall_forall. intros row Hrow.
    apply list_elem_of_lookup in Hrow as [j Hj].
    destruct (Forall2_lookup_r _ _ _ _ _ Hall Hj) as (t & Ht & Hmk).
    exists t.1. split; [eapply make_row_duration; eauto|].
    apply list_elem_of_lookup_2, list_elem_of_filter in Ht as [Hd _].
    unfold has_duration in Hd. intros Hq. apply Qeq_bool_iff in Hq.
    rewrite Hq in Hd. exact Hd.
Qed.

End ResultsDfFacts.

(** The grace note gets no row; the tonic is right on the second note
    and wrong on the third, which sounds three times as long. *)
Example results_without_grace_note :
  ResultsSamples.results = Ok ResultsSamples.rows
  /\ length ResultsSamples.rows = 2%nat
  /\ (fun row : Row => row !! "duration") <$> ResultsSamples.rows
     = [Some (VFrac 1); Some (VFrac 3)]
  /\ exists v, ResultsSamples.chord_accuracy = Ok (v, [])
               /\ (v == 1 # 4)%Q.
Proof.
  split; [vm_cast_no_check (@eq_refl _ ResultsSamples.results)|].
  split; [vm_compute; reflexivity|].
  split; [vm_compute; reflexivity|].
  eexists. split; [vm_compute; reflexivity|reflexivity].
Qed.

Lemma C6_results_df_witness :
  ResultsSamples.results = Ok ResultsSamples.rows
  /\ nondecreasing (chord_changes ResultsSamples.grace_piece)
  /\ covers (chord_changes ResultsSamples.grace_piece) 3 0 1
  /\ exists gt_chords : list ChordCells,
       gt_chords !! 1%nat
       = Some (ResultsSamples.gt_chord TPC (Samples.chord_at 15 CT_MAJOR 0 0 1))
       /\ length ResultsSamples.rows = 2%nat
       /\ Forall (fun row : Row =>
                    exists q, row !! "duration" = Some (VFrac q)
                              /\ ~ (q == 0)%Q)
            ResultsSamples.rows.
Proof.
  assert (Hrows : ResultsSamples.results = Ok ResultsSamples.rows)
    by (vm_cast_no_check (@eq_refl _ ResultsSamples.results)).
  split; [exact Hrows|].
  assert (Hmono : nondecreasing (chord_changes ResultsSamples.grace_piece)).
  { intros i j x y Hij Hx Hy.
    destruct i as [|[|i]]; destruct j as [|[|j]]; simpl in Hx, Hy;
      try discriminate; try lia.
    injection Hx as <-. injection Hy as <-. lia. }
  assert (Hcov : covers (chord_changes ResultsSamples.grace_piece) 3 0 1).
  { exists 0. split; [reflexivity|]. simpl. lia. }
  split; [exact Hmono|]. split; [exact Hcov|].
  destruct (C6_results_df_broadcast_and_skip_zero_durations
              ResultsSamples.range_length ResultsSamples.gt_chord
              ResultsSamples.est_chord ResultsSamples.gt_key
              ResultsSamples.est_key ResultsSamples.chord_labels
              ResultsSamples.key_labels ResultsSamples.grace_piece
              ResultsSamples.tonic_state TPC TPC TPC TPC
              ResultsSamples.rows Hrows)
    as (gt_chords & gt_changes & gt_keys & dc & _ & Hdc & _ & Hgt & _ & _
        & _ & _ & Hlen & Hnonzero).
  exists gt_chords. split.
  - apply (Hgt Hmono) with (i := 0%nat); try reflexivity.
    + intros i x Hx. destruct i as [|[|i]]; simpl in Hx; try discriminate;
        injection Hx as <-; lia.
    + exact Hcov.
    + simpl. lia.
  - split; [|exact Hnonzero].
    rewrite Hlen. vm_compute in Hdc. injection Hdc as <-. reflexivity.
Defined.

(** ** Colours of annotations *)

(** The chord colours follow the three tiers. *)
Lemma chord_color_tiers (TRIAD_REDUCTION : ChordType -> ChordType)
    (gt_root est_root gt_inv est_inv : Z) (gt_type est_type : ChordType) :
  let color :=
    chord_color TRIAD_REDUCTION (gt_root, gt_type, gt_inv)
      (est_root, est_type, est_inv) in
  let exact := gt_root = est_root /\ gt_type = est_type /\ gt_inv = est_inv in
  let partial_ :=
    gt_root = est_root /\ TRIAD_REDUCTION gt_type = TRIAD_REDUCTION est_type in
  (exact -> color = "green")
  /\ (~ exact -> partial_ -> color = "orange")
  /\ (~ exact -> ~ partial_ -> color = "red").
Proof.
  cbv zeta. unfold chord_color.
  destruct (Z.eqb_spec gt_root est_root) as [Hr|Hr];
    destruct (Z.eqb_spec gt_inv est_inv) as [Hi|Hi];
    repeat case_bool_decide; cbn [andb];
    (split; [|split]); intros; first [reflexivity | tauto].
Qed.

(** A ground-truth tonic and mode unpacked from a label string are never
    equal to an estimated tonic number, so the key label is never green
    or orange. *)
Lemma key_color_of_unpacked_label (s : string) (gt_tonic gt_mode : PyVal)
    (est_tonic : Z) (est_mode : KeyMode) :
  unpack_pair_of_string s = Ok (gt_tonic, gt_mode) ->
  key_color gt_tonic gt_mode (VInt est_tonic) (VMode est_mode) = "red".
Proof.
  destruct s as [|a [|b [|c s]]]; try discriminate.
  intros [= <- <-]. reflexivity.
Qed.

(** C7. On a piece and an estimate that agree on the key (both have key
    index 0, tonic 15, major), [get_results_annotation_df] colours the
    key label "red" when the label string has two characters, and raises
    [ValueError] when it has another length: the ground-truth tonic and
    mode are unpacked from the label string ([key_label_list]) instead of
    the decoded key ([key_list]). The chord labels of the same run are
    coloured by the three tiers. *)
Theorem C7_equal_keys_are_coloured_red :
  AnnotationSamples.annotate ["Bb"]
  = Ok [ {| ann_label := "Bb"; ann_mc := 0; ann_mc_onset := 0;
            ann_mn_onset := 0; ann_color_name := "red" |};
         {| ann_label := "C:M"; ann_mc := 0; ann_mc_onset := 0;
            ann_mn_onset := 0; ann_color_name := "green" |};
         {| ann_label := "--"; ann_mc := 0; ann_mc_onset := 1;
            ann_mn_onset := 1; ann_color_name := "red" |} ]
  /\ AnnotationSamples.annotate ["C:MAJOR"] = Raise ValueError
  /\ AnnotationSamples.annotate ["C"] = Raise ValueError.
Proof. split; [|split]; vm_compute; reflexivity. Qed.

(** ** Serialized pieces *)

Section PieceDictFacts.

Context {Measures NoteDict ChordDict KeyDict : Type}.
Variable Note_to_dict : Note -> NoteDict.
Variable Note_from_dict : NoteDict -> Note.
Variable Chord_to_dict : Chord -> ChordDict.
Variable Chord_from_dict : ChordDict -> Chord.
Variable Key_to_dict : Key -> KeyDict.
Variable Key_from_dict : KeyDict -> Key.

Lemma fmap_round_trip {X Y} (f : X -> Y) (g : Y -> X) (l : list X) :
  (forall x, g (f x) = x) -> g <$> (f <$> l) = l.
Proof.
  intros H. rewrite <- list_fmap_compose.
  rewrite <- (list_fmap_id l) at 2. apply list_fmap_ext. intros _ x _. apply H.
Qed.

(** C9, amended. The dictionary of a piece has exactly the keys [notes],
    [chords], [keys], [chord_changes], [chord_ranges] and [key_changes];
    [notes], [chords] and [keys] hold plain lists of the dictionaries of
    the elements, the three index arrays are the numpy arrays of the
    piece; built back with the same [measures_df], the piece has equal
    note, chord and key sequences and identical [chord_changes],
    [chord_ranges] and [key_changes], provided the dictionary of a note,
    chord or key builds that note, chord or key back. *)
Theorem C9_to_dict_keys_and_round_trip (piece : ScorePiece Measures) :
  let d := to_dict Note_to_dict Chord_to_dict Key_to_dict piece in
  dom d = piece_dict_keys
  /\ d !! "notes" = Some (DNotes PyList (Note_to_dict <$> notes piece))
  /\ d !! "chords" = Some (DChords PyList (Chord_to_dict <$> chords piece))
  /\ d !! "keys" = Some (DKeys PyList (Key_to_dict <$> keys piece))
  /\ d !! "chord_changes" = Some (DInts NdArray (chord_changes piece))
  /\ d !! "chord_ranges" = Some (DRanges NdArray (chord_ranges piece))
  /\ d !! "key_changes" = Some (DInts NdArray (key_changes piece))
  /\ ((forall n, Note_from_dict (Note_to_dict n) = n) ->
      (forall c, Chord_from_dict (Chord_to_dict c) = c) ->
      (forall k, Key_from_dict (Key_to_dict k) = k) ->
      forall nm,
        exists piece',
          get_score_piece_from_dict Note_from_dict Chord_from_dict
            Key_from_dict (measures_df piece) d nm = Ok piece'
          /\ notes piece' = notes piece
          /\ chords piece' = chords piece
          /\ keys piece' = keys piece
          /\ chord_changes piece' = chord_changes piece
          /\ chord_ranges piece' = chord_ranges piece
          /\ key_changes piece' = key_changes piece
          /\ (nm = name piece -> piece' = piece)).
Proof.
  intros d. subst d.
  assert (Hnotes : to_dict Note_to_dict Chord_to_dict Key_to_dict piece !! "notes"
                   = Some (DNotes PyList (Note_to_dict <$> notes piece)))
    by reflexivity.
  assert (Hchords : to_dict Note_to_dict Chord_to_dict Key_to_dict piece !! "chords"
                    = Some (DChords PyList (Chord_to_dict <$> chords piece)))
    by reflexivity.
  assert (Hkeys : to_dict Note_to_dict Chord_to_dict Key_to_dict piece !! "keys"
                  = Some (DKeys PyList (Key_to_dict <$> keys piece)))
    by reflexivity.
  assert (Hcc : to_dict Note_to_dict Chord_to_dict Key_to_dict piece
                  !! "chord_changes"
                = Some (DInts NdArray (chord_changes piece)))
    by reflexivity.
  assert (Hcr : to_dict Note_to_dict Chord_to_dict Key_to_dict piece
                  !! "chord_ranges"
                = Some (DRanges NdArray (chord_ranges piece)))
    by reflexivity.
  assert (Hkc : to_dict Note_to_dict Chord_to_dict Key_to_dict piece
                  !! "key_changes"
                = Some (DInts NdArray (key_changes piece)))
    by reflexivity.
  split.
  { unfold to_dict, piece_dict_keys. rewrite dom_list_to_map_L.
    cbn [fmap list_fmap fst list_to_set foldr]. set_solver. }
  do 6 (split; [assumption|]).
  intros Hn Hc Hk nm. eexists. split.
  - unfold get_score_piece_from_dict, dict_get.
    rewrite Hnotes, Hchords, Hkeys, Hcc, Hcr, Hkc.
    cbn [mbind result_bind]. reflexivity.
  - cbn [notes chords keys chord_changes chord_ranges key_changes].
    rewrite !fmap_round_trip by assumption.
    repeat split. intros ->. destruct piece; reflexivity.
Qed.

End PieceDictFacts.

Lemma C9_to_dict_witness :
  dom DictSamples.held_dict = piece_dict_keys
  /\ DictSamples.reloaded = Ok PieceSamples.held_piece.
Proof.
  destruct (C9_to_dict_keys_and_round_trip id id id id id id
              PieceSamples.held_piece)
    as (Hdom & _ & _ & _ & _ & _ & _ & Hback).
  split; [exact Hdom|].
  destruct (Hback (fun n => eq_refl) (fun c => eq_refl) (fun k => eq_refl)
              (name PieceSamples.held_piece))
    as (piece' & Hload & _ & _ & _ & _ & _ & _ & Hsame).
  unfold DictSamples.reloaded, DictSamples.held_dict.
  rewrite Hload, (Hsame eq_refl). reflexivity.
Defined.

(** The entry [chord_changes] of the dictionary of the sample piece is a
    numpy array: not every entry holds a plain list. *)
Lemma C9_plain_list_counterexample :
  ~ (forall key v,
       DictSamples.held_dict !! key = Some v -> container_of v = PyList).
Proof.
  intros H.
  specialize (H "chord_changes"
                (DInts NdArray (chord_changes PieceSamples.held_piece))
                ltac:(vm_compute; reflexivity)).
  discriminate H.
Qed.

(** ** Chords within a range of inputs *)

Lemma bisect_left_sorted (cc : list Z) (x : Z) (lo : nat) :
  nondecreasing cc ->
  (lo <= length cc)%nat ->
  (forall k y, (k < lo)%nat -> cc !! k = Some y -> y < x) ->
  exists r,
    bisect_left Z.ltb cc x (Z.of_nat lo) None = Ok r
    /\ (lo <= r)%nat
    /\ changes_below cc x r.
Proof.
  intros Hsorted Hlo Hbefore. unfold bisect_left.
  destruct (Z.of_nat lo <? 0) eqn:E; [lia|]. rewrite Nat2Z.id. cbn [default from_option].
  destruct (bisect_loop_returns Z.ltb cc x lo (length cc) (le_n _)) as [r Hr].
  destruct (bisect_loop_stops Z.ltb cc x lo (length cc) r Hlo Hr) as [Hrange Hstop].
  exists r. split; [exact Hr|]. split; [lia|]. split; [lia|]. split.
  - intros k y Hk Hy. destruct (Nat.lt_ge_cases k lo) as [Hlt|Hge].
    + apply (Hbefore k y Hlt Hy).
    + assert (Z.ltb y x = true) as Hyx; [|lia].
      assert (Htrans : forall u v w : Z,
                 (v <? u) = false -> (v <? w) = true -> (u <? w) = true)
        by (intros u v w Hvu Hvw; lia).
      assert (Hord : forall (i j : nat) (u v : Z), (i <= j)%nat ->
                 cc !! i = Some u -> cc !! j = Some v -> (v <? u) = false).
      { intros i j u v Hij Hu Hv.
        destruct (decide (i = j)) as [->|Hne].
        - rewrite Hu in Hv. injection Hv as ->. lia.
        - pose proof (Hsorted i j u v ltac:(lia) Hu Hv). lia. }
      apply (bisect_loop_sorted Z.ltb cc x lo (length cc) Htrans Hord r
               Hlo Hr k y); [lia|exact Hy].
  - intros y Hy.
    assert (r < length cc)%nat as Hlt by (apply lookup_lt_Some in Hy; exact Hy).
    destruct (Hstop Hlt) as (am & Ham & Hnot).
    rewrite Hy in Ham. injection Ham as <-. lia.
Qed.

Lemma slice_of_nat {X} (l : list X) (a b : nat) :
  slice l (Some (Z.of_nat a)) (Some (Z.of_nat b)) = take (b - a) (drop a l).
Proof.
  unfold slice, slice_bounds. cbn [from_option].
  rewrite !clamp_index_nonneg by lia.
  destruct (Nat.le_gt_cases (length l) a) as [Ha|Ha].
  - rewrite (drop_ge l a) by lia.
    rewrite drop_ge by lia. now rewrite !take_nil.
  - replace (Z.to_nat (Z.min (Z.of_nat a) (Z.of_nat (length l)))) with a by lia.
    destruct (Nat.le_gt_cases (length l) b) as [Hb|Hb].
    + replace (Z.to_nat (Z.min (Z.of_nat b) (Z.of_nat (length l))))
        with (length l) by lia.
      rewrite !take_ge; auto; rewrite length_drop; lia.
    + now replace (Z.to_nat (Z.min (Z.of_nat b) (Z.of_nat (length l))))
        with b by lia.
Qed.

Lemma slice_from_nat {X} (l : list X) (a : nat) :
  slice l (Some (Z.of_nat a)) None = drop a l.
Proof.
  unfold slice, slice_bounds. cbn [from_option].
  rewrite clamp_index_nonneg by lia.
  destruct (Nat.le_gt_cases (length l) a) as [Ha|Ha].
  - rewrite (drop_ge l a) by lia. rewrite drop_ge by lia. apply take_nil.
  - replace (Z.to_nat (Z.min (Z.of_nat a) (Z.of_nat (length l)))) with a by lia.
    apply take_ge. rewrite length_drop. lia.
Qed.

(** The start index that [get_chords_within_range] computes on sorted
    change indices that begin at or before [start]. *)
Lemma start_index_sorted (cc : list Z) (start first : Z) :
  nondecreasing cc ->
  cc !! 0%nat = Some first -> first <= start ->
  exists (r i : nat) (inexact : bool),
    bisect_left Z.ltb cc start 0 None = Ok r
    /\ (if bool_decide (r = length cc) then Ok true
        else c ← getitem cc (Z.of_nat r); Ok (negb (c =? start)))
       = Ok inexact
    /\ (if inexact then Z.of_nat r - 1 else Z.of_nat r) = Z.of_nat i
    /\ (i < length cc)%nat
    /\ sounding_index cc start i.
Proof.
  intros Hsorted Hfirst Hle.
  destruct (bisect_left_sorted cc start 0 Hsorted ltac:(lia)) as (r & Hr & _ & Hbelow).
  { intros k y Hk. lia. }
  destruct Hbelow as (Hlen & Hbefore & Hat).
  assert (Hfirst_len : (0 < length cc)%nat) by (apply lookup_lt_Some in Hfirst; exact Hfirst).
  destruct (decide (r = length cc)) as [Hend|Hend].
  - (* every change index is below [start] *)
    exists r, (r - 1)%nat, true. split; [exact Hr|].
    rewrite (bool_decide_eq_true_2 _ Hend).
    split; [reflexivity|].
    split; [lia|]. split; [lia|]. split.
    + intros k x Hk. apply Hbefore. lia.
    + destruct (lookup_lt_is_Some_2 cc (r - 1)%nat ltac:(lia)) as [x Hx].
      exists x. split; [exact Hx|]. right. split.
      * apply (Hbefore (r - 1)%nat x); [lia|exact Hx].
      * intros y Hy. apply lookup_lt_Some in Hy. lia.
  - destruct (lookup_lt_is_Some_2 cc r ltac:(lia)) as [c Hc].
    pose proof (Hat c Hc) as Hge.
    assert (Hexact :
              (if bool_decide (r = length cc) then Ok true
               else c ← getitem cc (Z.of_nat r); Ok (negb (c =? start)))
              = Ok (negb (c =? start))).
    { rewrite (bool_decide_eq_false_2 _ Hend), getitem_of_nat, Hc. reflexivity. }
    destruct (c =? start) eqn:Eq; cbn [negb] in Hexact.
    + exists r, r, false. split; [exact Hr|]. split; [exact Hexact|].
      split; [reflexivity|]. split; [lia|]. split; [exact Hbefore|].
      exists c. split; [exact Hc|]. left. lia.
    + assert (0 < r)%nat as Hpos.
      { destruct r as [|r']; [|lia]. rewrite Hfirst in Hc. injection Hc as <-. lia. }
      exists r, (r - 1)%nat, true. split; [exact Hr|]. split; [exact Hexact|].
      split; [lia|]. split; [lia|]. split.
      * intros k x Hk. apply Hbefore. lia.
      * destruct (lookup_lt_is_Some_2 cc (r - 1)%nat ltac:(lia)) as [x Hx].
        exists x. split; [exact Hx|]. right. split.
        -- apply (Hbefore (r - 1)%nat x); [lia|exact Hx].
        -- intros y Hy. replace (S (r - 1)) with r in Hy by lia.
           rewrite Hc in Hy. injection Hy as <-. lia.
Qed.

(** X1. On change indices in non-decreasing order that begin at or
    before [start], [get_chords_within_range(start)] returns the chords
    from the one that sounds at input [start] (the chord that changes at
    [start], or else the last chord that changes before it) to the end. *)
Theorem X1_chords_within_range_from_start {Measures}
    (piece : ScorePiece Measures) (start first : Z) :
  nondecreasing (chord_changes piece) ->
  chord_changes piece !! 0%nat = Some first -> first <= start ->
  exists i,
    sounding_index (chord_changes piece) start i
    /\ get_chords_within_range piece start None = Ok (drop i (chords piece)).
Proof.
  intros Hsorted Hfirst Hle.
  destruct (start_index_sorted _ start first Hsorted Hfirst Hle)
    as (r & i & inexact & Hr & Hexact & Hi & _ & Hsound).
  exists i. split; [exact Hsound|].
  unfold get_chords_within_range. cbn [negb].
  rewrite Hr. cbn [mbind result_bind]. rewrite Hexact. cbn [mbind result_bind].
  rewrite Hi. now rewrite slice_from_nat.
Qed.

Lemma X1_chords_within_range_from_start_witness :
  exists i,
    sounding_index (chord_changes PieceSamples.held_piece) 1 i
    /\ get_chords_within_range PieceSamples.held_piece 1 None
       = Ok (drop i (chords PieceSamples.held_piece)).
Proof.
  apply (X1_chords_within_range_from_start PieceSamples.held_piece 1 0).
  - intros i j x y Hij Hx Hy.
    destruct i as [|[|i]]; destruct j as [|[|j]]; cbn in Hx, Hy;
      try discriminate; try lia.
    injection Hx as <-. injection Hy as <-. lia.
  - reflexivity.
  - lia.
Defined.

(** X2. With a [stop] at or after [start], the chords returned are those
    from the chord that sounds at [start] up to, and not including, the
    first chord whose change index is at or after [stop]. *)
Theorem X2_chords_within_range_until_stop {Measures}
    (piece : ScorePiece Measures) (start stop first : Z) :
  nondecreasing (chord_changes piece) ->
  chord_changes piece !! 0%nat = Some first -> first <= start ->
  start <= stop ->
  exists i e,
    sounding_index (chord_changes piece) start i
    /\ changes_below (chord_changes piece) stop e
    /\ (i <= e)%nat
    /\ get_chords_within_range piece start (Some stop)
       = Ok (take (e - i) (drop i (chords piece))).
Proof.
  intros Hsorted Hfirst Hle Hstop.
  destruct (start_index_sorted _ start first Hsorted Hfirst Hle)
    as (r & i & inexact & Hr & Hexact & Hi & Hlen & Hsound).
  destruct (bisect_left_sorted (chord_changes piece) stop i Hsorted ltac:(lia))
    as (e & He & Hie & Hbelow).
  { intros k y Hk Hy. destruct Hsound as [Hbefore _].
    pose proof (Hbefore k y Hk Hy). lia. }
  exists i, e. split; [exact Hsound|]. split; [exact Hbelow|]. split; [exact Hie|].
  unfold get_chords_within_range.
  destruct (stop >=? start) eqn:E; [|lia]. cbn [negb].
  rewrite Hr. cbn [mbind result_bind]. rewrite Hexact. cbn [mbind result_bind].
  rewrite Hi. replace (Z.max (Z.of_nat i) 0) with (Z.of_nat i) by lia.
  rewrite He. cbn [mbind result_bind]. now rewrite slice_of_nat.
Qed.

Lemma X2_chords_within_range_until_stop_witness :
  exists i e,
    sounding_index (chord_changes PieceSamples.held_piece) 0 i
    /\ changes_below (chord_changes PieceSamples.held_piece) 1 e
    /\ (i <= e)%nat
    /\ get_chords_within_range PieceSamples.held_piece 0 (Some 1)
       = Ok (take (e - i) (drop i (chords PieceSamples.held_piece))).
Proof.
  apply (X2_chords_within_range_until_stop PieceSamples.held_piece 0 1 0).
  - intros i j x y Hij Hx Hy.
    destruct i as [|[|i]]; destruct j as [|[|j]]; cbn in Hx, Hy;
      try discriminate; try lia.
    injection Hx as <-. injection Hy as <-. lia.
  - reflexivity.
  - lia.
  - lia.
Defined.

(** X3. When [start] lies before the first change index (or the piece
    has no chord), the start index becomes -1 and the slice
    [chords[-1:]] holds the last chord only, not the chords from the
    first one. *)
Theorem X3_chords_within_range_before_first_change {Measures}
    (piece : ScorePiece Measures) (start : Z) :
  nondecreasing (chord_changes piece) ->
  (forall x, chord_changes piece !! 0%nat = Some x -> start < x) ->
  get_chords_within_range piece start None
  = Ok (drop (length (chords piece) - 1) (chords piece)).
Proof.
  intros Hsorted Hfirst.
  destruct (bisect_left_sorted (chord_changes piece) start 0 Hsorted ltac:(lia))
    as (r & Hr & _ & Hlen & Hbefore & Hat).
  { intros k y Hk. lia. }
  assert (r = 0)%nat as ->.
  { destruct r as [|r']; [reflexivity|].
    destruct (lookup_lt_is_Some_2 (chord_changes piece) 0%nat ltac:(lia)) as [x Hx].
    pose proof (Hfirst x Hx). pose proof (Hbefore 0%nat x ltac:(lia) Hx). lia. }
  unfold get_chords_within_range. cbn [negb].
  change 0 with (Z.of_nat 0) at 1. rewrite Hr. cbn [mbind result_bind].
  assert (Hexact :
            (if bool_decide (0%nat = length (chord_changes piece)) then Ok true
             else c ← getitem (chord_changes piece) (Z.of_nat 0);
                  Ok (negb (c =? start)))
            = Ok true).
  { case_bool_decide as Hend; [reflexivity|].
    destruct (lookup_lt_is_Some_2 (chord_changes piece) 0%nat ltac:(lia)) as [x Hx].
    rewrite getitem_of_nat, Hx. cbn [mbind result_bind].
    pose proof (Hfirst x Hx). destruct (x =? start) eqn:E; [lia|reflexivity]. }
  rewrite Hexact. cbn [mbind result_bind].
  unfold slice, slice_bounds, clamp_index. cbn [from_option].
  change (Z.of_nat 0 - 1 <? 0) with true. cbv iota.
  replace (Z.to_nat (Z.max (Z.of_nat 0 - 1 + Z.of_nat (length (chords piece))) 0))
    with (length (chords piece) - 1)%nat by lia.
  f_equal. apply take_ge. rewrite length_drop. lia.
Qed.

Lemma X3_chords_within_range_before_first_change_witness :
  get_chords_within_range PieceSamples.held_piece (-1) None
  = Ok (drop (length (chords PieceSamples.held_piece) - 1)
          (chords PieceSamples.held_piece)).
Proof.
  apply (X3_chords_within_range_before_first_change PieceSamples.held_piece (-1)).
  - intros i j x y Hij Hx Hy.
    destruct i as [|[|i]]; destruct j as [|[|j]]; cbn in Hx, Hy;
      try discriminate; try lia.
    injection Hx as <-. injection Hy as <-. lia.
  - intros x Hx. cbn in Hx. injection Hx as <-. lia.
Defined.

(** ** Pieces built from data frames: the stored arrays *)

Lemma row_changes_first (cur : KeyCols) :
  row_changes (mkKeyCols CNaN CNaN CNaN CNaN CNaN) cur = true.
Proof.
  unfold row_changes. cbn [globalkey]. destruct (globalkey cur); reflexivity.
Qed.

Lemma true_positions_first (changes : list bool) (k : nat) (ks : list nat) :
  true_positions changes = k :: ks ->
  changes !! 0%nat = Some true -> k = 0%nat.
Proof.
  destruct changes as [|b changes]; [discriminate|].
  intros Hk [= ->]. unfold true_positions in Hk. cbn [length seq] in Hk.
  rewrite compress_cons in Hk. now injection Hk as <- _.
Qed.

Section BuiltPieceFacts.

Context {NoteRow ChordRow Measures : Type}.
Variable Note_from_series : Measures -> NoteRow -> option Note.
Variable Chord_from_series :
  Measures -> (ChordType -> ChordType) -> bool -> bool -> ChordRow -> option Chord.
Variable Key_from_series : ChordRow -> option Key.
Variable Key_is_repeated : bool -> Key -> Key -> bool.
Variable merge_pitches : list Z -> list Z -> list Z.
Variable key_columns : ChordRow -> KeyCols.

Local Abbreviation build :=
  (get_score_piece_from_data_frames Note_from_series Chord_from_series
     Key_from_series Key_is_repeated merge_pitches key_columns).

(** The keys and their change indices are selected by one mask, and the
    first key change is the first chord. *)
Lemma get_score_piece_keys notes_df chords_df m red ui ur nm piece :
  build notes_df chords_df m red ui ur nm = Ok piece ->
  length (keys piece) = length (key_changes piece)
  /\ key_changes piece !! 0%nat = Some 0.
Proof.
  unfold get_score_piece_from_data_frames.
  destruct (hsplit_squeeze chords_df _) as [[chords_list chord_ilocs]|] eqn:Hc;
    [|discriminate].
  cbn [mbind result_bind].
  change (fold_left (merge_step merge_pitches) _ (Ok []))
    with (reduce_chords merge_pitches ui chords_list).
  rewrite reduce_chords_closed. cbn [mbind result_bind].
  destruct (bool_index chord_ilocs _) as [ilocs|] eqn:Hi; [|discriminate].
  cbn [mbind result_bind].
  destruct (hsplit_squeeze notes_df _) as [[notes_ note_ilocs]|] eqn:Hn;
    [|discriminate].
  cbn [mbind result_bind].
  destruct (true_positions _) as [|kc0 kcs] eqn:Hk; [discriminate|].
  cbn [mbind result_bind].
  destruct (bool_index (omap _ _) _) as [keys_|] eqn:Hkeys; [|discriminate].
  cbn [mbind result_bind].
  destruct (bool_index (kc0 :: kcs) _) as [kc|] eqn:Hkc; [|discriminate].
  cbn [mbind result_bind].
  intros [= <-]. cbn [keys key_changes].
  apply bool_index_Ok in Hkeys as [Hlen_keys ->].
  apply bool_index_Ok in Hkc as [Hlen_kc ->].
  rewrite get_reduction_mask_closed in *. cbn [default from_option] in *.
  assert (kc0 = 0%nat) as ->.
  { apply (true_positions_first _ _ _ Hk).
    destruct (_ <$> int_index chords_df ilocs) as [|cur key_cols];
      [discriminate Hk|].
    unfold key_col_changes. cbn [changes_from lookup list_lookup].
    now rewrite row_changes_first. }
  split.
  - rewrite length_fmap, !compress_length by assumption. reflexivity.
  - destruct (omap Key_from_series _) as [|key0 keys_list];
      [discriminate Hlen_kc|].
    cbn [mask_closed]. rewrite compress_cons. reflexivity.
Qed.

End BuiltPieceFacts.

Section BuiltPieceTheorems.

Context {NoteRow ChordRow Measures : Type}.
Variable Note_from_series : Measures -> NoteRow -> option Note.
Variable Chord_from_series :
  Measures -> (ChordType -> ChordType) -> bool -> bool -> ChordRow -> option Chord.
Variable Key_from_series : ChordRow -> option Key.
Variable Key_is_repeated : bool -> Key -> Key -> bool.
Variable merge_pitches : list Z -> list Z -> list Z.
Variable key_columns : ChordRow -> KeyCols.
Variable get_range_length : Position -> Position -> Measures -> Q.

Local Abbreviation build :=
  (get_score_piece_from_data_frames Note_from_series Chord_from_series
     Key_from_series Key_is_repeated merge_pitches key_columns).

(** The order and range of the two change arrays of a built piece, on
    natural numbers. *)
Lemma built_piece_changes notes_df chords_df m red ui ur nm piece :
  build notes_df chords_df m red ui ur nm = Ok piece ->
  exists (cc kc : list nat),
    chord_changes piece = Z.of_nat <$> cc
    /\ key_changes piece = Z.of_nat <$> kc
    /\ length cc = length (chords piece)
    /\ (forall i j x y, (i < j)%nat -> cc !! i = Some x -> cc !! j = Some y ->
          (x <= y)%nat)
    /\ (notes piece <> [] ->
        forall i x, cc !! i = Some x -> (x < length (notes piece))%nat)
    /\ (forall i j x y, (i < j)%nat -> kc !! i = Some x -> kc !! j = Some y ->
          (x < y)%nat)
    /\ (forall i x, kc !! i = Some x -> (x < length (chords piece))%nat).
Proof.
  intros Hb.
  destruct (get_score_piece_inv _ _ _ _ _ _ _ _ _ _ _ _ _ _ Hb)
    as (Hcc & _ & changes & mask & Hlen & Hkc).
  eexists _, _. split; [exact Hcc|]. split; [exact Hkc|].
  split; [apply chord_changes_from_length|].
  split; [apply chord_changes_from_mono|].
  split.
  { intros Hne i x Ex. apply chord_changes_from_bound in Ex; [exact Ex|].
    destruct (notes piece); [contradiction|simpl; lia]. }
  split.
  { intros i j x y Hij Ex Ey.
    apply (sorted_lookup lt _
             (compress_sorted lt _ mask (true_positions_sorted changes))
             _ _ _ _ Hij Ex Ey). }
  intros i x Ex.
  apply list_elem_of_lookup_2, compress_elem_of, true_positions_bound in Ex. lia.
Qed.


(** X5. In a built piece [get_key_change_input_indices] returns, for
    every key, the note index at which the key's first chord changes: one
    entry per key, in non-decreasing order, each the index of a note when
    the piece has notes, the first one the change index of the first
    chord. *)
Theorem X5_built_piece_key_change_input_indices
    notes_df chords_df m red ui ur nm piece :
  build notes_df chords_df m red ui ur nm = Ok piece ->
  exists l,
    get_key_change_input_indices piece = Ok l
    /\ length l = length (keys piece)
    /\ nondecreasing l
    /\ (notes piece <> [] -> all_within l (length (notes piece)))
    /\ l !! 0%nat = chord_changes piece !! 0%nat
    /\ forall i k, key_changes piece !! i = Some k ->
         l !! i = chord_changes piece !! Z.to_nat k.
Proof.
  intros Hb.
  destruct (get_score_piece_keys _ _ _ _ _ _ _ _ _ _ _ _ _ _ Hb)
    as (Hkeys & Hfirst).
  destruct (built_piece_changes _ _ _ _ _ _ _ _ Hb)
    as (cc & kc & Hcc & Hkc & Hlen & Hcc_mono & Hcc_bound & Hkc_mono & Hkc_bound).
  pose (g := fun k : Z => Z.of_nat (default 0%nat (cc !! Z.to_nat k))).
  assert (Hall : get_key_change_input_indices piece = Ok (g <$> key_changes piece)).
  { unfold get_key_change_input_indices. apply mapM_Ok_fmap.
    rewrite Hkc. apply Forall_forall. intros k Hin.
    apply list_elem_of_fmap in Hin as (k' & -> & Hin).
    apply list_elem_of_lookup in Hin as [i Hi].
    pose proof (Hkc_bound i k' Hi) as Hb'. rewrite <- Hlen in Hb'.
    destruct (lookup_lt_is_Some_2 cc k' Hb') as [x Hx].
    rewrite getitem_of_nat, Hcc, list_lookup_fmap, Hx. unfold g.
    rewrite Nat2Z.id, Hx. reflexivity. }
  assert (Hlook : forall i k, kc !! i = Some k ->
            exists x, cc !! k = Some x
                      /\ (g <$> key_changes piece) !! i = Some (Z.of_nat x)).
  { intros i k Hi.
    pose proof (Hkc_bound i k Hi) as Hb'. rewrite <- Hlen in Hb'.
    destruct (lookup_lt_is_Some_2 cc k Hb') as [x Hx].
    exists x. split; [exact Hx|].
    rewrite Hkc, <- list_fmap_compose, list_lookup_fmap, Hi. cbn.
    unfold g. now rewrite Nat2Z.id, Hx. }
  exists (g <$> key_changes piece).
  split; [exact Hall|].
  split; [rewrite length_fmap; symmetry; exact Hkeys|].
  split.
  { intros i j x y Hij Hx Hy.
    destruct (kc !! i) as [ki|] eqn:Eki.
    2:{ rewrite Hkc, <- list_fmap_compose, list_lookup_fmap, Eki in Hx.
        discriminate. }
    destruct (kc !! j) as [kj|] eqn:Ekj.
    2:{ rewrite Hkc, <- list_fmap_compose, list_lookup_fmap, Ekj in Hy.
        discriminate. }
    destruct (Hlook i ki Eki) as (xi & Hxi & Hgi).
    destruct (Hlook j kj Ekj) as (xj & Hxj & Hgj).
    rewrite Hgi in Hx. rewrite Hgj in Hy.
    injection Hx as <-. injection Hy as <-.
    pose proof (Hkc_mono i j ki kj Hij Eki Ekj).
    pose proof (Hcc_mono ki kj xi xj ltac:(lia) Hxi Hxj). lia. }
  split.
  { intros Hne i x Hx.
    destruct (kc !! i) as [ki|] eqn:Eki.
    2:{ rewrite Hkc, <- list_fmap_compose, list_lookup_fmap, Eki in Hx.
        discriminate. }
    destruct (Hlook i ki Eki) as (xi & Hxi & Hgi).
    rewrite Hgi in Hx. injection Hx as <-.
    pose proof (Hcc_bound Hne ki xi Hxi). lia. }
  split.
  { rewrite Hkc, list_lookup_fmap in Hfirst.
    destruct (kc !! 0%nat) as [k0|] eqn:Ek; [|discriminate].
    cbn in Hfirst. assert (k0 = 0%nat) as -> by (injection Hfirst; lia).
    destruct (Hlook 0%nat 0%nat Ek) as (x & Hx & Hg).
    rewrite Hg, Hcc, list_lookup_fmap, Hx. reflexivity. }
  intros i k Hi. rewrite Hkc, list_lookup_fmap in Hi.
  destruct (kc !! i) as [ki|] eqn:Eki; [|discriminate].
  cbn in Hi. injection Hi as <-.
  destruct (Hlook i ki Eki) as (x & Hx & Hg).
  rewrite Hg, Nat2Z.id, Hcc, list_lookup_fmap, Hx. reflexivity.
Qed.

End BuiltPieceTheorems.


Lemma X5_built_piece_key_change_input_indices_witness :
  PieceSamples.build PieceSamples.held_notes PieceSamples.held_chords
  = Ok PieceSamples.held_piece
  /\ exists l,
       get_key_change_input_indices PieceSamples.held_piece = Ok l
       /\ length l = length (keys PieceSamples.held_piece)
       /\ nondecreasing l.
Proof.
  assert (Hb : PieceSamples.build PieceSamples.held_notes PieceSamples.held_chords
               = Ok PieceSamples.held_piece) by (vm_compute; reflexivity).
  destruct (X5_built_piece_key_change_input_indices
              PieceSamples.row_note PieceSamples.row_chord PieceSamples.row_key
              PieceSamples.same_key Samples.union_pitches snd
              PieceSamples.held_notes PieceSamples.held_chords tt id true true
              None PieceSamples.held_piece Hb)
    as (l & Hl & Hlen & Hmono & _).
  split; [exact Hb|]. exists l. split; [exact Hl|]. split; [exact Hlen|exact Hmono].
Defined.

(** ** Forced positions on note onsets *)

Lemma mapM_Forall_Ok {X Y} (f : X -> result Y) (l : list X) :
  Forall (fun x => exists y, f x = Ok y) l -> exists out, mapM f l = Ok out.
Proof.
  induction 1 as [|x l [y Hy] _ [out Hout]]; [exists []; reflexivity|].
  exists (y :: out). cbn. rewrite Hy. cbn. rewrite Hout. reflexivity.
Qed.

(** X6. When the note onsets are in order and every forced position is
    the onset of some note, [convert_score_positions_to_note_indexes]
    returns one entry per force, in order: the index of the first note at
    the forced position, with the force's id when it has one. *)
Theorem X6_forces_on_onsets_convert {I Measures}
    (forces : list (Force I)) (piece : ScorePiece Measures) :
  positions_sorted (note_onset <$> notes piece) ->
  Forall (fun force =>
            exists k note,
              notes piece !! k = Some note
              /\ pos_eqb (note_onset note) (force_position force) = true)
    forces ->
  exists out,
    convert_score_positions_to_note_indexes forces piece = Ok out
    /\ length out = length forces
    /\ forall i force, forces !! i = Some force ->
         exists index note,
           out !! i = Some (index, force_id force)
           /\ notes piece !! index = Some note
           /\ pos_eqb (note_onset note) (force_position force) = true
           /\ forall k before, (k < index)%nat ->
                notes piece !! k = Some before ->
                pos_ltb (note_onset before) (force_position force) = true.
Proof.
  intros Hsorted Hon.
  assert (Heach : forall force, force ∈ forces ->
            exists index note,
              convert_force (note_onset <$> notes piece) force
              = Ok (index, force_id force)
              /\ notes piece !! index = Some note
              /\ pos_eqb (note_onset note) (force_position force) = true
              /\ forall k before, (k < index)%nat ->
                   notes piece !! k = Some before ->
                   pos_ltb (note_onset before) (force_position force) = true).
  { intros force Hin. rewrite Forall_forall in Hon.
    destruct (Hon force Hin) as (k & note & Hk & Heq).
    destruct (convert_force_aligned (note_onset <$> notes piece) force k
                (note_onset note) Hsorted) as (index & q & Hc & Hq & Heq' & Hbefore).
    { rewrite list_lookup_fmap, Hk. reflexivity. }
    { exact Heq. }
    rewrite list_lookup_fmap in Hq.
    destruct (notes piece !! index) as [note'|] eqn:En; [|discriminate].
    injection Hq as <-.
    exists index, note'. split; [exact Hc|]. split; [exact En|].
    split; [exact Heq'|].
    intros j before Hj Hb. apply (Hbefore j); [exact Hj|].
    rewrite list_lookup_fmap, Hb. reflexivity. }
  destruct (mapM_Forall_Ok (convert_force (note_onset <$> notes piece)) forces)
    as [out Hout].
  { apply Forall_forall. intros force Hin.
    destruct (Heach force Hin) as (index & note & Hc & _). eauto. }
  pose proof (mapM_Ok_Forall2 _ _ _ Hout) as Hall.
  exists out. split; [exact Hout|].
  split; [symmetry; apply (Forall2_length _ _ _ Hall)|].
  intros i force Hi.
  destruct (Forall2_lookup_l _ _ _ _ _ Hall Hi) as (r & Hr & Hconv).
  destruct (Heach force (list_elem_of_lookup_2 _ _ _ Hi))
    as (index & note & Hc & Hn & Heq & Hbefore).
  rewrite Hc in Hconv. injection Hconv as <-.
  exists index, note. auto.
Qed.

Lemma X6_forces_on_onsets_convert_witness :
  exists out,
    convert_score_positions_to_note_indexes
      [ForceSamples.force_on_second] PieceSamples.held_piece = Ok out
    /\ length out = 1%nat.
Proof.
  destruct (X6_forces_on_onsets_convert
              [ForceSamples.force_on_second] PieceSamples.held_piece)
    as (out & Hout & Hlen & _).
  - intros i j a b Hij Ha Hb.
    destruct i as [|[|i]]; destruct j as [|[|j]]; cbn in Ha, Hb;
      try discriminate; try lia;
      injection Ha as <-; injection Hb as <-; reflexivity.
  - constructor; [|constructor].
    exists 1%nat, (PieceSamples.note_at 64 1 4). split; reflexivity.
  - exists out. split; [exact Hout|exact Hlen].
Defined.

(** ** Bounds and errors of [evaluate_features] *)

(** The value of [evaluate_features] on complete rows. *)
Lemma evaluate_features_accuracy (results_df : list Row) (features : list string)
    (filter : option (list bool)) (rows : list Row) :
  match filter with
  | Some filter => bool_index results_df filter
  | None => Ok results_df
  end = Ok rows ->
  rows <> [] ->
  Forall (row_complete features) rows ->
  ~ (Qsum (row_weight <$> rows) == 0)%Q ->
  evaluate_features results_df features filter
  = Ok (weighted_accuracy features rows, []).
Proof.
  intros Hsel Hne Hcomplete Hweight.
  unfold evaluate_features. rewrite Hsel. cbn [mbind result_bind].
  case_bool_decide as Hlen; [destruct rows; [contradiction|discriminate]|].
  rewrite fold_feature_step.
  - cbn [mbind result_bind].
    rewrite zip_with_andb_true_l by now rewrite length_fmap.
    destruct (numbers_durations rows) as [-> Hn].
    { eapply Forall_impl; [exact Hcomplete|]. intros row [Hd _]. exact Hd. }
    cbn [mbind result_bind]. rewrite Hn. cbn [mbind result_bind].
    unfold np_average.
    destruct (Qeq_bool (Qsum (row_weight <$> rows)) 0) eqn:E.
    { apply Qeq_bool_iff in E. contradiction. }
    cbn [mbind result_bind]. rewrite zip_with_fmap_same. reflexivity.
  - now rewrite length_replicate.
  - intros feature Hin. eapply Forall_impl; [exact Hcomplete|].
    intros row [_ Hf]. now apply Hf.
Qed.

Lemma Qsum_le {X} (f g : X -> Q) (l : list X) :
  (forall x, x ∈ l -> (f x <= g x)%Q) ->
  (Qsum (f <$> l) <= Qsum (g <$> l))%Q.
Proof.
  induction l as [|x l IH]; intros H; cbn; [lra|].
  pose proof (H x ltac:(left)).
  pose proof (IH (fun y Hy => H y ltac:(right; exact Hy))).
  unfold Qsum in *. lra.
Qed.

Lemma weighted_accuracy_le (features features' : list string) (rows : list Row) :
  (forall row, row ∈ rows -> (0 <= row_weight row)%Q) ->
  ~ (Qsum (row_weight <$> rows) == 0)%Q ->
  (forall row, row ∈ rows ->
     row_correct features' row = true -> row_correct features row = true) ->
  (weighted_accuracy features' rows <= weighted_accuracy features rows)%Q.
Proof.
  intros Hpos Hsum Himp. unfold weighted_accuracy.
  assert (0 <= Qsum (row_weight <$> rows))%Q as Hs.
  { rewrite <- (Qsum_zeros rows). apply Qsum_le. exact Hpos. }
  assert (0 < Qsum (row_weight <$> rows))%Q as Hs' by lra.
  apply Qle_shift_div_l; [exact Hs'|].
  unfold Qdiv. rewrite <- Qmult_assoc, (Qmult_comm (/ _)), Qmult_inv_r by exact Hsum.
  rewrite Qmult_1_r. apply Qsum_le. intros row Hin.
  pose proof (Hpos row Hin). pose proof (Himp row Hin).
  destruct (row_correct features' row); [rewrite H0 by reflexivity; lra|].
  destruct (row_correct features row); lra.
Qed.

(** X7. On a frame whose rows carry the requested columns and
    non-negative durations that do not sum to zero, the accuracy that
    [evaluate_features] returns lies between 0 and 1. *)
Theorem X7_evaluate_features_between_0_and_1
    (results_df : list Row) (features : list string)
    (filter : option (list bool)) (rows : list Row) :
  match filter with
  | Some filter => bool_index results_df filter
  | None => Ok results_df
  end = Ok rows ->
  rows <> [] ->
  Forall (row_complete features) rows ->
  (forall row, row ∈ rows -> (0 <= row_weight row)%Q) ->
  ~ (Qsum (row_weight <$> rows) == 0)%Q ->
  exists v,
    evaluate_features results_df features filter = Ok (v, [])
    /\ (0 <= v <= 1)%Q.
Proof.
  intros Hsel Hne Hcomplete Hpos Hsum.
  exists (weighted_accuracy features rows).
  split; [apply evaluate_features_accuracy; assumption|].
  assert (0 <= Qsum (row_weight <$> rows))%Q as Hs.
  { rewrite <- (Qsum_zeros rows). apply Qsum_le. exact Hpos. }
  assert (0 < Qsum (row_weight <$> rows))%Q as Hs' by lra.
  unfold weighted_accuracy. split.
  - apply Qle_shift_div_l; [exact Hs'|]. rewrite Qmult_0_l.
    rewrite <- (Qsum_zeros rows). apply Qsum_le. intros row Hin.
    pose proof (Hpos row Hin). destruct (row_correct features row); lra.
  - apply Qle_shift_div_r; [exact Hs'|]. rewrite Qmult_1_l.
    apply Qsum_le. intros row Hin.
    pose proof (Hpos row Hin). destruct (row_correct features row); lra.
Qed.

Lemma X7_evaluate_features_between_0_and_1_witness :
  exists v,
    evaluate_features EvalSamples.results ["chord"] None = Ok (v, [])
    /\ (0 <= v <= 1)%Q.
Proof.
  apply (X7_evaluate_features_between_0_and_1 EvalSamples.results ["chord"] None
           EvalSamples.results).
  - reflexivity.
  - discriminate.
  - assert (Hcomplete : forall gt est d,
              row_complete ["chord"] (EvalSamples.chord_row gt est d)).
    { intros gt est d. split.
      - exists (VFrac d), d. split; reflexivity.
      - intros feature Hin. apply list_elem_of_singleton in Hin as ->.
        split; eexists; reflexivity. }
    constructor; [apply Hcomplete|]. constructor; [apply Hcomplete|constructor].
  - intros row Hin. apply elem_of_cons in Hin as [->|Hin];
      [vm_compute; discriminate|].
    apply list_elem_of_singleton in Hin as ->. vm_compute; discriminate.
  - vm_compute. discriminate.
Defined.

(** X8. Requiring more features can only lower the accuracy: when every
    feature of [features] is also in [features'], the value for
    [features'] is at most the value for [features] (on rows with the
    columns of [features'] and non-negative durations that do not sum to
    zero). *)
Theorem X8_evaluate_features_more_features_lower
    (results_df : list Row) (features features' : list string)
    (filter : option (list bool)) (rows : list Row) :
  match filter with
  | Some filter => bool_index results_df filter
  | None => Ok results_df
  end = Ok rows ->
  rows <> [] ->
  (forall feature, feature ∈ features -> feature ∈ features') ->
  Forall (row_complete features') rows ->
  (forall row, row ∈ rows -> (0 <= row_weight row)%Q) ->
  ~ (Qsum (row_weight <$> rows) == 0)%Q ->
  exists v v',
    evaluate_features results_df features filter = Ok (v, [])
    /\ evaluate_features results_df features' filter = Ok (v', [])
    /\ (v' <= v)%Q.
Proof.
  intros Hsel Hne Hsub Hcomplete Hpos Hsum.
  exists (weighted_accuracy features rows), (weighted_accuracy features' rows).
  split.
  { apply evaluate_features_accuracy; try assumption.
    eapply Forall_impl; [exact Hcomplete|].
    intros row [Hd Hf]. split; [exact Hd|]. intros feature Hin.
    apply Hf, Hsub, Hin. }
  split; [apply evaluate_features_accuracy; assumption|].
  apply weighted_accuracy_le; try assumption.
  intros row _. unfold row_correct. rewrite !forallb_forall.
  intros Hall feature Hin. apply Hall.
  apply list_elem_of_In, Hsub, list_elem_of_In, Hin.
Qed.

Lemma X8_evaluate_features_more_features_lower_witness :
  exists v v',
    evaluate_features EvalSamples.results [] None = Ok (v, [])
    /\ evaluate_features EvalSamples.results ["chord"] None = Ok (v', [])
    /\ (v' <= v)%Q.
Proof.
  apply (X8_evaluate_features_more_features_lower EvalSamples.results []
           ["chord"] None EvalSamples.results).
  - reflexivity.
  - discriminate.
  - intros feature Hin. apply elem_of_nil in Hin. contradiction.
  - assert (Hcomplete : forall gt est d,
              row_complete ["chord"] (EvalSamples.chord_row gt est d)).
    { intros gt est d. split.
      - exists (VFrac d), d. split; reflexivity.
      - intros feature Hin. apply list_elem_of_singleton in Hin as ->.
        split; eexists; reflexivity. }
    constructor; [apply Hcomplete|]. constructor; [apply Hcomplete|constructor].
  - intros row Hin. apply elem_of_cons in Hin as [->|Hin];
      [vm_compute; discriminate|].
    apply list_elem_of_singleton in Hin as ->. vm_compute; discriminate.
  - vm_compute. discriminate.
Defined.

Lemma column_raises (rows : list Row) (name : string) (e : exn) :
  column rows name = Raise e -> e = KeyError.
Proof.
  unfold column. induction rows as [|row rows IH]; [discriminate|].
  cbn. destruct (row !! name); cbn; [|now intros [= <-]].
  destruct (mapM _ rows); cbn; [discriminate|].
  intros [= <-]. now apply IH.
Qed.

Lemma column_missing (rows : list Row) (name : string) :
  rows <> [] ->
  Forall (fun row : Row => row !! name = None) rows ->
  column rows name = Raise KeyError.
Proof.
  destruct rows as [|row rows]; [contradiction|].
  intros _ H. apply Forall_cons in H as [H _].
  unfold column. cbn. now rewrite H.
Qed.

Lemma feature_step_raises (rows : list Row) (acc : result (list bool))
    (feature : string) (e : exn) :
  (forall e', acc = Raise e' -> e' = KeyError) ->
  feature_step rows acc feature = Raise e -> e = KeyError.
Proof.
  intros Hacc. unfold feature_step.
  destruct acc as [mask|e']; cbn [mbind result_bind].
  - destruct (column rows ("gt_" +:+ feature)) eqn:Eg; cbn [mbind result_bind].
    + destruct (column rows ("est_" +:+ feature)) eqn:Ee; cbn [mbind result_bind];
        [discriminate|].
      intros [= <-]. now apply column_raises in Ee.
    + intros [= <-]. now apply column_raises in Eg.
  - intros [= <-]. now apply Hacc.
Qed.

Lemma fold_feature_step_raises (rows : list Row) (features : list string) :
  forall (acc : result (list bool)) (e : exn),
    (forall e', acc = Raise e' -> e' = KeyError) ->
    fold_left (feature_step rows) features acc = Raise e -> e = KeyError.
Proof.
  induction features as [|feature features IH]; intros acc e Hacc; cbn.
  - apply Hacc.
  - apply IH. intros e'. now apply feature_step_raises.
Qed.

Lemma fold_feature_step_missing (rows : list Row) (features : list string)
    (feature : string) :
  rows <> [] ->
  feature ∈ features ->
  Forall (fun row : Row => row !! ("gt_" +:+ feature) = None) rows
  \/ Forall (fun row : Row => row !! ("est_" +:+ feature) = None) rows ->
  forall acc : result (list bool),
    (forall e', acc = Raise e' -> e' = KeyError) ->
    fold_left (feature_step rows) features acc = Raise KeyError.
Proof.
  intros Hne Hin Hmissing.
  induction features as [|f features IH]; intros acc Hacc.
  - apply elem_of_nil in Hin. contradiction.
  - cbn. apply elem_of_cons in Hin as [<-|Hin].
    + assert (Hstep : feature_step rows acc feature = Raise KeyError).
      { unfold feature_step. destruct acc as [mask|e']; cbn [mbind result_bind].
        - destruct Hmissing as [Hg|He].
          + now rewrite (column_missing rows _ Hne Hg).
          + destruct (column rows ("gt_" +:+ feature)) eqn:Eg;
              cbn [mbind result_bind].
            * now rewrite (column_missing rows _ Hne He).
            * f_equal. now apply column_raises in Eg.
        - f_equal. now apply Hacc. }
      rewrite Hstep.
      destruct (fold_left (feature_step rows) features (Raise KeyError))
        as [mask|e] eqn:E.
      * exfalso. clear -E. revert E.
        induction features as [|g features IH]; cbn; [discriminate|exact IH].
      * f_equal. apply (fold_feature_step_raises rows features _ e) in E;
          [exact E|]. now intros e' [= <-].
    + apply IH; [exact Hin|]. intros e'. now apply feature_step_raises.
Qed.

(** X9. When the (filtered) frame has rows but lacks the ground-truth or
    the estimated column of a requested feature, [evaluate_features]
    raises [KeyError]. *)
Theorem X9_evaluate_features_missing_column
    (results_df : list Row) (features : list string)
    (filter : option (list bool)) (rows : list Row) (feature : string) :
  match filter with
  | Some filter => bool_index results_df filter
  | None => Ok results_df
  end = Ok rows ->
  rows <> [] ->
  feature ∈ features ->
  Forall (fun row : Row => row !! ("gt_" +:+ feature) = None) rows
  \/ Forall (fun row : Row => row !! ("est_" +:+ feature) = None) rows ->
  evaluate_features results_df features filter = Raise KeyError.
Proof.
  intros Hsel Hne Hin Hmissing.
  unfold evaluate_features. rewrite Hsel. cbn [mbind result_bind].
  case_bool_decide as Hlen; [destruct rows; [contradiction|discriminate]|].
  rewrite (fold_feature_step_missing rows features feature Hne Hin Hmissing);
    [reflexivity|discriminate].
Qed.

Lemma X9_evaluate_features_missing_column_witness :
  evaluate_features EvalSamples.results ["chord"; "key"] None = Raise KeyError.
Proof.
  apply (X9_evaluate_features_missing_column EvalSamples.results
           ["chord"; "key"] None EvalSamples.results "key").
  - reflexivity.
  - discriminate.
  - right. left.
  - left. repeat constructor.
Defined.

(** ** Loading a piece from an incomplete or extended dictionary *)

Section PieceDictErrors.

Context {Measures NoteDict ChordDict KeyDict : Type}.
Variable Note_to_dict : Note -> NoteDict.
Variable Note_from_dict : NoteDict -> Note.
Variable Chord_to_dict : Chord -> ChordDict.
Variable Chord_from_dict : ChordDict -> Chord.
Variable Key_to_dict : Key -> KeyDict.
Variable Key_from_dict : KeyDict -> Key.

Local Abbreviation dict_of :=
  (to_dict (Measures := Measures) Note_to_dict Chord_to_dict Key_to_dict).
Local Abbreviation load :=
  (get_score_piece_from_dict (Measures := Measures)
     Note_from_dict Chord_from_dict Key_from_dict).

Lemma to_dict_lookups (piece : ScorePiece Measures) :
  dict_of piece !! "notes" = Some (DNotes PyList (Note_to_dict <$> notes piece))
  /\ dict_of piece !! "chords"
     = Some (DChords PyList (Chord_to_dict <$> chords piece))
  /\ dict_of piece !! "keys" = Some (DKeys PyList (Key_to_dict <$> keys piece))
  /\ dict_of piece !! "chord_changes" = Some (DInts NdArray (chord_changes piece))
  /\ dict_of piece !! "chord_ranges" = Some (DRanges NdArray (chord_ranges piece))
  /\ dict_of piece !! "key_changes" = Some (DInts NdArray (key_changes piece)).
Proof. repeat split; reflexivity. Qed.

(** X10. Every one of the six keys is needed to load a piece: without
    any one of them [get_score_piece_from_dict] raises [KeyError]; an
    entry under another key changes nothing. *)
Theorem X10_piece_dict_needs_its_six_keys (piece : ScorePiece Measures)
    (measures : Measures) (nm : option string) (key : string) :
  (key ∈ piece_dict_keys ->
   load measures (delete key (dict_of piece)) nm = Raise KeyError)
  /\ (key ∉ piece_dict_keys ->
      forall v, load measures (<[key := v]> (dict_of piece)) nm
                = load measures (dict_of piece) nm).
Proof.
  destruct (to_dict_lookups piece) as (Hn & Hc & Hk & Hcc & Hcr & Hkc).
  split.
  - intros Hin. unfold piece_dict_keys in Hin.
    unfold get_score_piece_from_dict, dict_get.
    repeat (apply elem_of_union in Hin as [Hin|Hin]);
      apply elem_of_singleton in Hin as ->;
      repeat first
        [ rewrite lookup_delete_eq
        | rewrite lookup_delete_ne by discriminate ];
      rewrite ?Hn, ?Hc, ?Hk, ?Hcc, ?Hcr, ?Hkc; reflexivity.
  - intros Hout v. unfold piece_dict_keys in Hout.
    unfold get_score_piece_from_dict, dict_get.
    rewrite !lookup_insert_ne; [reflexivity|..];
      intros ->; apply Hout; set_solver.
Qed.

End PieceDictErrors.

Lemma X10_piece_dict_needs_its_six_keys_witness :
  get_score_piece_from_dict id id id tt
    (delete "chord_ranges" DictSamples.held_dict) None
  = Raise KeyError.
Proof.
  unfold DictSamples.held_dict.
  refine (proj1 (X10_piece_dict_needs_its_six_keys id id id id id id
                   PieceSamples.held_piece tt None "chord_ranges") _).
  unfold piece_dict_keys.
  apply elem_of_union_l, elem_of_union_r, elem_of_singleton. reflexivity.
Defined.

(** ** Note inputs of all chords *)

Section ChordNoteInputsFacts.

Context {Measures Vec : Type}.
Variable to_vec : Note -> @ToVecArgs Measures -> Vec.
Variable zero_row : Vec.
Variable get_range_length : Position -> Position -> Measures -> Q.

(** The number of rows of one chord input, whenever the clipped window
    holds a note. *)
Lemma get_chord_note_input_rows (notes : list Note) (m : Measures)
    (chord_onset chord_offset : Position) (chord_duration : Q)
    (change_index onset_index offset_index window : Z)
    (dc : list Q) (chord : option Chord) :
  0 <= window ->
  0 <= onset_index -> onset_index <= offset_index ->
  offset_index <= Z.of_nat (length notes) ->
  Z.max (onset_index - window) 0
  < Z.min (offset_index + window) (Z.of_nat (length notes)) ->
  length dc = length notes ->
  exists rows,
    get_chord_note_input to_vec zero_row notes m chord_onset chord_offset
      chord_duration change_index onset_index offset_index window (Some dc) chord
    = Ok rows
    /\ Z.of_nat (length rows) = offset_index - onset_index + 2 * window.
Proof.
  intros Hw Hon Hle Hoff Hwin Hdc.
  set (first := Z.max (onset_index - window) 0) in *.
  set (last := Z.min (offset_index + window) (Z.of_nat (length notes))) in *.
  assert (Hfl : 0 <= first /\ first < last /\ last <= Z.of_nat (length notes))
    by (subst first last; lia).
  unfold get_chord_note_input. cbn [mbind result_bind].
  fold first. fold last.
  set (pitch_list := (fun note => (note_octave note, note_midi_number note))
                       <$> slice notes (Some first) (Some last)).
  assert (Hpl : pitch_list <> []).
  { intros Hnil. apply (f_equal length) in Hnil. subst pitch_list.
    rewrite length_fmap, length_slice_within in Hnil by lia.
    simpl in Hnil. lia. }
  destruct (py_min_nonempty pitch_list Hpl) as [mn Hmn].
  destruct (py_max_nonempty pitch_list Hpl) as [mx Hmx].
  rewrite Hmn, Hmx. cbn [mbind result_bind].
  set (note_onsets :=
         if negb (aligns chord onset chord_onset)
         then replicate (length (slice notes (Some first) (Some last))) None
         else (fun note_index =>
                 Some (relative_note_onset dc change_index note_index))
                <$> range first last).
  set (tuples := zip (slice notes (Some first) (Some last))
                   (zip note_onsets
                      (zip (slice (None :: (Some <$> dc)) (Some first) (Some last))
                           (slice dc (Some first) (Some last))))).
  assert (Hno : length note_onsets = Z.to_nat (last - first)).
  { subst note_onsets. destruct (negb _).
    - rewrite length_replicate, length_slice_within by lia. reflexivity.
    - rewrite length_fmap, length_range. reflexivity. }
  assert (Hlen : length tuples = Z.to_nat (last - first)).
  { subst tuples. rewrite !length_zip, Hno, !length_slice_within;
      cbn [length]; rewrite ?length_fmap; lia. }
  case_bool_decide as Hnil.
  { apply (f_equal length) in Hnil. rewrite length_fmap, Hlen in Hnil.
    simpl in Hnil. lia. }
  destruct (_ <? 0) eqn:E; [lia|].
  unfold assign_rows. rewrite length_replicate.
  rewrite slice_bounds_within by lia.
  rewrite length_fmap, Hlen.
  case_bool_decide as Hrows; [|exfalso; apply Hrows; lia].
  eexists. split; [reflexivity|].
  rewrite length_imap, length_replicate. lia.
Qed.

(** X11. When the clipped window [max(onset_index - window, 0),
    min(offset_index + window, len(notes))) holds no note (an empty
    range without window, or a piece without notes), [min(pitch_list)]
    fails and [get_chord_note_input] raises [ValueError]. *)
Theorem X11_chord_note_input_empty_window (notes : list Note) (m : Measures)
    (chord_onset chord_offset : Position) (chord_duration : Q)
    (change_index onset_index offset_index window : Z)
    (dc : list Q) (chord : option Chord) :
  0 <= offset_index + window ->
  Z.min (offset_index + window) (Z.of_nat (length notes))
  <= Z.max (onset_index - window) 0 ->
  get_chord_note_input to_vec zero_row notes m chord_onset chord_offset
    chord_duration change_index onset_index offset_index window (Some dc) chord
  = Raise ValueError.
Proof.
  intros Hpos Hempty.
  unfold get_chord_note_input. cbn [mbind result_bind].
  set (first := Z.max (onset_index - window) 0) in *.
  set (last := Z.min (offset_index + window) (Z.of_nat (length notes))) in *.
  assert (Hnil : slice notes (Some first) (Some last) = []).
  { unfold slice, slice_bounds. cbn [from_option].
    rewrite !clamp_index_nonneg by (subst first last; lia).
    apply length_zero_iff_nil. rewrite length_take, length_drop.
    subst first last. lia. }
  rewrite Hnil. reflexivity.
Qed.

End ChordNoteInputsFacts.

Lemma X11_chord_note_input_empty_window_witness :
  get_chord_note_input WindowSamples.marked_vec WindowSamples.zeros
    WindowSamples.ten_notes tt (0, 3%Q) (0, 3%Q) 0%Q 3 3 3 0
    (Some WindowSamples.unit_cache) None
  = Raise ValueError.
Proof.
  apply (X11_chord_note_input_empty_window WindowSamples.marked_vec
           WindowSamples.zeros WindowSamples.ten_notes tt (0, 3%Q) (0, 3%Q)
           0%Q 3 3 3 0 WindowSamples.unit_cache None).
  - lia.
  - vm_compute. discriminate.
Defined.

Lemma getitem_last_of {X} (l : list X) :
  l <> [] -> exists x, last l = Some x /\ getitem l (-1) = Ok x.
Proof.
  induction l as [|x l _] using rev_ind; [contradiction|].
  intros _. exists x. split; [apply last_snoc|apply getitem_last].
Qed.

Section ChordNoteInputsTheorem.

Context {Measures Vec : Type}.
Variable to_vec : Note -> @ToVecArgs Measures -> Vec.
Variable zero_row : Vec.
Variable get_range_length : Position -> Position -> Measures -> Q.

(** X12. On a piece with at least one chord, with ranges inside the
    notes whose windows each hold a note and change indices that are
    note indices, [get_chord_note_inputs] returns one array per zipped
    (range, change index, chord), and the array of a range
    [(onset_index, offset_index)] has
    [offset_index - onset_index + 2 * window] rows. The chords are the
    piece's own unless both [ranges] and [change_indices] are given. *)
Theorem X12_chord_note_inputs_one_array_per_range
    (self : ScorePiece Measures) (window : Z)
    (ranges : option (list (Z * Z))) (change_indices : option (list Z)) :
  let R := default (chord_ranges self) ranges in
  let C := default (chord_changes self) change_indices in
  let n := Z.of_nat (length (notes self)) in
  0 <= window ->
  chords self <> [] ->
  Forall (fun r : Z * Z =>
            0 <= r.1 /\ r.1 <= r.2 /\ r.2 <= n
            /\ Z.max (r.1 - window) 0 < Z.min (r.2 + window) n) R ->
  Forall (fun c => 0 <= c < n) C ->
  exists out,
    get_chord_note_inputs to_vec zero_row get_range_length self window
      ranges change_indices = Ok out
    /\ length out
       = (length R
          `min` (length C
                 `min` match ranges, change_indices with
                       | Some _, Some _ => length R
                       | _, _ => length (chords self)
                       end))%nat
    /\ forall i r rows, R !! i = Some r -> out !! i = Some rows ->
         Z.of_nat (length rows) = r.2 - r.1 + 2 * window.
Proof.
  intros R C n Hw Hne HR HC.
  unfold get_chord_note_inputs. fold R. fold C.
  set (chord_list :=
         if match ranges, change_indices with
            | Some _, Some _ => false
            | _, _ => true
            end
         then Some <$> chords self else replicate (length R) None).
  destruct (getitem_last_of (chords self) Hne) as (last_chord & _ & Hlast).
  rewrite Hlast. cbn [mbind result_bind].
  destruct (get_duration_cache get_range_length self) as [dc|e] eqn:Hdc.
  2:{ unfold get_duration_cache in Hdc. rewrite Hlast in Hdc. discriminate. }
  cbn [mbind result_bind].
  pose proof (get_duration_cache_length get_range_length self dc Hdc) as Hdc_len.
  set (step := chord_note_input_of to_vec zero_row self window
                 (offset last_chord) dc).
  assert (Hstep : forall t, t ∈ zip R (zip C chord_list) ->
            exists rows, step t = Ok rows
              /\ Z.of_nat (length rows) = t.1.2 - t.1.1 + 2 * window).
  { intros [[on off] [ci chord]] Hin.
    apply list_elem_of_lookup in Hin as [i Hi].
    apply lookup_zip_with_Some in Hi as (r & cc & [= <- <-] & Hr & Hcc).
    apply lookup_zip_with_Some in Hcc as (c & ch & [= <- <-] & Hc & Hch).
    rewrite Forall_lookup in HR. destruct (HR i _ Hr) as (H1 & H2 & H3 & H4).
    rewrite Forall_lookup in HC. pose proof (HC i _ Hc) as Hci.
    cbn [fst snd] in *. subst step. unfold chord_note_input_of.
    assert (Hnote : exists note, getitem (notes self) ci = Ok note).
    { replace ci with (Z.of_nat (Z.to_nat ci)) by lia. rewrite getitem_of_nat.
      destruct (lookup_lt_is_Some_2 (notes self) (Z.to_nat ci) ltac:(lia))
        as [note ->]. eauto. }
    destruct Hnote as [note ->]. cbn [mbind result_bind].
    apply get_chord_note_input_rows; auto. }
  destruct (mapM_Forall_Ok step (zip R (zip C chord_list))) as [out Hout].
  { apply Forall_forall. intros t Hin.
    destruct (Hstep t Hin) as (rows & Hrows & _). eauto. }
  pose proof (mapM_Ok_Forall2 _ _ _ Hout) as Hall.
  exists out. split; [exact Hout|]. split.
  - rewrite <- (Forall2_length _ _ _ Hall), !length_zip.
    subst chord_list. destruct ranges, change_indices;
      rewrite ?length_fmap, ?length_replicate; reflexivity.
  - intros i r rows Hr Hrows.
    destruct (Forall2_lookup_r _ _ _ _ _ Hall Hrows) as (t & Ht & Hconv).
    destruct (Hstep t (list_elem_of_lookup_2 _ _ _ Ht)) as (rows' & Hrows' & Hlen).
    rewrite Hconv in Hrows'. injection Hrows' as <-.
    apply lookup_zip_with_Some in Ht as (r' & cc & -> & Hr' & _).
    rewrite Hr in Hr'. injection Hr' as <-. exact Hlen.
Qed.

(** X13. On a piece without chords [self.chords[-1]] fails:
    [get_duration_cache] and [get_chord_note_inputs] raise [IndexError].
    Otherwise the duration cache has one entry per note: the range
    length from the note's onset to the next note's onset, for the last
    note to the offset of the last chord. *)
Theorem X13_duration_cache_per_note (self : ScorePiece Measures) :
  (chords self = [] ->
   get_duration_cache get_range_length self = Raise IndexError
   /\ forall window ranges change_indices,
        get_chord_note_inputs to_vec zero_row get_range_length self window
          ranges change_indices = Raise IndexError)
  /\ (forall last_chord, last (chords self) = Some last_chord ->
      exists dc,
        get_duration_cache get_range_length self = Ok dc
        /\ length dc = length (notes self)
        /\ forall k note, notes self !! k = Some note ->
             dc !! k
             = Some (get_range_length (note_onset note)
                       (match notes self !! S k with
                        | Some next => note_onset next
                        | None => offset last_chord
                        end) (measures_df self))).
Proof.
  split.
  - intros Hnil. unfold get_chord_note_inputs, get_duration_cache.
    rewrite Hnil. split; reflexivity.
  - intros last_chord Hlast.
    assert (Hget : getitem (chords self) (-1) = Ok last_chord).
    { destruct (getitem_last_of (chords self)) as (c & Hc & Hget).
      - intros Hnil. rewrite Hnil in Hlast. discriminate.
      - rewrite Hc in Hlast. now injection Hlast as ->. }
    unfold get_duration_cache. rewrite Hget. cbn [mbind result_bind].
    eexists. split; [reflexivity|]. rewrite slice_drop_1. split.
    + rewrite length_zip_with, length_app, length_fmap, length_drop.
      cbn [length]. lia.
    + intros k note Hk. rewrite lookup_zip_with, Hk. cbn [mbind option_bind].
      destruct (notes self !! S k) as [next|] eqn:En.
      * rewrite lookup_app_l
          by (rewrite length_fmap, length_drop; apply lookup_lt_Some in En; lia).
        rewrite list_lookup_fmap, lookup_drop. cbn [Nat.add]. rewrite En.
        reflexivity.
      * apply lookup_ge_None in En. apply lookup_lt_Some in Hk.
        rewrite lookup_app_r by (rewrite length_fmap, length_drop; lia).
        rewrite length_fmap, length_drop.
        replace (k - (length (notes self) - 1))%nat with 0%nat by lia.
        reflexivity.
Qed.

End ChordNoteInputsTheorem.

Lemma X12_chord_note_inputs_one_array_per_range_witness :
  exists out,
    get_chord_note_inputs WindowSamples.marked_vec WindowSamples.zeros
      ResultsSamples.range_length PieceSamples.held_piece 2 None None = Ok out
    /\ length out = 2%nat.
Proof.
  destruct (X12_chord_note_inputs_one_array_per_range WindowSamples.marked_vec
              WindowSamples.zeros ResultsSamples.range_length
              PieceSamples.held_piece 2 None None)
    as (out & Hout & Hlen & _).
  - lia.
  - discriminate.
  - constructor; [cbn; lia|]. constructor; [cbn; lia|constructor].
  - constructor; [cbn; lia|]. constructor; [cbn; lia|constructor].
  - exists out. split; [exact Hout|exact Hlen].
Defined.

Lemma X13_duration_cache_per_note_witness :
  exists dc,
    get_duration_cache ResultsSamples.range_length PieceSamples.held_piece = Ok dc
    /\ length dc = 2%nat.
Proof.
  destruct (proj2 (X13_duration_cache_per_note WindowSamples.marked_vec
                     WindowSamples.zeros ResultsSamples.range_length
                     PieceSamples.held_piece)
              (Samples.chord_at 16 CT_MAJOR 0 2 4) eq_refl)
    as (dc & Hdc & Hlen & _).
  exists dc. split; [exact Hdc|exact Hlen].
Defined.

(** ** The start of a range follows its onset *)

Lemma pos_geb_le_trans (x o1 o2 : Position) :
  pos_ltb o2 o1 = false -> pos_geb x o2 = true -> pos_geb x o1 = true.
Proof.
  destruct x as [x1 x2], o1 as [a1 a2], o2 as [b1 b2].
  unfold pos_geb, pos_ltb, Qltb. cbn [fst snd].
  rewrite orb_false_iff, andb_false_iff, !orb_true_iff, !andb_true_iff,
    negb_false_iff, !Z.ltb_lt, Z.ltb_ge, !Z.eqb_eq, Z.eqb_neq, !Qle_bool_iff.
  intros [Hz Hq] [H|[-> H]].
  - destruct (Z.eq_dec a1 b1) as [->|Hne]; [left; lia|left; lia].
  - destruct (Z.eq_dec a1 b1) as [->|Hne]; [|left; lia].
    right. split; [reflexivity|]. destruct Hq as [Hq|Hq]; [contradiction|lra].
Qed.

Lemma in_range_from_earlier_onset (o1 o2 : Position) (note : Note) :
  pos_ltb o2 o1 = false -> in_range_from o2 note -> in_range_from o1 note.
Proof.
  unfold in_range_from, pos_gtb. intros Hle H.
  apply Is_true_true in H. apply Is_true_true.
  apply orb_true_iff in H as [H|H]; apply orb_true_iff.
  - left. apply (pos_geb_le_trans _ o1 o2 Hle H).
  - right. apply (pos_le_lt_trans o1 o2 _ Hle H).
Qed.

(** X14. [get_range_start] never exceeds [len(notes)] and follows the
    onset: for an onset at or after another one, the start index is at
    or after the other's. *)
Theorem X14_range_start_monotone (o1 o2 : Position) (notes : list Note) :
  pos_ltb o2 o1 = false ->
  (get_range_start o1 notes <= get_range_start o2 notes <= length notes)%nat.
Proof.
  intros Hle.
  destruct (get_range_start_spec notes o1) as [Hbefore1 _].
  destruct (get_range_start_spec notes o2) as [_ Hat2].
  assert (Hbound : (get_range_start o2 notes <= length notes)%nat).
  { destruct Hat2 as [(note & Hn & _)|Hend]; [|lia].
    apply lookup_lt_Some in Hn. lia. }
  split; [|exact Hbound].
  destruct Hat2 as [(note & Hn & Hin)|Hend].
  - destruct (Nat.le_gt_cases (get_range_start o1 notes)
                (get_range_start o2 notes)) as [H|H]; [exact H|].
    exfalso. apply (Hbefore1 _ note H Hn).
    apply (in_range_from_earlier_onset o1 o2 note Hle Hin).
  - rewrite Hend.
    destruct (get_range_start_spec notes o1) as [_ [(note & Hn & _)|Hend1]];
      [|lia].
    apply lookup_lt_Some in Hn. lia.
Qed.

Lemma X14_range_start_monotone_witness :
  (get_range_start (0%Z, 0%Q) PieceSamples.held_notes
   <= get_range_start (0%Z, 2%Q) PieceSamples.held_notes
   <= length PieceSamples.held_notes)%nat.
Proof.
  apply (X14_range_start_monotone (0, 0%Q) (0, 2%Q) PieceSamples.held_notes).
  reflexivity.
Defined.

(** ** Annotations of an estimate *)

Lemma replicate_as_fmap {X Y} (y : Y) (l : list X) :
  replicate (length l) y = (fun _ => y) <$> l.
Proof. induction l as [|x l IH]; [reflexivity|]. cbn. now rewrite IH. Qed.

Lemma fold_left_fmap {X Y S} (f : S -> Y -> S) (g : X -> Y) (l : list X) :
  forall acc, fold_left f (g <$> l) acc = fold_left (fun a x => f a (g x)) l acc.
Proof. induction l as [|x l IH]; intros acc; [reflexivity|]. cbn. apply IH. Qed.

Lemma length_est_array {A} (zero : A) (n : nat) (cells : list A) (changes : list Z) :
  length (est_array zero n cells changes) = n.
Proof. unfold est_array. now rewrite length_broadcast, length_replicate. Qed.

Section AnnotationDfFacts.

Context {Measures : Type}.
Variable get_range_length : Position -> Position -> Measures -> Q.
Variable chord_label_list :
  PitchType -> bool -> (ChordType -> ChordType) -> list string.
Variable key_label_list : PitchType -> list string.

Local Abbreviation step :=
  (label_step chord_label_list key_label_list).

Lemma label_step_same_labels (rt tt : PitchType) (ui : bool)
    (red : ChordType -> ChordType)
    (a b : result (PreviousEst * list LabelRow))
    (t : Q * (Note * (Z * (Z * option (gset Z))))) :
  same_labels a b ->
  same_labels (step rt tt ui red a t) (step rt tt ui red b (without_pitches t)).
Proof.
  destruct t as (d & note & c & k & p).
  destruct a as [[pa la]|ea], b as [[pb lb]|eb]; cbn [same_labels];
    try contradiction.
  2:{ intros ->. reflexivity. }
  intros (-> & Hk & Hc & Hp).
  unfold label_step, without_pitches. cbn [mbind result_bind fst snd].
  destruct (Qeq_bool d 0); [cbn; auto|].
  destruct (getitem (chord_label_list rt ui red) c) as [cs|e];
    cbn [mbind result_bind same_labels]; [|reflexivity].
  destruct (getitem (key_label_list tt) k) as [ks|e];
    cbn [mbind result_bind same_labels]; [|reflexivity].
  rewrite Hk, Hc, Hp.
  rewrite (bool_decide_eq_true_2 (None = None) eq_refl), andb_true_r.
  destruct (bool_decide (Some cs = pe_chord_string pb)) eqn:Ec;
    destruct (bool_decide (Some ks = pe_key_string pb)) eqn:Ek;
    destruct (bool_decide (p = pe_chord_pitches pa));
    cbn [andb negb same_labels pe_key_string pe_chord_string pe_chord_pitches];
    auto.
  apply bool_decide_eq_true in Ec, Ek. auto.
Qed.

Lemma fold_label_step_same_labels (rt tt : PitchType) (ui : bool)
    (red : ChordType -> ChordType)
    (l : list (Q * (Note * (Z * (Z * option (gset Z)))))) :
  forall a b, same_labels a b ->
    same_labels (fold_left (step rt tt ui red) l a)
      (fold_left (step rt tt ui red) (without_pitches <$> l) b).
Proof.
  induction l as [|t l IH]; intros a b Hab; [exact Hab|].
  cbn. apply IH. now apply label_step_same_labels.
Qed.

Lemma zip_without_pitches (dc : list Q) (ns : list Note) (cl kl : list Z)
    (ps : list (option (gset Z))) :
  zip dc (zip ns (zip cl (zip kl (replicate (length ps) None))))
  = without_pitches <$> zip dc (zip ns (zip cl (zip kl ps))).
Proof.
  rewrite replicate_as_fmap.
  revert ns cl kl ps.
  induction dc as [|d dc IH]; intros [|n ns] [|c cl] [|k kl] [|p ps];
    try reflexivity.
  cbn. f_equal. apply IH.
Qed.

(** X15. The chord pitches of the state never reach the output of
    [get_annotation_df]: with [use_chord_pitches] it returns exactly what
    it returns without (a change of pitches alone appends no label). *)
Theorem X15_annotation_df_ignores_chord_pitches
    (state : State) (piece : ScorePiece Measures) (rt tt : PitchType)
    (ui : bool) (red : ChordType -> ChordType) :
  get_annotation_df get_range_length chord_label_list key_label_list
    state piece rt tt ui red true
  = get_annotation_df get_range_length chord_label_list key_label_list
      state piece rt tt ui red false.
Proof.
  unfold get_annotation_df.
  destruct (get_duration_cache get_range_length piece) as [dc|e];
    cbn [mbind result_bind]; [|reflexivity].
  set (ps := est_array None (length (notes piece)) _ _).
  rewrite <- (length_est_array None (length (notes piece))
                ((fun cp : Z * list Z => Some (list_to_set cp.2 : gset Z))
                   <$> zip (state_chords state) (state_chord_pitches state))
                (state_chord_changes state)).
  fold ps. rewrite zip_without_pitches.
  pose proof (fold_label_step_same_labels rt tt ui red
                (zip dc
                   (zip (notes piece)
                      (zip (est_array 0 (length ps)
                              (zip (state_chords state)
                                 (state_chord_pitches state)).*1
                              (state_chord_changes state))
                         (zip (est_array 0 (length ps) (state_keys state)
                                 (state_key_changes state)) ps))))
                (Ok (mkPreviousEst None None None, []))
                (Ok (mkPreviousEst None None None, []))) as Hsim.
  cbn [same_labels pe_key_string pe_chord_string pe_chord_pitches] in Hsim.
  specialize (Hsim ltac:(auto)).
  destruct (fold_left _ (zip dc _) _) as [[pa la]|ea];
    destruct (fold_left _ (without_pitches <$> _) _) as [[pb lb]|eb];
    cbn [same_labels] in Hsim; try contradiction.
  - destruct Hsim as (-> & _). reflexivity.
  - subst. reflexivity.
Qed.

End AnnotationDfFacts.

Lemma elem_of_assign_slice {X} (l : list X) (lo hi : option Z) (v x : X) :
  x ∈ assign_slice l lo hi v -> x = v \/ x ∈ l.
Proof.
  unfold assign_slice. destruct (slice_bounds _ _ _) as [a b].
  intros Hin. apply elem_of_lookup_imap_1 in Hin as (i & y & -> & Hy).
  destruct (_ && _); [now left|right].
  now apply list_elem_of_lookup_2 in Hy.
Qed.

Lemma elem_of_broadcast {X} (segments : list (X * (Z * Z))) (x : X) :
  forall arr, x ∈ broadcast arr segments -> x ∈ arr \/ x ∈ segments.*1.
Proof.
  induction segments as [|seg segments IH]; intros arr Hin; [now left|].
  unfold broadcast in Hin. cbn [fold_left] in Hin.
  apply IH in Hin as [Hin|Hin].
  - apply elem_of_assign_slice in Hin as [->|Hin]; [right; left|now left].
  - right. now right.
Qed.

Lemma elem_of_est_array {A} (zero : A) (n : nat) (cells : list A)
    (changes : list Z) (x : A) :
  x ∈ est_array zero n cells changes -> x = zero \/ x ∈ cells.
Proof.
  unfold est_array. intros Hin.
  apply elem_of_broadcast in Hin as [Hin|Hin].
  - left. now apply elem_of_replicate in Hin as [-> _].
  - right. apply list_elem_of_fmap in Hin as ([c z] & -> & Hin).
    apply elem_of_zip_l in Hin. exact Hin.
Qed.

Section AnnotationDfRows.

Context {Measures : Type}.
Variable get_range_length : Position -> Position -> Measures -> Q.
Variable chord_label_list :
  PitchType -> bool -> (ChordType -> ChordType) -> list string.
Variable key_label_list : PitchType -> list string.

Local Abbreviation step :=
  (label_step chord_label_list key_label_list).

Lemma fold_label_step_rows (rt tt : PitchType) (ui : bool)
    (red : ChordType -> ChordType)
    (l : list (Q * (Note * (Z * (Z * option (gset Z)))))) :
  (forall t, t ∈ l ->
     (exists cs, getitem (chord_label_list rt ui red) t.2.2.1 = Ok cs)
     /\ (exists ks, getitem (key_label_list tt) t.2.2.2.1 = Ok ks)) ->
  forall prev labels,
    exists prev' labels',
      fold_left (step rt tt ui red) l (Ok (prev, labels)) = Ok (prev', labels')
      /\ forall row, row ∈ labels' ->
           row ∈ labels
           \/ exists t, t ∈ l /\ Qeq_bool t.1 0 = false
                        /\ row = label_row (lab_label row) t.2.1.
Proof.
  induction l as [|t l IH]; intros Hvalid prev labels.
  - exists prev, labels. split; [reflexivity|]. now left.
  - assert (Hstep : exists prev1 labels1,
              step rt tt ui red (Ok (prev, labels)) t = Ok (prev1, labels1)
              /\ forall row, row ∈ labels1 ->
                   row ∈ labels
                   \/ (Qeq_bool t.1 0 = false
                       /\ row = label_row (lab_label row) t.2.1)).
    { destruct (Hvalid t ltac:(left)) as [[cs Hcs] [ks Hks]].
      destruct t as (d & note & c & k & p). cbn [fst snd] in *.
      unfold label_step. cbn [mbind result_bind].
      destruct (Qeq_bool d 0) eqn:Ed.
      { exists prev, labels. split; [reflexivity|]. now left. }
      rewrite Hcs, Hks. cbn [mbind result_bind].
      destruct (_ && _ && _).
      { exists prev, labels. split; [reflexivity|]. now left. }
      eexists _, _. split; [reflexivity|].
      intros row Hrow.
      destruct (negb (bool_decide (Some ks = pe_key_string prev)));
        destruct (negb (bool_decide (Some cs = pe_chord_string prev)));
        repeat (apply elem_of_app in Hrow as [Hrow|Hrow]);
        try (now left);
        apply list_elem_of_singleton in Hrow as ->; right;
        (split; [reflexivity|reflexivity]). }
    destruct Hstep as (prev1 & labels1 & Hstep & Hrows1).
    destruct (IH (fun t' Hin => Hvalid t' ltac:(right; exact Hin)) prev1 labels1)
      as (prev' & labels' & Hfold & Hrows').
    exists prev', labels'. cbn [fold_left]. rewrite Hstep.
    split; [exact Hfold|].
    intros row Hrow. destruct (Hrows' row Hrow) as [Hin|(t' & Hin & Hd & Heq)].
    + destruct (Hrows1 row Hin) as [Hin'|[Hd Heq]]; [now left|].
      right. exists t. split; [left|]. auto.
    + right. exists t'. split; [now right|]. auto.
Qed.

(** X16. When the piece has a chord and every estimated chord and key
    index (and the index 0 of unassigned notes) has a label string,
    [get_annotation_df] returns, and every row it returns sits at the
    position of a note whose duration-cache entry is not zero: notes
    without duration are never annotated. *)
Theorem X16_annotation_df_rows_on_sounding_notes
    (state : State) (piece : ScorePiece Measures) (rt tt : PitchType)
    (ui : bool) (red : ChordType -> ChordType) (use_chord_pitches : bool) :
  chords piece <> [] ->
  (forall c, c = 0 \/ c ∈ state_chords state ->
     exists s, getitem (chord_label_list rt ui red) c = Ok s) ->
  (forall k, k = 0 \/ k ∈ state_keys state ->
     exists s, getitem (key_label_list tt) k = Ok s) ->
  exists dc labels,
    get_duration_cache get_range_length piece = Ok dc
    /\ get_annotation_df get_range_length chord_label_list key_label_list
         state piece rt tt ui red use_chord_pitches = Ok labels
    /\ forall row, row ∈ labels ->
         exists i note d,
           notes piece !! i = Some note
           /\ dc !! i = Some d
           /\ ~ (d == 0)%Q
           /\ row = label_row (lab_label row) note.
Proof.
  intros Hne Hchords Hkeys.
  destruct (getitem_last_of (chords piece) Hne) as (last_chord & _ & Hlast).
  destruct (get_duration_cache get_range_length piece) as [dc|e] eqn:Hdc.
  2:{ unfold get_duration_cache in Hdc. rewrite Hlast in Hdc. discriminate. }
  exists dc. unfold get_annotation_df. rewrite Hdc. cbn [mbind result_bind].
  set (cl := est_array 0 (length (notes piece)) _ (state_chord_changes state)).
  set (kl := est_array 0 (length (notes piece)) (state_keys state) _).
  set (ps := if use_chord_pitches then _ else _).
  destruct (fold_label_step_rows rt tt ui red
              (zip dc (zip (notes piece) (zip cl (zip kl ps)))))
    with (prev := mkPreviousEst None None None) (labels := @nil LabelRow)
    as (prev' & labels' & Hfold & Hrows).
  { intros (d & note & c & k & p) Hin. cbn [fst snd].
    apply elem_of_zip_r in Hin. apply elem_of_zip_r in Hin.
    pose proof (elem_of_zip_l _ _ _ _ Hin) as Hc.
    apply elem_of_zip_r in Hin. apply elem_of_zip_l in Hin.
    split.
    - apply Hchords. subst cl. apply elem_of_est_array in Hc as [->|Hc];
        [now left|right].
      apply list_elem_of_fmap in Hc as ([c' z] & -> & Hc).
      apply elem_of_zip_l in Hc. exact Hc.
    - apply Hkeys. subst kl. apply elem_of_est_array in Hin as [->|Hin];
        [now left|now right]. }
  exists labels'. split; [reflexivity|]. rewrite Hfold. cbn [mbind result_bind].
  split; [reflexivity|].
  intros row Hrow.
  destruct (Hrows row Hrow) as [Hnil|(t & Hin & Hd & Heq)].
  { apply elem_of_nil in Hnil. contradiction. }
  apply list_elem_of_lookup in Hin as [i Hi].
  apply lookup_zip_with_Some in Hi as (d & rest & -> & Hdi & Hrest).
  apply lookup_zip_with_Some in Hrest as (note & rest' & -> & Hni & _).
  cbn [fst snd] in *.
  exists i, note, d. split; [exact Hni|]. split; [exact Hdi|].
  split; [|exact Heq].
  intros Hzero. apply Qeq_bool_iff in Hzero. congruence.
Qed.

End AnnotationDfRows.

Lemma X16_annotation_df_rows_on_sounding_notes_witness :
  exists dc labels,
    get_duration_cache ResultsSamples.range_length ResultsSamples.grace_piece
    = Ok dc
    /\ get_annotation_df ResultsSamples.range_length
         AnnotationSamples.chord_labels ResultsSamples.key_labels
         ResultsSamples.tonic_state ResultsSamples.grace_piece
         TPC TPC true id false = Ok labels
    /\ forall row, row ∈ labels ->
         exists i note d,
           notes ResultsSamples.grace_piece !! i = Some note
           /\ dc !! i = Some d
           /\ ~ (d == 0)%Q
           /\ row = label_row (lab_label row) note.
Proof.
  apply (X16_annotation_df_rows_on_sounding_notes ResultsSamples.range_length
           AnnotationSamples.chord_labels ResultsSamples.key_labels
           ResultsSamples.tonic_state ResultsSamples.grace_piece
           TPC TPC true id false).
  - discriminate.
  - intros c [->|Hin]; [|apply list_elem_of_singleton in Hin as ->];
      eexists; reflexivity.
  - intros k [->|Hin]; [|apply list_elem_of_singleton in Hin as ->];
      eexists; reflexivity.
Defined.

(** The tonic estimate on the grace-note piece: the grace note gets no
    label, the first sounding note the key and the chord. *)
Example annotation_of_tonic_estimate :
  get_annotation_df ResultsSamples.range_length
    AnnotationSamples.chord_labels ResultsSamples.key_labels
    ResultsSamples.tonic_state ResultsSamples.grace_piece
    TPC TPC true id true
  = Ok [ {| lab_label := "C:MAJOR"; lab_mc := 0; lab_mc_onset := 0;
            lab_mn_onset := 0 |};
         {| lab_label := "C:M"; lab_mc := 0; lab_mc_onset := 0;
            lab_mn_onset := 0 |} ].
Proof. vm_compute. reflexivity. Qed.

(** ** Measures of a parsed score *)

Lemma py_mod_range (a b : Q) :
  (0 < b)%Q -> exists x, py_mod a b = Ok x /\ (0 <= x)%Q /\ (x < b)%Q.
Proof.
  intros Hb. unfold py_mod.
  destruct (Qeq_bool b 0) eqn:E.
  { apply Qeq_bool_iff in E. lra. }
  eexists. split; [reflexivity|].
  assert (Ha : (a == b * (a / b))%Q) by (field; lra).
  pose proof (Qfloor_le (a / b)) as Hlo.
  pose proof (Qlt_floor (a / b)) as Hhi.
  rewrite inject_Z_plus in Hhi. change (inject_Z 1) with 1%Q in Hhi.
  set (q := (a / b)%Q) in *.
  set (f := inject_Z (Qfloor q)) in *.
  assert (H1 : (0 <= b * (q - f))%Q).
  { apply Qmult_le_0_compat; lra. }
  assert (H2 : (b * (q - f) < b * 1)%Q).
  { apply Qmult_lt_l; [exact Hb|]. lra. }
  assert (Hx : (a - b * f == b * (q - f))%Q).
  { rewrite Ha at 1. ring. }
  rewrite Hx. split; lra.
Qed.

Section MeasuresDfFacts.

Variable Fraction_of_string : string -> result Q.

Local Abbreviation inv := (measure_loop_inv Fraction_of_string).
Local Abbreviation step := (measure_step Fraction_of_string).

(** The time signatures of the measures are fractions above zero. *)
Local Abbreviation valid_measure :=
  (fun om : Q * M21Measure =>
     forall ratio_string, m21_time_signature om.2 = Some ratio_string ->
       exists d, Fraction_of_string ratio_string = Ok d /\ (0 < d)%Q).

Lemma measure_step_inv (done_ : list (Q * M21Measure)) (st : MeasureLoop)
    (o : Q) (m : M21Measure) :
  inv done_ st ->
  valid_measure (o, m) ->
  exists st',
    step (Ok st) (length done_, (o, m)) = Ok st'
    /\ inv (done_ ++ [(o, m)]) st'.
Proof.
  intros (Hs & Hm & Hts & Hoff & Hlen & Hdiff & Hlast & Hpos & Hsig & Hrange)
    Hvalid.
  cbn [snd] in Hvalid.
  unfold measure_step. cbn [mbind result_bind].
  (* the time signature in force *)
  assert (Hsig' : exists ts' d' e',
            match m21_time_signature m with
            | Some ratio_string =>
                if negb (bool_decide (ratio_string = ml_time_signature st))
                then
                  ts_duration ← Fraction_of_string ratio_string;
                  Ok (ratio_string,
                      (ts_duration,
                       if negb (length done_ =? 0)%nat then (o / 4)%Q
                       else ml_ts_epoch st))
                else Ok (ml_time_signature st, (ml_ts_duration st, ml_ts_epoch st))
            | None => Ok (ml_time_signature st, (ml_ts_duration st, ml_ts_epoch st))
            end = Ok (ts', (d', e'))
            /\ (0 < d')%Q
            /\ (ts' = "4/4" /\ (d' == 1)%Q \/ Fraction_of_string ts' = Ok d')).
  { destruct (m21_time_signature m) as [r|] eqn:Er.
    - destruct (Hvalid r eq_refl) as (d & Hd & Hdpos).
      case_bool_decide as Hsame; cbn [negb].
      + eexists _, _, _. split; [reflexivity|]. auto.
      + rewrite Hd. cbn [mbind result_bind].
        eexists _, _, _. split; [reflexivity|]. auto.
    - eexists _, _, _. split; [reflexivity|]. auto. }
  destruct Hsig' as (ts' & d' & e' & -> & Hpos' & Hsig').
  cbn [mbind result_bind].
  (* the lengths *)
  assert (Hlengths : exists lengths0,
            match ml_lengths st with
            | [] => Ok []
            | _ :: _ =>
                last_start ← getitem (ml_starts st) (-1);
                Ok (<[pred (length (ml_lengths st)) := (o / 4 - last_start)%Q]>
                      (ml_lengths st))
            end = Ok lengths0
            /\ length lengths0 = length done_
            /\ (forall i, (S i < length done_)%nat ->
                  lengths0 !! i = ml_lengths st !! i)
            /\ (forall a, last (ml_starts st) = Some a ->
                  lengths0 !! pred (length done_) = Some (o / 4 - a)%Q)).
  { destruct (ml_lengths st) as [|l0 ls] eqn:El.
    - exists []. split; [reflexivity|]. split; [exact Hlen|].
      split; [intros i Hi; cbn in Hlen; lia|].
      intros a Ha. rewrite Hs in Ha. cbn in Hlen.
      destruct done_; [discriminate Ha|discriminate Hlen].
    - assert (Hne : ml_starts st <> []).
      { rewrite Hs. destruct done_; [discriminate Hlen|discriminate]. }
      destruct (getitem_last_of _ Hne) as (x & Hx & ->).
      cbn [mbind result_bind]. eexists. split; [reflexivity|].
      rewrite length_insert. split; [exact Hlen|]. split.
      + intros i Hi. apply list_lookup_insert_ne. rewrite Hlen. lia.
      + intros a Ha. rewrite Hx in Ha. injection Ha as <-.
        rewrite Hlen. apply list_lookup_insert_eq. rewrite Hlen.
        cbn [length] in Hlen. lia. }
  destruct Hlengths as (lengths0 & -> & Hlen0 & Hkeep & Hnew).
  cbn [mbind result_bind].
  destruct (py_mod_range (o / 4 - e') d' Hpos') as (x & -> & Hx0 & Hx1).
  cbn [mbind result_bind].
  eexists. split; [reflexivity|].
  assert (Hstarts_len : length (ml_starts st) = length done_)
    by (rewrite Hs; apply length_fmap).
  unfold measure_loop_inv.
  cbn [ml_time_signature ml_ts_duration ml_ts_epoch ml_time_signatures
       ml_starts ml_lengths ml_df_offsets ml_mns].
  split; [rewrite fmap_app, Hs; reflexivity|].
  split; [rewrite fmap_app, Hm; reflexivity|].
  split; [rewrite !length_app, Hts; reflexivity|].
  split; [rewrite !length_app, Hoff; reflexivity|].
  split; [rewrite !length_app, Hlen0; reflexivity|].
  split.
  { intros i a b Ha Hb.
    destruct (Nat.lt_trichotomy (S i) (length done_)) as [Hlt|[Heq|Hgt]].
    - rewrite lookup_app_l in Ha by lia. rewrite lookup_app_l in Hb by lia.
      rewrite lookup_app_l by lia. rewrite (Hkeep i Hlt).
      apply (Hdiff i a b Ha Hb).
    - rewrite lookup_app_l in Ha by lia.
      rewrite lookup_app_r in Hb by lia.
      replace (S i - length (ml_starts st))%nat with 0%nat in Hb by lia.
      cbn in Hb. injection Hb as <-.
      rewrite lookup_app_l by lia.
      replace i with (pred (length done_)) by lia. apply Hnew.
      rewrite last_lookup, Hstarts_len.
      replace (pred (length done_)) with i by lia. exact Ha.
    - apply lookup_lt_Some in Hb. rewrite length_app in Hb. cbn in Hb. lia. }
  split.
  { intros om Hom. rewrite last_snoc in Hom. injection Hom as <-.
    rewrite last_snoc. reflexivity. }
  split; [exact Hpos'|]. split; [exact Hsig'|].
  intros i ts y Hi Hy.
  destruct (Nat.lt_ge_cases i (length done_)) as [Hlt|Hge].
  - rewrite lookup_app_l in Hi by lia. rewrite lookup_app_l in Hy by lia.
    apply (Hrange i ts y Hi Hy).
  - rewrite lookup_app_r in Hi by lia. rewrite lookup_app_r in Hy by lia.
    rewrite Hts in Hi. rewrite Hoff in Hy.
    destruct (i - length done_)%nat as [|k]; [|discriminate].
    cbn in Hi, Hy. injection Hi as <-. injection Hy as <-.
    exists d'. split; [exact Hsig'|]. split; assumption.
Qed.

Lemma fold_measure_step_inv (rest : list (Q * M21Measure)) :
  forall (done_ : list (Q * M21Measure)) (st : MeasureLoop),
    inv done_ st ->
    Forall valid_measure rest ->
    exists st',
      fold_left step (imap (fun i om => ((length done_ + i)%nat, om)) rest) (Ok st)
      = Ok st'
      /\ inv (done_ ++ rest) st'.
Proof.
  induction rest as [|[o m] rest IH]; intros done_ st Hinv Hvalid.
  - exists st. split; [reflexivity|]. now rewrite app_nil_r.
  - apply Forall_cons in Hvalid as [Hom Hvalid].
    destruct (measure_step_inv done_ st o m Hinv Hom) as (st1 & Hstep & Hinv1).
    destruct (IH (done_ ++ [(o, m)]) st1 Hinv1 Hvalid) as (st' & Hfold & Hinv').
    exists st'. cbn [imap fold_left].
    rewrite Nat.add_0_r, Hstep. split.
    + rewrite <- Hfold. f_equal. apply imap_ext. intros i om _.
      cbn. rewrite length_app. cbn. f_equal. lia.
    + now rewrite <- app_assoc in Hinv'.
Qed.

End MeasuresDfFacts.

Section MeasuresDfTheorems.

Variable Fraction_of_string : string -> result Q.

Local Abbreviation measures_df_of :=
  (get_measures_df_from_music21_score Fraction_of_string).

Lemma measures_df_inv (measure_offset_map : list (Q * M21Measure)) :
  (2 <= length measure_offset_map)%nat ->
  Forall (fun om : Q * M21Measure =>
            forall ratio_string, m21_time_signature om.2 = Some ratio_string ->
              exists d, Fraction_of_string ratio_string = Ok d /\ (0 < d)%Q)
    measure_offset_map ->
  exists st,
    measures_df_of measure_offset_map
    = Ok {| col_mc := range 0 (Z.of_nat (length measure_offset_map));
            col_mn := ml_mns st;
            col_timesig := ml_time_signatures st;
            col_start := ml_starts st;
            col_act_dur := ml_lengths st;
            col_offset := ml_df_offsets st;
            col_next :=
              (Some <$> drop 1 (range 0 (Z.of_nat (length measure_offset_map))))
              ++ [None] |}
    /\ measure_loop_inv Fraction_of_string measure_offset_map st.
Proof.
  intros Hlen Hvalid. unfold get_measures_df_from_music21_score.
  destruct (lookup_lt_is_Some_2 measure_offset_map 1%nat ltac:(lia))
    as [[o1 m1] H1].
  pose proof (getitem_of_nat (fst <$> measure_offset_map) 1) as Hget.
  rewrite list_lookup_fmap, H1 in Hget.
  cbn [fmap option_fmap option_map fst] in Hget.
  change (Z.of_nat 1) with 1 in Hget. rewrite Hget. cbn [mbind result_bind].
  destruct (fold_measure_step_inv Fraction_of_string measure_offset_map []
              {| ml_time_signature := "4/4"; ml_ts_duration := 1;
                 ml_ts_epoch := (o1 / 4)%Q; ml_time_signatures := [];
                 ml_starts := []; ml_lengths := []; ml_df_offsets := [];
                 ml_mns := [] |})
    as (st & Hfold & Hinv).
  { unfold measure_loop_inv. cbn. repeat split; try reflexivity; try lra.
    - intros i a b Ha. discriminate.
    - intros om Hom. discriminate.
    - left. split; reflexivity.
    - intros i ts x Hi. discriminate. }
  { exact Hvalid. }
  cbn [length Nat.add app] in Hfold, Hinv.
  unfold enumerate. rewrite Hfold. cbn [mbind result_bind].
  exists st. split; [|exact Hinv]. now rewrite slice_drop_1.
Qed.

(** X17. A score with fewer than two measures has no second measure
    offset: [get_measures_df_from_music21_score] raises [IndexError]. *)
Theorem X17_measures_df_needs_two_measures
    (measure_offset_map : list (Q * M21Measure)) :
  (length measure_offset_map < 2)%nat ->
  measures_df_of measure_offset_map = Raise IndexError.
Proof.
  intros Hlen. unfold get_measures_df_from_music21_score.
  destruct measure_offset_map as [|om [|om' rest]]; [reflexivity|reflexivity|].
  cbn in Hlen. lia.
Qed.

(** X18. For a score of [n >= 2] measures whose time signatures are
    fractions above zero, the frame has [n] entries in every column;
    measure [i] has [mc = i], the [next] of the following measure
    ([pd.NA] for the last), its [start] a quarter of its offset, its
    measure number, and as [act_dur] the distance to the next start, so
    that consecutive measures tile the score; the last measure has its
    own duration. *)
Theorem X18_measures_df_tiles_the_score
    (measure_offset_map : list (Q * M21Measure)) :
  (2 <= length measure_offset_map)%nat ->
  Forall (fun om : Q * M21Measure =>
            forall ratio_string, m21_time_signature om.2 = Some ratio_string ->
              exists d, Fraction_of_string ratio_string = Ok d /\ (0 < d)%Q)
    measure_offset_map ->
  exists df,
    measures_df_of measure_offset_map = Ok df
    /\ length (col_mc df) = length measure_offset_map
    /\ length (col_mn df) = length measure_offset_map
    /\ length (col_timesig df) = length measure_offset_map
    /\ length (col_start df) = length measure_offset_map
    /\ length (col_act_dur df) = length measure_offset_map
    /\ length (col_offset df) = length measure_offset_map
    /\ length (col_next df) = length measure_offset_map
    /\ forall i o m, measure_offset_map !! i = Some (o, m) ->
         col_mc df !! i = Some (Z.of_nat i)
         /\ col_mn df !! i = Some (m21_measure_number m)
         /\ col_start df !! i = Some (o / 4)%Q
         /\ match measure_offset_map !! S i with
            | Some (o', _) =>
                col_act_dur df !! i = Some (o' / 4 - o / 4)%Q
                /\ col_next df !! i = Some (Some (Z.of_nat (S i)))
            | None =>
                col_act_dur df !! i = Some (m21_quarter_length m / 4)%Q
                /\ col_next df !! i = Some None
            end.
Proof.
  intros Hlen Hvalid.
  destruct (measures_df_inv measure_offset_map Hlen Hvalid) as (st & Hdf & Hinv).
  destruct Hinv as (Hs & Hm & Hts & Hoff & Hl & Hdiff & Hlast & _).
  eexists. split; [exact Hdf|].
  cbn [col_mc col_mn col_timesig col_start col_act_dur col_offset col_next].
  set (n := length measure_offset_map) in *.
  split; [rewrite length_range; lia|].
  split; [rewrite Hm; apply length_fmap|].
  split; [exact Hts|].
  split; [rewrite Hs; apply length_fmap|].
  split; [exact Hl|].
  split; [exact Hoff|].
  split.
  { rewrite length_app, length_fmap, length_drop, length_range. cbn. lia. }
  intros i o m Hi.
  pose proof (lookup_lt_Some _ _ _ Hi) as Hin. fold n in Hin.
  split; [rewrite lookup_range by lia; f_equal; lia|].
  split; [rewrite Hm, list_lookup_fmap, Hi; reflexivity|].
  split; [rewrite Hs, list_lookup_fmap, Hi; reflexivity|].
  destruct (measure_offset_map !! S i) as [[o' m']|] eqn:Enext.
  - pose proof (lookup_lt_Some _ _ _ Enext) as Hnext. fold n in Hnext.
    split.
    + apply (Hdiff i); rewrite Hs, list_lookup_fmap.
      * rewrite Hi. reflexivity.
      * rewrite Enext. reflexivity.
    + rewrite lookup_app_l
        by (rewrite length_fmap, length_drop, length_range; lia).
      rewrite list_lookup_fmap, lookup_drop, lookup_range by lia.
      replace (0 + Z.of_nat (1 + i)) with (Z.of_nat (S i)) by lia.
      reflexivity.
  - apply lookup_ge_None in Enext. fold n in Enext.
    assert (i = pred n) as Hi' by lia.
    split.
    + assert (Hom : last measure_offset_map = Some (o, m)).
      { rewrite last_lookup. fold n. rewrite <- Hi'. exact Hi. }
      specialize (Hlast _ Hom). rewrite last_lookup, Hl in Hlast.
      rewrite Hi'. exact Hlast.
    + rewrite lookup_app_r
        by (rewrite length_fmap, length_drop, length_range; lia).
      rewrite length_fmap, length_drop, length_range.
      replace (i - (Z.to_nat (Z.of_nat n - 0) - 1))%nat with 0%nat by lia.
      reflexivity.
Qed.

(** X19. Under the same conditions every [offset] entry lies within the
    time signature in force at its measure: it is at least 0 and below
    the fraction of the measure's [timesig] entry (1 for the default
    "4/4"). *)
Theorem X19_measures_df_offset_within_time_signature
    (measure_offset_map : list (Q * M21Measure)) :
  (2 <= length measure_offset_map)%nat ->
  Forall (fun om : Q * M21Measure =>
            forall ratio_string, m21_time_signature om.2 = Some ratio_string ->
              exists d, Fraction_of_string ratio_string = Ok d /\ (0 < d)%Q)
    measure_offset_map ->
  exists df,
    measures_df_of measure_offset_map = Ok df
    /\ forall i, (i < length measure_offset_map)%nat ->
         exists ts x d,
           col_timesig df !! i = Some ts
           /\ col_offset df !! i = Some x
           /\ (ts = "4/4" /\ (d == 1)%Q \/ Fraction_of_string ts = Ok d)
           /\ (0 <= x)%Q /\ (x < d)%Q.
Proof.
  intros Hlen Hvalid.
  destruct (measures_df_inv measure_offset_map Hlen Hvalid) as (st & Hdf & Hinv).
  destruct Hinv as (_ & _ & Hts & Hoff & _ & _ & _ & _ & _ & Hrange).
  eexists. split; [exact Hdf|]. cbn [col_timesig col_offset].
  intros i Hi.
  destruct (lookup_lt_is_Some_2 (ml_time_signatures st) i ltac:(lia)) as [ts Ht].
  destruct (lookup_lt_is_Some_2 (ml_df_offsets st) i ltac:(lia)) as [x Hx].
  destruct (Hrange i ts x Ht Hx) as (d & Hd & Hx0 & Hx1).
  exists ts, x, d. auto.
Qed.

End MeasuresDfTheorems.

Lemma waltz_time_signatures :
  Forall (fun om : Q * M21Measure =>
            forall ratio_string, m21_time_signature om.2 = Some ratio_string ->
              exists d, MeasureSamples.fraction_of ratio_string = Ok d
                        /\ (0 < d)%Q)
    MeasureSamples.waltz.
Proof.
  repeat constructor; intros r Hr; cbn in Hr; try discriminate.
  injection Hr as <-. exists (3 # 4). split; reflexivity.
Qed.

Lemma X17_measures_df_needs_two_measures_witness :
  get_measures_df_from_music21_score MeasureSamples.fraction_of
    (take 1 MeasureSamples.waltz)
  = Raise IndexError.
Proof.
  apply (X17_measures_df_needs_two_measures MeasureSamples.fraction_of
           (take 1 MeasureSamples.waltz)).
  cbn. lia.
Defined.

Lemma X18_measures_df_tiles_the_score_witness :
  exists df,
    get_measures_df_from_music21_score MeasureSamples.fraction_of
      MeasureSamples.waltz = Ok df
    /\ length (col_act_dur df) = 3%nat
    /\ col_act_dur df !! 1%nat = Some (4 / 4 - 1 / 4)%Q
    /\ col_next df !! 2%nat = Some None.
Proof.
  destruct (X18_measures_df_tiles_the_score MeasureSamples.fraction_of
              MeasureSamples.waltz)
    as (df & Hdf & _ & _ & _ & _ & Hlen & _ & _ & Hrows).
  - cbn. lia.
  - exact waltz_time_signatures.
  - exists df. split; [exact Hdf|]. split; [exact Hlen|].
    destruct (Hrows 1%nat 1%Q (mkM21Measure None 3 1) eq_refl)
      as (_ & _ & _ & Hdur & _).
    destruct (Hrows 2%nat 4%Q (mkM21Measure None 3 2) eq_refl)
      as (_ & _ & _ & _ & Hnext).
    split; [exact Hdur|exact Hnext].
Defined.

Lemma X19_measures_df_offset_within_time_signature_witness :
  exists df,
    get_measures_df_from_music21_score MeasureSamples.fraction_of
      MeasureSamples.waltz = Ok df
    /\ exists ts x d,
         col_timesig df !! 0%nat = Some ts
         /\ col_offset df !! 0%nat = Some x
         /\ (ts = "4/4" /\ (d == 1)%Q
             \/ MeasureSamples.fraction_of ts = Ok d)
         /\ (0 <= x)%Q /\ (x < d)%Q.
Proof.
  destruct (X19_measures_df_offset_within_time_signature
              MeasureSamples.fraction_of MeasureSamples.waltz)
    as (df & Hdf & Hrows).
  - cbn. lia.
  - exact waltz_time_signatures.
  - exists df. split; [exact Hdf|]. apply (Hrows 0%nat). cbn. lia.
Defined.

(** The upbeat of the waltz lies half a note into its 3/4 cycle, the two
    full measures on the downbeat. *)
Example waltz_offsets :
  exists df,
    get_measures_df_from_music21_score MeasureSamples.fraction_of
      MeasureSamples.waltz = Ok df
    /\ col_timesig df = ["3/4"; "3/4"; "3/4"]
    /\ Forall2 Qeq (col_offset df) [1 # 2; 0; 0]%Q
    /\ Forall2 Qeq (col_act_dur df) [1 # 4; 3 # 4; 3 # 4]%Q.
Proof.
  eexists. split; [vm_compute; reflexivity|].
  split; [reflexivity|]. split; repeat constructor.
Qed.

(** ** Pieces from a parsed MusicXML score *)

Lemma sounding_label_spec {R} (row : CsvLabel R) :
  sounding_label row = true
  <-> (0 <= csv_on row)%Q /\ (csv_on row < csv_off row)%Q.
Proof.
  unfold sounding_label. now rewrite andb_true_iff, Qle_bool_iff, Qltb_lt.
Qed.

Lemma mask_closed_length {T K} (is_repeated : K -> T -> T -> bool) (kw : K)
    (inputs : list T) :
  length (mask_closed is_repeated kw inputs) = length inputs.
Proof.
  destruct inputs as [|x rest]; [reflexivity|].
  cbn. now rewrite mask_after_length.
Qed.

Section MusicXmlFacts.

Context {X R : Type}.
Variable Note_from_music21 : X -> MeasuresDf -> nat -> option (list X) -> Note.
Variable Chord_from_labels_csv_row : CsvLabel R -> MeasuresDf -> Chord.
Variable Key_from_labels_csv_row : CsvLabel R -> option Key -> Key.
Variable Key_is_repeated : bool -> Key -> Key -> bool.
Variable Fraction_of_string : string -> result Q.

Lemma fix_degrees_closed (labels_df : list (CsvLabel R)) :
  fold_left fix_degree ["1"; "2"; "3"; "4"; "5"] labels_df
  = (fun row => {| csv_on := csv_on row; csv_off := csv_off row;
                   csv_degree := repaired_degree (csv_degree row);
                   csv_rest := csv_rest row |}) <$> labels_df.
Proof.
  cbn [fold_left]. unfold fix_degree. rewrite <- !list_fmap_compose.
  apply list_fmap_ext. intros _ [on off degree rest] _.
  destruct (decide (degree = "1+")) as [->|H1]; [vm_compute; reflexivity|].
  destruct (decide (degree = "2+")) as [->|H2]; [vm_compute; reflexivity|].
  destruct (decide (degree = "3+")) as [->|H3]; [vm_compute; reflexivity|].
  destruct (decide (degree = "4+")) as [->|H4]; [vm_compute; reflexivity|].
  destruct (decide (degree = "5+")) as [->|H5]; [vm_compute; reflexivity|].
  unfold repaired_degree. cbn [compose csv_degree csv_on csv_off csv_rest].
  change ("1" +:+ "+") with "1+". change ("2" +:+ "+") with "2+".
  change ("3" +:+ "+") with "3+". change ("4" +:+ "+") with "4+".
  change ("5" +:+ "+") with "5+".
  rewrite (bool_decide_eq_false_2 _ H1). cbn [csv_degree].
  rewrite (bool_decide_eq_false_2 _ H2). cbn [csv_degree].
  rewrite (bool_decide_eq_false_2 _ H3). cbn [csv_degree].
  rewrite (bool_decide_eq_false_2 _ H4). cbn [csv_degree].
  rewrite (bool_decide_eq_false_2 _ H5). reflexivity.
Qed.

Lemma clean_labels_closed (labels_csv : list (CsvLabel R)) :
  clean_labels labels_csv
  = cleaned_row <$> filter (fun row => Is_true (sounding_label row)) labels_csv.
Proof.
  unfold clean_labels. rewrite fix_degrees_closed.
  induction labels_csv as [|row rows IH]; [reflexivity|].
  rewrite fmap_cons, !filter_cons.
  assert (Hiff : (Is_true (Qle_bool 0 (csv_on row / 4)
                           && Qltb 0 (csv_off row / 4))
                  /\ Is_true (Qltb (csv_on row / 4) (csv_off row / 4)))
                 <-> Is_true (sounding_label row)).
  { rewrite !Is_true_true, sounding_label_spec, andb_true_iff, Qle_bool_iff,
      !Qltb_lt. split; intros H.
    - assert (csv_on row == 4 * (csv_on row / 4))%Q by (field; lra).
      assert (csv_off row == 4 * (csv_off row / 4))%Q by (field; lra).
      lra.
    - assert (csv_on row / 4 == csv_on row * (1 # 4))%Q by (field; lra).
      assert (csv_off row / 4 == csv_off row * (1 # 4))%Q by (field; lra).
      lra. }
  cbn [csv_on csv_off].
  destruct (decide (Is_true (sounding_label row))) as [Hs|Hs].
  - apply Hiff in Hs as [H1 H2].
    rewrite (decide_True _ _ H1). rewrite filter_cons.
    cbn [csv_on csv_off]. rewrite (decide_True _ _ H2).
    rewrite !fmap_cons. f_equal. exact IH.
  - destruct (decide (Is_true (Qle_bool 0 (csv_on row / 4)
                               && Qltb 0 (csv_off row / 4)))) as [H1|H1];
      [|exact IH].
    rewrite filter_cons. cbn [csv_on csv_off].
    destruct (decide (Is_true (Qltb (csv_on row / 4) (csv_off row / 4))))
      as [H2|H2]; [|exact IH].
    exfalso. apply Hs, Hiff. auto.
Qed.

End MusicXmlFacts.

Section MusicXmlTheorems.

Context {X R : Type}.
Variable Note_from_music21 : X -> MeasuresDf -> nat -> option (list X) -> Note.
Variable Chord_from_labels_csv_row : CsvLabel R -> MeasuresDf -> Chord.
Variable Key_from_labels_csv_row : CsvLabel R -> option Key -> Key.
Variable Key_is_repeated : bool -> Key -> Key -> bool.
Variable Fraction_of_string : string -> result Q.

Local Abbreviation piece_of :=
  (get_score_piece_from_music_xml Note_from_music21 Chord_from_labels_csv_row
     Key_from_labels_csv_row Key_is_repeated Fraction_of_string).

(** What a successful construction has stored. *)
Lemma get_score_piece_from_music_xml_inv
    (measure_offset_map : list (Q * M21Measure))
    (flat_measures : list (list (M21Element X)))
    (labels_csv : list (CsvLabel R)) (nm : option string)
    (measures : MeasuresDf) :
  get_measures_df_from_music21_score Fraction_of_string measure_offset_map
  = Ok measures ->
  let rows :=
    cleaned_row <$> filter (fun row => Is_true (sounding_label row)) labels_csv in
  (rows = [] ->
   piece_of measure_offset_map flat_measures labels_csv nm = Raise IndexError)
  /\ (rows <> [] ->
      exists piece (mask : list bool),
        piece_of measure_offset_map flat_measures labels_csv nm = Ok piece
        /\ measures_df piece = measures
        /\ notes piece
           = get_notes_from_music_xml Note_from_music21 flat_measures measures
        /\ chords piece
           = (fun row => Chord_from_labels_csv_row row measures) <$> rows
        /\ chord_changes piece
           = Z.of_nat <$> chord_changes_from (notes piece) 0 (chords piece)
        /\ chord_ranges piece
           = (fun r : nat * nat => (Z.of_nat r.1, Z.of_nat r.2))
               <$> chord_ranges_of (notes piece) (chords piece)
                     (chord_changes_from (notes piece) 0 (chords piece))
        /\ length mask = length rows
        /\ mask !! 0%nat = Some true
        /\ length (keys piece) = length (filter Is_true mask)
        /\ key_changes piece = Z.of_nat <$> compress (seq 0 (length rows)) mask).
Proof.
  intros Hm rows. unfold get_score_piece_from_music_xml.
  rewrite Hm. cbn [mbind result_bind]. rewrite clean_labels_closed. fold rows.
  split.
  - intros ->. reflexivity.
  - intros Hne. destruct rows as [|row0 rows'] eqn:Erows; [contradiction|].
    change (getitem (row0 :: rows') 0) with (Ok (A := CsvLabel R) row0).
    cbn [mbind result_bind].
    set (keys_all := (fun row => Key_from_labels_csv_row row
                                   (Some (Key_from_labels_csv_row row0 None)))
                       <$> row0 :: rows').
    rewrite get_reduction_mask_closed. cbn [default from_option].
    set (mask := mask_closed Key_is_repeated true keys_all).
    assert (Hmask : length mask = length keys_all)
      by apply mask_closed_length.
    assert (Hkeys : length keys_all = length (row0 :: rows'))
      by apply length_fmap.
    unfold bool_index.
    rewrite (bool_decide_eq_true_2 _ (eq_sym Hmask)).
    cbn [mbind result_bind].
    rewrite (bool_decide_eq_true_2 (length (seq 0 (length keys_all)) = length mask))
      by (rewrite length_seq; lia).
    cbn [mbind result_bind].
    eexists _, mask. split; [reflexivity|].
    cbn [measures_df notes chords keys chord_changes chord_ranges key_changes].
    split; [reflexivity|]. split; [reflexivity|]. split; [reflexivity|].
    split; [reflexivity|]. split; [reflexivity|].
    split; [lia|]. split; [reflexivity|].
    split; [apply compress_length; lia|].
    rewrite Hkeys. reflexivity.
Qed.

(** X20. Only the labels that do not start before 0 and end after they
    start become chords, in order, each scaled from quarter to whole
    notes and with a degree ["1+"] to ["5+"] repaired to the digit
    (other degrees, ["6+"] and ["7+"] included, are handed on as they
    are); without such a label [labels_df.iloc[0]] raises
    [IndexError]. *)
Theorem X20_music_xml_chords_from_sounding_labels
    (measure_offset_map : list (Q * M21Measure))
    (flat_measures : list (list (M21Element X)))
    (labels_csv : list (CsvLabel R)) (nm : option string)
    (measures : MeasuresDf) :
  get_measures_df_from_music21_score Fraction_of_string measure_offset_map
  = Ok measures ->
  let sounding :=
    filter (fun row => Is_true (sounding_label row)) labels_csv in
  (forall row, row ∈ sounding <->
     row ∈ labels_csv /\ (0 <= csv_on row)%Q /\ (csv_on row < csv_off row)%Q)
  /\ (sounding = [] ->
      piece_of measure_offset_map flat_measures labels_csv nm = Raise IndexError)
  /\ (sounding <> [] ->
      exists piece,
        piece_of measure_offset_map flat_measures labels_csv nm = Ok piece
        /\ chords piece
           = (fun row => Chord_from_labels_csv_row (cleaned_row row) measures)
               <$> sounding)
  /\ (forall degree,
        repaired_degree degree = degree
        \/ degree ∈ ["1+"; "2+"; "3+"; "4+"; "5+"]
           /\ repaired_degree degree +:+ "+" = degree).
Proof.
  intros Hm sounding.
  destruct (get_score_piece_from_music_xml_inv measure_offset_map flat_measures
              labels_csv nm measures Hm) as [Hnone Hsome].
  split.
  { intros row. subst sounding. rewrite list_elem_of_filter, Is_true_true,
      sounding_label_spec. tauto. }
  split.
  { intros Hnil. apply Hnone. fold sounding. now rewrite Hnil. }
  split.
  2:{ intros degree.
      destruct (decide (degree = "1+")) as [->|H1];
        [right; split; [repeat constructor|reflexivity]|].
      destruct (decide (degree = "2+")) as [->|H2];
        [right; split; [repeat constructor|reflexivity]|].
      destruct (decide (degree = "3+")) as [->|H3];
        [right; split; [repeat constructor|reflexivity]|].
      destruct (decide (degree = "4+")) as [->|H4];
        [right; split; [repeat constructor|reflexivity]|].
      destruct (decide (degree = "5+")) as [->|H5];
        [right; split; [repeat constructor|reflexivity]|].
      left. unfold repaired_degree.
      now rewrite !bool_decide_eq_false_2 by assumption. }
  intros Hne. destruct Hsome as (piece & mask & Hp & _ & _ & Hc & _).
  { fold sounding. destruct sounding; [contradiction|discriminate]. }
  exists piece. split; [exact Hp|].
  rewrite Hc. fold sounding. now rewrite <- list_fmap_compose.
Qed.

(** X21. In a piece returned by [get_score_piece_from_music_xml] there
    is one [chord_changes] entry per chord, in non-decreasing order and
    within the notes when there are any; one [key_changes] entry per key,
    in strictly increasing order, each the index of a chord, the first
    one 0. *)
Theorem X21_music_xml_piece_arrays
    (measure_offset_map : list (Q * M21Measure))
    (flat_measures : list (list (M21Element X)))
    (labels_csv : list (CsvLabel R)) (nm : option string)
    (piece : ScorePiece MeasuresDf) :
  piece_of measure_offset_map flat_measures labels_csv nm = Ok piece ->
  length (chord_changes piece) = length (chords piece)
  /\ nondecreasing (chord_changes piece)
  /\ (notes piece <> [] ->
      all_within (chord_changes piece) (length (notes piece)))
  /\ length (key_changes piece) = length (keys piece)
  /\ strictly_increasing (key_changes piece)
  /\ all_within (key_changes piece) (length (chords piece))
  /\ key_changes piece !! 0%nat = Some 0.
Proof.
  intros Hp.
  destruct (get_measures_df_from_music21_score Fraction_of_string
              measure_offset_map) as [measures|e] eqn:Hm.
  2:{ unfold get_score_piece_from_music_xml in Hp. rewrite Hm in Hp.
      discriminate. }
  destruct (get_score_piece_from_music_xml_inv measure_offset_map flat_measures
              labels_csv nm measures Hm) as [Hnone Hsome].
  set (rows := cleaned_row
                 <$> filter (fun row => Is_true (sounding_label row)) labels_csv)
    in *.
  destruct (decide (rows = [])) as [Hnil|Hne].
  { rewrite (Hnone Hnil) in Hp. discriminate. }
  destruct (Hsome Hne)
    as (piece' & mask & Hp' & _ & _ & Hc & Hcc & _ & Hmask & Hm0 & Hk & Hkc).
  rewrite Hp in Hp'. injection Hp' as <-.
  assert (Hrows : length (chords piece) = length rows)
    by (rewrite Hc; apply length_fmap).
  split; [rewrite Hcc, length_fmap; apply chord_changes_from_length|].
  split.
  { rewrite Hcc. intros i j x y Hij Hx Hy. rewrite list_lookup_fmap in Hx, Hy.
    destruct (_ !! i) as [x'|] eqn:Ex; [|discriminate].
    destruct (_ !! j) as [y'|] eqn:Ey; [|discriminate].
    injection Hx as <-. injection Hy as <-.
    pose proof (chord_changes_from_mono _ _ _ _ _ _ _ Hij Ex Ey). lia. }
  split.
  { rewrite Hcc. intros Hnotes i x Hx. rewrite list_lookup_fmap in Hx.
    destruct (_ !! i) as [x'|] eqn:Ex; [|discriminate]. injection Hx as <-.
    apply chord_changes_from_bound in Ex; [lia|].
    destruct (notes piece); [contradiction|simpl; lia]. }
  split.
  { rewrite Hkc, length_fmap, Hk. apply compress_length.
    rewrite length_seq. lia. }
  split.
  { rewrite Hkc. intros i j x y Hij Hx Hy. rewrite list_lookup_fmap in Hx, Hy.
    destruct (_ !! i) as [x'|] eqn:Ex; [|discriminate].
    destruct (_ !! j) as [y'|] eqn:Ey; [|discriminate].
    injection Hx as <-. injection Hy as <-.
    pose proof (sorted_lookup lt _
                  (compress_sorted lt _ mask (seq_sorted (length rows) 0))
                  _ _ _ _ Hij Ex Ey). lia. }
  split.
  { rewrite Hkc. intros i x Hx. rewrite list_lookup_fmap in Hx.
    destruct (_ !! i) as [x'|] eqn:Ex; [|discriminate]. injection Hx as <-.
    apply list_elem_of_lookup_2, compress_elem_of, elem_of_seq in Ex. lia. }
  rewrite Hkc. destruct mask as [|b mask]; [discriminate Hm0|].
  injection Hm0 as ->. destruct rows as [|r rows']; [contradiction|].
  cbn [length seq]. rewrite compress_cons. reflexivity.
Qed.

End MusicXmlTheorems.

Lemma X20_music_xml_chords_from_sounding_labels_witness :
  exists measures piece,
    get_measures_df_from_music21_score MeasureSamples.fraction_of
      MeasureSamples.waltz = Ok measures
    /\ XmlSamples.piece = Ok piece
    /\ chords piece
       = (fun row => XmlSamples.chord_of (cleaned_row row) measures)
           <$> filter (fun row => Is_true (sounding_label row)) XmlSamples.labels.
Proof.
  assert (Hm : exists measures,
            get_measures_df_from_music21_score MeasureSamples.fraction_of
              MeasureSamples.waltz = Ok measures)
    by (eexists; vm_compute; reflexivity).
  destruct Hm as [measures Hm].
  destruct (X20_music_xml_chords_from_sounding_labels XmlSamples.note_of
              XmlSamples.chord_of XmlSamples.key_of PieceSamples.same_key
              MeasureSamples.fraction_of MeasureSamples.waltz
              XmlSamples.flat_measures XmlSamples.labels None measures Hm)
    as (_ & _ & Hsome & _).
  destruct Hsome as (piece & Hp & Hc); [vm_compute; discriminate|].
  exists measures, piece. split; [exact Hm|]. split; [exact Hp|exact Hc].
Defined.

Lemma X21_music_xml_piece_arrays_witness :
  exists piece,
    XmlSamples.piece = Ok piece
    /\ length (chord_changes piece) = length (chords piece)
    /\ nondecreasing (chord_changes piece)
    /\ strictly_increasing (key_changes piece)
    /\ key_changes piece !! 0%nat = Some 0.
Proof.
  assert (Hp : exists piece, XmlSamples.piece = Ok piece)
    by (eexists; vm_compute; reflexivity).
  destruct Hp as [piece Hp].
  destruct (X21_music_xml_piece_arrays XmlSamples.note_of
              XmlSamples.chord_of XmlSamples.key_of PieceSamples.same_key
              MeasureSamples.fraction_of MeasureSamples.waltz
              XmlSamples.flat_measures XmlSamples.labels None piece Hp)
    as (Hlen & Hmono & _ & _ & Hkeys & _ & Hfirst).
  exists piece. repeat split; assumption.
Defined.

(** The sample score: the label before the start and the one without
    duration are dropped, the stray "+" is repaired, and the two chords
    change at the first and at the second note. *)
Example music_xml_sample_piece :
  exists piece,
    XmlSamples.piece = Ok piece
    /\ length (notes piece) = 3%nat
    /\ root <$> chords piece = [16; 15]
    /\ chord_changes piece = [0; 1]
    /\ chord_ranges piece = [(0, 1); (1, 3)]
    /\ key_changes piece = [0].
Proof.
  eexists. split; [vm_compute; reflexivity|]. repeat split.
Qed.

(** ** Evaluating a results frame ([get_results_df], then [evaluate_features]) *)

Lemma Qsum_pos {X} (f : X -> Q) (l : list X) :
  l <> [] ->
  (forall x, x ∈ l -> (0 < f x)%Q) ->
  (0 < Qsum (f <$> l))%Q.
Proof.
  induction l as [|x l IH]; intros Hne H; [contradiction|].
  pose proof (H x ltac:(left)) as Hx.
  destruct l as [|y l].
  - cbn. unfold Qsum. cbn. lra.
  - assert (0 < Qsum (f <$> y :: l))%Q as Hl.
    { apply IH; [discriminate|]. intros z Hz. apply H. right. exact Hz. }
    change (f <$> x :: y :: l) with (f x :: (f <$> y :: l)).
    unfold Qsum in *. cbn [foldr]. lra.
Qed.

Lemma weighted_accuracy_bounds (features : list string) (rows : list Row) :
  (forall row, row ∈ rows -> (0 <= row_weight row)%Q) ->
  (0 < Qsum (row_weight <$> rows))%Q ->
  (0 <= weighted_accuracy features rows <= 1)%Q.
Proof.
  intros Hpos Hs. unfold weighted_accuracy. split.
  - apply Qle_shift_div_l; [exact Hs|]. rewrite Qmult_0_l.
    rewrite <- (Qsum_zeros rows). apply Qsum_le. intros row Hin.
    pose proof (Hpos row Hin). destruct (row_correct features row); lra.
  - apply Qle_shift_div_r; [exact Hs|]. rewrite Qmult_1_l.
    apply Qsum_le. intros row Hin.
    pose proof (Hpos row Hin). destruct (row_correct features row); lra.
Qed.

Section ResultsEvaluation.

Context {Measures : Type}.
Variable get_range_length : Position -> Position -> Measures -> Q.
Variable gt_chord_cells : PitchType -> Chord -> ChordCells.
Variable est_chord_cells : PitchType -> PitchType -> Z -> list Z -> ChordCells.
Variable gt_key_cells : PitchType -> Key -> KeyCells.
Variable est_key_cells : PitchType -> PitchType -> Z -> KeyCells.
Variable chord_label_list : PitchType -> list string.
Variable key_label_list : PitchType -> list string.

(** A row of the frame has both columns of each of its features. *)
Lemma make_row_features (crt ktt : PitchType)
    (t : Q * (ChordCells * (ChordCells * (KeyCells * KeyCells)))) (row : Row) :
  make_row chord_label_list key_label_list crt ktt t = Ok row ->
  forall feature, feature ∈ results_features ->
    is_Some (row !! ("gt_" +:+ feature))
    /\ is_Some (row !! ("est_" +:+ feature)).
Proof.
  destruct t as (duration & est_chord & gt_chord & est_key & gt_key).
  unfold make_row.
  destruct (getitem (key_label_list ktt) (kc_label gt_key)); [|discriminate].
  cbn [mbind result_bind].
  destruct (getitem (chord_label_list crt) (cc_label gt_chord)); [|discriminate].
  cbn [mbind result_bind].
  destruct (getitem (key_label_list ktt) (kc_label est_key)); [|discriminate].
  cbn [mbind result_bind].
  destruct (getitem (chord_label_list crt) (cc_label est_chord)); [|discriminate].
  cbn [mbind result_bind]. intros Hrow. apply Ok_inj in Hrow. subst row.
  intros feature Hin. unfold results_features in Hin.
  repeat (apply elem_of_cons in Hin as [->|Hin];
          [split; vm_compute; eexists; reflexivity|]).
  now apply elem_of_nil in Hin.
Qed.

(** The rows of a frame are complete for the features of the frame, and
    weigh what their note lasts. *)
Lemma get_results_df_rows (piece : ScorePiece Measures) (state : State)
    (output_root_type output_tonic_type chord_root_type key_tonic_type : PitchType)
    (rows : list Row) (duration_cache : list Q) (features : list string) :
  get_results_df get_range_length gt_chord_cells est_chord_cells
    gt_key_cells est_key_cells chord_label_list key_label_list
    piece state output_root_type output_tonic_type chord_root_type
    key_tonic_type = Ok rows ->
  get_duration_cache get_range_length piece = Ok duration_cache ->
  (forall feature, feature ∈ features -> feature ∈ results_features) ->
  forall row, row ∈ rows ->
    row_complete features row
    /\ row_weight row ∈ duration_cache
    /\ ~ (row_weight row == 0)%Q.
Proof.
  unfold get_results_df.
  destruct (gt_array (gt_chord_cells chord_root_type) _ _ _ _)
    as [gt_chords|]; [|discriminate].
  cbn [mbind result_bind].
  destruct (get_key_change_input_indices piece) as [gt_changes|];
    [|discriminate].
  cbn [mbind result_bind].
  destruct (gt_array (gt_key_cells key_tonic_type) _ _ _ _)
    as [gt_keys|]; [|discriminate].
  cbn [mbind result_bind].
  intros Hrows Hdc Hsub row Hrow. rewrite Hdc in Hrows.
  cbn [mbind result_bind] in Hrows.
  pose proof (mapM_Ok_Forall2 _ _ _ Hrows) as Hall.
  apply list_elem_of_lookup in Hrow as [j Hj].
  destruct (Forall2_lookup_r _ _ _ _ _ Hall Hj) as (t & Ht & Hmk).
  pose proof (make_row_duration _ _ _ _ _ _ Hmk) as Hd.
  assert (row_weight row = t.1) as Hw.
  { unfold row_weight. rewrite Hd. reflexivity. }
  apply list_elem_of_lookup_2, list_elem_of_filter in Ht as [Hnz Hin].
  split; [|split].
  - split; [exists (VFrac t.1), t.1; split; [exact Hd|reflexivity]|].
    intros feature Hf. eapply make_row_features; eauto.
  - rewrite Hw. destruct t as [q rest]. eapply elem_of_zip_l. exact Hin.
  - rewrite Hw. unfold has_duration in Hnz. intros Hq.
    apply Qeq_bool_iff in Hq. rewrite Hq in Hnz. exact Hnz.
Qed.

(** X22. A frame returned by [get_results_df] for a piece whose duration
    cache holds no negative entry can always be evaluated: for features
    among those of the frame and no filter, or a filter with one entry
    per row, [evaluate_features] returns, and what it returns lies
    between 0 and 1. *)
Theorem X22_results_df_can_be_evaluated
    (piece : ScorePiece Measures) (state : State)
    (output_root_type output_tonic_type chord_root_type key_tonic_type : PitchType)
    (rows : list Row) (duration_cache : list Q) (features : list string)
    (filter : option (list bool)) :
  get_results_df get_range_length gt_chord_cells est_chord_cells
    gt_key_cells est_key_cells chord_label_list key_label_list
    piece state output_root_type output_tonic_type chord_root_type
    key_tonic_type = Ok rows ->
  get_duration_cache get_range_length piece = Ok duration_cache ->
  (forall q, q ∈ duration_cache -> (0 <= q)%Q) ->
  (forall feature, feature ∈ features -> feature ∈ results_features) ->
  (forall mask, filter = Some mask -> length mask = length rows) ->
  exists v warnings,
    evaluate_features rows features filter = Ok (v, warnings)
    /\ (0 <= v <= 1)%Q.
Proof.
  intros Hrows Hdc Hpos Hsub Hlen.
  pose proof (get_results_df_rows _ _ _ _ _ _ _ _ _ Hrows Hdc Hsub) as Hall.
  assert (exists selected,
            match filter with
            | Some filter => bool_index rows filter
            | None => Ok rows
            end = Ok selected
            /\ forall row, row ∈ selected -> row ∈ rows)
    as (selected & Hsel & Hin).
  { destruct filter as [mask|].
    - exists (compress rows mask). split.
      + unfold bool_index. rewrite bool_decide_eq_true_2; [reflexivity|].
        symmetry. apply Hlen. reflexivity.
      + intros row. apply compress_elem_of.
    - exists rows. split; [reflexivity|auto]. }
  destruct selected as [|row0 selected].
  - exists 0%Q, [empty_filter_warning]. split; [|lra].
    unfold evaluate_features. rewrite Hsel. reflexivity.
  - set (sel := row0 :: selected) in *.
    assert (forall row, row ∈ sel -> (0 < row_weight row)%Q) as Hgt.
    { intros row Hrow. destruct (Hall row (Hin row Hrow)) as (_ & Hd & Hnz).
      pose proof (Hpos _ Hd) as Hge.
      destruct (Qlt_le_dec 0 (row_weight row)) as [Hlt|Hle]; [exact Hlt|].
      exfalso. apply Hnz. lra. }
    assert (0 < Qsum (row_weight <$> sel))%Q as Hs.
    { apply Qsum_pos; [discriminate|exact Hgt]. }
    exists (weighted_accuracy features sel), []. split.
    + apply evaluate_features_accuracy.
      * exact Hsel.
      * discriminate.
      * apply Forall_forall. intros row Hrow.
        apply (Hall row (Hin row Hrow)).
      * lra.
    + apply weighted_accuracy_bounds; [|exact Hs].
      intros row Hrow. apply Qlt_le_weak, Hgt, Hrow.
Qed.

End ResultsEvaluation.

Lemma X22_results_df_can_be_evaluated_witness :
  exists v warnings,
    evaluate_features ResultsSamples.rows ["chord"; "key"] None
    = Ok (v, warnings)
    /\ (0 <= v <= 1)%Q.
Proof.
  assert (Hrows : ResultsSamples.results = Ok ResultsSamples.rows)
    by (vm_cast_no_check (@eq_refl _ ResultsSamples.results)).
  apply (X22_results_df_can_be_evaluated ResultsSamples.range_length
           ResultsSamples.gt_chord ResultsSamples.est_chord
           ResultsSamples.gt_key ResultsSamples.est_key
           ResultsSamples.chord_labels ResultsSamples.key_labels
           ResultsSamples.grace_piece ResultsSamples.tonic_state
           TPC TPC TPC TPC ResultsSamples.rows [0; 1; 3]%Q ["chord"; "key"] None).
  - exact Hrows.
  - vm_compute. reflexivity.
  - intros q Hq. repeat (apply elem_of_cons in Hq as [->|Hq]; [vm_compute; discriminate|]).
    now apply elem_of_nil in Hq.
  - intros feature Hf. unfold results_features.
    repeat (apply elem_of_cons in Hf as [->|Hf]; [set_solver|]).
    now apply elem_of_nil in Hf.
  - discriminate.
Defined.

(** ** Labels of a piece *)

Lemma filter_sounding_fmap {A B} (g : Q * A -> Q * B) (l : list (Q * A)) :
  (forall t, (g t).1 = t.1) ->
  g <$> filter sounding l = filter sounding (g <$> l).
Proof.
  intros Hg. induction l as [|t l IH]; [reflexivity|].
  cbn [fmap list_fmap]. rewrite !filter_cons.
  assert (sounding (g t) <-> sounding t) as Hiff.
  { unfold sounding. now rewrite Hg. }
  destruct (decide (sounding t)) as [Ht|Ht];
    destruct (decide (sounding (g t))) as [Hgt|Hgt]; try tauto.
  cbn [fmap list_fmap]. f_equal. exact IH.
Qed.

Lemma zip_first_last {A B C D E} (dc : list Q) :
  forall (a : list A) (b : list B) (c : list C) (d : list D) (e : list E),
    length a = length dc -> length b = length dc -> length c = length dc ->
    length d = length dc -> length e = length dc ->
    (fun t : Q * (A * (B * (C * (D * E)))) => (t.1, t.2.2.2.2.2))
      <$> zip dc (zip a (zip b (zip c (zip d e))))
    = zip dc e.
Proof.
  induction dc as [|q dc IH]; intros [|xa a] [|xb b] [|xc c] [|xd d] [|xe e];
    intros Ha Hb Hc Hd He; try discriminate; [reflexivity|].
  cbn. f_equal. apply IH; cbn in *; lia.
Qed.

(** Where a tuple with a duration ends up after the ones without are
    dropped. *)
Lemma lookup_filter_sounding {A} (l : list (Q * A)) :
  forall k t, l !! k = Some t -> sounding t ->
    filter sounding l !! row_index (l.*1) k = Some t.
Proof.
  induction l as [|t0 l IH]; intros k t Hk Ht; [discriminate|].
  destruct k as [|k].
  - injection Hk as ->. rewrite filter_cons_True by exact Ht. reflexivity.
  - cbn [lookup list_lookup] in Hk. specialize (IH k t Hk Ht).
    unfold row_index in *. cbn [fmap list_fmap take].
    rewrite !filter_cons.
    change (Is_true (negb (Qeq_bool t0.1 0))) with (sounding t0).
    destruct (decide (sounding t0)); [exact IH|exact IH].
Qed.

(** A ground-truth array holds zeros and cells of its labels. *)
Lemma elem_of_gt_array {X A} (cells : X -> A) (zero : A) (n : nat)
    (labels : list X) (changes : list Z) (arr : list A) (x : A) :
  gt_array cells zero n labels changes = Ok arr ->
  x ∈ arr -> x = zero \/ exists label, label ∈ labels /\ x = cells label.
Proof.
  unfold gt_array.
  destruct (getitem labels (-1)) as [last_label|] eqn:Hlast; [|discriminate].
  cbn [mbind result_bind].
  destruct (getitem changes (-1)); [|discriminate].
  cbn [mbind result_bind]. intros [= <-] Hin.
  apply elem_of_assign_slice in Hin as [->|Hin].
  - right. exists last_label. split; [|reflexivity].
    apply getitem_last_Ok in Hlast as [Hlast _].
    eapply list_elem_of_lookup_2; eauto.
  - apply elem_of_broadcast in Hin as [Hin|Hin].
    + left. now apply elem_of_replicate in Hin as [-> _].
    + right. apply list_elem_of_fmap in Hin as ([c z] & -> & Hin).
      apply elem_of_zip_l, list_elem_of_fmap in Hin as (label & -> & Hin).
      exists label. auto.
Qed.

Lemma gt_array_returns {X A} (cells : X -> A) (zero : A) (n : nat)
    (labels : list X) (changes : list Z) :
  labels <> [] -> changes <> [] ->
  exists arr, gt_array cells zero n labels changes = Ok arr.
Proof.
  intros Hl Hc. unfold gt_array.
  destruct (getitem_last_of labels Hl) as (last_label & _ & ->).
  destruct (getitem_last_of changes Hc) as (last_change & _ & ->).
  cbn [mbind result_bind]. eexists. reflexivity.
Qed.

Section LabelsDfFacts.

Context {Measures : Type}.
Variable get_range_length : Position -> Position -> Measures -> Q.
Variable TPC_C : Z.
Variable suspension : Chord -> option string.
Variable Chord_get_one_hot_index : Chord -> Z.
Variable Key_get_one_hot_index : Key -> Z.
Variable get_added_and_removed_pitches :
  Z -> ChordType -> string -> Z -> KeyMode -> list (string * string).
Variable get_pitch_string : Z -> PitchType -> string.
Variable get_pitch_from_string : string -> PitchType -> Z.
Variable chord_labels_list : list (Z * ChordType * Z).
Variable key_labels_list : list (Z * KeyMode).
Variable int_of_str : string -> result Z.

Local Abbreviation strings_of :=
  (get_suspension_strings TPC_C suspension get_added_and_removed_pitches
     get_pitch_string get_pitch_from_string int_of_str).
Local Abbreviation segment_step :=
  (chord_segment_step TPC_C suspension Chord_get_one_hot_index
     get_added_and_removed_pitches get_pitch_string get_pitch_from_string
     int_of_str).
Local Abbreviation arrays_of :=
  (chord_label_arrays TPC_C suspension Chord_get_one_hot_index
     get_added_and_removed_pitches get_pitch_string get_pitch_from_string
     int_of_str).
Local Abbreviation row_of :=
  (labels_row TPC_C get_pitch_string get_pitch_from_string
     chord_labels_list key_labels_list).
Local Abbreviation labels_df :=
  (get_labels_df get_range_length TPC_C suspension Chord_get_one_hot_index
     Key_get_one_hot_index get_added_and_removed_pitches get_pitch_string
     get_pitch_from_string chord_labels_list key_labels_list int_of_str).

Lemma fold_segment_step_raise (tpc_c : Z) (segments : list (Chord * (Z * Z)))
    (e : exn) :
  fold_left (segment_step tpc_c) segments (Raise e) = Raise e.
Proof. induction segments as [|seg segments IH]; [reflexivity|exact IH]. Qed.

(** The loop over the chords leaves the arrays as long as they were. *)
Lemma fold_segment_step_length (tpc_c : Z) (segments : list (Chord * (Z * Z))) :
  forall labels midi tpc labels' midi' tpc',
    fold_left (segment_step tpc_c) segments (Ok (labels, (midi, tpc)))
    = Ok (labels', (midi', tpc')) ->
    length labels' = length labels
    /\ length midi' = length midi
    /\ length tpc' = length tpc.
Proof.
  induction segments as [|[chord [start end_]] segments IH];
    intros labels midi tpc labels' midi' tpc' H.
  - injection H as <- <- <-. auto.
  - cbn [fold_left] in H. unfold chord_segment_step at 2 in H.
    cbn [mbind result_bind] in H.
    destruct (strings_of tpc_c chord) as [[tpc_string midi_string]|e].
    + cbn [mbind result_bind] in H. apply IH in H.
      rewrite !length_assign_slice in H. exact H.
    + cbn [mbind result_bind] in H.
      rewrite fold_segment_step_raise in H. discriminate.
Qed.

Lemma chord_label_arrays_length (piece : ScorePiece Measures) (tpc_c : Z)
    (labels : list Z) (midi tpc : list string) :
  arrays_of piece tpc_c = Ok (labels, (midi, tpc)) ->
  length labels = length (notes piece)
  /\ length midi = length (notes piece)
  /\ length tpc = length (notes piece).
Proof.
  unfold chord_label_arrays.
  destruct (fold_left _ _ _) as [[labels0 [midi0 tpc0]]|] eqn:Hfold;
    [|discriminate].
  cbn [mbind result_bind].
  apply fold_segment_step_length in Hfold.
  rewrite !length_replicate in Hfold. destruct Hfold as (Hl & Hm & Ht).
  destruct (getitem (chords piece) (-1)) as [last_chord|]; [|discriminate].
  cbn [mbind result_bind].
  destruct (getitem (chord_changes piece) (-1)) as [last_change|];
    [|discriminate].
  cbn [mbind result_bind].
  destruct (strings_of tpc_c last_chord) as [[tpc_string midi_string]|];
    [|discriminate].
  cbn [mbind result_bind]. intros [= <- <- <-].
  rewrite !length_assign_slice. auto.
Qed.

(** The position and the duration of a row are those of its tuple. *)
Lemma labels_row_position (tpc_c : Z)
    (t : Q * (Z * (Z * (string * (string * Position))))) (row : LabelsRow) :
  row_of tpc_c t = Ok row ->
  (ldf_duration row, (ldf_mc row, ldf_mn_onset row)) = (t.1, t.2.2.2.2.2).
Proof.
  destruct t as (d & cl & kl & st & sm & [mc mn]). unfold labels_row.
  destruct (getitem chord_labels_list cl) as [[[root_tpc ctype] inv]|];
    [|discriminate].
  cbn [mbind result_bind].
  destruct (getitem key_labels_list kl) as [[tonic_tpc mode]|]; [|discriminate].
  cbn [mbind result_bind]. intros [= <-]. reflexivity.
Qed.

(** X23. A frame returned by [get_labels_df] has exactly one row for each
    note whose duration-cache entry is not zero, in the order of the
    notes, and the row carries that entry as its duration and the onset
    of the note as its [mc] and [mn_onset]. *)
Theorem X23_labels_df_one_row_per_sounding_note
    (piece : ScorePiece Measures) (tpc_c : Z) (rows : list LabelsRow) :
  labels_df piece tpc_c = Ok rows ->
  exists duration_cache,
    get_duration_cache get_range_length piece = Ok duration_cache
    /\ length duration_cache = length (notes piece)
    /\ (fun row => (ldf_duration row, (ldf_mc row, ldf_mn_onset row))) <$> rows
       = filter sounding (zip duration_cache (note_onset <$> notes piece)).
Proof.
  unfold get_labels_df.
  destruct (arrays_of piece tpc_c) as [[labels [midi tpc]]|] eqn:Harr;
    [|discriminate].
  cbn [mbind result_bind].
  destruct (get_key_change_input_indices piece) as [key_changes|];
    [|discriminate].
  cbn [mbind result_bind].
  destruct (gt_array Key_get_one_hot_index 0 _ _ _) as [key_labels|] eqn:Hkeys;
    [|discriminate].
  cbn [mbind result_bind].
  destruct (get_duration_cache get_range_length piece) as [dc|] eqn:Hdc;
    [|discriminate].
  cbn [mbind result_bind]. intros Hrows.
  pose proof (get_duration_cache_length _ _ _ Hdc) as Hlen.
  apply chord_label_arrays_length in Harr as (Hl & Hm & Ht).
  apply gt_array_length in Hkeys.
  exists dc. split; [reflexivity|]. split; [exact Hlen|].
  rewrite <- (zip_first_last dc labels key_labels tpc midi
                (note_onset <$> notes piece))
    by (rewrite ?length_fmap; congruence).
  rewrite <- filter_sounding_fmap by reflexivity.
  apply mapM_Ok_Forall2 in Hrows.
  induction Hrows as [|t row ts rows' Hrow _ IH]; [reflexivity|].
  cbn [fmap list_fmap]. rewrite IH.
  now rewrite (labels_row_position _ _ _ Hrow).
Qed.

Lemma zip_fmap_l {X Y W} (f : X -> Y) (l : list X) (k : list W) :
  zip (f <$> l) k = (fun seg : X * W => (f seg.1, seg.2)) <$> zip l k.
Proof.
  revert k. induction l as [|x l IH]; intros [|w k]; try reflexivity.
  cbn. f_equal. apply IH.
Qed.

Local Abbreviation or_empty :=
  (suspension_strings_or_empty TPC_C suspension get_added_and_removed_pitches
     get_pitch_string get_pitch_from_string int_of_str).

(** The loop over the chords broadcasts, for every chord, its one-hot
    index and its two strings, none of which raises. *)
Lemma fold_segment_step_broadcast (tpc_c : Z)
    (segments : list (Chord * (Z * Z))) :
  forall labels midi tpc labels' midi' tpc',
    fold_left (segment_step tpc_c) segments (Ok (labels, (midi, tpc)))
    = Ok (labels', (midi', tpc')) ->
    labels' = broadcast labels
                ((fun seg : Chord * (Z * Z) =>
                    (Chord_get_one_hot_index seg.1, seg.2)) <$> segments)
    /\ midi' = broadcast midi
                 ((fun seg : Chord * (Z * Z) =>
                     ((or_empty tpc_c seg.1).2, seg.2)) <$> segments)
    /\ tpc' = broadcast tpc
                ((fun seg : Chord * (Z * Z) =>
                    ((or_empty tpc_c seg.1).1, seg.2)) <$> segments)
    /\ Forall (fun seg : Chord * (Z * Z) =>
                 strings_of tpc_c seg.1 = Ok (or_empty tpc_c seg.1)) segments.
Proof.
  induction segments as [|[chord [start end_]] segments IH];
    intros labels midi tpc labels' midi' tpc' H.
  - injection H as <- <- <-. repeat split; constructor.
  - cbn [fold_left] in H. unfold chord_segment_step at 2 in H.
    cbn [mbind result_bind] in H.
    destruct (strings_of tpc_c chord) as [[tpc_string midi_string]|e] eqn:Hs.
    + cbn [mbind result_bind] in H. apply IH in H as (-> & -> & -> & Hall).
      assert (or_empty tpc_c chord = (tpc_string, midi_string)) as Hor.
      { unfold suspension_strings_or_empty. now rewrite Hs. }
      cbn [fmap list_fmap fst snd]. rewrite Hor. cbn [fst snd].
      repeat split; try reflexivity.
      constructor; [|exact Hall]. cbn [fst]. now rewrite Hor.
    + cbn [mbind result_bind] in H.
      rewrite fold_segment_step_raise in H. discriminate.
Qed.

(** The three chord arrays are ground-truth arrays, and the strings of
    every chord that is written were computed without an exception. *)
Lemma chord_label_arrays_gt (piece : ScorePiece Measures) (tpc_c : Z)
    (labels : list Z) (midi tpc : list string) :
  arrays_of piece tpc_c = Ok (labels, (midi, tpc)) ->
  let n := length (notes piece) in
  gt_array Chord_get_one_hot_index 0 n (chords piece) (chord_changes piece)
  = Ok labels
  /\ gt_array (fun chord => (or_empty tpc_c chord).2) "" n
       (chords piece) (chord_changes piece) = Ok midi
  /\ gt_array (fun chord => (or_empty tpc_c chord).1) "" n
       (chords piece) (chord_changes piece) = Ok tpc
  /\ Forall (fun seg : Chord * (Z * Z) =>
               strings_of tpc_c seg.1 = Ok (or_empty tpc_c seg.1))
       (zip (chords piece)
          (zip (chord_changes piece)
             (slice (chord_changes piece) (Some 1) None)))
  /\ exists last_chord,
       getitem (chords piece) (-1) = Ok last_chord
       /\ strings_of tpc_c last_chord = Ok (or_empty tpc_c last_chord).
Proof.
  intros Harr n. unfold chord_label_arrays in Harr. fold n in Harr.
  destruct (fold_left _ _ _) as [[labels0 [midi0 tpc0]]|] eqn:Hfold;
    [|discriminate].
  cbn [mbind result_bind] in Harr.
  apply fold_segment_step_broadcast in Hfold as (-> & -> & -> & Hall).
  unfold gt_array. rewrite !zip_fmap_l.
  destruct (getitem (chords piece) (-1)) as [last_chord|]; [|discriminate].
  cbn [mbind result_bind] in Harr |- *.
  destruct (getitem (chord_changes piece) (-1)) as [last_change|];
    [|discriminate].
  cbn [mbind result_bind] in Harr |- *.
  destruct (strings_of tpc_c last_chord) as [[tpc_string midi_string]|] eqn:Hs;
    [|discriminate].
  cbn [mbind result_bind] in Harr. injection Harr as <- <- <-.
  assert (or_empty tpc_c last_chord = (tpc_string, midi_string)) as Hor.
  { unfold suspension_strings_or_empty. now rewrite Hs. }
  rewrite Hor. cbn [fst snd].
  repeat split; try reflexivity; [exact Hall|].
  exists last_chord. split; [reflexivity|]. now rewrite Hor.
Qed.

(** The row of a note with a duration: it is built from the entries of
    the arrays at the note. *)
Lemma labels_df_row_lookup (piece : ScorePiece Measures) (tpc_c : Z)
    (rows : list LabelsRow) (duration_cache : list Q) :
  labels_df piece tpc_c = Ok rows ->
  get_duration_cache get_range_length piece = Ok duration_cache ->
  exists labels midi tpc gt_changes key_labels,
    arrays_of piece tpc_c = Ok (labels, (midi, tpc))
    /\ get_key_change_input_indices piece = Ok gt_changes
    /\ gt_array Key_get_one_hot_index 0 (length (notes piece)) (keys piece)
         gt_changes = Ok key_labels
    /\ forall (k : nat) d,
         duration_cache !! k = Some d -> ~ (d == 0)%Q ->
         exists row cl kl st sm note,
           labels !! k = Some cl /\ key_labels !! k = Some kl
           /\ tpc !! k = Some st /\ midi !! k = Some sm
           /\ notes piece !! k = Some note
           /\ rows !! row_index duration_cache k = Some row
           /\ row_of tpc_c (d, (cl, (kl, (st, (sm, note_onset note))))) = Ok row.
Proof.
  unfold get_labels_df. intros Hrows Hdc.
  destruct (arrays_of piece tpc_c) as [[labels [midi tpc]]|] eqn:Harr;
    [|discriminate].
  cbn [mbind result_bind] in Hrows.
  destruct (get_key_change_input_indices piece) as [gt_changes|];
    [|discriminate].
  cbn [mbind result_bind] in Hrows.
  destruct (gt_array Key_get_one_hot_index 0 _ _ _) as [key_labels|] eqn:Hkeys;
    [|discriminate].
  cbn [mbind result_bind] in Hrows. rewrite Hdc in Hrows.
  cbn [mbind result_bind] in Hrows.
  exists labels, midi, tpc, gt_changes, key_labels.
  split; [reflexivity|]. split; [reflexivity|]. split; [exact Hkeys|].
  intros k d Hd Hnz.
  pose proof (get_duration_cache_length _ _ _ Hdc) as Hlen.
  apply chord_label_arrays_length in Harr as (Hl & Hm & Ht).
  apply gt_array_length in Hkeys.
  pose proof (lookup_lt_Some _ _ _ Hd) as Hk.
  destruct (lookup_lt_is_Some_2 labels k ltac:(lia)) as [cl Hcl].
  destruct (lookup_lt_is_Some_2 key_labels k ltac:(lia)) as [kl Hkl].
  destruct (lookup_lt_is_Some_2 tpc k ltac:(lia)) as [st Hst].
  destruct (lookup_lt_is_Some_2 midi k ltac:(lia)) as [sm Hsm].
  destruct (lookup_lt_is_Some_2 (notes piece) k ltac:(lia)) as [note Hnote].
  set (t := (d, (cl, (kl, (st, (sm, note_onset note)))))).
  set (tuples := zip duration_cache _) in Hrows.
  assert (tuples !! k = Some t) as Htuple.
  { subst tuples t. rewrite !lookup_zip_with, list_lookup_fmap.
    rewrite Hd, Hcl, Hkl, Hst, Hsm, Hnote. reflexivity. }
  assert (tuples.*1 = duration_cache) as Hfst.
  { subst tuples. apply fst_zip. rewrite !length_zip, length_fmap. lia. }
  assert (sounding t) as Hsounding.
  { unfold sounding. subst t. cbn [fst].
    destruct (Qeq_bool d 0) eqn:E; [|exact I].
    apply Qeq_bool_iff in E. contradiction. }
  pose proof (lookup_filter_sounding tuples k t Htuple Hsounding) as Hfilter.
  rewrite Hfst in Hfilter.
  apply mapM_Ok_Forall2 in Hrows.
  destruct (Forall2_lookup_l _ _ _ _ _ Hrows Hfilter) as (row & Hrow & Hmk).
  exists row, cl, kl, st, sm, note. repeat split; assumption.
Qed.

(** With as many chords as change indices, the strings of every chord
    of the piece were computed. *)
Lemma chord_strings_computed (piece : ScorePiece Measures) (tpc_c : Z)
    (labels : list Z) (midi tpc : list string) :
  arrays_of piece tpc_c = Ok (labels, (midi, tpc)) ->
  length (chords piece) = length (chord_changes piece) ->
  forall i chord, chords piece !! i = Some chord ->
    strings_of tpc_c chord = Ok (or_empty tpc_c chord).
Proof.
  intros Harr Hlen i chord Hi.
  destruct (chord_label_arrays_gt _ _ _ _ _ Harr)
    as (_ & _ & _ & Hall & last_chord & Hlast & Hs).
  apply getitem_last_Ok in Hlast as [Hlast _].
  pose proof (lookup_lt_Some _ _ _ Hi) as Hlt.
  destruct (decide (i = pred (length (chords piece)))) as [->|Hne].
  - rewrite Hlast in Hi. injection Hi as <-. exact Hs.
  - rewrite slice_drop_1 in Hall.
    destruct (lookup_lt_is_Some_2 (chord_changes piece) i ltac:(lia)) as [s Hs'].
    destruct (lookup_lt_is_Some_2 (chord_changes piece) (S i) ltac:(lia))
      as [e He].
    rewrite Forall_lookup in Hall.
    apply (Hall i (chord, (s, e))).
    rewrite !lookup_zip_with, lookup_drop, Hi, Hs'.
    cbn [mbind option_bind]. change (1 + i)%nat with (S i). rewrite He.
    reflexivity.
Qed.

(** X24. In a frame returned by [get_labels_df] for a piece with as many
    chords as chord change indices, these non-decreasing and not
    negative, the row of a note with a duration (row [row_index], the
    number of such notes before it) describes the chord whose segment
    covers the note: root, type and inversion are the entry of
    [chord_labels_list] at the chord's one-hot index, the root shifted
    by [tpc_c - TPC_C], and the two suspension columns are the strings
    of that chord. *)
Theorem X24_labels_df_row_describes_covering_chord
    (piece : ScorePiece Measures) (tpc_c : Z) (rows : list LabelsRow)
    (duration_cache : list Q) :
  labels_df piece tpc_c = Ok rows ->
  get_duration_cache get_range_length piece = Ok duration_cache ->
  nondecreasing (chord_changes piece) ->
  (forall i x, chord_changes piece !! i = Some x -> 0 <= x) ->
  length (chords piece) = length (chord_changes piece) ->
  forall i chord (k : nat) d,
    chords piece !! i = Some chord ->
    covers (chord_changes piece) (Z.of_nat (length (notes piece))) i
      (Z.of_nat k) ->
    duration_cache !! k = Some d -> ~ (d == 0)%Q ->
    exists row note root_tpc ctype inv,
      rows !! row_index duration_cache k = Some row
      /\ notes piece !! k = Some note
      /\ (ldf_mc row, ldf_mn_onset row) = note_onset note
      /\ ldf_duration row = d
      /\ getitem chord_labels_list (Chord_get_one_hot_index chord)
         = Ok (root_tpc, ctype, inv)
      /\ ldf_chord_root_tpc row = root_tpc - TPC_C + tpc_c
      /\ ldf_chord_root_midi row
         = get_pitch_from_string (get_pitch_string root_tpc TPC) MIDI
      /\ ldf_chord_type row = ctype
      /\ ldf_chord_inversion row = inv
      /\ strings_of tpc_c chord
         = Ok (ldf_chord_suspension_tpc row, ldf_chord_suspension_midi row).
Proof.
  intros Hrows Hdc Hmono Hpos Hlen i chord k d Hi Hcov Hd Hnz.
  destruct (labels_df_row_lookup _ _ _ _ Hrows Hdc)
    as (labels & midi & tpc & gt_changes & key_labels & Harr & _ & _ & Hrow).
  destruct (Hrow k d Hd Hnz)
    as (row & cl & kl & st & sm & note & Hcl & Hkl & Hst & Hsm & Hnote
        & Hlookup & Hmk).
  pose proof (lookup_lt_Some _ _ _ Hnote) as Hk.
  pose proof (chord_strings_computed _ _ _ _ _ Harr Hlen i chord Hi) as Hstr.
  destruct (chord_label_arrays_gt _ _ _ _ _ Harr) as (Hgl & Hgm & Hgt & _).
  cbn zeta in Hgl, Hgm, Hgt.
  rewrite (gt_array_covers _ _ _ _ _ _ Hmono Hpos Hlen Hgl i chord k Hi Hcov Hk)
    in Hcl.
  rewrite (gt_array_covers _ _ _ _ _ _ Hmono Hpos Hlen Hgm i chord k Hi Hcov Hk)
    in Hsm.
  rewrite (gt_array_covers _ _ _ _ _ _ Hmono Hpos Hlen Hgt i chord k Hi Hcov Hk)
    in Hst.
  injection Hcl as <-. injection Hsm as <-. injection Hst as <-.
  unfold labels_row in Hmk.
  destruct (getitem chord_labels_list (Chord_get_one_hot_index chord))
    as [[[root_tpc ctype] inv]|]; [|discriminate].
  cbn [mbind result_bind] in Hmk.
  destruct (getitem key_labels_list kl) as [[tonic_tpc mode]|]; [|discriminate].
  cbn [mbind result_bind] in Hmk. injection Hmk as <-.
  eexists _, note, root_tpc, ctype, inv. cbn.
  split; [exact Hlookup|]. split; [exact Hnote|].
  split; [now destruct (note_onset note)|].
  repeat split; try reflexivity.
  rewrite Hstr. now destruct (or_empty tpc_c chord).
Qed.

(** X25. Under the same reading of the key change input indices (one
    per key, non-decreasing, not negative) the row of a note with a
    duration describes the key whose segment covers the note: tonic and
    mode are the entry of [key_labels_list] at the key's one-hot index,
    the tonic shifted by [tpc_c - TPC_C]. *)
Theorem X25_labels_df_row_describes_covering_key
    (piece : ScorePiece Measures) (tpc_c : Z) (rows : list LabelsRow)
    (duration_cache : list Q) (gt_changes : list Z) :
  labels_df piece tpc_c = Ok rows ->
  get_duration_cache get_range_length piece = Ok duration_cache ->
  get_key_change_input_indices piece = Ok gt_changes ->
  nondecreasing gt_changes ->
  (forall i x, gt_changes !! i = Some x -> 0 <= x) ->
  length (keys piece) = length gt_changes ->
  forall j key (k : nat) d,
    keys piece !! j = Some key ->
    covers gt_changes (Z.of_nat (length (notes piece))) j (Z.of_nat k) ->
    duration_cache !! k = Some d -> ~ (d == 0)%Q ->
    exists row tonic_tpc mode,
      rows !! row_index duration_cache k = Some row
      /\ getitem key_labels_list (Key_get_one_hot_index key)
         = Ok (tonic_tpc, mode)
      /\ ldf_key_tonic_tpc row = tonic_tpc - TPC_C + tpc_c
      /\ ldf_key_tonic_midi row
         = get_pitch_from_string (get_pitch_string tonic_tpc TPC) MIDI
      /\ ldf_key_mode row = mode.
Proof.
  intros Hrows Hdc Hch Hmono Hpos Hlen j key k d Hj Hcov Hd Hnz.
  destruct (labels_df_row_lookup _ _ _ _ Hrows Hdc)
    as (labels & midi & tpc & gt_changes' & key_labels & _ & Hch' & Hkeys
        & Hrow).
  rewrite Hch in Hch'. injection Hch' as <-.
  destruct (Hrow k d Hd Hnz)
    as (row & cl & kl & st & sm & note & _ & Hkl & _ & _ & Hnote
        & Hlookup & Hmk).
  pose proof (lookup_lt_Some _ _ _ Hnote) as Hk.
  rewrite (gt_array_covers _ _ _ _ _ _ Hmono Hpos Hlen Hkeys j key k Hj Hcov Hk)
    in Hkl.
  injection Hkl as <-.
  unfold labels_row in Hmk.
  destruct (getitem chord_labels_list cl) as [[[root_tpc ctype] inv]|];
    [|discriminate].
  cbn [mbind result_bind] in Hmk.
  destruct (getitem key_labels_list (Key_get_one_hot_index key))
    as [[tonic_tpc mode]|]; [|discriminate].
  cbn [mbind result_bind] in Hmk. injection Hmk as <-.
  eexists _, tonic_tpc, mode. cbn.
  split; [exact Hlookup|]. repeat split; reflexivity.
Qed.

(** The loop over the chords goes through when the strings of every
    chord can be computed. *)
Lemma fold_segment_step_returns (tpc_c : Z)
    (segments : list (Chord * (Z * Z))) :
  Forall (fun seg : Chord * (Z * Z) =>
            exists strings, strings_of tpc_c seg.1 = Ok strings) segments ->
  forall state, exists state',
    fold_left (segment_step tpc_c) segments (Ok state) = Ok state'.
Proof.
  induction 1 as [|[chord [start end_]] segments [[st sm] Hs] _ IH];
    intros [labels [midi tpc]]; [eexists; reflexivity|].
  cbn [fold_left]. unfold chord_segment_step at 2.
  cbn [mbind result_bind fst] in *. rewrite Hs. cbn [mbind result_bind].
  apply IH.
Qed.

Lemma strings_without_suspension (tpc_c : Z) (chord : Chord) :
  suspension chord = None -> strings_of tpc_c chord = Ok ("", "").
Proof. intros H. unfold get_suspension_strings. now rewrite H. Qed.

(** X26. For a piece with a chord, a chord change index, a key and a
    key change input index, none of whose chords has a suspension, and
    with an entry of [chord_labels_list] and of [key_labels_list] at the
    one-hot index of every chord and key and at index 0 (for notes that
    no segment covers), [get_labels_df] returns, and both suspension
    columns are the empty string in every row. *)
Theorem X26_labels_df_without_suspensions
    (piece : ScorePiece Measures) (tpc_c : Z) (gt_changes : list Z) :
  chords piece <> [] ->
  chord_changes piece <> [] ->
  keys piece <> [] ->
  get_key_change_input_indices piece = Ok gt_changes ->
  gt_changes <> [] ->
  (forall chord, chord ∈ chords piece -> suspension chord = None) ->
  (forall c,
     c = 0 \/ (exists chord, chord ∈ chords piece
                            /\ c = Chord_get_one_hot_index chord) ->
     exists entry, getitem chord_labels_list c = Ok entry) ->
  (forall c,
     c = 0 \/ (exists key, key ∈ keys piece /\ c = Key_get_one_hot_index key) ->
     exists entry, getitem key_labels_list c = Ok entry) ->
  exists rows,
    labels_df piece tpc_c = Ok rows
    /\ Forall (fun row => ldf_chord_suspension_tpc row = ""
                          /\ ldf_chord_suspension_midi row = "") rows.
Proof.
  intros Hchords Hchanges Hkeys Hgt Hgtne Hnone Hcl Hkl.
  assert (forall chord, chord ∈ chords piece ->
            strings_of tpc_c chord = Ok ("", "")) as Hstrings.
  { intros chord Hin. apply strings_without_suspension, Hnone, Hin. }
  destruct (getitem_last_of (chords piece) Hchords)
    as (last_chord & Hlast & Hgetlast).
  assert (last_chord ∈ chords piece) as Hlastin.
  { apply getitem_last_Ok in Hgetlast as [Hl _].
    eapply list_elem_of_lookup_2; eauto. }
  (* the chord arrays *)
  assert (exists arrays, arrays_of piece tpc_c = Ok arrays) as [arrays Harr].
  { unfold chord_label_arrays.
    destruct (fold_segment_step_returns tpc_c
                (zip (chords piece)
                   (zip (chord_changes piece)
                      (slice (chord_changes piece) (Some 1) None))))
      with (state := (replicate (length (notes piece)) 0,
                      (replicate (length (notes piece)) ""%string,
                       replicate (length (notes piece)) ""%string)))
      as [[labels0 [midi0 tpc0]] ->].
    { apply Forall_forall. intros [chord seg] Hin. apply elem_of_zip_l in Hin.
      exists (""%string, ""%string). apply Hstrings, Hin. }
    cbn [mbind result_bind]. rewrite Hgetlast. cbn [mbind result_bind].
    destruct (getitem_last_of (chord_changes piece) Hchanges)
      as (last_change & _ & ->).
    cbn [mbind result_bind]. rewrite (Hstrings last_chord Hlastin).
    cbn [mbind result_bind]. eexists. reflexivity. }
  destruct arrays as [labels [midi tpc]].
  destruct (chord_label_arrays_gt _ _ _ _ _ Harr) as (Hgl & Hgm & Hgtpc & _).
  cbn zeta in Hgl, Hgm, Hgtpc.
  (* the key array and the durations *)
  destruct (gt_array_returns Key_get_one_hot_index 0 (length (notes piece))
              (keys piece) gt_changes Hkeys Hgtne) as [key_labels Hgk].
  destruct (get_duration_cache get_range_length piece) as [dc|] eqn:Hdc.
  2:{ unfold get_duration_cache in Hdc. rewrite Hgetlast in Hdc. discriminate. }
  unfold get_labels_df. rewrite Harr. cbn [mbind result_bind].
  rewrite Hgt. cbn [mbind result_bind]. rewrite Hgk. cbn [mbind result_bind].
  rewrite Hdc. cbn [mbind result_bind].
  set (tuples := filter sounding _).
  assert (forall t, t ∈ tuples ->
            t.2.1 ∈ labels /\ t.2.2.1 ∈ key_labels
            /\ t.2.2.2.1 ∈ tpc /\ t.2.2.2.2.1 ∈ midi) as Htuples.
  { intros (d & cl & kl & st & sm & onset) Hin. subst tuples.
    apply list_elem_of_filter in Hin as [_ Hin]. cbn [fst snd].
    apply elem_of_zip_r in Hin. split; [eapply elem_of_zip_l; eauto|].
    apply elem_of_zip_r in Hin. split; [eapply elem_of_zip_l; eauto|].
    apply elem_of_zip_r in Hin. split; [eapply elem_of_zip_l; eauto|].
    apply elem_of_zip_r in Hin. eapply elem_of_zip_l; eauto. }
  destruct (mapM_Forall_Ok (row_of tpc_c) tuples) as [rows Hrows].
  { apply Forall_forall. intros t Hin.
    destruct (Htuples t Hin) as (Hl & Hk & _).
    destruct t as (d & cl & kl & st & sm & onset). cbn [fst snd] in Hl, Hk.
    destruct (Hcl cl) as [[[root_tpc ctype] inv] Hentry].
    { destruct (elem_of_gt_array _ _ _ _ _ _ _ Hgl Hl) as [->|(c & Hc & ->)];
        [now left|right; eauto]. }
    destruct (Hkl kl) as [[tonic_tpc mode] Hkentry].
    { destruct (elem_of_gt_array _ _ _ _ _ _ _ Hgk Hk) as [->|(c & Hc & ->)];
        [now left|right; eauto]. }
    unfold labels_row. rewrite Hentry. cbn [mbind result_bind].
    rewrite Hkentry. cbn [mbind result_bind]. eexists. reflexivity. }
  exists rows. split; [exact Hrows|].
  apply mapM_Ok_Forall2 in Hrows.
  apply Forall_forall. intros row Hrow.
  apply list_elem_of_lookup in Hrow as [j Hj].
  destruct (Forall2_lookup_r _ _ _ _ _ Hrows Hj) as (t & Ht & Hmk).
  apply list_elem_of_lookup_2 in Ht.
  destruct (Htuples t Ht) as (_ & _ & Htpc & Hmidi).
  destruct t as (d & cl & kl & st & sm & onset). cbn [fst snd] in Htpc, Hmidi.
  assert (forall chord, chord ∈ chords piece ->
            or_empty tpc_c chord = (""%string, ""%string)) as Hor.
  { intros chord Hin. unfold suspension_strings_or_empty.
    now rewrite (Hstrings chord Hin). }
  assert (st = ""%string) as ->.
  { destruct (elem_of_gt_array _ _ _ _ _ _ _ Hgtpc Htpc) as [->|(c & Hc & ->)];
      [reflexivity|]. now rewrite (Hor c Hc). }
  assert (sm = ""%string) as ->.
  { destruct (elem_of_gt_array _ _ _ _ _ _ _ Hgm Hmidi) as [->|(c & Hc & ->)];
      [reflexivity|]. now rewrite (Hor c Hc). }
  unfold labels_row in Hmk.
  destruct (getitem chord_labels_list cl) as [[[root_tpc ctype] inv]|];
    [|discriminate].
  cbn [mbind result_bind] in Hmk.
  destruct (getitem key_labels_list kl) as [[tonic_tpc mode]|]; [|discriminate].
  cbn [mbind result_bind] in Hmk. injection Hmk as <-. split; reflexivity.
Qed.

End LabelsDfFacts.

Lemma X23_labels_df_one_row_per_sounding_note_witness :
  exists rows duration_cache,
    LabelsSamples.labels = Ok rows
    /\ get_duration_cache ResultsSamples.range_length ResultsSamples.grace_piece
       = Ok duration_cache
    /\ length duration_cache = 3%nat
    /\ (fun row => (ldf_duration row, (ldf_mc row, ldf_mn_onset row))) <$> rows
       = filter sounding
           (zip duration_cache
              (note_onset <$> notes ResultsSamples.grace_piece)).
Proof.
  assert (Hrows : exists rows, LabelsSamples.labels = Ok rows)
    by (eexists; vm_compute; reflexivity).
  destruct Hrows as [rows Hrows].
  destruct (X23_labels_df_one_row_per_sounding_note
              ResultsSamples.range_length 15 LabelsSamples.suspension
              LabelsSamples.one_hot LabelsSamples.key_one_hot
              LabelsSamples.added_and_removed LabelsSamples.pitch_string
              LabelsSamples.pitch_from_string LabelsSamples.chord_labels_list
              LabelsSamples.key_labels_list LabelsSamples.int_of_str
              ResultsSamples.grace_piece 15 rows Hrows)
    as (dc & Hdc & Hlen & Heq).
  exists rows, dc. repeat split; assumption.
Defined.

Lemma X24_labels_df_row_describes_covering_chord_witness :
  exists rows row,
    LabelsSamples.labels = Ok rows
    /\ rows !! 1%nat = Some row
    /\ ldf_chord_root_tpc row = 16
    /\ ldf_chord_suspension_tpc row = ":+17;16:18"
    /\ ldf_chord_suspension_midi row = ":+2;7:9".
Proof.
  assert (Hrows : exists rows, LabelsSamples.labels = Ok rows)
    by (eexists; vm_compute; reflexivity).
  destruct Hrows as [rows Hrows].
  assert (Hmono : nondecreasing (chord_changes ResultsSamples.grace_piece)).
  { intros i j x y Hij Hx Hy.
    destruct i as [|[|i]]; destruct j as [|[|j]]; simpl in Hx, Hy;
      try discriminate; try lia.
    injection Hx as <-. injection Hy as <-. lia. }
  assert (Hpos : forall i x,
            chord_changes ResultsSamples.grace_piece !! i = Some x -> 0 <= x).
  { intros i x Hx. destruct i as [|[|i]]; simpl in Hx; try discriminate;
      injection Hx as <-; lia. }
  assert (Hcov : covers (chord_changes ResultsSamples.grace_piece)
                   (Z.of_nat (length (notes ResultsSamples.grace_piece)))
                   1 (Z.of_nat 2)).
  { exists 2. split; [reflexivity|]. simpl. lia. }
  assert (Hnz : ~ (3 == 0)%Q) by (intros H; vm_compute in H; discriminate).
  destruct (X24_labels_df_row_describes_covering_chord
              ResultsSamples.range_length 15 LabelsSamples.suspension
              LabelsSamples.one_hot LabelsSamples.key_one_hot
              LabelsSamples.added_and_removed LabelsSamples.pitch_string
              LabelsSamples.pitch_from_string LabelsSamples.chord_labels_list
              LabelsSamples.key_labels_list LabelsSamples.int_of_str
              ResultsSamples.grace_piece 15 rows [0; 1; 3]%Q Hrows
              eq_refl Hmono Hpos eq_refl
              1%nat (Samples.chord_at 16 CT_MAJOR 0 1 4) 2%nat 3%Q
              eq_refl Hcov eq_refl Hnz)
    as (row & note & root_tpc & ctype & inv & Hlookup & _ & _ & _ & Hentry
        & Hroot & _ & _ & _ & Hstrings).
  exists rows, row. split; [exact Hrows|]. split; [exact Hlookup|].
  vm_compute in Hentry. injection Hentry as <- <- <-.
  vm_compute in Hstrings. injection Hstrings as Htpc Hmidi.
  split; [exact Hroot|]. split; [exact (eq_sym Htpc)|exact (eq_sym Hmidi)].
Defined.

Lemma X25_labels_df_row_describes_covering_key_witness :
  exists rows row,
    LabelsSamples.labels = Ok rows
    /\ rows !! 1%nat = Some row
    /\ ldf_key_tonic_tpc row = 15
    /\ ldf_key_mode row = MAJOR.
Proof.
  assert (Hrows : exists rows, LabelsSamples.labels = Ok rows)
    by (eexists; vm_compute; reflexivity).
  destruct Hrows as [rows Hrows].
  assert (Hmono : nondecreasing [0]).
  { intros i j x y Hij Hx Hy. destruct j as [|j]; [lia|discriminate]. }
  assert (Hpos : forall i x, [0] !! i = Some x -> 0 <= x).
  { intros i x Hx. destruct i as [|i]; simpl in Hx; try discriminate.
    injection Hx as <-. lia. }
  assert (Hcov : covers [0]
                   (Z.of_nat (length (notes ResultsSamples.grace_piece)))
                   0 (Z.of_nat 2)).
  { exists 0. split; [reflexivity|]. simpl. lia. }
  assert (Hnz : ~ (3 == 0)%Q) by (intros H; vm_compute in H; discriminate).
  destruct (X25_labels_df_row_describes_covering_key
              ResultsSamples.range_length 15 LabelsSamples.suspension
              LabelsSamples.one_hot LabelsSamples.key_one_hot
              LabelsSamples.added_and_removed LabelsSamples.pitch_string
              LabelsSamples.pitch_from_string LabelsSamples.chord_labels_list
              LabelsSamples.key_labels_list LabelsSamples.int_of_str
              ResultsSamples.grace_piece 15 rows [0; 1; 3]%Q [0] Hrows
              eq_refl eq_refl Hmono Hpos eq_refl
              0%nat PieceSamples.c_major 2%nat 3%Q
              eq_refl Hcov eq_refl Hnz)
    as (row & tonic_tpc & mode & Hlookup & Hentry & Htonic & _ & Hmode).
  exists rows, row. split; [exact Hrows|]. split; [exact Hlookup|].
  vm_compute in Hentry. injection Hentry as <- <-.
  split; [exact Htonic|exact Hmode].
Defined.

Lemma X26_labels_df_without_suspensions_witness :
  exists rows,
    get_labels_df ResultsSamples.range_length 15 (fun _ => None)
      LabelsSamples.one_hot LabelsSamples.key_one_hot
      LabelsSamples.added_and_removed LabelsSamples.pitch_string
      LabelsSamples.pitch_from_string LabelsSamples.chord_labels_list
      LabelsSamples.key_labels_list LabelsSamples.int_of_str
      ResultsSamples.grace_piece 15 = Ok rows
    /\ Forall (fun row => ldf_chord_suspension_tpc row = ""
                          /\ ldf_chord_suspension_midi row = "") rows.
Proof.
  apply (X26_labels_df_without_suspensions
           ResultsSamples.range_length 15 (fun _ => None)
           LabelsSamples.one_hot LabelsSamples.key_one_hot
           LabelsSamples.added_and_removed LabelsSamples.pitch_string
           LabelsSamples.pitch_from_string LabelsSamples.chord_labels_list
           LabelsSamples.key_labels_list LabelsSamples.int_of_str
           ResultsSamples.grace_piece 15 [0]).
  - discriminate.
  - discriminate.
  - discriminate.
  - reflexivity.
  - discriminate.
  - reflexivity.
  - intros c [->|(chord & Hin & ->)]; [eexists; reflexivity|].
    simpl in Hin.
    apply elem_of_cons in Hin as [->|Hin]; [eexists; reflexivity|].
    apply elem_of_cons in Hin as [->|Hin]; [eexists; reflexivity|].
    now apply elem_of_nil in Hin.
  - intros c [->|(key & Hin & ->)]; eexists; reflexivity.
Defined.

(** ** Pieces without chords *)

Lemma getitem_raises {X} (l : list X) (i : Z) (e : exn) :
  getitem l i = Raise e -> e = IndexError.
Proof.
  unfold getitem. destruct (_ <? 0); [now intros [= <-]|].
  destruct (_ !! _); [discriminate|now intros [= <-]].
Qed.

Lemma mapM_raises {X Y} (f : X -> result Y) (l : list X) (e e0 : exn) :
  (forall x e', f x = Raise e' -> e' = e0) ->
  mapM f l = Raise e -> e = e0.
Proof.
  intros Hf. induction l as [|x l IH]; [discriminate|].
  cbn [mapM]. destruct (f x) as [y|e'] eqn:Hx; cbn [mbind result_bind].
  - destruct (mapM f l) as [ys|e'']; cbn [mbind result_bind];
      [discriminate|]. intros [= <-]. now apply IH.
  - intros [= <-]. eapply Hf; eauto.
Qed.

Lemma gt_array_raises {X A} (cells : X -> A) (zero : A) (n : nat)
    (labels : list X) (changes : list Z) (e : exn) :
  gt_array cells zero n labels changes = Raise e -> e = IndexError.
Proof.
  unfold gt_array.
  destruct (getitem labels (-1)) eqn:Hl; cbn [mbind result_bind].
  - destruct (getitem changes (-1)) eqn:Hc; cbn [mbind result_bind];
      [discriminate|]. intros [= <-]. eapply getitem_raises; eauto.
  - intros [= <-]. eapply getitem_raises; eauto.
Qed.

Section ChordlessPieces.

Context {Measures : Type}.
Variable get_range_length : Position -> Position -> Measures -> Q.
Variable gt_chord_one_hot :
  PitchType -> bool -> (ChordType -> ChordType) -> Chord -> Z.
Variable gt_chord_pitch_set : PitchType -> Chord -> gset Z.
Variable gt_key_one_hot : PitchType -> Key -> Z.
Variable chord_label_list :
  PitchType -> bool -> (ChordType -> ChordType) -> list string.
Variable chord_list :
  PitchType -> bool -> (ChordType -> ChordType) -> list (Z * ChordType * Z).
Variable key_label_list : PitchType -> list string.
Variable key_list : PitchType -> list (Z * KeyMode).
Variable TRIAD_REDUCTION : ChordType -> ChordType.

(** X27. [get_results_annotation_df] skips the ground-truth chords of a
    piece that has none, but it cannot annotate such a piece: whatever
    the state, the keys and the notes, the call raises [IndexError],
    at the latest when the duration cache asks for the last chord. *)
Theorem X27_results_annotation_df_needs_a_chord
    (state : State) (piece : ScorePiece Measures)
    (root_type tonic_type : PitchType) (use_inversions : bool)
    (reduction : ChordType -> ChordType) (use_chord_pitches : bool) :
  chords piece = [] ->
  get_results_annotation_df get_range_length gt_chord_one_hot
    gt_chord_pitch_set gt_key_one_hot chord_label_list chord_list
    key_label_list key_list TRIAD_REDUCTION state piece root_type tonic_type
    use_inversions reduction use_chord_pitches
  = Raise IndexError.
Proof.
  intros Hchords. unfold get_results_annotation_df. rewrite Hchords.
  cbn [length]. change (0 <? 0)%nat with false.
  cbn [andb mbind result_bind].
  assert (get_duration_cache get_range_length piece = Raise IndexError) as Hdc.
  { unfold get_duration_cache. rewrite Hchords. reflexivity. }
  rewrite Hdc.
  destruct (0 <? length (keys piece))%nat; cbn [mbind result_bind];
    [|reflexivity].
  destruct (get_key_change_input_indices piece) as [gt_changes|e] eqn:Hch;
    cbn [mbind result_bind].
  - destruct (gt_array _ _ _ _ _) as [gt_key_labels|e] eqn:Hk;
      cbn [mbind result_bind]; [reflexivity|].
    f_equal. eapply gt_array_raises; eauto.
  - f_equal. unfold get_key_change_input_indices in Hch.
    eapply mapM_raises; [|exact Hch].
    intros x e'. apply getitem_raises.
Qed.

End ChordlessPieces.

Lemma X27_results_annotation_df_needs_a_chord_witness :
  get_results_annotation_df ResultsSamples.range_length
    AnnotationSamples.gt_chord_index AnnotationSamples.gt_pitch_set
    AnnotationSamples.gt_key_index AnnotationSamples.chord_labels
    AnnotationSamples.chord_table (fun _ => ["C:MAJOR"])
    AnnotationSamples.key_table id ResultsSamples.tonic_state
    ChordlessSamples.chordless_piece TPC TPC true id false
  = Raise IndexError.
Proof.
  apply (X27_results_annotation_df_needs_a_chord ResultsSamples.range_length
           AnnotationSamples.gt_chord_index AnnotationSamples.gt_pitch_set
           AnnotationSamples.gt_key_index AnnotationSamples.chord_labels
           AnnotationSamples.chord_table (fun _ => ["C:MAJOR"])
           AnnotationSamples.key_table id ResultsSamples.tonic_state
           ChordlessSamples.chordless_piece TPC TPC true id false).
  reflexivity.
Defined.
